(** * fclib arrays: a shallow embedding of [arr.h] and its properties

    The array engine of fclib stores an N-dimensional array in one heap
    block, an [fclib_str_t]: the [len] field holds the dimensionality, the
    first [8 * len] bytes of the flexible member [value] hold the axis
    lengths, and the rest of [value] is the payload.

    The embedding follows the C text function by function.  Target assumed:
    LP64, little endian ([size_t] is 64 bits wide and 8 bytes long).
    - a [size_t] is a [Z], with the wrap-around of unsigned arithmetic
      written out ([wadd], [wsub], [wmul]);
    - a block is a record with the [len] field and the bytes of [value];
      the length of that list is the room [malloc] gave to the member;
    - code that works on [fclib_arr_t *arr] runs in a state and error monad
      [M] over that block; the outcome of a call is a result ([Ok]), the end
      of the process ([Abort]: [abort()] or a failed [assert], assertions
      being compiled in) or an access outside of an object ([Fault]:
      behaviour the C standard leaves undefined);
    - pointer arithmetic is not reduced modulo [2^64]: an offset that leaves
      the object is caught by the bounds test of the access;
    - [malloc] gives the room it is asked for (no call returns [NULL]), and
      the bytes of that room are the indeterminate ones of [uninit].

    The strings of [str.h] are blocks of the same type, and the two path
    conversions of [system.h] work on them; they are embedded the same way.
    [fclib_arr_fill_deep] and [fclib_arr_free] follow pointers from block to
    block and run on a heap of numbered blocks. *)

From Stdlib Require Import ZArith Lia List Bool.
From Stdlib.Strings Require Import Byte.
From stdpp Require Import base list.
From Equations Require Import Equations.

Local Open Scope Z_scope.

(** ** [size_t] arithmetic *)

Definition size_modulus : Z := 2 ^ 64.
Definition sizeof_size_t : Z := 8.

Definition wrap (z : Z) : Z := z mod size_modulus.
Definition wadd (a b : Z) : Z := wrap (a + b).
Definition wsub (a b : Z) : Z := wrap (a - b).
Definition wmul (a b : Z) : Z := wrap (a * b).

Definition is_size_t (z : Z) : Prop := 0 <= z < size_modulus.

(** ** Bytes and the representation of a [size_t] in memory *)

Definition byte_of_Z (z : Z) : byte :=
  match Byte.of_N (Z.to_N (z mod 256)) with
  | Some b => b
  | None => x00
  end.

Definition Z_of_byte (b : byte) : Z := Z.of_N (Byte.to_N b).

Fixpoint le_encode (n : nat) (z : Z) : list byte :=
  match n with
  | O => []
  | S n' => byte_of_Z z :: le_encode n' (z / 256)
  end.

Fixpoint le_decode (bs : list byte) : Z :=
  match bs with
  | [] => 0
  | b :: bs' => Z_of_byte b + 256 * le_decode bs'
  end.

(** The bytes of a [size_t] object and of an array of them. *)
Definition size_t_bytes (z : Z) : list byte := le_encode 8 z.
Definition words_bytes (ws : list Z) : list byte := concat (map size_t_bytes ws).

(** ** Outcomes *)

Inductive res (A : Type) : Type :=
| Ok (a : A)
| Abort
| Fault.
Arguments Ok {A} a.
Arguments Abort {A}.
Arguments Fault {A}.

(** ** Objects: reading and writing a run of bytes *)

Definition in_bounds (m : list byte) (off n : Z) : bool :=
  (0 <=? off) && (0 <=? n) && (off + n <=? Z.of_nat (length m)).

Definition mem_load (m : list byte) (off n : Z) : option (list byte) :=
  if in_bounds m off n
  then Some (take (Z.to_nat n) (drop (Z.to_nat off) m))
  else None.

Definition mem_store (m : list byte) (off : Z) (bs : list byte) : option (list byte) :=
  if in_bounds m off (Z.of_nat (length bs))
  then Some (take (Z.to_nat off) m ++ bs ++ drop (Z.to_nat off + length bs) m)
  else None.

(** ** The block *)

Record fclib_str_t : Type := mk_str { len : Z; value : list byte }.

(** A [char *] into [value]: null, or the offset from [arr->value]. *)
Inductive ptr : Type :=
| NULL
| Ptr (off : Z).

(** ** The monad of code that works on one block *)

Definition M (A : Type) : Type := fclib_str_t -> res (A * fclib_str_t).

Definition ret {A} (x : A) : M A := fun s => Ok (x, s).

Definition bind {A B} (c : M A) (k : A -> M B) : M B :=
  fun s =>
    match c s with
    | Ok (x, s') => k x s'
    | Abort => Abort
    | Fault => Fault
    end.

Declare Scope fclib_scope.
Delimit Scope fclib_scope with fclib.
Notation "x <- c ;; k" := (bind c (fun x => k))
  (at level 100, c at next level, k at level 200, right associativity) : fclib_scope.
Notation "c ;; k" := (bind c (fun _ => k))
  (at level 100, k at level 200, right associativity) : fclib_scope.
Local Open Scope fclib_scope.

Definition fault {A} : M A := fun _ => Fault.
Definition abort {A} : M A := fun _ => Abort.

(** [assert(b)] *)
Definition assert (b : bool) : M unit := if b then ret tt else abort.

Definition lift_opt {A} (o : option A) : M A :=
  match o with
  | Some x => ret x
  | None => fault
  end.

Definition lift_res {A} (r : res A) : M A :=
  fun s =>
    match r with
    | Ok x => Ok (x, s)
    | Abort => Abort
    | Fault => Fault
    end.

(** [arr->len] *)
Definition get_len : M Z := fun s => Ok (len s, s).
Definition set_len (n : Z) : M unit := fun s => Ok (tt, mk_str n (value s)).

(** Bytes of [arr->value], at an offset. *)
Definition load (off n : Z) : M (list byte) :=
  fun s => lift_opt (mem_load (value s) off n) s.

Definition store (off : Z) (bs : list byte) : M unit :=
  fun s =>
    match mem_store (value s) off bs with
    | Some v => Ok (tt, mk_str (len s) v)
    | None => Fault
    end.

(** [FCLIB_ALIGNCAST(size_t, arr->value)[i]] *)
Definition dim_length (i : Z) : M Z :=
  bs <- load (sizeof_size_t * i) sizeof_size_t ;; ret (le_decode bs).

(** [memcpy(arr->value + dst, arr->value + src, n)] *)
Definition memcpy_within (dst src n : Z) : M unit :=
  bs <- load src n ;; store dst bs.

(** [memcpy(arr->value + dst, obj, n)], [obj] an object of the caller. *)
Definition memcpy_from (dst : Z) (obj : list byte) (n : Z) : M unit :=
  bs <- lift_opt (mem_load obj 0 n) ;; store dst bs.

(** [a[i]] for an array of [size_t] of the caller. *)
Definition index (a : list Z) (i : Z) : option Z :=
  if 0 <=? i then a !! Z.to_nat i else None.

Definition run {A} (c : M A) (s : fclib_str_t) : res (A * fclib_str_t) := c s.

(** The block after [c], when [c] returns. *)
Definition exec {A} (c : M A) (s : fclib_str_t) : res fclib_str_t :=
  match c s with
  | Ok (_, s') => Ok s'
  | Abort => Abort
  | Fault => Fault
  end.

(** ** Loops *)

(** [for (i = start; n iterations; i++) acc = body(i, acc)] *)
Fixpoint for_loop {St} (n : nat) (i : Z) (body : Z -> St -> M St) (acc : St)
  : M St :=
  match n with
  | O => ret acc
  | S n' => acc' <- body i acc ;; for_loop n' (i + 1) body acc'
  end.

(** [total_elements = 1; for (i = 0; i < dimensionality; i++)
    total_elements *= dim_lengths[i];] *)
Definition count_elements (dimensionality : Z) : M Z :=
  for_loop (Z.to_nat dimensionality) 0
    (fun i total => d <- dim_length i ;; ret (wmul total d)) 1.

(** [for (i = 1; i < total_elements; i++)
      memcpy(data_start + i * element_size,
             data_start + (i - 1) * element_size, element_size);] *)
Definition fill_sequential (data_start element_size total_elements : Z) : M unit :=
  for_loop (Z.to_nat (total_elements - 1)) 1
    (fun i _ =>
       memcpy_within (data_start + wmul i element_size)
                     (data_start + wmul (i - 1) element_size) element_size)
    tt.

(** [while (filled < total_elements) { to_copy = ...; memcpy(...);
    filled += to_copy; }].  [filled] starts at 1 and stays positive, which is
    what makes the loop end; neither [total_elements - filled] nor
    [filled + to_copy] wraps under the loop test. *)
Equations? fill_exponential (data_start element_size total_elements : Z)
    (filled : Z) (Hpos : 0 < filled) (s : fclib_str_t) : res (unit * fclib_str_t)
    by wf (Z.to_nat (total_elements - filled)) lt :=
  fill_exponential data_start element_size total_elements filled Hpos s
    with Z_lt_dec filled total_elements := {
    | right _ => Ok (tt, s)
    | left Hlt =>
        let to_copy :=
          if filled <=? total_elements - filled
          then filled else total_elements - filled in
        match memcpy_within (data_start + wmul filled element_size) data_start
                            (wmul to_copy element_size) s with
        | Ok (_, s') =>
            fill_exponential data_start element_size total_elements
                             (filled + to_copy) _ s'
        | Abort => Abort
        | Fault => Fault
        end }.
Proof.
  - destruct (filled <=? total_elements - filled); lia.
  - destruct (Z.leb_spec filled (total_elements - filled)); lia.
Qed.

Definition seq_start : 0 < 1 := eq_refl.

(** Use the exponential approach for small elements, the sequential one for
    large elements; [fclib_arr_fill_inline] and [fclib_arr_fill_val] hold the
    same text. *)
Definition fill_hybrid (data_start element_size total_elements : Z) : M unit :=
  if element_size <? 128
  then fill_exponential data_start element_size total_elements 1 seq_start
  else fill_sequential data_start element_size total_elements.

Section Engine.

(** What storage holds before it is written: the bytes [malloc] hands out
    and the bytes of a local variable without initialiser. *)
Variable uninit : nat -> byte.

Definition indeterminate (n : Z) : list byte := map uninit (seq 0 (Z.to_nat n)).

(** [sizeof(fclib_str_t)]: the flexible member adds nothing. *)
Definition sizeof_str : Z := 8.

(** [malloc(n)] seen as an [fclib_str_t *]; a block without room for the
    [len] field faults at the first write to it. *)
Definition malloc_str (n : Z) : res fclib_str_t :=
  if n <? sizeof_str then Fault
  else
    let raw := indeterminate n in
    Ok (mk_str (le_decode (take 8 raw)) (drop 8 raw)).

(** [for (i = 0; i < dimensionality; i++) arr_len *= lengths[i];] *)
Fixpoint arr_len_loop (n : nat) (i : Z) (lengths : list Z) (arr_len : Z) : option Z :=
  match n with
  | O => Some arr_len
  | S n' =>
      match index lengths i with
      | Some l => arr_len_loop n' (i + 1) lengths (wmul arr_len l)
      | None => None
      end
  end.

Definition fclib_arr_create (dimensionality element_size : Z) (lengths : list Z)
  : res fclib_str_t :=
  match arr_len_loop (Z.to_nat dimensionality) 0 lengths 1 with
  | None => Fault
  | Some arr_len =>
      let total_size := wadd sizeof_str (wmul dimensionality sizeof_size_t) in
      match malloc_str (wadd total_size (wmul arr_len element_size)) with
      | Ok arr =>
          exec (set_len dimensionality ;;
                memcpy_from 0 (words_bytes lengths)
                            (wmul dimensionality sizeof_size_t)) arr
      | Abort => Abort
      | Fault => Fault
      end
  end.

Definition fclib_arr_fill_seq (element_size : Z) (value : list byte) : M unit :=
  dimensionality <- get_len ;;
  total_elements <- count_elements dimensionality ;;
  let data_start := sizeof_size_t * dimensionality in
  memcpy_from data_start value element_size ;;
  fill_sequential data_start element_size total_elements.

Definition fclib_arr_fill_exp (element_size : Z) (value : list byte) : M unit :=
  dimensionality <- get_len ;;
  total_elements <- count_elements dimensionality ;;
  let data_start := sizeof_size_t * dimensionality in
  memcpy_from data_start value element_size ;;
  fill_exponential data_start element_size total_elements 1 seq_start.

Definition fclib_arr_fill_inline (element_size : Z) (value : list byte) : M unit :=
  dimensionality <- get_len ;;
  total_elements <- count_elements dimensionality ;;
  let data_start := sizeof_size_t * dimensionality in
  memcpy_from data_start value element_size ;;
  fill_hybrid data_start element_size total_elements.

(** The seed is the parameter [value] itself, an object of 8 bytes. *)
Definition fclib_arr_fill_val (element_size : Z) (value : Z) : M unit :=
  dimensionality <- get_len ;;
  total_elements <- count_elements dimensionality ;;
  let data_start := sizeof_size_t * dimensionality in
  memcpy_from data_start (size_t_bytes value) element_size ;;
  fill_hybrid data_start element_size total_elements.

(** The loop of [fclib_arr_access]; [None] is its [return NULL]. *)
Fixpoint access_loop (n : nat) (i : Z) (indices : list Z) (offset stride : Z)
  : M (option Z) :=
  match n with
  | O => ret (Some offset)
  | S n' =>
      index_i <- lift_opt (index indices i) ;;
      d <- dim_length i ;;
      if d <=? index_i then ret None
      else access_loop n' (i + 1) indices
                       (wadd offset (wmul index_i stride)) (wmul stride d)
  end.

Definition fclib_arr_access (element_size : Z) (indices : list Z) : M ptr :=
  dimensionality <- get_len ;;
  r <- access_loop (Z.to_nat dimensionality) 0 indices 0 1 ;;
  match r with
  | None => ret NULL
  | Some offset =>
      ret (Ptr (sizeof_size_t * dimensionality + wmul offset element_size))
  end.

(** [size_t value; memcpy(&value, element, element_size); return value;] *)
Definition fclib_arr_access_val (element_size : Z) (indices : list Z) : M Z :=
  element <- fclib_arr_access element_size indices ;;
  match element with
  | NULL => fault
  | Ptr off =>
      bs <- load off element_size ;;
      v <- lift_opt (mem_store (indeterminate sizeof_size_t) 0 bs) ;;
      ret (le_decode v)
  end.

Definition fclib_arr_assign_at (element_size : Z) (indices : list Z)
    (value : list byte) : M unit :=
  element <- fclib_arr_access element_size indices ;;
  match element with
  | NULL => fault
  | Ptr off => memcpy_from off value element_size
  end.

Definition fclib_arr_assign_val_at (element_size : Z) (indices : list Z)
    (value : Z) : M unit :=
  element <- fclib_arr_access element_size indices ;;
  match element with
  | NULL => fault
  | Ptr off => memcpy_from off (size_t_bytes value) element_size
  end.

Definition fclib_arr_get_slice_1d (element_size from to : Z) : M fclib_str_t :=
  src_len <- dim_length 0 ;;
  let real_to := if to =? 0 then src_len else to in
  let real_to := if real_to >? src_len then src_len else real_to in
  if from =? real_to then abort
  else
    real_from <- (if from >? real_to
                  then if real_to =? 0 then abort else ret (wsub real_to 1)
                  else ret from) ;;
    let len := wsub real_to real_from in
    slice <- lift_res (fclib_arr_create 1 element_size [len]) ;;
    bs <- load (sizeof_size_t * 1 + wmul real_from element_size)
               (wmul len element_size) ;;
    slice' <- lift_res (exec (store (sizeof_size_t * 1) bs) slice) ;;
    ret slice'.

(** The first loop of [fclib_arr_get_slice]: validate the ranges and count
    the new dimensionality; [None] is its [return NULL]. *)
Fixpoint validate_ranges (n : nat) (i : Z) (ranges : list Z)
    (new_dimensionality : Z) : M (option Z) :=
  match n with
  | O => ret (Some new_dimensionality)
  | S n' =>
      from <- lift_opt (index ranges (i * 2)) ;;
      to <- lift_opt (index ranges (i * 2 + 1)) ;;
      d <- dim_length i ;;
      if negb (from =? to) then
        if to >? d then ret None
        else if wsub to from <? 2 then ret None
        else validate_ranges n' (i + 1) ranges (new_dimensionality + 1)
      else
        if from >=? d then ret None
        else validate_ranges n' (i + 1) ranges new_dimensionality
  end.

(** The second loop: the lengths of the axes given as ranges, in order. *)
Definition new_lengths (src_dimensionality : Z) (ranges : list Z) : M (list Z) :=
  for_loop (Z.to_nat src_dimensionality) 0
    (fun i new_dim_lengths =>
       from <- lift_opt (index ranges (i * 2)) ;;
       to <- lift_opt (index ranges (i * 2 + 1)) ;;
       if negb (from =? to)
       then ret (new_dim_lengths ++ [wsub to from])
       else ret new_dim_lengths)
    [].

(** [src_strides[0] = 1; for (i = 1; i < src_dimensionality; i++)
    src_strides[i] = src_strides[i - 1] * src_dim_lengths[i - 1];] *)
Definition source_strides (src_dimensionality : Z) : M (list Z) :=
  for_loop (Z.to_nat (src_dimensionality - 1)) 1
    (fun i src_strides =>
       s <- lift_opt (index src_strides (i - 1)) ;;
       d <- dim_length (i - 1) ;;
       ret (src_strides ++ [wmul s d]))
    [1].

Definition result_elements (new_dimensionality : Z) (new_dim_lengths : list Z)
  : M Z :=
  for_loop (Z.to_nat new_dimensionality) 0
    (fun i total =>
       l <- lift_opt (index new_dim_lengths i) ;; ret (wmul total l))
    1.

Definition start_indices (src_dimensionality : Z) (ranges : list Z) : M (list Z) :=
  for_loop (Z.to_nat src_dimensionality) 0
    (fun i current_indices =>
       from <- lift_opt (index ranges (i * 2)) ;;
       ret (current_indices ++ [from]))
    [].

(** [for (i = src_dimensionality - 1; i >= start_dim; i--)]: the argument
    [k] is [i + 1].  With [start_dim = 0] the test never fails: once axis 0
    is passed without a [break], [i] wraps around and [ranges[i * 2]] is
    read outside of [ranges]. *)
Fixpoint advance_indices (k : nat) (start_dim : Z) (ranges : list Z)
    (current_indices : list Z) : M (list Z) :=
  match k with
  | O => fault
  | S i' =>
      let i := Z.of_nat i' in
      if i <? start_dim then ret current_indices
      else
        from <- lift_opt (index ranges (i * 2)) ;;
        to <- lift_opt (index ranges (i * 2 + 1)) ;;
        if negb (from =? to) then
          c <- lift_opt (index current_indices i) ;;
          let c' := wadd c 1 in
          if c' <? to then ret (<[i' := c']> current_indices)
          else advance_indices i' start_dim ranges (<[i' := from]> current_indices)
        else advance_indices i' start_dim ranges current_indices
  end.

(** [src_offset = 0; for (i = 0; i < src_dimensionality; i++)
    src_offset += current_indices[i] * src_strides[i];] *)
Definition source_offset (src_dimensionality : Z)
    (current_indices src_strides : list Z) : M Z :=
  for_loop (Z.to_nat src_dimensionality) 0
    (fun i src_offset =>
       c <- lift_opt (index current_indices i) ;;
       s <- lift_opt (index src_strides i) ;;
       ret (wadd src_offset (wmul c s)))
    0.

(** One round of the copy loop; the state is the index vector, [dest_index]
    and the result block. *)
Definition copy_chunk (element_size src_dimensionality new_dimensionality : Z)
    (is_first_range : bool) (chunk_size : Z) (ranges src_strides : list Z)
    (chunk : Z) (st : list Z * Z * fclib_str_t)
  : M (list Z * Z * fclib_str_t) :=
  let '(current_indices, dest_index, result) := st in
  current_indices <-
    (if chunk >? 0
     then advance_indices (Z.to_nat src_dimensionality)
            (if is_first_range then 1 else 0) ranges current_indices
     else ret current_indices) ;;
  src_offset <- source_offset src_dimensionality current_indices src_strides ;;
  bs <- load (sizeof_size_t * src_dimensionality + wmul src_offset element_size)
             (wmul chunk_size element_size) ;;
  result <- lift_res
    (exec (store (sizeof_size_t * new_dimensionality
                  + wmul dest_index element_size) bs) result) ;;
  ret (current_indices, wadd dest_index chunk_size, result).

Definition fclib_arr_get_slice (element_size : Z) (ranges : list Z)
  : M (option fclib_str_t) :=
  src_dimensionality <- get_len ;;
  checked <- validate_ranges (Z.to_nat src_dimensionality) 0 ranges 0 ;;
  match checked with
  | None => ret None
  | Some new_dimensionality =>
      assert (new_dimensionality >? 0) ;;
      r0 <- lift_opt (index ranges 0) ;;
      r1 <- lift_opt (index ranges 1) ;;
      let is_first_range := negb (r0 =? r1) in
      if (src_dimensionality =? 1) && (new_dimensionality =? 1) then
        assert is_first_range ;;
        slice <- fclib_arr_get_slice_1d element_size r0 r1 ;;
        ret (Some slice)
      else
        new_dim_lengths <- new_lengths src_dimensionality ranges ;;
        result <- lift_res
          (fclib_arr_create new_dimensionality element_size new_dim_lengths) ;;
        src_strides <- source_strides src_dimensionality ;;
        total_result_elements <-
          result_elements new_dimensionality new_dim_lengths ;;
        current_indices <- start_indices src_dimensionality ranges ;;
        let chunk_size := if is_first_range then wsub r1 r0 else 1 in
        assert (total_result_elements mod chunk_size =? 0) ;;
        let num_chunks := total_result_elements / chunk_size in
        st <- for_loop (Z.to_nat num_chunks) 0
                (copy_chunk element_size src_dimensionality new_dimensionality
                            is_first_range chunk_size ranges src_strides)
                (current_indices, 0, result) ;;
        ret (Some (snd st))
  end.

End Engine.

(** ** Arrays as the data model has them *)

Definition product (l : list Z) : Z := fold_right Z.mul 1 l.

(** The block of an array, given its shape and its payload. *)
Definition array_of (dims : list Z) (payload : list byte) : fclib_str_t :=
  mk_str (Z.of_nat (length dims)) (words_bytes dims ++ payload).

Definition payload_start (a : fclib_str_t) : Z := sizeof_size_t * len a.

Definition shape (a : fclib_str_t) : list Z :=
  map (fun i => le_decode (take 8 (drop (8 * i) (value a))))
      (seq 0 (Z.to_nat (len a))).

Definition payload (a : fclib_str_t) : list byte :=
  drop (Z.to_nat (payload_start a)) (value a).

(** The invariant of the data model for an element size: header, shape and
    [product shape] slots of [element_size] bytes, the number of slots a
    [size_t], in a block that fits the address space. *)
Definition valid_arr (element_size : Z) (a : fclib_str_t) : Prop :=
  is_size_t element_size /\ 0 <= len a /\
  Z.of_nat (length (value a)) = payload_start a + product (shape a) * element_size /\
  product (shape a) < size_modulus /\
  sizeof_str + Z.of_nat (length (value a)) < size_modulus.

(** The product of the axis lengths as the loops compute it. *)
Definition wproduct (l : list Z) : Z := fold_left wmul l 1.

(** [k] copies of a run of bytes. *)
Definition rep (k : nat) (bs : list byte) : list byte := concat (replicate k bs).

(** The block once the slots [k .. total_elements) have been filled from
    the slots before them: the outcome both fill loops are compared with. *)
Definition filled_to (l : Z) (pre bs rest : list byte) (k : nat)
    (total_elements : Z) : res (unit * fclib_str_t) :=
  if total_elements <=? Z.of_nat k
  then Ok (tt, mk_str l (pre ++ rep k bs ++ rest))
  else
    let n := (total_elements - Z.of_nat k) * Z.of_nat (length bs) in
    if n <=? Z.of_nat (length rest)
    then Ok (tt, mk_str l (pre ++ rep (Z.to_nat total_elements) bs
                               ++ drop (Z.to_nat n) rest))
    else Fault.

(** The flat offset of an index vector: the sum of [indices[i] * stride[i]]
    with [stride[0] = 1] and [stride[i] = stride[i-1] * shape[i-1]]. *)
Fixpoint flat_offset_from (stride : Z) (shape indices : list Z) : Z :=
  match shape, indices with
  | d :: shape', i :: indices' =>
      i * stride + flat_offset_from (stride * d) shape' indices'
  | _, _ => 0
  end.

Definition flat_offset (shape indices : list Z) : Z :=
  flat_offset_from 1 shape indices.

(** Every index is below the length of its axis. *)
Definition indices_in_bounds (shape indices : list Z) : Prop :=
  Forall2 (fun i d => 0 <= i < d) indices shape.

(** Some index is not below the length of its axis. *)
Definition index_out_of_bounds (shape indices : list Z) : Prop :=
  length indices = length shape
  /\ exists (k : nat) (i d : Z),
       indices !! k = Some i /\ shape !! k = Some d /\ d <= i.

(** The slots [from .. from + n) of a payload. *)
Definition slots (element_size : Z) (p : list byte) (from n : Z) : list byte :=
  take (Z.to_nat (n * element_size)) (drop (Z.to_nat (from * element_size)) p).

(** The payload with slot [k] replaced. *)
Definition set_slot (element_size : Z) (p : list byte) (k : Z) (bs : list byte)
  : list byte :=
  take (Z.to_nat (k * element_size)) p ++ bs
  ++ drop (Z.to_nat (k * element_size + element_size)) p.

(** ** Sample arrays *)

(** Storage that reads as zero before it is written. *)
Definition zeroed : nat -> byte := fun _ => x00.

(** The bytes [0; 1; ...; n - 1]. *)
Definition counting (n : nat) : list byte :=
  map (fun k => byte_of_Z (Z.of_nat k)) (seq 0 n).

(** Five elements of two bytes. *)
Definition sample_1d : fclib_str_t := array_of [5] (counting 10).

(** One element of 16 bytes. *)
Definition sample_wide : fclib_str_t := array_of [1] (counting 16).


(** Five elements of two bytes, as [fclib_arr_create] returns them from
    zeroed storage. *)
Definition sample_fresh : fclib_str_t := array_of [5] (replicate 10 x00).

(** The call returns to its caller and the array is as it was. *)
Definition returns_unchanged {A} (r : res (A * fclib_str_t)) (arr : fclib_str_t)
  : Prop :=
  exists x : A, r = Ok (x, arr).

(** ** The policy of the one-dimensional slice *)

(** [to == 0] stands for the end of the source, and a [to] past the end is
    clamped to it. *)
Definition clamped_to (src_len to : Z) : Z :=
  let real_to := if to =? 0 then src_len else to in
  if real_to >? src_len then src_len else real_to.

(** A [from] past the clamped [to] is clamped to the slot before it. *)
Definition clamped_from (from real_to : Z) : Z :=
  if from >? real_to then real_to - 1 else from.

(** The ranges on which the one-dimensional slice ends the process. *)
Definition slice_1d_aborts (src_len from to : Z) : Prop :=
  from = clamped_to src_len to
  \/ (from > clamped_to src_len to /\ clamped_to src_len to = 0).

(** The payload of a fresh array: what [malloc] left there. *)
Definition fresh_payload (uninit : nat -> byte) (lengths : list Z) (es : Z)
  : list byte :=
  drop (Z.to_nat (sizeof_str + sizeof_size_t * Z.of_nat (length lengths)))
       (indeterminate uninit
          (sizeof_str + sizeof_size_t * Z.of_nat (length lengths)
           + product lengths * es)).

(** ** The ranges of the general slice *)

(** The array [ranges] holds a pair [(from, to)] per axis. *)
Definition flat_ranges (pairs : list (Z * Z)) : list Z :=
  concat (map (fun r => [fst r; snd r]) pairs).

Fixpoint range_pairs (ranges : list Z) : list (Z * Z) :=
  match ranges with
  | from :: to :: rest => (from, to) :: range_pairs rest
  | _ => []
  end.

(** The axis is kept, as a range. *)
Definition is_range (r : Z * Z) : bool := negb (fst r =? snd r).

(** The test the validation loop applies to an axis of length [d]. *)
Definition axis_ok (d : Z) (r : Z * Z) : bool :=
  if is_range r
  then negb (snd r >? d) && negb (wsub (snd r) (fst r) <? 2)
  else negb (fst r >=? d).

Fixpoint all_axes_ok (dims : list Z) (pairs : list (Z * Z)) : bool :=
  match dims, pairs with
  | d :: dims', r :: pairs' => axis_ok d r && all_axes_ok dims' pairs'
  | _, _ => true
  end.

Definition count_ranges (pairs : list (Z * Z)) : Z :=
  Z.of_nat (length (List.filter is_range pairs)).

(** The lengths of the kept axes, as the second loop computes them. *)
Definition range_lengths (pairs : list (Z * Z)) : list Z :=
  map (fun r => wsub (snd r) (fst r)) (List.filter is_range pairs).

(** [stride[i]]: the product of the lengths of the axes before [i]. *)
Definition strides (dims : list Z) : list Z :=
  map (fun k => product (take k dims)) (seq 0 (length dims)).

(** ** The enumeration of the copy loop *)

(** The index vector after one round of the increment loop of
    [fclib_arr_get_slice], started at axis [k - 1] and going down to axis
    [start_dim]: the last axis moves first. *)
Fixpoint next_indices (k start_dim : nat) (pairs : list (Z * Z)) (cur : list Z)
  : list Z :=
  match k with
  | O => cur
  | S i =>
      if (i <? start_dim)%nat then cur
      else
        match pairs !! i, cur !! i with
        | Some r, Some c =>
            if is_range r then
              if c + 1 <? snd r then <[i := c + 1]> cur
              else next_indices i start_dim pairs (<[i := fst r]> cur)
            else next_indices i start_dim pairs cur
        | _, _ => cur
        end
  end.

(** The index vector of chunk [c]. *)
Definition indices_at (start_dim : nat) (pairs : list (Z * Z)) (c : nat) : list Z :=
  Nat.iter c (next_indices (length pairs) start_dim pairs) (map fst pairs).

(** The place of an index vector in that enumeration, over the axes
    [start_dim .. k), and the number of vectors enumerated. *)
Fixpoint chunk_rank (k start_dim : nat) (pairs : list (Z * Z)) (cur : list Z) : Z :=
  match k with
  | O => 0
  | S i =>
      if (i <? start_dim)%nat then 0
      else
        match pairs !! i, cur !! i with
        | Some r, Some c =>
            if is_range r
            then chunk_rank i start_dim pairs cur * (snd r - fst r) + (c - fst r)
            else chunk_rank i start_dim pairs cur
        | _, _ => 0
        end
  end.

Fixpoint chunk_count (k start_dim : nat) (pairs : list (Z * Z)) : Z :=
  match k with
  | O => 1
  | S i =>
      if (i <? start_dim)%nat then 1
      else
        match pairs !! i with
        | Some r =>
            if is_range r
            then chunk_count i start_dim pairs * (snd r - fst r)
            else chunk_count i start_dim pairs
        | None => 1
        end
  end.

(** An index vector within the ranges: inside a kept axis, at the index of
    a fixed one. *)
Definition index_in_range (c : Z) (r : Z * Z) : Prop :=
  if is_range r then fst r <= c < snd r else c = fst r.

Definition indices_in_ranges (pairs : list (Z * Z)) (cur : list Z) : Prop :=
  Forall2 index_in_range cur pairs.

(** An axis that satisfies its rule, the range not reversed: a fixed index
    below the length of the axis, or a range of at least two slots that ends
    within the axis. *)
Definition axis_selected (d : Z) (r : Z * Z) : Prop :=
  0 <= fst r
  /\ ((fst r = snd r /\ fst r < d) \/ (fst r + 2 <= snd r /\ snd r <= d)).

Definition ranges_selected (dims : list Z) (pairs : list (Z * Z)) : Prop :=
  Forall2 axis_selected dims pairs.

(** ** What the general slice copies *)

Definition first_is_range (pairs : list (Z * Z)) : bool :=
  match pairs with
  | r :: _ => is_range r
  | [] => false
  end.

(** Axis 0, when kept, is copied as one run and left out of the
    enumeration. *)
Definition slice_start_dim (pairs : list (Z * Z)) : nat :=
  if first_is_range pairs then 1%nat else 0%nat.

Definition slice_chunk_size (pairs : list (Z * Z)) : Z :=
  match pairs with
  | r :: _ => if is_range r then snd r - fst r else 1
  | [] => 1
  end.

Definition slice_chunks (pairs : list (Z * Z)) : Z :=
  chunk_count (length pairs) (slice_start_dim pairs) pairs.

(** The slots of the source that chunk [c] of the result holds. *)
Definition chunk_bytes (es : Z) (dims : list Z) (p : list byte)
    (pairs : list (Z * Z)) (c : nat) : list byte :=
  slots es p (flat_offset dims (indices_at (slice_start_dim pairs) pairs c))
        (slice_chunk_size pairs).

(** The first [n] chunks, one after the other. *)
Definition chunks_written (es : Z) (dims : list Z) (p : list byte)
    (pairs : list (Z * Z)) (n : nat) : list byte :=
  concat (map (chunk_bytes es dims p pairs) (seq 0 n)).

(** The payload of the slice. *)
Definition sliced_payload (es : Z) (dims : list Z) (p : list byte)
    (pairs : list (Z * Z)) : list byte :=
  chunks_written es dims p pairs (Z.to_nat (slice_chunks pairs)).

(** ** The rule of the general slice, as the specification words it *)

(** The axis breaks its rule: a fixed index not below the length of the
    axis, or a range that ends past the axis or holds fewer than two
    slots. *)
Definition axis_violates (d : Z) (r : Z * Z) : Prop :=
  (fst r = snd r /\ fst r >= d)
  \/ (fst r <> snd r /\ (snd r > d \/ snd r - fst r < 2)).

Definition some_axis_violates (dims : list Z) (pairs : list (Z * Z)) : Prop :=
  exists (i : nat) (d : Z) (r : Z * Z),
    dims !! i = Some d /\ pairs !! i = Some r /\ axis_violates d r.

(** Pairs of [size_t] with [from <= to]. *)
Definition ranges_ordered (pairs : list (Z * Z)) : Prop :=
  Forall (fun r => 0 <= fst r /\ fst r <= snd r < size_modulus) pairs.

(** The call does not return [NULL]. *)
Definition not_null {A} (r : res (option A * fclib_str_t)) : Prop :=
  forall s : fclib_str_t, r <> Ok (None, s).

(** Shape [4, 4], elements of one byte: the element at [(row, col)] holds
    [row + 4 * col]. *)
Definition sample_4x4 : fclib_str_t := array_of [4; 4] (counting 16).

(** Shape [2, 2, 3], elements of one byte: the element at [(i, j, k)] holds
    [i + 2 * j + 4 * k]. *)
Definition sample_2x2x3 : fclib_str_t := array_of [2; 2; 3] (counting 12).

(** What [fclib_arr_get_slice] returns on [sample_2x2x3] for the ranges
    [0,0, 0,2, 0,3]: shape [2, 3]. *)
Definition sample_sliced : fclib_str_t :=
  array_of [2; 3] (map byte_of_Z [0; 4; 8; 2; 6; 10]).


(** The sum of [indices[i] * stride[i]]. *)
Definition weighted_sum (indices strides : list Z) : Z :=
  foldr Z.add 0 (zip_with Z.mul indices strides).


(** ** Strings ([str.h]) *)

(** A string is a block whose [len] field holds the number of characters
    and whose member [value] holds them, followed by a terminating zero. *)

(** [memcmp(a, b, n)] on the bytes read as [unsigned char]: the difference
    at the first place where the two runs differ.  The C standard fixes the
    sign of the result only. *)
Fixpoint bytes_compare (a b : list byte) : Z :=
  match a, b with
  | x :: a', y :: b' =>
      if Z_of_byte x =? Z_of_byte y then bytes_compare a' b'
      else Z_of_byte x - Z_of_byte y
  | _, _ => 0
  end.

Definition memcmp (a b : list byte) (n : Z) : res Z :=
  match mem_load a 0 n, mem_load b 0 n with
  | Some x, Some y => Ok (bytes_compare x y)
  | _, _ => Fault
  end.

Section Strings.

Variable uninit : nat -> byte.

(** [realloc(s, n)] seen as an [fclib_str_t *]: the block keeps its bytes up
    to the lesser of the old and the new size; the room gained holds what
    [malloc] leaves there. *)
Definition realloc_str (s : fclib_str_t) (n : Z) : res fclib_str_t :=
  if n <? sizeof_str then Fault
  else
    let room := Z.to_nat (n - sizeof_str) in
    Ok (mk_str (len s)
          (take room (value s)
           ++ map uninit (seq (Z.to_nat sizeof_str + length (value s))
                              (room - length (value s))))).

Definition fclib_str_create (len : Z) : res fclib_str_t :=
  match malloc_str uninit (wadd (wadd sizeof_str len) 1) with
  | Ok string => exec (set_len len ;; store len [x00]) string
  | Abort => Abort
  | Fault => Fault
  end.

Definition fclib_str_init (value : list byte) (len : Z) : res fclib_str_t :=
  match fclib_str_create len with
  | Ok string => exec (memcpy_from 0 value len) string
  | Abort => Abort
  | Fault => Fault
  end.

(** The block [*string] points to after the call. *)
Definition fclib_str_assign_lit (string : fclib_str_t) (value : list byte)
    (len : Z) : res fclib_str_t :=
  match realloc_str string (wadd (wadd sizeof_str len) 1) with
  | Ok new_string =>
      exec (set_len len ;;
            memcpy_from 0 value len ;;
            store len [x00]) new_string
  | Abort => Abort
  | Fault => Fault
  end.

Definition fclib_str_compare (lhs rhs : fclib_str_t) : res Z :=
  if len lhs <? len rhs then Ok (-1)
  else if len lhs >? len rhs then Ok 1
  else memcmp (value lhs) (value rhs) (len lhs).

Definition fclib_str_equals (lhs rhs : fclib_str_t) : res bool :=
  match fclib_str_compare lhs rhs with
  | Ok c => Ok (c =? 0)
  | Abort => Abort
  | Fault => Fault
  end.

(** The block [*dest] points to after the call; [source] is another
    object than [*dest]. *)
Definition fclib_str_append_lit (dest : fclib_str_t) (source : list byte)
    (source_len : Z) : res fclib_str_t :=
  match realloc_str dest
          (wadd (wadd (wadd sizeof_str (len dest)) source_len) 1) with
  | Ok new_dest =>
      exec (l <- get_len ;;
            memcpy_from l source source_len ;;
            l <- get_len ;;
            let new_len := wadd l source_len in
            set_len new_len ;;
            store new_len [x00]) new_dest
  | Abort => Abort
  | Fault => Fault
  end.

Definition fclib_str_append (dest source : fclib_str_t) : res fclib_str_t :=
  match realloc_str dest
          (wadd (wadd (wadd sizeof_str (len dest)) (len source)) 1) with
  | Ok new_dest =>
      exec (l <- get_len ;;
            memcpy_from l (value source) (len source) ;;
            l <- get_len ;;
            let new_len := wadd l (len source) in
            set_len new_len ;;
            store new_len [x00]) new_dest
  | Abort => Abort
  | Fault => Fault
  end.

Definition fclib_str_add (lhs rhs : fclib_str_t) : res fclib_str_t :=
  match fclib_str_create (wadd (len lhs) (len rhs)) with
  | Ok result =>
      exec (memcpy_from 0 (value lhs) (len lhs) ;;
            memcpy_from (len lhs) (value rhs) (len rhs)) result
  | Abort => Abort
  | Fault => Fault
  end.

Definition fclib_str_add_lit_str (lhs : list byte) (lhs_len : Z)
    (rhs : fclib_str_t) : res fclib_str_t :=
  match fclib_str_create (wadd lhs_len (len rhs)) with
  | Ok result =>
      exec (memcpy_from 0 lhs lhs_len ;;
            memcpy_from lhs_len (value rhs) (len rhs)) result
  | Abort => Abort
  | Fault => Fault
  end.

Definition fclib_str_add_str_lit (lhs : fclib_str_t) (rhs : list byte)
    (rhs_len : Z) : res fclib_str_t :=
  match fclib_str_create (wadd (len lhs) rhs_len) with
  | Ok result =>
      exec (memcpy_from 0 (value lhs) (len lhs) ;;
            memcpy_from (len lhs) rhs rhs_len) result
  | Abort => Abort
  | Fault => Fault
  end.

Definition fclib_str_get_slice (src : fclib_str_t) (from to : Z)
  : res fclib_str_t :=
  let real_to := if to =? 0 then len src else to in
  let real_to := if real_to >? len src then len src else real_to in
  if from =? real_to then fclib_str_create 0
  else
    let real_from := if from >? real_to then wsub real_to 1 else from in
    let len := wsub real_to real_from in
    fclib_str_init (value src) len.

End Strings.

(** The block of a string, given its characters. *)
Definition str_of (bs : list byte) : fclib_str_t :=
  mk_str (Z.of_nat (length bs)) (bs ++ [x00]).

(** The block of the string fits the address space. *)
Definition str_fits (bs : list byte) : Prop :=
  sizeof_str + Z.of_nat (length bs) + 1 < size_modulus.

(** The characters of a fresh string: what [malloc] left there. *)
Definition fresh_chars (uninit : nat -> byte) (n : Z) : list byte :=
  map uninit (seq 8 (Z.to_nat n)).

(** ** The place of an element in a slice *)

(** The slot of the result of [fclib_arr_get_slice] that holds the element
    of the source at an index vector within the ranges: axis 0, when kept,
    counts first, then the kept axes from the last one down to axis 1. *)
Definition slice_position (pairs : list (Z * Z)) (cur : list Z) : Z :=
  chunk_rank (length pairs) (slice_start_dim pairs) pairs cur
  * slice_chunk_size pairs
  + match pairs, cur with
    | r :: _, c :: _ => if is_range r then c - fst r else 0
    | _, _ => 0
    end.

(** ** Paths ([system.h]) *)

(** Code that works on objects of its own: results without a block. *)
Definition rbind {A B} (r : res A) (k : A -> res B) : res B :=
  match r with
  | Ok x => k x
  | Abort => Abort
  | Fault => Fault
  end.

Notation "x <~ r ;; k" := (rbind r (fun x => k))
  (at level 100, r at next level, k at level 200, right associativity)
  : fclib_scope.

Definition BUFFER_SIZE : Z := 256.

Definition backslash : byte := x5c.
Definition slash : byte := x2f.
Definition space : byte := x20.
Definition quote : byte := x22.

Definition lift_mem {A} (o : option A) : res A :=
  match o with
  | Some x => Ok x
  | None => Fault
  end.

(** [m[i]] *)
Definition char_at (m : list byte) (i : Z) : res byte :=
  match mem_load m i 1 with
  | Some [c] => Ok c
  | _ => Fault
  end.

(** [buffer[buffer_len++] = c] *)
Definition push (buffer : list byte) (buffer_len : Z) (c : byte)
  : res (list byte * Z) :=
  match mem_store buffer buffer_len [c] with
  | Some buffer' => Ok (buffer', wadd buffer_len 1)
  | None => Fault
  end.

(** The body of the loop of [fclib_system_get_path_linux]. *)
Definition path_linux_step (path : fclib_str_t) (path_len i : Z)
    (st : list byte * Z) : res (list byte * Z) :=
  let '(buffer, buffer_len) := st in
  ci <~ char_at (value path) i ;;
  if negb (Byte.eqb ci backslash) then push buffer buffer_len ci
  else
    to_slash <~ (if wadd i 1 =? path_len then Ok true
                 else
                   next <~ char_at (value path) (wadd i 1) ;;
                   Ok (negb (Byte.eqb next space))) ;;
    if to_slash then push buffer buffer_len slash
    else push buffer buffer_len backslash.

(** [for (size_t i = 0; i < path_len; i++)] *)
Fixpoint path_linux_loop (n : nat) (i : Z) (path : fclib_str_t) (path_len : Z)
    (st : list byte * Z) : res (list byte * Z) :=
  match n with
  | O => Ok st
  | S n' =>
      st' <~ path_linux_step path path_len i st ;;
      path_linux_loop n' (i + 1) path path_len st'
  end.

(** The body of the loop of [fclib_system_get_path_windows]; the flag
    returned first tells that the body has advanced [i] by itself. *)
Definition path_windows_step (path : fclib_str_t) (path_len i : Z)
    (st : list byte * Z * bool) : res (bool * (list byte * Z * bool)) :=
  let '(buffer, buffer_len, path_contains_space) := st in
  ci <~ char_at (value path) i ;;
  escaped <~ (if Byte.eqb ci backslash && (wadd i 1 <? path_len)
              then
                next <~ char_at (value path) (wadd i 1) ;;
                Ok (Byte.eqb next space)
              else Ok false) ;;
  if escaped then
    b <~ push buffer buffer_len space ;;
    Ok (true, (fst b, snd b, true))
  else if Byte.eqb ci slash then
    b <~ push buffer buffer_len backslash ;;
    Ok (false, (fst b, snd b, path_contains_space))
  else
    let path_contains_space :=
      if Byte.eqb ci space then true else path_contains_space in
    b <~ push buffer buffer_len ci ;;
    Ok (false, (fst b, snd b, path_contains_space)).

(** [for (size_t i = 0; i < path_len; i++)], the body advancing [i] once
    more after an escaped space.  Under the loop test [i + 1] and [i + 2] do
    not wrap. *)
Equations? path_windows_loop (path : fclib_str_t) (path_len i : Z)
    (st : list byte * Z * bool) : res (list byte * Z * bool)
    by wf (Z.to_nat (path_len - i)) lt :=
  path_windows_loop path path_len i st with Z_lt_dec i path_len := {
    | right _ => Ok st
    | left Hlt =>
        match path_windows_step path path_len i st with
        | Ok (true, st') => path_windows_loop path path_len (i + 2) st'
        | Ok (false, st') => path_windows_loop path path_len (i + 1) st'
        | Abort => Abort
        | Fault => Fault
        end }.
Proof.
  - lia.
  - lia.
Qed.

Section Paths.

Variable uninit : nat -> byte.

Definition fclib_system_get_path_linux (path : fclib_str_t) : res fclib_str_t :=
  let buffer := indeterminate uninit BUFFER_SIZE in
  let path_len := len path in
  if path_len >=? BUFFER_SIZE then fclib_str_create uninit 0
  else
    st <~ path_linux_loop (Z.to_nat path_len) 0 path path_len (buffer, 0) ;;
    fclib_str_init uninit (fst st) (snd st).

Definition fclib_system_get_path_windows (path : fclib_str_t)
  : res fclib_str_t :=
  let buffer := indeterminate uninit BUFFER_SIZE in
  let path_len := len path in
  if path_len >=? BUFFER_SIZE then fclib_str_create uninit 0
  else
    st <~ path_windows_loop path path_len 0 (buffer, 0, false) ;;
    let '(buffer, buffer_len, path_contains_space) := st in
    if path_contains_space then
      if wadd buffer_len 2 >=? BUFFER_SIZE then fclib_str_create uninit 0
      else
        bs <~ lift_mem (mem_load buffer 0 buffer_len) ;;
        buffer <~ lift_mem (mem_store buffer 1 bs) ;;
        buffer <~ lift_mem (mem_store buffer 0 [quote]) ;;
        buffer <~ lift_mem (mem_store buffer (wadd buffer_len 1) [quote]) ;;
        fclib_str_init uninit buffer (wadd buffer_len 2)
    else fclib_str_init uninit buffer buffer_len.

Definition fclib_system_get_path (path : fclib_str_t) (is_linux : bool)
  : res fclib_str_t :=
  if is_linux then fclib_system_get_path_linux path
  else fclib_system_get_path_windows path.

End Paths.

(** The characters the loop of [fclib_system_get_path_linux] writes: a
    backslash becomes a slash unless a space follows it. *)
Fixpoint linux_chars (bs : list byte) : list byte :=
  match bs with
  | [] => []
  | c :: rest =>
      (if Byte.eqb c backslash then
         match rest with
         | next :: _ => if Byte.eqb next space then backslash else slash
         | [] => slash
         end
       else c) :: linux_chars rest
  end.

(** The characters the loop of [fclib_system_get_path_windows] writes: a
    backslash and the space behind it become the space, a slash becomes a
    backslash. *)
Fixpoint windows_chars (bs : list byte) : list byte :=
  match bs with
  | [] => []
  | c :: rest =>
      if Byte.eqb c backslash then
        match rest with
        | next :: rest' =>
            if Byte.eqb next space then space :: windows_chars rest'
            else c :: windows_chars rest
        | [] => [c]
        end
      else if Byte.eqb c slash then backslash :: windows_chars rest
      else c :: windows_chars rest
  end.

(** The path between double quotes when it holds a space. *)
Definition windows_quoted (body : list byte) : list byte :=
  if existsb (fun c => Byte.eqb c space) body
  then [quote] ++ body ++ [quote]
  else body.


(** ** Arrays of pointers: the heap *)

(** [fclib_arr_fill_deep] and [fclib_arr_free] work on several blocks.  The
    heap numbers the blocks [malloc] has handed out; a block that has been
    freed stays in the list as [None].  The value of a pointer to block [k]
    is [k + 1], stored as the 8 bytes of a [size_t]; 0 is the null
    pointer. *)
Abbreviation heap := (list (option (list byte))).

Definition pointer_to (k : nat) : Z := Z.of_nat k + 1.

(** The bytes of a block seen as an [fclib_str_t], and back. *)
Definition str_view (b : list byte) : fclib_str_t :=
  mk_str (le_decode (take 8 b)) (drop 8 b).

Definition block_of (s : fclib_str_t) : list byte :=
  size_t_bytes (len s) ++ value s.

(** The block a pointer points to; a null pointer, a pointer to no block
    and a pointer to a freed block cannot be followed. *)
Definition block_at (p : Z) (h : heap) : res (list byte) :=
  if p <=? 0 then Fault
  else
    match h !! Z.to_nat (p - 1) with
    | Some (Some b) => Ok b
    | _ => Fault
    end.

Definition set_block (p : Z) (b : list byte) (h : heap) : heap :=
  <[Z.to_nat (p - 1) := Some b]> h.

(** [free(p)]: nothing for the null pointer; freeing what is not a live
    block is undefined. *)
Definition free (p : Z) (h : heap) : res heap :=
  if p =? 0 then Ok h
  else
    _ <~ block_at p h ;;
    Ok (<[Z.to_nat (p - 1) := None]> h).

(** Code of the monad [M], run on the block [p] points to. *)
Definition with_block {A} (p : Z) (c : M A) (h : heap) : res (A * heap) :=
  b <~ block_at p h ;;
  if Z.of_nat (length b) <? sizeof_str then Fault
  else
    match c (str_view b) with
    | Ok (x, s) => Ok (x, set_block p (block_of s) h)
    | Abort => Abort
    | Fault => Fault
    end.

(** [for (i = start; n iterations; i++) h = body(i, h)] *)
Fixpoint heap_loop (n : nat) (i : Z) (body : Z -> heap -> res heap) (h : heap)
  : res heap :=
  match n with
  | O => Ok h
  | S n' => h' <~ body i h ;; heap_loop n' (i + 1) body h'
  end.

Section Heap.

Variable uninit : nat -> byte.

(** [malloc(n)]: a new block. *)
Definition malloc (n : Z) (h : heap) : Z * heap :=
  (pointer_to (length h), h ++ [Some (indeterminate uninit n)]).

(** [dimensionality] and the number of elements, as both functions read
    them first. *)
Definition read_header (arr : Z) (h : heap) : res (Z * Z * heap) :=
  r <~ with_block arr
         (dimensionality <- get_len ;;
          total_elements <- count_elements dimensionality ;;
          ret (dimensionality, total_elements)) h ;;
  Ok (fst (fst r), snd (fst r), snd r).

Definition fclib_arr_fill_deep (arr : Z) (value_size : Z) (value : list byte)
    (h : heap) : res heap :=
  hd <~ read_header arr h ;;
  let '(dimensionality, total_elements, h) := hd in
  let data_start := sizeof_size_t * dimensionality in
  heap_loop (Z.to_nat total_elements) 0
    (fun i h =>
       let element_ptr := data_start + wmul i sizeof_size_t in
       let '(fresh, h) := malloc value_size h in
       r <~ with_block arr (store element_ptr (size_t_bytes fresh)) h ;;
       r <~ with_block arr (bs <- load element_ptr sizeof_size_t ;;
                            ret (le_decode bs)) (snd r) ;;
       let '(element, h) := r in
       bs <~ lift_mem (mem_load value 0 value_size) ;;
       b <~ block_at element h ;;
       b' <~ lift_mem (mem_store b 0 bs) ;;
       Ok (set_block element b' h))
    h.

(** The second loop of [fclib_arr_free]. *)
Definition free_fields (free_next : Z -> heap -> res heap) (arr : Z)
    (fields length : Z) (h : heap) : res heap :=
  heap_loop (Z.to_nat length) 0
    (fun i h =>
       r <~ with_block arr
              (bs <- load (fields + wmul i sizeof_size_t) sizeof_size_t ;;
               ret (le_decode bs)) h ;;
       free_next (fst r) (snd r))
    h.

(** The recursion is on [complexity], which goes down by one per level. *)
Fixpoint arr_free (complexity : nat) (arr : Z) (h : heap) : res heap :=
  match complexity with
  | O => free arr h
  | S next_complexity =>
      hd <~ read_header arr h ;;
      let '(dimensionality, length, h) := hd in
      let fields := sizeof_size_t * dimensionality in
      h <~ free_fields (arr_free next_complexity) arr fields length h ;;
      free arr h
  end.

Definition fclib_arr_free (arr : Z) (complexity : Z) (h : heap) : res heap :=
  arr_free (Z.to_nat complexity) arr h.

End Heap.

(** ** Code that only reads the block *)

(** Code that leaves the block it runs on as it was. *)
Definition keeps_state {A} (c : M A) : Prop :=
  forall (s s' : fclib_str_t) (x : A), c s = Ok (x, s') -> s' = s.

(** * Properties *)

(** ** Words and bytes *)

Lemma size_modulus_eq : size_modulus = 18446744073709551616.
Proof. reflexivity. Qed.

Lemma wrap_small (z : Z) : is_size_t z -> wrap z = z.
Proof. unfold is_size_t, wrap. intros. apply Z.mod_small. lia. Qed.

Lemma wrap_range (z : Z) : is_size_t (wrap z).
Proof. unfold is_size_t, wrap. apply Z.mod_pos_bound. reflexivity. Qed.

Lemma wmul_small (a b : Z) : 0 <= a * b < size_modulus -> wmul a b = a * b.
Proof. intros. unfold wmul. now apply wrap_small. Qed.

Lemma wadd_small (a b : Z) : 0 <= a + b < size_modulus -> wadd a b = a + b.
Proof. intros. unfold wadd. now apply wrap_small. Qed.

Lemma wsub_small (a b : Z) : 0 <= a - b < size_modulus -> wsub a b = a - b.
Proof. intros. unfold wsub. now apply wrap_small. Qed.

Lemma Z_of_byte_range (b : byte) : 0 <= Z_of_byte b < 256.
Proof.
  unfold Z_of_byte. pose proof (Byte.to_N_bounded b). lia.
Qed.

Lemma Z_of_byte_of_Z (z : Z) : Z_of_byte (byte_of_Z z) = z mod 256.
Proof.
  unfold Z_of_byte, byte_of_Z.
  assert (Hr : 0 <= z mod 256 < 256) by (apply Z.mod_pos_bound; lia).
  destruct (Byte.of_N (Z.to_N (z mod 256))) as [b|] eqn:E.
  - apply Byte.to_of_N in E. rewrite E. lia.
  - apply Byte.of_N_None_iff in E. lia.
Qed.

Lemma byte_of_Z_of_byte (b : byte) : byte_of_Z (Z_of_byte b) = b.
Proof.
  unfold byte_of_Z. rewrite Z.mod_small by apply Z_of_byte_range.
  unfold Z_of_byte. rewrite N2Z.id, Byte.of_to_N. reflexivity.
Qed.

Lemma byte_of_Z_mod (z : Z) : byte_of_Z z = byte_of_Z (z mod 256).
Proof. unfold byte_of_Z. now rewrite Z.mod_mod by lia. Qed.

Lemma length_le_encode (n : nat) (z : Z) : length (le_encode n z) = n.
Proof. revert z. induction n; simpl; intros; [reflexivity | now rewrite IHn]. Qed.

Lemma le_decode_encode (n : nat) (z : Z) :
  le_decode (le_encode n z) = z mod 256 ^ Z.of_nat n.
Proof.
  revert z. induction n as [|n IH]; intros z.
  - simpl. now rewrite Z.mod_1_r.
  - cbn [le_encode le_decode]. rewrite IH, Z_of_byte_of_Z.
    rewrite Nat2Z.inj_succ, Z.pow_succ_r by lia.
    rewrite (Z.rem_mul_r z 256 (256 ^ Z.of_nat n)) by lia. reflexivity.
Qed.

Lemma le_encode_decode (bs : list byte) :
  le_encode (length bs) (le_decode bs) = bs.
Proof.
  induction bs as [|b bs IH]; [reflexivity|].
  cbn [length le_encode le_decode]. pose proof (Z_of_byte_range b) as Hb.
  f_equal.
  - rewrite (byte_of_Z_mod (_ + _)).
    replace (256 * le_decode bs) with (le_decode bs * 256) by lia.
    rewrite Z.mod_add by lia.
    rewrite <- byte_of_Z_mod. apply byte_of_Z_of_byte.
  - transitivity (le_encode (length bs) (le_decode bs)); [f_equal | exact IH].
    replace (256 * le_decode bs) with (le_decode bs * 256) by lia.
    rewrite Z.div_add by lia.
    rewrite Z.div_small by lia. lia.
Qed.

Lemma le_decode_range (bs : list byte) :
  0 <= le_decode bs < 256 ^ Z.of_nat (length bs).
Proof.
  induction bs as [|b bs IH].
  - simpl. lia.
  - cbn [length le_decode]. rewrite Nat2Z.inj_succ, Z.pow_succ_r by lia.
    pose proof (Z_of_byte_range b). lia.
Qed.

Lemma length_size_t_bytes (z : Z) : length (size_t_bytes z) = 8%nat.
Proof. apply length_le_encode. Qed.

Lemma le_decode_size_t_bytes (z : Z) : le_decode (size_t_bytes z) = wrap z.
Proof. unfold size_t_bytes. rewrite le_decode_encode. reflexivity. Qed.

Lemma length_words_bytes (ws : list Z) :
  length (words_bytes ws) = (8 * length ws)%nat.
Proof.
  unfold words_bytes. induction ws as [|w ws IH]; [reflexivity|].
  cbn [map concat length]. rewrite length_app, length_size_t_bytes, IH. lia.
Qed.

Lemma words_bytes_app (ws1 ws2 : list Z) :
  words_bytes (ws1 ++ ws2) = words_bytes ws1 ++ words_bytes ws2.
Proof. unfold words_bytes. now rewrite map_app, concat_app. Qed.

(** ** Objects *)

Lemma mem_load_app (pre mid rest : list byte) :
  mem_load (pre ++ mid ++ rest) (Z.of_nat (length pre)) (Z.of_nat (length mid))
  = Some mid.
Proof.
  unfold mem_load, in_bounds. rewrite !length_app.
  replace (_ && _ && _) with true
    by (symmetry; rewrite !andb_true_iff, !Z.leb_le; lia).
  rewrite !Nat2Z.id, drop_app_length, take_app_length. reflexivity.
Qed.

Lemma mem_load_at (m pre mid rest : list byte) (off n : Z) :
  m = pre ++ mid ++ rest ->
  off = Z.of_nat (length pre) -> n = Z.of_nat (length mid) ->
  mem_load m off n = Some mid.
Proof. intros -> -> ->. apply mem_load_app. Qed.

Lemma mem_store_app (pre old new rest : list byte) :
  length new = length old ->
  mem_store (pre ++ old ++ rest) (Z.of_nat (length pre)) new
  = Some (pre ++ new ++ rest).
Proof.
  intros Hl. unfold mem_store, in_bounds. rewrite !length_app.
  replace (_ && _ && _) with true
    by (symmetry; rewrite !andb_true_iff, !Z.leb_le; lia).
  rewrite !Nat2Z.id, take_app_length. do 3 f_equal.
  rewrite drop_app_ge, Hl by lia.
  replace (length pre + length old - length pre)%nat with (length old) by lia.
  apply drop_app_length.
Qed.

Lemma mem_store_at (m pre old new rest : list byte) (off : Z) :
  m = pre ++ old ++ rest ->
  off = Z.of_nat (length pre) -> length new = length old ->
  mem_store m off new = Some (pre ++ new ++ rest).
Proof. intros -> -> ?. now apply mem_store_app. Qed.

Lemma mem_store_outside (m : list byte) (off : Z) (bs : list byte) :
  Z.of_nat (length m) < off + Z.of_nat (length bs) ->
  mem_store m off bs = None.
Proof.
  intros H. unfold mem_store, in_bounds.
  replace (off + _ <=? _) with false by (symmetry; apply Z.leb_gt; lia).
  now rewrite andb_false_r.
Qed.

Lemma mem_load_length (m : list byte) (off n : Z) (bs : list byte) :
  mem_load m off n = Some bs -> Z.of_nat (length bs) = n /\ 0 <= off
  /\ off + n <= Z.of_nat (length m).
Proof.
  unfold mem_load, in_bounds. destruct (_ && _ && _) eqn:E; [|discriminate].
  rewrite !andb_true_iff, !Z.leb_le in E. intros [= <-].
  rewrite length_take, length_drop. lia.
Qed.

Lemma mem_store_length (m : list byte) (off : Z) (bs m' : list byte) :
  mem_store m off bs = Some m' -> length m' = length m.
Proof.
  unfold mem_store, in_bounds. destruct (_ && _ && _) eqn:E; [|discriminate].
  rewrite !andb_true_iff, !Z.leb_le in E. intros [= <-].
  rewrite !length_app, length_take, length_drop. lia.
Qed.

Lemma product_app (l1 l2 : list Z) : product (l1 ++ l2) = product l1 * product l2.
Proof. induction l1 as [|x l1 IH]; simpl; [lia | rewrite IH; lia]. Qed.

Lemma product_nonneg (l : list Z) : Forall is_size_t l -> 0 <= product l.
Proof.
  induction 1 as [|x l Hx _ IH]; simpl; [lia|]. unfold is_size_t in Hx. nia.
Qed.

Lemma decode_words (n : nat) (v : list byte) :
  (8 * n <= length v)%nat ->
  words_bytes (map (fun i => le_decode (take 8 (drop (8 * i) v))) (seq 0 n))
  = take (8 * n) v.
Proof.
  revert v. induction n as [|n IH]; intros v Hv.
  - reflexivity.
  - cbn [seq map]. rewrite <- seq_shift, map_map.
    change (words_bytes (?x :: ?l)) with (size_t_bytes x ++ words_bytes l).
    rewrite (map_ext _ (fun i => le_decode (take 8 (drop (8 * i) (drop 8 v))))).
    2:{ intros i. rewrite drop_drop. do 3 f_equal. lia. }
    rewrite IH by (rewrite length_drop; lia).
    replace (8 * 0)%nat with 0%nat by lia. rewrite drop_0.
    unfold size_t_bytes.
    replace 8%nat with (length (take 8 v)) at 1 by (rewrite length_take; lia).
    rewrite le_encode_decode.
    replace (8 * S n)%nat with (8 + 8 * n)%nat by lia.
    rewrite <- take_take_drop. reflexivity.
Qed.

Lemma shape_words (dims : list Z) (rest : list byte) (l : Z) :
  Forall is_size_t dims -> l = Z.of_nat (length dims) ->
  shape (mk_str l (words_bytes dims ++ rest)) = dims.
Proof.
  intros Hd ->. unfold shape. cbn [len value]. rewrite Nat2Z.id.
  revert rest. induction Hd as [|d dims Hx Hd IH]; intros rest; [reflexivity|].
  cbn [length seq map]. rewrite <- seq_shift, map_map.
  change (words_bytes (d :: dims)) with (size_t_bytes d ++ words_bytes dims).
  f_equal.
  - replace (8 * 0)%nat with 0%nat by lia. rewrite drop_0, <- app_assoc.
    rewrite <- (length_size_t_bytes d), take_app_length.
    rewrite le_decode_size_t_bytes. now apply wrap_small.
  - rewrite <- (IH rest) at 2. apply map_ext. intros i.
    rewrite <- app_assoc. do 2 f_equal.
    replace (8 * S i)%nat with (length (size_t_bytes d) + 8 * i)%nat
      by (rewrite length_size_t_bytes; lia).
    rewrite <- drop_drop, drop_app_length. reflexivity.
Qed.

Lemma shape_array_of (dims : list Z) (p : list byte) :
  Forall is_size_t dims -> shape (array_of dims p) = dims.
Proof. intros. now apply shape_words. Qed.

Lemma payload_array_of (dims : list Z) (p : list byte) :
  payload (array_of dims p) = p.
Proof.
  unfold payload, payload_start, array_of, sizeof_size_t. cbn [len value].
  replace (Z.to_nat (8 * Z.of_nat (length dims))) with (length (words_bytes dims))
    by (rewrite length_words_bytes; lia).
  apply drop_app_length.
Qed.

Lemma shape_is_size_t (a : fclib_str_t) : Forall is_size_t (shape a).
Proof.
  unfold shape. apply Forall_map, Forall_forall. intros i _.
  pose proof (le_decode_range (take 8 (drop (8 * i) (value a)))) as H.
  rewrite length_take in H. unfold is_size_t. rewrite size_modulus_eq.
  assert (256 ^ Z.of_nat (8 `min` length (drop (8 * i) (value a)))
          <= 256 ^ 8) by (apply Z.pow_le_mono_r; lia).
  change (256 ^ 8) with 18446744073709551616 in *. lia.
Qed.

Lemma length_shape (a : fclib_str_t) : length (shape a) = Z.to_nat (len a).
Proof. unfold shape. now rewrite length_map, length_seq. Qed.

(** A valid array is the block of its shape and payload. *)
Lemma valid_arr_rep (es : Z) (a : fclib_str_t) :
  valid_arr es a ->
  a = array_of (shape a) (payload a)
  /\ Z.of_nat (length (payload a)) = product (shape a) * es.
Proof.
  intros (Hes & Hl & Hv & Hp' & Hb). pose proof (shape_is_size_t a) as Hs.
  pose proof (product_nonneg _ Hs) as Hp.
  unfold payload_start, sizeof_size_t, is_size_t in *.
  assert (Hn : (8 * Z.to_nat (len a) <= length (value a))%nat) by nia.
  split.
  - destruct a as [l v]. unfold array_of, payload, payload_start, sizeof_size_t.
    cbn [len value] in *. rewrite length_shape. cbn [len]. f_equal; [lia|].
    unfold shape. cbn [len value]. rewrite decode_words by assumption.
    replace (Z.to_nat (8 * l)) with (8 * Z.to_nat l)%nat by lia.
    now rewrite take_drop.
  - unfold payload, payload_start, sizeof_size_t. rewrite length_drop. nia.
Qed.

(** The same, as a view to reason from. *)
Lemma valid_view (es : Z) (a : fclib_str_t) :
  valid_arr es a ->
  exists dims p,
    a = array_of dims p /\ shape a = dims /\ payload a = p
    /\ Forall is_size_t dims
    /\ Z.of_nat (length p) = product dims * es
    /\ 0 <= product dims < size_modulus
    /\ is_size_t es
    /\ sizeof_str + sizeof_size_t * Z.of_nat (length dims) + Z.of_nat (length p)
       < size_modulus.
Proof.
  intros Hv. destruct (valid_arr_rep _ _ Hv) as (Ha & Hp).
  destruct Hv as (Hes & Hl & Hv & Hp' & Hb).
  pose proof (shape_is_size_t a) as Hs.
  exists (shape a), (payload a). repeat split; try assumption; try tauto.
  - now apply product_nonneg.
  - apply Hes.
  - apply Hes.
  - rewrite Hp. unfold payload_start, sizeof_size_t in *.
    rewrite length_shape. lia.
Qed.

Lemma array_of_valid (es : Z) (dims : list Z) (p : list byte) :
  Forall is_size_t dims -> is_size_t es ->
  Z.of_nat (length p) = product dims * es ->
  product dims < size_modulus ->
  sizeof_str + sizeof_size_t * Z.of_nat (length dims) + Z.of_nat (length p)
    < size_modulus ->
  valid_arr es (array_of dims p).
Proof.
  intros Hd Hes Hp Hq Hb. unfold valid_arr.
  rewrite shape_array_of by assumption.
  unfold payload_start, array_of, sizeof_size_t in *. cbn [len value].
  rewrite length_app, length_words_bytes. repeat split; try lia; apply Hes.
Qed.

(** ** Running code of the monad *)

Lemma bind_ok {A B} (c : M A) (k : A -> M B) (s s' : fclib_str_t) (x : A) :
  c s = Ok (x, s') -> bind c k s = k x s'.
Proof. unfold bind. now intros ->. Qed.

Lemma bind_fault {A B} (c : M A) (k : A -> M B) (s : fclib_str_t) :
  c s = Fault -> bind c k s = Fault.
Proof. unfold bind. now intros ->. Qed.

Lemma bind_abort {A B} (c : M A) (k : A -> M B) (s : fclib_str_t) :
  c s = Abort -> bind c k s = Abort.
Proof. unfold bind. now intros ->. Qed.

Lemma index_lookup (a : list Z) (i : nat) : index a (Z.of_nat i) = a !! i.
Proof.
  unfold index. destruct (Z.leb_spec 0 (Z.of_nat i)); [|lia].
  now rewrite Nat2Z.id.
Qed.

Lemma load_at (s : fclib_str_t) (pre mid rest : list byte) (off n : Z) :
  value s = pre ++ mid ++ rest ->
  off = Z.of_nat (length pre) -> n = Z.of_nat (length mid) ->
  load off n s = Ok (mid, s).
Proof.
  intros Hv Ho Hn. unfold load. now rewrite (mem_load_at _ _ _ _ _ _ Hv Ho Hn).
Qed.

Lemma store_at (s : fclib_str_t) (pre old new rest : list byte) (off : Z) :
  value s = pre ++ old ++ rest ->
  off = Z.of_nat (length pre) -> length new = length old ->
  store off new s = Ok (tt, mk_str (len s) (pre ++ new ++ rest)).
Proof.
  intros Hv Ho Hn. unfold store. now rewrite (mem_store_at _ _ _ _ _ _ Hv Ho Hn).
Qed.

Lemma store_outside (s : fclib_str_t) (off : Z) (bs : list byte) :
  Z.of_nat (length (value s)) < off + Z.of_nat (length bs) ->
  store off bs s = Fault.
Proof. intros H. unfold store. now rewrite mem_store_outside. Qed.

(** A loop that reads element after element of a list and folds them. *)
Lemma for_loop_read {St X} (l : list X) (f : St -> X -> St)
    (body : Z -> St -> M St) (s : fclib_str_t) (start : Z) (acc : St) :
  (forall (k : nat) (x : X) (a : St),
      l !! k = Some x -> body (start + Z.of_nat k) a s = Ok (f a x, s)) ->
  for_loop (length l) start body acc s = Ok (fold_left f l acc, s).
Proof.
  revert start acc. induction l as [|x l IH]; intros start acc Hb.
  - reflexivity.
  - cbn [length for_loop fold_left].
    rewrite (bind_ok _ _ s s (f acc x)).
    + apply IH. intros k y a Hk.
      replace (start + 1 + Z.of_nat k) with (start + Z.of_nat (S k)) by lia.
      now apply Hb.
    + specialize (Hb 0%nat x acc eq_refl). now rewrite Z.add_0_r in Hb.
Qed.

(** ** Reading the shape *)

Lemma words_bytes_lookup (dims : list Z) (i : nat) (d : Z) :
  dims !! i = Some d ->
  words_bytes dims
  = words_bytes (take i dims) ++ size_t_bytes d ++ words_bytes (drop (S i) dims).
Proof.
  intros H. rewrite <- (take_drop_middle _ _ _ H) at 1.
  rewrite words_bytes_app. reflexivity.
Qed.

Lemma dim_length_words (s : fclib_str_t) (dims : list Z) (rest : list byte)
    (i : nat) (d : Z) :
  value s = words_bytes dims ++ rest -> Forall is_size_t dims ->
  dims !! i = Some d ->
  dim_length (Z.of_nat i) s = Ok (d, s).
Proof.
  intros Hv Hd Hi. unfold dim_length.
  rewrite (bind_ok _ _ s s (size_t_bytes d)).
  - unfold ret. rewrite le_decode_size_t_bytes, wrap_small; [reflexivity|].
    rewrite Forall_forall in Hd. apply Hd. eapply list_elem_of_lookup_2, Hi.
  - apply (load_at s (words_bytes (take i dims)) (size_t_bytes d)
             (words_bytes (drop (S i) dims) ++ rest)).
    + rewrite Hv, (words_bytes_lookup _ _ _ Hi), <- !app_assoc. reflexivity.
    + rewrite length_words_bytes, length_take.
      apply lookup_lt_Some in Hi. unfold sizeof_size_t. lia.
    + now rewrite length_size_t_bytes.
Qed.

Lemma fold_wmul (l : list Z) (acc : Z) :
  is_size_t acc -> fold_left wmul l acc = wrap (acc * product l).
Proof.
  revert acc. induction l as [|x l IH]; intros acc Ha; cbn [fold_left].
  - change (product []) with 1. rewrite Z.mul_1_r. symmetry. now apply wrap_small.
  - change (product (x :: l)) with (x * product l).
    rewrite IH by apply wrap_range. unfold wmul, wrap.
    rewrite Z.mul_mod_idemp_l by (rewrite size_modulus_eq; lia).
    f_equal. lia.
Qed.

Lemma wproduct_wrap (l : list Z) : wproduct l = wrap (product l).
Proof.
  unfold wproduct. rewrite fold_wmul; [f_equal; lia|].
  unfold is_size_t. rewrite size_modulus_eq. lia.
Qed.

Lemma count_elements_words (s : fclib_str_t) (dims : list Z) (rest : list byte) :
  value s = words_bytes dims ++ rest -> Forall is_size_t dims ->
  count_elements (Z.of_nat (length dims)) s = Ok (wproduct dims, s).
Proof.
  intros Hv Hd. unfold count_elements. rewrite Nat2Z.id.
  apply (for_loop_read dims wmul). intros k x a Hk.
  rewrite Z.add_0_l, (bind_ok _ _ s s x); [reflexivity|].
  eapply dim_length_words; eauto.
Qed.

(** ** The fill loops *)

Lemma length_rep (k : nat) (bs : list byte) :
  length (rep k bs) = (k * length bs)%nat.
Proof.
  unfold rep. induction k as [|k IH]; [reflexivity|].
  cbn [replicate concat]. rewrite length_app, IH. lia.
Qed.

Lemma rep_add (a b : nat) (bs : list byte) : rep (a + b) bs = rep a bs ++ rep b bs.
Proof. unfold rep. now rewrite replicate_add, concat_app. Qed.

Lemma rep_1 (bs : list byte) : rep 1 bs = bs.
Proof. unfold rep. cbn. apply app_nil_r. Qed.

Lemma filled_to_step (l : Z) (pre bs rest : list byte) (k j : nat) (total : Z) :
  Z.of_nat k < total -> Z.of_nat (k + j) <= total ->
  (j * length bs <= length rest)%nat ->
  filled_to l pre bs (drop (j * length bs) rest) (k + j) total
  = filled_to l pre bs rest k total.
Proof.
  intros Hk Hj Hfit. unfold filled_to.
  destruct (Z.leb_spec total (Z.of_nat k)); [lia|].
  assert (E : (total - Z.of_nat k) * Z.of_nat (length bs)
              = Z.of_nat (j * length bs)
                + (total - Z.of_nat (k + j)) * Z.of_nat (length bs)) by nia.
  destruct (Z.leb_spec total (Z.of_nat (k + j))).
  - assert (total = Z.of_nat (k + j)) as -> by lia.
    rewrite E, Z.sub_diag, Z.mul_0_l, Z.add_0_r.
    destruct (Z.leb_spec (Z.of_nat (j * length bs)) (Z.of_nat (length rest)));
      [|lia].
    now rewrite !Nat2Z.id.
  - rewrite length_drop, E.
    set (n := (total - Z.of_nat (k + j)) * Z.of_nat (length bs)).
    assert (0 <= n) by (subst n; nia).
    destruct (Z.leb_spec n (Z.of_nat (length rest - j * length bs)));
    destruct (Z.leb_spec (Z.of_nat (j * length bs) + n)
                (Z.of_nat (length rest))); try lia; [|reflexivity].
    rewrite drop_drop.
    replace (Z.to_nat (Z.of_nat (j * length bs) + n))
      with (j * length bs + Z.to_nat n)%nat by lia.
    reflexivity.
Qed.

Lemma wmul_0_l (x : Z) : wmul 0 x = 0.
Proof. unfold wmul. now rewrite Z.mul_0_l. Qed.

Section FillLoops.

Variables (l : Z) (pre bs : list byte).
Let data_start : Z := Z.of_nat (length pre).
Let element_size : Z := Z.of_nat (length bs).

(** Copying [j <= k] slots from the start of the filled part to its end. *)
Lemma copy_slots (rest : list byte) (k j i : nat) :
  Z.of_nat (length (pre ++ rep k bs ++ rest)) < size_modulus ->
  (i + j <= k)%nat ->
  memcpy_within (data_start + wmul (Z.of_nat k) element_size)
                (data_start + wmul (Z.of_nat i) element_size)
                (wmul (Z.of_nat j) element_size)
                (mk_str l (pre ++ rep k bs ++ rest))
  = if (j * length bs <=? length rest)%nat
    then Ok (tt, mk_str l (pre ++ rep (k + j) bs ++ drop (j * length bs) rest))
    else Fault.
Proof.
  intros Hb Hj. subst data_start element_size.
  rewrite !length_app, length_rep in Hb.
  rewrite !wmul_small by nia.
  unfold memcpy_within.
  rewrite (bind_ok _ _ _ (mk_str l (pre ++ rep k bs ++ rest)) (rep j bs)).
  2:{ apply (load_at _ (pre ++ rep i bs) (rep j bs) (rep (k - i - j) bs ++ rest)).
      - cbn [value]. rewrite <- !app_assoc. f_equal.
        rewrite !app_assoc, <- !rep_add. do 2 f_equal. lia.
      - rewrite length_app, length_rep. lia.
      - rewrite length_rep. lia. }
  destruct (Nat.leb_spec (j * length bs) (length rest)) as [Hfit|Hfit].
  - rewrite (store_at _ (pre ++ rep k bs) (take (j * length bs) rest) (rep j bs)
               (drop (j * length bs) rest)).
    + cbn [len]. rewrite rep_add, <- !app_assoc. reflexivity.
    + cbn [value]. now rewrite take_drop, <- !app_assoc.
    + rewrite length_app, length_rep. lia.
    + rewrite length_rep, length_take. lia.
  - apply store_outside. cbn [value].
    rewrite !length_app, !length_rep. nia.
Qed.

Lemma fill_sequential_steps (n k : nat) (total : Z) (rest : list byte) :
  Z.of_nat (length (pre ++ rep k bs ++ rest)) < size_modulus ->
  (1 <= k)%nat -> n = Z.to_nat (total - Z.of_nat k) ->
  for_loop n (Z.of_nat k)
    (fun i _ =>
       memcpy_within (data_start + wmul i element_size)
                     (data_start + wmul (i - 1) element_size) element_size)
    tt (mk_str l (pre ++ rep k bs ++ rest))
  = filled_to l pre bs rest k total.
Proof.
  revert k rest. induction n as [|n IH]; intros k rest Hb Hk Hn.
  - unfold filled_to. destruct (Z.leb_spec total (Z.of_nat k)); [reflexivity|lia].
  - cbn [for_loop].
    replace (Z.of_nat k - 1) with (Z.of_nat (k - 1)) by lia.
    replace element_size with (wmul (Z.of_nat 1) element_size) at 3.
    2:{ subst element_size. rewrite wmul_small; [lia|].
        rewrite !length_app, length_rep in Hb. nia. }
    unfold bind at 1. rewrite (copy_slots rest k 1 (k - 1)) by (trivial; lia).
    rewrite Nat.mul_1_l.
    destruct (Nat.leb_spec (length bs) (length rest)) as [Hfit|Hfit].
    + replace (Z.of_nat k + 1) with (Z.of_nat (k + 1)) by lia.
      rewrite IH.
      * rewrite <- (filled_to_step l pre bs rest k 1 total) by lia.
        now rewrite Nat.mul_1_l.
      * rewrite !length_app, length_rep, length_drop in *. lia.
      * lia.
      * lia.
    + unfold filled_to. destruct (Z.leb_spec total (Z.of_nat k)); [lia|].
      destruct (Z.leb_spec ((total - Z.of_nat k) * Z.of_nat (length bs))
                  (Z.of_nat (length rest))); [nia|reflexivity].
Qed.

Lemma fill_exponential_steps (total : Z) (m : nat) :
  forall (k : nat) (rest : list byte) (Hpos : 0 < Z.of_nat k),
  Z.of_nat (length (pre ++ rep k bs ++ rest)) < size_modulus ->
  m = Z.to_nat (total - Z.of_nat k) ->
  fill_exponential data_start element_size total (Z.of_nat k) Hpos
    (mk_str l (pre ++ rep k bs ++ rest))
  = filled_to l pre bs rest k total.
Proof.
  induction m as [m IH] using lt_wf_ind. intros k rest Hpos Hb Hm.
  rewrite fill_exponential_equation_1.
  destruct (Z_lt_dec (Z.of_nat k) total) as [Hlt|Hge];
    cbn [fill_exponential_unfold_clause_1].
  - set (to_copy := if Z.of_nat k <=? total - Z.of_nat k
                    then Z.of_nat k else total - Z.of_nat k).
    assert (Hc : 0 < to_copy <= Z.of_nat k /\ Z.of_nat k + to_copy <= total).
    { subst to_copy. destruct (Z.leb_spec (Z.of_nat k) (total - Z.of_nat k)); lia. }
    assert (Hj : to_copy = Z.of_nat (Z.to_nat to_copy)) by lia.
    assert (E : Z.of_nat k + to_copy = Z.of_nat (k + Z.to_nat to_copy)) by lia.
    replace (wmul to_copy element_size)
      with (wmul (Z.of_nat (Z.to_nat to_copy)) element_size)
      by (now rewrite <- Hj).
    replace data_start with (data_start + wmul (Z.of_nat 0) element_size) at 2
      by (change (Z.of_nat 0) with 0; rewrite wmul_0_l; lia).
    rewrite (copy_slots rest k (Z.to_nat to_copy) 0) by (trivial; lia).
    destruct (Nat.leb_spec (Z.to_nat to_copy * length bs) (length rest)) as [Hfit|Hfit].
    + generalize (fill_exponential_obligation_1 total (Z.of_nat k) Hlt Hpos
                    (tt, mk_str l (pre ++ rep (k + Z.to_nat to_copy) bs
                            ++ drop (Z.to_nat to_copy * length bs) rest))).
      fold to_copy. rewrite E. intros Hpos'.
      rewrite (IH (Z.to_nat (total - Z.of_nat (k + Z.to_nat to_copy)))).
      * apply filled_to_step; lia.
      * lia.
      * rewrite !length_app, length_rep, length_drop in *. lia.
      * reflexivity.
    + unfold filled_to.
      destruct (Z.leb_spec total (Z.of_nat k)); [lia|].
      destruct (Z.leb_spec ((total - Z.of_nat k) * Z.of_nat (length bs))
                  (Z.of_nat (length rest))); [nia|reflexivity].
  - unfold filled_to. destruct (Z.leb_spec total (Z.of_nat k)); [reflexivity|lia].
Qed.

End FillLoops.

(** Reading the shape leaves the block as it is. *)
Lemma load_state (off n : Z) (s s' : fclib_str_t) (bs : list byte) :
  load off n s = Ok (bs, s') -> s' = s.
Proof.
  unfold load, lift_opt. destruct (mem_load (value s) off n); [|discriminate].
  unfold ret. now intros [= _ <-].
Qed.

Lemma dim_length_state (i : Z) (s s' : fclib_str_t) (d : Z) :
  dim_length i s = Ok (d, s') -> s' = s.
Proof.
  unfold dim_length, bind.
  destruct (load (sizeof_size_t * i) sizeof_size_t s) as [[bs s1]| |] eqn:E;
    try discriminate.
  apply load_state in E as ->. unfold ret. now intros [= _ <-].
Qed.

Lemma count_elements_state (d : Z) (s s' : fclib_str_t) (t : Z) :
  count_elements d s = Ok (t, s') -> s' = s.
Proof.
  unfold count_elements. generalize 0 at 1. generalize 1.
  induction (Z.to_nat d) as [|n IH]; intros acc i; cbn [for_loop].
  - unfold ret. now intros [= _ <-].
  - unfold bind at 1. unfold bind at 1.
    destruct (dim_length i s) as [[x s1]| |] eqn:E; try discriminate.
    apply dim_length_state in E as ->. unfold ret. apply IH.
Qed.

(** Where the seed was stored there is one filled slot. *)
Lemma store_seed (s s' : fclib_str_t) (off : Z) (bs : list byte) :
  store off bs s = Ok (tt, s') ->
  exists pre rest,
    s' = mk_str (len s) (pre ++ rep 1 bs ++ rest)
    /\ off = Z.of_nat (length pre) /\ length (value s') = length (value s).
Proof.
  unfold store. destruct (mem_store (value s) off bs) as [v|] eqn:E; [|discriminate].
  intros [= <-]. pose proof (mem_store_length _ _ _ _ E) as Hl.
  unfold mem_store, in_bounds in E.
  destruct (_ && _ && _) eqn:B; [|discriminate].
  rewrite !andb_true_iff, !Z.leb_le in B. injection E as <-.
  exists (take (Z.to_nat off) (value s)), (drop (Z.to_nat off + length bs) (value s)).
  rewrite rep_1, length_take. cbn [value] in *. repeat split; [lia | assumption].
Qed.

(** The two fill loops agree on every block that fits the address space,
    whether the slots fit the block or not. *)
Lemma fill_loops_agree (data_start element_size total_elements : Z)
    (bs : list byte) (s1 s2 : fclib_str_t) :
  Z.of_nat (length (value s1)) < size_modulus ->
  element_size = Z.of_nat (length bs) ->
  store data_start bs s1 = Ok (tt, s2) ->
  fill_exponential data_start element_size total_elements 1 seq_start s2
  = fill_sequential data_start element_size total_elements s2.
Proof.
  intros Hb -> Hs. destruct (store_seed _ _ _ _ Hs) as (pre & rest & -> & -> & Hl).
  cbn [value] in Hl.
  transitivity (filled_to (len s1) pre bs rest 1 total_elements).
  - apply (fill_exponential_steps (len s1) pre bs total_elements
             (Z.to_nat (total_elements - 1)) 1 rest seq_start); [lia|reflexivity].
  - symmetry. unfold fill_sequential.
    apply (fill_sequential_steps (len s1) pre bs
             (Z.to_nat (total_elements - 1)) 1 total_elements rest); [lia|lia|reflexivity].
Qed.

Lemma fill_hybrid_sequential (data_start element_size total_elements : Z)
    (bs : list byte) (s1 s2 : fclib_str_t) :
  Z.of_nat (length (value s1)) < size_modulus ->
  element_size = Z.of_nat (length bs) ->
  store data_start bs s1 = Ok (tt, s2) ->
  fill_hybrid data_start element_size total_elements s2
  = fill_sequential data_start element_size total_elements s2.
Proof.
  intros. unfold fill_hybrid. destruct (element_size <? 128); [|reflexivity].
  eapply fill_loops_agree; eauto.
Qed.

(** The block [malloc] and [fclib_arr_create] hand out fits the address
    space. *)
Lemma malloc_str_size (uninit : nat -> byte) (n : Z) (arr : fclib_str_t) :
  malloc_str uninit n = Ok arr ->
  sizeof_str + Z.of_nat (length (value arr)) = n.
Proof.
  unfold malloc_str, sizeof_str. destruct (Z.ltb_spec n 8); [discriminate|].
  intros [= <-]. cbn [value]. unfold indeterminate.
  rewrite length_drop, length_map, length_seq. lia.
Qed.

Lemma store_length (off : Z) (bs : list byte) (s s' : fclib_str_t) (u : unit) :
  store off bs s = Ok (u, s') -> length (value s') = length (value s).
Proof.
  unfold store. destruct (mem_store (value s) off bs) eqn:E; [|discriminate].
  intros [= _ <-]. cbn [value]. eapply mem_store_length, E.
Qed.

Lemma create_block_size (uninit : nat -> byte) (dimensionality element_size : Z)
    (lengths : list Z) (arr : fclib_str_t) :
  fclib_arr_create uninit dimensionality element_size lengths = Ok arr ->
  sizeof_str + Z.of_nat (length (value arr)) < size_modulus.
Proof.
  unfold fclib_arr_create.
  destruct (arr_len_loop _ _ _ _) as [arr_len|]; [|discriminate].
  destruct (malloc_str _ _) as [a| |] eqn:Em; try discriminate.
  apply malloc_str_size in Em.
  unfold exec, bind, set_len, memcpy_from, bind, lift_opt.
  destruct (mem_load _ _ _) as [bs|]; [|discriminate]. unfold ret.
  destruct (store 0 bs _) as [[[] s']| |] eqn:Es; try discriminate.
  intros [= <-]. apply store_length in Es. cbn [value] in Es. rewrite Es, Em.
  apply wrap_range.
Qed.

(** The fills agree, as outcomes, on every block that fits the address
    space: all of them fault where the slots do not fit the block or the
    seed object is shorter than an element, and otherwise leave the same
    bytes. *)
Lemma fill_exp_seq_block (element_size : Z) (seed : list byte) (s : fclib_str_t) :
  Z.of_nat (length (value s)) < size_modulus ->
  fclib_arr_fill_exp element_size seed s = fclib_arr_fill_seq element_size seed s.
Proof.
  intros Hb. unfold fclib_arr_fill_exp, fclib_arr_fill_seq, bind, get_len.
  destruct (count_elements (len s) s) as [[t s1]| |] eqn:E; try reflexivity.
  apply count_elements_state in E as ->.
  unfold memcpy_from, bind, lift_opt.
  destruct (mem_load seed 0 element_size) as [bs|] eqn:L; [|reflexivity].
  unfold ret. apply mem_load_length in L as (L & _).
  destruct (store _ bs s) as [[[] s2]| |] eqn:Es; try reflexivity.
  eapply fill_loops_agree; eauto.
Qed.

Lemma fill_inline_seq_block (element_size : Z) (seed : list byte) (s : fclib_str_t) :
  Z.of_nat (length (value s)) < size_modulus ->
  fclib_arr_fill_inline element_size seed s = fclib_arr_fill_seq element_size seed s.
Proof.
  intros Hb. unfold fclib_arr_fill_inline, fclib_arr_fill_seq, bind, get_len.
  destruct (count_elements (len s) s) as [[t s1]| |] eqn:E; try reflexivity.
  apply count_elements_state in E as ->.
  unfold memcpy_from, bind, lift_opt.
  destruct (mem_load seed 0 element_size) as [bs|] eqn:L; [|reflexivity].
  unfold ret. apply mem_load_length in L as (L & _).
  destruct (store _ bs s) as [[[] s2]| |] eqn:Es; try reflexivity.
  eapply fill_hybrid_sequential; eauto.
Qed.

Lemma fill_val_inline (element_size value : Z) (s : fclib_str_t) :
  fclib_arr_fill_val element_size value s
  = fclib_arr_fill_inline element_size (size_t_bytes value) s.
Proof. reflexivity. Qed.

(** ** Valid arrays *)


Lemma count_elements_array_of (dims : list Z) (p : list byte) :
  Forall is_size_t dims -> product dims < size_modulus ->
  count_elements (Z.of_nat (length dims)) (array_of dims p)
  = Ok (product dims, array_of dims p).
Proof.
  intros Hd Hp. rewrite (count_elements_words _ dims p); [|reflexivity|assumption].
  rewrite wproduct_wrap, wrap_small; [reflexivity|].
  split; [now apply product_nonneg | assumption].
Qed.

Lemma bind_ret_unit (c : M unit) (s : fclib_str_t) :
  bind c (fun _ => ret tt) s = c s.
Proof. unfold bind, ret. destruct (c s) as [[[] s']| |]; reflexivity. Qed.










(** ** Access *)

Lemma product_pos (shape indices : list Z) :
  indices_in_bounds shape indices -> 1 <= product shape.
Proof.
  induction 1 as [|i d indices shape Hi _ IH]; [reflexivity|].
  change (product (d :: shape)) with (d * product shape). nia.
Qed.

Lemma flat_offset_from_bound (stride : Z) (shape indices : list Z) :
  0 <= stride -> indices_in_bounds shape indices ->
  0 <= flat_offset_from stride shape indices
  /\ flat_offset_from stride shape indices + stride <= stride * product shape.
Proof.
  intros Hs Hin. revert stride Hs.
  induction Hin as [|i d indices shape Hi Hin IH]; intros stride Hs.
  - cbn. lia.
  - cbn [flat_offset_from]. change (product (d :: shape)) with (d * product shape).
    specialize (IH (stride * d) ltac:(nia)).
    pose proof (product_pos _ _ Hin). nia.
Qed.

Lemma flat_offset_bound (shape indices : list Z) :
  indices_in_bounds shape indices ->
  0 <= flat_offset shape indices < product shape.
Proof.
  intros H. pose proof (flat_offset_from_bound 1 _ _ ltac:(lia) H).
  unfold flat_offset. lia.
Qed.

Section AccessLoop.

Variables (s : fclib_str_t) (dims : list Z) (rest : list byte).
Hypothesis Hvalue : value s = words_bytes dims ++ rest.
Hypothesis Hdims : Forall is_size_t dims.

Lemma access_loop_in_bounds (dims2 indices2 : list Z) :
  indices_in_bounds dims2 indices2 ->
  forall (dims1 indices1 : list Z) (offset stride : Z),
  dims = dims1 ++ dims2 -> length indices1 = length dims1 ->
  0 <= offset < stride -> stride * product dims2 < size_modulus ->
  access_loop (length dims2) (Z.of_nat (length dims1)) (indices1 ++ indices2)
              offset stride s
  = Ok (Some (offset + flat_offset_from stride dims2 indices2), s).
Proof.
  induction 1 as [|i d indices2 dims2 Hi Hin IH];
    intros dims1 indices1 offset stride Hd Hl Ho Hp.
  - cbn. now rewrite Z.add_0_r.
  - cbn [length access_loop flat_offset_from].
    change (product (d :: dims2)) with (d * product dims2) in Hp.
    pose proof (product_pos _ _ Hin) as Hpos.
    rewrite (bind_ok _ _ s s i).
    2:{ rewrite index_lookup, lookup_app_r, Hl, Nat.sub_diag by lia. reflexivity. }
    rewrite (bind_ok _ _ s s d).
    2:{ apply (dim_length_words s dims rest); trivial.
        rewrite Hd, lookup_app_r, Nat.sub_diag by lia. reflexivity. }
    destruct (Z.leb_spec d i); [lia|].
    assert (Hsd0 : 0 <= stride * d) by (apply Z.mul_nonneg_nonneg; lia).
    assert (Hsd : stride * d <= stride * (d * product dims2)).
    { rewrite Z.mul_assoc. rewrite <- (Z.mul_1_r (stride * d)) at 1.
      apply Z.mul_le_mono_nonneg_l; lia. }
    assert (His0 : 0 <= i * stride) by (apply Z.mul_nonneg_nonneg; lia).
    assert (His : (i + 1) * stride <= d * stride)
      by (apply Z.mul_le_mono_nonneg_r; lia).
    rewrite wmul_small, wmul_small, wadd_small by lia.
    replace (Z.of_nat (length dims1) + 1) with (Z.of_nat (length (dims1 ++ [d])))
      by (rewrite length_app; cbn; lia).
    replace (indices1 ++ i :: indices2) with ((indices1 ++ [i]) ++ indices2)
      by (now rewrite <- app_assoc).
    rewrite IH.
    + do 3 f_equal. lia.
    + now rewrite Hd, <- app_assoc.
    + rewrite !length_app. cbn. lia.
    + lia.
    + replace (stride * d * product dims2) with (stride * (d * product dims2))
        by lia. lia.
Qed.

Lemma access_loop_out_of_bounds (n : nat) :
  forall (k : nat) (i d : Z) (start : nat) (indices : list Z) (offset stride : Z),
  (k < n)%nat -> (start + n <= length dims)%nat ->
  length indices = length dims ->
  indices !! (start + k)%nat = Some i -> dims !! (start + k)%nat = Some d ->
  d <= i ->
  access_loop n (Z.of_nat start) indices offset stride s = Ok (None, s).
Proof.
  induction n as [|n IH]; intros k i d start indices offset stride Hk Hn Hl Hi Hd Hle;
    [lia|].
  cbn [access_loop].
  destruct (lookup_lt_is_Some_2 indices start ltac:(lia)) as [i0 Hi0].
  destruct (lookup_lt_is_Some_2 dims start ltac:(lia)) as [d0 Hd0].
  rewrite (bind_ok _ _ s s i0) by (now rewrite index_lookup, Hi0).
  rewrite (bind_ok _ _ s s d0) by (now apply (dim_length_words s dims rest)).
  destruct (Z.leb_spec d0 i0); [reflexivity|].
  destruct k as [|k].
  - rewrite Nat.add_0_r in *.
    assert (i0 = i) by congruence. assert (d0 = d) by congruence. lia.
  - replace (Z.of_nat start + 1) with (Z.of_nat (S start)) by lia.
    apply (IH k i d); try lia; try assumption.
    + now replace (S start + k)%nat with (start + S k)%nat by lia.
    + now replace (S start + k)%nat with (start + S k)%nat by lia.
Qed.

End AccessLoop.

Lemma access_in_bounds (es : Z) (dims : list Z) (p : list byte) (indices : list Z) :
  Forall is_size_t dims -> is_size_t es ->
  product dims < size_modulus ->
  Z.of_nat (length p) = product dims * es ->
  sizeof_str + sizeof_size_t * Z.of_nat (length dims) + Z.of_nat (length p)
    < size_modulus ->
  indices_in_bounds dims indices ->
  fclib_arr_access es indices (array_of dims p)
  = Ok (Ptr (payload_start (array_of dims p) + flat_offset dims indices * es),
        array_of dims p).
Proof.
  intros Hd Hes Hq Hp Hb Hin. unfold fclib_arr_access.
  rewrite (bind_ok get_len _ _ (array_of dims p) (Z.of_nat (length dims)))
    by reflexivity.
  rewrite Nat2Z.id.
  pose proof (access_loop_in_bounds (array_of dims p) dims p eq_refl Hd dims indices
                Hin [] [] 0 1 eq_refl eq_refl ltac:(lia) ltac:(lia)) as H.
  cbn [length app Z.of_nat] in H. rewrite (bind_ok _ _ _ _ _ H).
  unfold ret, payload_start. cbn [len]. rewrite Z.add_0_l.
  pose proof (flat_offset_bound _ _ Hin) as Ho. fold (flat_offset dims indices).
  rewrite wmul_small; [reflexivity|].
  unfold is_size_t, sizeof_str, sizeof_size_t in *. nia.
Qed.

Lemma access_out_of_bounds (es : Z) (dims : list Z) (p : list byte)
    (indices : list Z) :
  Forall is_size_t dims -> index_out_of_bounds dims indices ->
  fclib_arr_access es indices (array_of dims p) = Ok (NULL, array_of dims p).
Proof.
  intros Hd (Hl & k & i & d & Hi & Hk & Hle). unfold fclib_arr_access.
  rewrite (bind_ok get_len _ _ (array_of dims p) (Z.of_nat (length dims)))
    by reflexivity.
  rewrite Nat2Z.id.
  rewrite (bind_ok _ _ _ (array_of dims p) None); [reflexivity|].
  apply (access_loop_out_of_bounds (array_of dims p) dims p eq_refl Hd
           (length dims) k i d 0); trivial.
  apply lookup_lt_Some in Hk. lia.
Qed.

Lemma length_set_slot (es : Z) (p : list byte) (k : Z) (bs : list byte) :
  0 <= es -> 0 <= k -> Z.of_nat (length bs) = es ->
  k * es + es <= Z.of_nat (length p) ->
  length (set_slot es p k bs) = length p.
Proof.
  intros. unfold set_slot. rewrite !length_app, length_take, length_drop. nia.
Qed.

Lemma slots_set_slot (es : Z) (p : list byte) (k : Z) (bs : list byte) :
  0 <= es -> 0 <= k -> Z.of_nat (length bs) = es ->
  k * es + es <= Z.of_nat (length p) ->
  slots es (set_slot es p k bs) k 1 = bs.
Proof.
  intros. unfold slots, set_slot.
  rewrite drop_app_length'; [|rewrite length_take; nia].
  rewrite take_app_length'; [reflexivity|lia].
Qed.

Section Assign.

Variables (es : Z) (dims : list Z) (p : list byte) (indices : list Z).
Hypothesis Hd : Forall is_size_t dims.
Hypothesis Hes : is_size_t es.
Hypothesis Hq : product dims < size_modulus.
Hypothesis Hp : Z.of_nat (length p) = product dims * es.
Hypothesis Hb :
  sizeof_str + sizeof_size_t * Z.of_nat (length dims) + Z.of_nat (length p)
  < size_modulus.
Hypothesis Hin : indices_in_bounds dims indices.

Lemma slot_fits :
  0 <= flat_offset dims indices
  /\ flat_offset dims indices * es + es <= Z.of_nat (length p).
Proof.
  pose proof (flat_offset_bound _ _ Hin). unfold is_size_t in Hes. nia.
Qed.

Lemma store_slot (bs : list byte) :
  Z.of_nat (length bs) = es ->
  store (payload_start (array_of dims p) + flat_offset dims indices * es) bs
        (array_of dims p)
  = Ok (tt, array_of dims (set_slot es p (flat_offset dims indices) bs)).
Proof.
  intros Hl. destruct slot_fits as (Ho & Hfit). unfold is_size_t in Hes.
  set (o := flat_offset dims indices) in *.
  rewrite (store_at _ (words_bytes dims ++ take (Z.to_nat (o * es)) p)
             (take (Z.to_nat es) (drop (Z.to_nat (o * es)) p)) bs
             (drop (Z.to_nat (o * es + es)) p)).
  - unfold array_of, set_slot. cbn [len]. now rewrite <- !app_assoc.
  - cbn [array_of value]. rewrite <- app_assoc. f_equal.
    rewrite <- (take_drop (Z.to_nat (o * es)) p) at 1. f_equal.
    rewrite <- (take_drop (Z.to_nat es) (drop (Z.to_nat (o * es)) p)) at 1.
    f_equal. rewrite drop_drop. f_equal. nia.
  - unfold payload_start, sizeof_size_t. cbn [array_of len].
    rewrite length_app, length_words_bytes, length_take. nia.
  - rewrite length_take, length_drop. nia.
Qed.

Lemma load_slot :
  load (payload_start (array_of dims p) + flat_offset dims indices * es) es
       (array_of dims p)
  = Ok (slots es p (flat_offset dims indices) 1, array_of dims p).
Proof.
  destruct slot_fits as (Ho & Hfit). unfold is_size_t in Hes.
  set (o := flat_offset dims indices) in *.
  apply (load_at _ (words_bytes dims ++ take (Z.to_nat (o * es)) p) _
           (drop (Z.to_nat (o * es + es)) p)).
  - cbn [array_of value]. rewrite <- app_assoc. f_equal.
    rewrite <- (take_drop (Z.to_nat (o * es)) p) at 1. f_equal.
    unfold slots. rewrite Z.mul_1_l.
    rewrite <- (take_drop (Z.to_nat es) (drop (Z.to_nat (o * es)) p)) at 1.
    f_equal. rewrite drop_drop. f_equal. nia.
  - unfold payload_start, sizeof_size_t. cbn [array_of len].
    rewrite length_app, length_words_bytes, length_take. nia.
  - unfold slots. rewrite length_take, length_drop. nia.
Qed.

Lemma assign_at_in_bounds (value : list byte) (bs : list byte) :
  mem_load value 0 es = Some bs ->
  fclib_arr_assign_at es indices value (array_of dims p)
  = Ok (tt, array_of dims (set_slot es p (flat_offset dims indices) bs)).
Proof.
  intros Hl. unfold fclib_arr_assign_at.
  rewrite (bind_ok _ _ _ _ _ (access_in_bounds es dims p indices Hd Hes Hq Hp Hb Hin)).
  unfold memcpy_from. rewrite Hl. unfold lift_opt.
  rewrite (bind_ok _ _ _ (array_of dims p) bs) by reflexivity.
  apply store_slot. now apply mem_load_length in Hl.
Qed.

Lemma access_val_in_bounds (uninit : nat -> byte) :
  es <= sizeof_size_t ->
  fclib_arr_access_val uninit es indices (array_of dims p)
  = Ok (le_decode (slots es p (flat_offset dims indices) 1
                   ++ drop (Z.to_nat es) (indeterminate uninit sizeof_size_t)),
        array_of dims p).
Proof.
  intros Hle. unfold fclib_arr_access_val.
  rewrite (bind_ok _ _ _ _ _ (access_in_bounds es dims p indices Hd Hes Hq Hp Hb Hin)).
  rewrite (bind_ok _ _ _ _ _ load_slot).
  destruct slot_fits as (Ho & Hfit). unfold is_size_t, sizeof_size_t in *.
  assert (Hs : length (slots es p (flat_offset dims indices) 1) = Z.to_nat es).
  { unfold slots. rewrite length_take, length_drop. nia. }
  assert (Hj : length (indeterminate uninit 8) = 8%nat).
  { unfold indeterminate. now rewrite length_map, length_seq. }
  rewrite (mem_store_at _ [] (take (Z.to_nat es) (indeterminate uninit 8))
             (slots es p (flat_offset dims indices) 1)
             (drop (Z.to_nat es) (indeterminate uninit 8))).
  - reflexivity.
  - cbn [app]. now rewrite take_drop.
  - reflexivity.
  - rewrite Hs, length_take. lia.
Qed.

End Assign.

Lemma valid_set_slot (es : Z) (dims : list Z) (p : list byte) (k : Z)
    (bs : list byte) :
  valid_arr es (array_of dims p) -> Forall is_size_t dims ->
  0 <= k -> Z.of_nat (length bs) = es -> k * es + es <= Z.of_nat (length p) ->
  valid_arr es (array_of dims (set_slot es p k bs)).
Proof.
  intros (Hes & Hl & Hv & Hq & Hb) Hd Hk Hbs Hfit.
  rewrite shape_array_of in * by assumption.
  assert (Hls : length (set_slot es p k bs) = length p)
    by (apply length_set_slot; trivial; apply Hes).
  unfold valid_arr. rewrite shape_array_of by assumption.
  unfold payload_start, array_of in *. cbn [len value] in *.
  rewrite length_app in *. rewrite Hls. tauto.
Qed.

(** ** Construction *)

Lemma arr_len_loop_spec (lengths2 : list Z) :
  forall (lengths1 : list Z) (acc : Z),
  arr_len_loop (length lengths2) (Z.of_nat (length lengths1))
               (lengths1 ++ lengths2) acc
  = Some (fold_left wmul lengths2 acc).
Proof.
  induction lengths2 as [|x lengths2 IH]; intros lengths1 acc; [reflexivity|].
  cbn [length arr_len_loop fold_left].
  rewrite index_lookup, lookup_app_r, Nat.sub_diag by lia. cbn [lookup list_lookup].
  replace (Z.of_nat (length lengths1) + 1)
    with (Z.of_nat (length (lengths1 ++ [x]))) by (rewrite length_app; cbn; lia).
  replace (lengths1 ++ x :: lengths2) with ((lengths1 ++ [x]) ++ lengths2)
    by (now rewrite <- app_assoc).
  apply IH.
Qed.

Lemma length_indeterminate (uninit : nat -> byte) (n : Z) :
  length (indeterminate uninit n) = Z.to_nat n.
Proof. unfold indeterminate. now rewrite length_map, length_seq. Qed.

Lemma length_fresh_payload (uninit : nat -> byte) (lengths : list Z) (es : Z) :
  0 <= product lengths * es ->
  Z.of_nat (length (fresh_payload uninit lengths es)) = product lengths * es.
Proof.
  intros H. unfold fresh_payload, sizeof_str, sizeof_size_t.
  rewrite length_drop, length_indeterminate. lia.
Qed.

Lemma create_valid (uninit : nat -> byte) (es : Z) (lengths : list Z) :
  Forall is_size_t lengths -> is_size_t es ->
  product lengths < size_modulus ->
  sizeof_str + sizeof_size_t * Z.of_nat (length lengths) + product lengths * es
    < size_modulus ->
  fclib_arr_create uninit (Z.of_nat (length lengths)) es lengths
  = Ok (array_of lengths (fresh_payload uninit lengths es)).
Proof.
  intros Hd Hes Hq Hb. pose proof (product_nonneg _ Hd) as Hp.
  unfold is_size_t, sizeof_str, sizeof_size_t in *.
  assert (Hpe : 0 <= product lengths * es) by nia.
  unfold fclib_arr_create. rewrite Nat2Z.id.
  pose proof (arr_len_loop_spec lengths [] 1) as E.
  change (Z.of_nat (length (@nil Z))) with 0 in E.
  change ([] ++ lengths) with lengths in E. rewrite E. clear E.
  fold (wproduct lengths). rewrite wproduct_wrap, wrap_small by (unfold is_size_t; lia).
  unfold sizeof_str, sizeof_size_t.
  assert (H8 : 0 <= Z.of_nat (length lengths) * 8 < size_modulus) by lia.
  assert (H9 : 0 <= product lengths * es < size_modulus) by lia.
  rewrite (wmul_small (Z.of_nat _) 8) by exact H8.
  rewrite (wmul_small (product lengths)) by exact H9.
  rewrite (wadd_small 8) by lia. rewrite wadd_small by lia.
  set (n := 8 + Z.of_nat (length lengths) * 8 + product lengths * es).
  unfold malloc_str, sizeof_str. destruct (Z.ltb_spec n 8); [lia|].
  unfold exec, bind, set_len, memcpy_from, bind, lift_opt.
  rewrite (mem_load_at _ [] (words_bytes lengths) []);
    [|now rewrite app_nil_r|reflexivity|rewrite length_words_bytes; lia].
  unfold ret. cbn [value len].
  rewrite (store_at _ [] (take (8 * length lengths) (drop 8 (indeterminate uninit n)))
             (words_bytes lengths)
             (drop (8 * length lengths) (drop 8 (indeterminate uninit n)))).
  - cbn [len app]. unfold array_of. do 3 f_equal.
    unfold fresh_payload, sizeof_str, sizeof_size_t. rewrite drop_drop.
    subst n. f_equal; [lia | f_equal; lia].
  - cbn [value app]. now rewrite take_drop.
  - reflexivity.
  - rewrite length_words_bytes, length_take, length_drop, length_indeterminate. lia.
Qed.

(** Writing the whole payload of an array. *)
Lemma store_payload (dims : list Z) (p bs : list byte) :
  length bs = length p ->
  exec (store (sizeof_size_t * Z.of_nat (length dims)) bs) (array_of dims p)
  = Ok (array_of dims bs).
Proof.
  intros Hl. unfold exec.
  rewrite (store_at _ (words_bytes dims) p bs []).
  - unfold array_of. cbn [len]. now rewrite app_nil_r.
  - cbn [array_of value]. now rewrite app_nil_r.
  - rewrite length_words_bytes. unfold sizeof_size_t. lia.
  - assumption.
Qed.

(** Reading a run of slots of the payload. *)
Lemma load_slots (es : Z) (dims : list Z) (p : list byte) (from n : Z) :
  0 <= es -> 0 <= from -> 0 <= n ->
  (from + n) * es <= Z.of_nat (length p) ->
  load (sizeof_size_t * Z.of_nat (length dims) + from * es) (n * es)
       (array_of dims p)
  = Ok (slots es p from n, array_of dims p).
Proof.
  intros Hes Hf Hn Hfit.
  apply (load_at _ (words_bytes dims ++ take (Z.to_nat (from * es)) p) _
           (drop (Z.to_nat (from * es) + Z.to_nat (n * es)) p)).
  - cbn [array_of value]. rewrite <- app_assoc. f_equal.
    rewrite <- (take_drop (Z.to_nat (from * es)) p) at 1. f_equal.
    unfold slots.
    rewrite <- (take_drop (Z.to_nat (n * es)) (drop (Z.to_nat (from * es)) p)) at 1.
    f_equal. now rewrite drop_drop.
  - unfold sizeof_size_t. rewrite length_app, length_words_bytes, length_take. nia.
  - unfold slots. rewrite length_take, length_drop. nia.
Qed.

Lemma length_slots (es : Z) (p : list byte) (from n : Z) :
  0 <= es -> 0 <= from -> 0 <= n ->
  (from + n) * es <= Z.of_nat (length p) ->
  Z.of_nat (length (slots es p from n)) = n * es.
Proof.
  intros. unfold slots. rewrite length_take, length_drop. nia.
Qed.

(** ** The one-dimensional slice *)

Lemma clamped_to_range (src_len to : Z) :
  is_size_t src_len -> is_size_t to ->
  0 <= clamped_to src_len to <= src_len
  /\ (clamped_to src_len to = 0 -> src_len = 0).
Proof.
  unfold is_size_t, clamped_to. intros Hl Ht. cbv zeta.
  destruct (Z.eqb_spec to 0); rewrite Z.gtb_ltb;
    [destruct (Z.ltb_spec src_len src_len) | destruct (Z.ltb_spec src_len to)]; lia.
Qed.

Lemma slice_1d_array (uninit : nat -> byte) (es from to src_len : Z)
    (p : list byte) :
  is_size_t src_len -> is_size_t es -> is_size_t from -> is_size_t to ->
  Z.of_nat (length p) = src_len * es ->
  sizeof_str + sizeof_size_t * 1 + Z.of_nat (length p) < size_modulus ->
  let real_to := clamped_to src_len to in
  let real_from := clamped_from from real_to in
  (slice_1d_aborts src_len from to ->
   fclib_arr_get_slice_1d uninit es from to (array_of [src_len] p) = Abort)
  /\ (~ slice_1d_aborts src_len from to ->
      fclib_arr_get_slice_1d uninit es from to (array_of [src_len] p)
      = Ok (array_of [real_to - real_from]
                     (slots es p real_from (real_to - real_from)),
            array_of [src_len] p)).
Proof.
  intros Hl Hes Hf Ht Hp Hb real_to real_from.
  destruct (clamped_to_range src_len to Hl Ht) as (Hrt & Hrt0).
  fold real_to in Hrt, Hrt0.
  unfold fclib_arr_get_slice_1d.
  rewrite (bind_ok _ _ _ (array_of [src_len] p) src_len).
  2:{ apply (dim_length_words _ [src_len] p 0); [reflexivity| |reflexivity].
      now constructor. }
  cbv zeta.
  change (if (if to =? 0 then src_len else to) >? src_len
          then src_len else if to =? 0 then src_len else to) with real_to.
  unfold slice_1d_aborts. fold real_to.
  unfold is_size_t, sizeof_str, sizeof_size_t in *.
  destruct (Z.eqb_spec from real_to) as [Heq|Hne].
  { split; [reflexivity | tauto]. }
  assert (Hrf : ((from > real_to /\ real_to = 0) \/
                 (~ (from > real_to /\ real_to = 0)
                  /\ 0 <= real_from < real_to))).
  { subst real_from. unfold clamped_from. rewrite Z.gtb_ltb.
    destruct (Z.ltb_spec real_to from); lia. }
  destruct Hrf as [(Hgt & H0)|(Hn & Hrf)].
  { split; [|tauto]. intros _. rewrite Z.gtb_ltb.
    destruct (Z.ltb_spec real_to from); [|lia].
    destruct (Z.eqb_spec real_to 0); [reflexivity|lia]. }
  split; [tauto|]. intros _.
  rewrite (bind_ok _ _ _ (array_of [src_len] p) real_from).
  2:{ subst real_from. unfold clamped_from. rewrite Z.gtb_ltb.
      destruct (Z.ltb_spec real_to from); [|reflexivity].
      destruct (Z.eqb_spec real_to 0); [lia|].
      rewrite wsub_small by lia. reflexivity. }
  rewrite wsub_small by lia.
  set (n := real_to - real_from).
  assert (Hn1 : 0 < n <= src_len) by lia.
  assert (Hne1 : 0 <= n * es <= src_len * es) by nia.
  assert (Hfe : 0 <= real_from * es /\ (real_from + n) * es <= src_len * es) by nia.
  pose proof (create_valid uninit es [n]) as Hc.
  change (Z.of_nat (length [n])) with 1 in Hc.
  change (product [n]) with (n * 1) in Hc. rewrite Z.mul_1_r in Hc.
  unfold is_size_t, sizeof_str, sizeof_size_t in Hc.
  rewrite Hc; [|constructor; [lia|constructor] | lia | lia | lia]. clear Hc.
  unfold lift_res at 1.
  rewrite (bind_ok _ _ _ (array_of [src_len] p)
             (array_of [n] (fresh_payload uninit [n] es))) by reflexivity.
  rewrite !wmul_small by lia.
  pose proof (load_slots es [src_len] p real_from n) as Hload.
  change (sizeof_size_t * Z.of_nat (length [src_len])) with (8 * 1) in Hload.
  rewrite (bind_ok _ _ _ _ _ (Hload ltac:(lia) ltac:(lia) ltac:(lia) ltac:(lia))).
  pose proof (store_payload [n] (fresh_payload uninit [n] es)
                (slots es p real_from n)) as Hst.
  change (sizeof_size_t * Z.of_nat (length [n])) with (8 * 1) in Hst.
  rewrite Hst; [reflexivity|].
  apply Nat2Z.inj. rewrite length_slots by lia.
  rewrite length_fresh_payload; change (product [n]) with (n * 1); lia.
Qed.

Lemma slice_1d_aborts_dec (src_len from to : Z) :
  slice_1d_aborts src_len from to \/ ~ slice_1d_aborts src_len from to.
Proof. unfold slice_1d_aborts. lia. Qed.

(** ** The general slice: reading the ranges *)

Lemma length_flat_ranges (pairs : list (Z * Z)) :
  length (flat_ranges pairs) = (2 * length pairs)%nat.
Proof.
  unfold flat_ranges. induction pairs as [|r pairs IH]; [reflexivity|].
  cbn [map concat length app]. rewrite IH. lia.
Qed.

Lemma flat_ranges_app (p1 p2 : list (Z * Z)) :
  flat_ranges (p1 ++ p2) = flat_ranges p1 ++ flat_ranges p2.
Proof. unfold flat_ranges. now rewrite map_app, concat_app. Qed.

Lemma flat_range_pairs (n : nat) :
  forall ranges : list Z,
  length ranges = (2 * n)%nat -> flat_ranges (range_pairs ranges) = ranges.
Proof.
  induction n as [|n IH]; intros ranges Hl.
  - destruct ranges; [reflexivity|discriminate].
  - destruct ranges as [|f [|t rest]]; try (cbn in Hl; lia).
    cbn [range_pairs]. change (flat_ranges ((f, t) :: ?l)) with (f :: t :: flat_ranges l).
    rewrite IH; [reflexivity|]. cbn [length] in Hl. lia.
Qed.

Lemma length_range_pairs (n : nat) :
  forall ranges : list Z,
  length ranges = (2 * n)%nat -> length (range_pairs ranges) = n.
Proof.
  induction n as [|n IH]; intros ranges Hl.
  - destruct ranges; [reflexivity|discriminate].
  - destruct ranges as [|f [|t rest]]; try (cbn in Hl; lia).
    cbn [range_pairs length]. rewrite IH; [reflexivity|]. cbn [length] in Hl. lia.
Qed.

Lemma index_flat_ranges (pairs : list (Z * Z)) (i : nat) (r : Z * Z) :
  pairs !! i = Some r ->
  index (flat_ranges pairs) (Z.of_nat i * 2) = Some (fst r)
  /\ index (flat_ranges pairs) (Z.of_nat i * 2 + 1) = Some (snd r).
Proof.
  intros H. rewrite <- (take_drop_middle _ _ _ H), flat_ranges_app.
  change (flat_ranges (r :: ?l)) with (fst r :: snd r :: flat_ranges l).
  assert (Hl : length (flat_ranges (take i pairs)) = (2 * i)%nat).
  { rewrite length_flat_ranges, length_take. apply lookup_lt_Some in H. lia. }
  replace (Z.of_nat i * 2) with (Z.of_nat (2 * i)) by lia.
  replace (Z.of_nat (2 * i) + 1) with (Z.of_nat (S (2 * i))) by lia.
  rewrite !index_lookup. split.
  - rewrite lookup_app_r by lia. now rewrite Hl, Nat.sub_diag.
  - rewrite lookup_app_r by lia. rewrite Hl.
    now replace (S (2 * i) - 2 * i)%nat with 1%nat by lia.
Qed.

Section Validate.

Variables (s : fclib_str_t) (dims : list Z) (rest : list byte).
Variable pairs : list (Z * Z).
Hypothesis Hvalue : value s = words_bytes dims ++ rest.
Hypothesis Hdims : Forall is_size_t dims.
Hypothesis Hlen : length pairs = length dims.

Lemma validate_ranges_spec (dims2 : list Z) :
  forall (dims1 : list Z) (pairs1 pairs2 : list (Z * Z)) (nd : Z),
  dims = dims1 ++ dims2 -> pairs = pairs1 ++ pairs2 ->
  length pairs1 = length dims1 ->
  validate_ranges (length dims2) (Z.of_nat (length dims1)) (flat_ranges pairs)
                  nd s
  = Ok (if all_axes_ok dims2 pairs2 then Some (nd + count_ranges pairs2)
        else None, s).
Proof.
  induction dims2 as [|d dims2 IH]; intros dims1 pairs1 pairs2 nd Hd Hp Hl.
  - cbn. assert (pairs2 = []) as ->.
    { apply length_zero_iff_nil. apply (f_equal length) in Hd, Hp.
      rewrite length_app in *. cbn in Hd. lia. }
    unfold count_ranges. cbn. now rewrite Z.add_0_r.
  - destruct pairs2 as [|r pairs2].
    { apply (f_equal length) in Hd, Hp. rewrite !length_app in *. cbn in *. lia. }
    assert (Hr : pairs !! length dims1 = Some r).
    { rewrite Hp, lookup_app_r, Hl, Nat.sub_diag by lia. reflexivity. }
    destruct (index_flat_ranges _ _ _ Hr) as (Hf & Ht).
    cbn [length validate_ranges all_axes_ok].
    rewrite Hf, Ht. unfold lift_opt.
    rewrite (bind_ok _ _ s s (fst r)) by reflexivity.
    rewrite (bind_ok _ _ s s (snd r)) by reflexivity.
    rewrite (bind_ok _ _ s s d).
    2:{ apply (dim_length_words s dims rest); trivial.
        rewrite Hd, lookup_app_r, Nat.sub_diag by lia. reflexivity. }
    replace (Z.of_nat (length dims1) + 1) with (Z.of_nat (length (dims1 ++ [d])))
      by (rewrite length_app; cbn; lia).
    assert (Hd' : dims = (dims1 ++ [d]) ++ dims2) by (now rewrite <- app_assoc).
    assert (Hp' : pairs = (pairs1 ++ [r]) ++ pairs2) by (now rewrite <- app_assoc).
    assert (Hl' : length (pairs1 ++ [r]) = length (dims1 ++ [d]))
      by (rewrite !length_app; cbn; lia).
    unfold axis_ok, count_ranges. cbn [List.filter].
    assert (Eir : is_range r = negb (fst r =? snd r)) by reflexivity.
    rewrite !Eir. clear Eir.
    destruct (negb (fst r =? snd r)) eqn:Er.
    + destruct (snd r >? d); [reflexivity|].
      destruct (wsub (snd r) (fst r) <? 2); [reflexivity|].
      cbn [negb andb]. rewrite (IH _ _ _ _ Hd' Hp' Hl').
      unfold count_ranges. cbn [length]. do 2 f_equal.
      destruct (all_axes_ok dims2 pairs2); [f_equal; lia|reflexivity].
    + destruct (fst r >=? d); [reflexivity|].
      cbn [negb andb]. now rewrite (IH _ _ _ _ Hd' Hp' Hl').
Qed.

End Validate.

Section SliceSetup.

Variables (s : fclib_str_t) (dims : list Z) (rest : list byte).
Variable pairs : list (Z * Z).
Hypothesis Hvalue : value s = words_bytes dims ++ rest.
Hypothesis Hdims : Forall is_size_t dims.
Hypothesis Hlen : length pairs = length dims.

Lemma fold_range_lengths (l : list (Z * Z)) (acc : list Z) :
  fold_left (fun a r => if is_range r then a ++ [wsub (snd r) (fst r)] else a) l acc
  = acc ++ range_lengths l.
Proof.
  revert acc. induction l as [|r l IH]; intros acc.
  - cbn. now rewrite app_nil_r.
  - cbn [fold_left]. rewrite IH. unfold range_lengths. cbn [List.filter].
    destruct (is_range r); [|reflexivity]. cbn [map]. now rewrite <- app_assoc.
Qed.

Lemma new_lengths_spec :
  new_lengths (Z.of_nat (length dims)) (flat_ranges pairs) s
  = Ok (range_lengths pairs, s).
Proof.
  unfold new_lengths. rewrite Nat2Z.id, <- Hlen.
  rewrite (for_loop_read pairs
             (fun a r => if is_range r then a ++ [wsub (snd r) (fst r)] else a)).
  - now rewrite fold_range_lengths.
  - intros k r a Hk. rewrite Z.add_0_l.
    destruct (index_flat_ranges _ _ _ Hk) as (Hf & Ht). rewrite Hf, Ht.
    unfold lift_opt.
    rewrite (bind_ok _ _ s s (fst r)) by reflexivity.
    rewrite (bind_ok _ _ s s (snd r)) by reflexivity.
    unfold is_range. now destruct (negb (fst r =? snd r)).
Qed.

Lemma fold_snoc_fst (l : list (Z * Z)) (acc : list Z) :
  fold_left (fun a r => a ++ [fst r]) l acc = acc ++ map fst l.
Proof.
  revert acc. induction l as [|r l IH]; intros acc.
  - cbn. now rewrite app_nil_r.
  - cbn [fold_left map]. rewrite IH. now rewrite <- app_assoc.
Qed.

Lemma start_indices_spec :
  start_indices (Z.of_nat (length dims)) (flat_ranges pairs) s
  = Ok (map fst pairs, s).
Proof.
  unfold start_indices. rewrite Nat2Z.id, <- Hlen.
  rewrite (for_loop_read pairs (fun a r => a ++ [fst r])).
  - now rewrite fold_snoc_fst.
  - intros k r a Hk. rewrite Z.add_0_l.
    destruct (index_flat_ranges _ _ _ Hk) as (Hf & Ht). rewrite Hf.
    unfold lift_opt. now rewrite (bind_ok _ _ s s (fst r)) by reflexivity.
Qed.

Lemma result_elements_spec (new_dim_lengths : list Z) :
  result_elements (Z.of_nat (length new_dim_lengths)) new_dim_lengths s
  = Ok (wproduct new_dim_lengths, s).
Proof.
  unfold result_elements. rewrite Nat2Z.id.
  apply (for_loop_read new_dim_lengths wmul). intros k x a Hk.
  rewrite Z.add_0_l, index_lookup, Hk. unfold lift_opt.
  now rewrite (bind_ok _ _ s s x) by reflexivity.
Qed.

Lemma take_snoc (k : nat) (x : Z) :
  dims !! k = Some x -> take (S k) dims = take k dims ++ [x].
Proof. intros H. now apply take_S_r. Qed.

Lemma product_take_le (k : nat) :
  Forall (fun d => 1 <= d) dims -> 1 <= product (take k dims) <= product dims.
Proof.
  intros Hpos. rewrite <- (take_drop k dims) at 3. rewrite product_app.
  assert (H : forall l, Forall (fun d => 1 <= d) l -> 1 <= product l).
  { induction 1 as [|x l Hx _ IH]; [reflexivity|].
    change (product (x :: l)) with (x * product l). nia. }
  pose proof (H _ (Forall_take _ k _ Hpos)).
  pose proof (H _ (Forall_drop _ k _ Hpos)). nia.
Qed.

Lemma source_strides_steps (n : nat) :
  forall i : nat,
  Forall (fun d => 1 <= d) dims -> product dims < size_modulus ->
  (1 <= i)%nat -> (i + n <= length dims)%nat ->
  for_loop n (Z.of_nat i)
    (fun i src_strides =>
       x <- lift_opt (index src_strides (i - 1)) ;;
       d <- dim_length (i - 1) ;;
       ret (src_strides ++ [wmul x d]))
    (map (fun k => product (take k dims)) (seq 0 i)) s
  = Ok (map (fun k => product (take k dims)) (seq 0 (i + n)), s).
Proof.
  induction n as [|n IH]; intros i Hpos Hq Hi Hn.
  - cbn. now rewrite Nat.add_0_r.
  - cbn [for_loop].
    destruct (lookup_lt_is_Some_2 dims (i - 1) ltac:(lia)) as [d Hd].
    replace (Z.of_nat i - 1) with (Z.of_nat (i - 1)) by lia.
    rewrite (bind_ok _ _ s s (map (fun k => product (take k dims)) (seq 0 (i + 1)))).
    + replace (Z.of_nat i + 1) with (Z.of_nat (i + 1)) by lia.
      rewrite IH by (trivial; lia).
      now replace (i + S n)%nat with (i + 1 + n)%nat by lia.
    + rewrite index_lookup, list_lookup_fmap, lookup_seq_lt by lia.
      cbn [fmap option_fmap option_map lift_opt].
      rewrite (bind_ok _ _ s s (product (take (i - 1) dims))) by reflexivity.
      rewrite (bind_ok _ _ s s d)
        by (apply (dim_length_words s dims rest); trivial).
      unfold ret. do 2 f_equal.
      rewrite Nat.add_1_r, seq_S, map_app. cbn [map]. do 2 f_equal.
      replace (0 + i)%nat with (S (i - 1)) by lia.
      rewrite (take_snoc _ _ Hd), product_app.
      change (product [d]) with (d * 1). rewrite Z.mul_1_r.
      apply wmul_small.
      pose proof (product_take_le (S (i - 1)) Hpos) as Hb.
      rewrite (take_snoc _ _ Hd), product_app in Hb.
      change (product [d]) with (d * 1) in Hb. lia.
Qed.

Lemma source_strides_spec :
  Forall (fun d => 1 <= d) dims -> product dims < size_modulus ->
  (1 <= length dims)%nat ->
  source_strides (Z.of_nat (length dims)) s = Ok (strides dims, s).
Proof.
  intros Hpos Hq Hl. unfold source_strides, strides.
  pose proof (source_strides_steps (length dims - 1) 1 Hpos Hq) as H.
  change (Z.of_nat 1) with 1 in H.
  replace (Z.to_nat (Z.of_nat (length dims) - 1)) with (length dims - 1)%nat by lia.
  change (map _ (seq 0 1)) with [1] in H.
  rewrite H by lia.
  now replace (1 + (length dims - 1))%nat with (length dims) by lia.
Qed.

End SliceSetup.

(** ** The general slice: the copy loop *)

Lemma fold_offset (dims2 cur2 : list Z) :
  indices_in_bounds dims2 cur2 ->
  forall (dims1 : list Z) (acc : Z),
  0 <= acc < product dims1 ->
  product dims1 * product dims2 < size_modulus ->
  fold_left (fun a cs => wadd a (wmul (fst cs) (snd cs)))
    (zip cur2 (map (fun k => product (take k (dims1 ++ dims2)))
                   (seq (length dims1) (length dims2)))) acc
  = acc + flat_offset_from (product dims1) dims2 cur2.
Proof.
  induction 1 as [|c d cur2 dims2 Hc Hin IH]; intros dims1 acc Ha Hq.
  - cbn. lia.
  - cbn [length seq map zip zip_with fold_left flat_offset_from fst snd].
    rewrite take_app_length.
    change (product (d :: dims2)) with (d * product dims2) in Hq.
    pose proof (product_pos _ _ Hin) as Hpos.
    set (st := product dims1) in *.
    assert (Hsd0 : 0 <= st * d) by (apply Z.mul_nonneg_nonneg; lia).
    assert (Hsd : st * d <= st * (d * product dims2)).
    { rewrite Z.mul_assoc. rewrite <- (Z.mul_1_r (st * d)) at 1.
      apply Z.mul_le_mono_nonneg_l; lia. }
    assert (His0 : 0 <= c * st) by (apply Z.mul_nonneg_nonneg; lia).
    assert (His : (c + 1) * st <= d * st)
      by (apply Z.mul_le_mono_nonneg_r; lia).
    rewrite wmul_small, wadd_small by lia.
    specialize (IH (dims1 ++ [d]) (acc + c * st)).
    rewrite product_app in IH. change (product [d]) with (d * 1) in IH.
    rewrite Z.mul_1_r, length_app, <- app_assoc in IH. cbn [length app] in IH.
    rewrite Nat.add_1_r in IH. fold st in IH.
    rewrite IH; [lia | lia |].
    replace (st * d * product dims2) with (st * (d * product dims2)) by lia. lia.
Qed.

Lemma source_offset_spec (s : fclib_str_t) (dims cur : list Z) :
  indices_in_bounds dims cur -> product dims < size_modulus ->
  source_offset (Z.of_nat (length dims)) cur (strides dims) s
  = Ok (flat_offset dims cur, s).
Proof.
  intros Hin Hq. unfold source_offset. rewrite Nat2Z.id.
  assert (Hl : length cur = length dims) by (eapply Forall2_length, Hin).
  assert (Hz : length (zip cur (strides dims)) = length dims).
  { rewrite length_zip_with. unfold strides. rewrite length_map, length_seq. lia. }
  rewrite <- Hz.
  rewrite (for_loop_read (zip cur (strides dims))
             (fun a cs => wadd a (wmul (fst cs) (snd cs)))).
  - pose proof (fold_offset dims cur Hin [] 0) as H.
    change (product []) with 1 in H. cbn [app length] in H.
    unfold strides. rewrite H by lia. reflexivity.
  - intros k [c st] a Hk. rewrite Z.add_0_l.
    apply lookup_zip_with_Some in Hk as (c' & st' & [= <- <-] & Hc & Hst).
    rewrite !index_lookup, Hc, Hst. unfold lift_opt.
    rewrite (bind_ok _ _ s s c) by reflexivity.
    now rewrite (bind_ok _ _ s s st) by reflexivity.
Qed.

Section Advance.

Variables (s : fclib_str_t) (pairs : list (Z * Z)) (start_dim : nat).
Hypothesis Hpairs :
  Forall (fun r => 0 <= fst r /\ fst r <= snd r < size_modulus) pairs.

Lemma range_width (i : nat) (r : Z * Z) :
  pairs !! i = Some r -> is_range r = true ->
  0 <= fst r < snd r /\ snd r < size_modulus.
Proof.
  intros Hi Hr. rewrite Forall_forall in Hpairs.
  pose proof (Hpairs r (list_elem_of_lookup_2 _ _ _ Hi)).
  unfold is_range in Hr. destruct (Z.eqb_spec (fst r) (snd r)); [discriminate|lia].
Qed.

Lemma chunk_rank_insert (k j : nat) (x : Z) (cur : list Z) :
  (k <= j)%nat ->
  chunk_rank k start_dim pairs (<[j := x]> cur) = chunk_rank k start_dim pairs cur.
Proof.
  induction k as [|i IH]; intros Hj; [reflexivity|].
  cbn [chunk_rank]. destruct (i <? start_dim)%nat; [reflexivity|].
  rewrite list_lookup_insert_ne by lia. rewrite IH by lia. reflexivity.
Qed.

Lemma chunk_rank_start (k : nat) :
  chunk_rank k start_dim pairs (map fst pairs) = 0.
Proof.
  induction k as [|i IH]; [reflexivity|].
  cbn [chunk_rank]. destruct (i <? start_dim)%nat; [reflexivity|].
  rewrite list_lookup_fmap. destruct (pairs !! i) as [r|]; [|reflexivity].
  cbn. rewrite IH. destruct (is_range r); lia.
Qed.

Lemma indices_in_ranges_insert (cur : list Z) (i : nat) (r : Z * Z) (x : Z) :
  indices_in_ranges pairs cur -> pairs !! i = Some r -> index_in_range x r ->
  indices_in_ranges pairs (<[i := x]> cur).
Proof.
  intros Hin Hi Hx. unfold indices_in_ranges.
  rewrite <- (list_insert_id pairs i r Hi). now apply Forall2_insert.
Qed.

Lemma advance_indices_spec (k : nat) :
  forall cur : list Z,
  (k <= length pairs)%nat -> indices_in_ranges pairs cur ->
  chunk_rank k start_dim pairs cur + 1 < chunk_count k start_dim pairs ->
  advance_indices k (Z.of_nat start_dim) (flat_ranges pairs) cur s
  = Ok (next_indices k start_dim pairs cur, s)
  /\ indices_in_ranges pairs (next_indices k start_dim pairs cur)
  /\ chunk_rank k start_dim pairs (next_indices k start_dim pairs cur)
     = chunk_rank k start_dim pairs cur + 1
  /\ (forall j, (k <= j)%nat -> next_indices k start_dim pairs cur !! j = cur !! j)
  /\ (forall j, (j < start_dim)%nat ->
                next_indices k start_dim pairs cur !! j = cur !! j).
Proof.
  induction k as [|i IH]; intros cur Hk Hin Hrank.
  - cbn in Hrank. lia.
  - cbn [advance_indices next_indices chunk_rank chunk_count] in *.
    replace (Z.of_nat i <? Z.of_nat start_dim) with (i <? start_dim)%nat
      by (destruct (Nat.ltb_spec i start_dim), (Z.ltb_spec (Z.of_nat i) (Z.of_nat start_dim)); lia).
    destruct (Nat.ltb_spec i start_dim) as [Hlt|Hge]; [lia|].
    destruct (lookup_lt_is_Some_2 pairs i ltac:(lia)) as [r Hr].
    assert (Hlc : length cur = length pairs) by (eapply Forall2_length, Hin).
    destruct (lookup_lt_is_Some_2 cur i ltac:(lia)) as [c Hc].
    rewrite Hr, Hc in *.
    destruct (index_flat_ranges _ _ _ Hr) as (Hf & Ht). rewrite Hf, Ht.
    unfold lift_opt.
    rewrite (bind_ok _ _ s s (fst r)) by reflexivity.
    rewrite (bind_ok _ _ s s (snd r)) by reflexivity.
    assert (Hci : index_in_range c r)
      by (eapply Forall2_lookup_lr; [exact Hin| exact Hc | exact Hr]).
    assert (Eir : negb (fst r =? snd r) = is_range r) by reflexivity.
    rewrite Eir. unfold index_in_range in Hci.
    destruct (is_range r) eqn:Er.
    + destruct (range_width i r Hr Er) as (Hw & Hm).
      rewrite index_lookup, Hc.
      rewrite (bind_ok _ _ s s c) by reflexivity.
      rewrite wadd_small by lia.
      destruct (Z.ltb_spec (c + 1) (snd r)) as [Hbr|Hwrap].
      * split; [reflexivity|]. split; [|split; [|split]].
        -- eapply indices_in_ranges_insert; eauto.
           unfold index_in_range. rewrite Er. lia.
        -- rewrite list_lookup_insert_eq by lia.
           rewrite chunk_rank_insert by lia. lia.
        -- intros j Hj. apply list_lookup_insert_ne. lia.
        -- intros j Hj. apply list_lookup_insert_ne. lia.
      * assert (Hin1 : indices_in_ranges pairs (<[i := fst r]> cur)).
        { eapply indices_in_ranges_insert; eauto.
          unfold index_in_range. rewrite Er. lia. }
        destruct (IH (<[i := fst r]> cur) ltac:(lia) Hin1) as (E & Hin' & Hrk & Hhi & Hlo).
        { rewrite chunk_rank_insert by lia. nia. }
        split; [exact E|]. split; [exact Hin'|]. split; [|split].
        -- rewrite (Hhi i) by lia. rewrite list_lookup_insert_eq by lia.
           rewrite Hrk, chunk_rank_insert by lia. nia.
        -- intros j Hj. rewrite Hhi by lia. apply list_lookup_insert_ne. lia.
        -- intros j Hj. rewrite Hlo by lia. apply list_lookup_insert_ne. lia.
    + destruct (IH cur ltac:(lia) Hin Hrank) as (E & Hin' & Hrk & Hhi & Hlo).
      split; [exact E|]. split; [exact Hin'|]. split; [|split].
      * rewrite (Hhi i), Hc by lia. exact Hrk.
      * intros j Hj. apply Hhi. lia.
      * exact Hlo.
Qed.

End Advance.

(** ** The general slice: selected ranges *)

Lemma axis_selected_ok (d : Z) (r : Z * Z) :
  is_size_t d -> axis_selected d r -> axis_ok d r = true.
Proof.
  unfold is_size_t, axis_selected, axis_ok, is_range. intros Hd (H0 & H).
  destruct (Z.eqb_spec (fst r) (snd r)) as [E|E]; cbn [negb].
  - destruct (Z.geb_spec (fst r) d); [lia|reflexivity].
  - rewrite Z.gtb_ltb. destruct (Z.ltb_spec d (snd r)); [lia|].
    rewrite wsub_small by lia.
    destruct (Z.ltb_spec (snd r - fst r) 2); [lia|reflexivity].
Qed.

Lemma ranges_selected_ok (dims : list Z) (pairs : list (Z * Z)) :
  Forall is_size_t dims -> ranges_selected dims pairs ->
  all_axes_ok dims pairs = true.
Proof.
  intros Hd Hs. induction Hs as [|d r dims pairs Hr Hs IH]; [reflexivity|].
  inversion Hd; subst. cbn [all_axes_ok].
  rewrite axis_selected_ok, IH by assumption. reflexivity.
Qed.

Lemma ranges_selected_bounds (dims : list Z) (pairs : list (Z * Z)) :
  Forall is_size_t dims -> ranges_selected dims pairs ->
  Forall (fun r => 0 <= fst r /\ fst r <= snd r < size_modulus) pairs.
Proof.
  intros Hd Hs. induction Hs as [|d r dims pairs Hr Hs IH]; [constructor|].
  inversion Hd as [|? ? Hd0 Hd']; subst. constructor; [|now apply IH].
  unfold is_size_t, axis_selected in *. lia.
Qed.

Lemma ranges_selected_dims (dims : list Z) (pairs : list (Z * Z)) :
  ranges_selected dims pairs -> Forall (fun d => 1 <= d) dims.
Proof.
  induction 1 as [|d r dims pairs Hr Hs IH]; constructor; [|assumption].
  unfold axis_selected in Hr. lia.
Qed.

Lemma indices_in_ranges_bounds (dims : list Z) (pairs : list (Z * Z))
    (cur : list Z) :
  ranges_selected dims pairs -> indices_in_ranges pairs cur ->
  indices_in_bounds dims cur.
Proof.
  intros Hs. revert cur. induction Hs as [|d r dims pairs Hr Hs IH]; intros cur Hin.
  - inversion Hin. constructor.
  - inversion Hin as [|c ? cur' ? Hc Hin']; subst. constructor; [|now apply IH].
    unfold axis_selected, index_in_range, is_range in *.
    destruct (Z.eqb_spec (fst r) (snd r)); cbn [negb] in Hc; lia.
Qed.

Lemma range_lengths_cons (r : Z * Z) (pairs : list (Z * Z)) :
  range_lengths (r :: pairs)
  = if is_range r then wsub (snd r) (fst r) :: range_lengths pairs
    else range_lengths pairs.
Proof. unfold range_lengths. cbn [List.filter]. now destruct (is_range r). Qed.

Lemma range_lengths_app (p1 p2 : list (Z * Z)) :
  range_lengths (p1 ++ p2) = range_lengths p1 ++ range_lengths p2.
Proof.
  unfold range_lengths. now rewrite List.filter_app, map_app.
Qed.

Lemma length_range_lengths (pairs : list (Z * Z)) :
  Z.of_nat (length (range_lengths pairs)) = count_ranges pairs.
Proof. unfold range_lengths, count_ranges. now rewrite length_map. Qed.

Lemma range_lengths_selected (dims : list Z) (pairs : list (Z * Z)) :
  Forall is_size_t dims -> ranges_selected dims pairs ->
  Forall is_size_t (range_lengths pairs)
  /\ 1 <= product (range_lengths pairs) <= product dims.
Proof.
  intros Hd Hs. induction Hs as [|d r dims pairs Hr Hs IH].
  - split; [constructor|]. cbn. lia.
  - inversion Hd as [|? ? Hd0 Hd']; subst. destruct (IH Hd') as (IH1 & IH2).
    rewrite range_lengths_cons.
    change (product (d :: dims)) with (d * product dims).
    unfold is_size_t, axis_selected, is_range in *.
    destruct (Z.eqb_spec (fst r) (snd r)); cbn [negb].
    + split; [assumption|]. nia.
    + rewrite wsub_small by lia. split; [constructor; [lia|assumption]|].
      change (product (?x :: ?l)) with (x * product l). nia.
Qed.

(** The number of chunks and the size of a chunk make up the result. *)
Lemma chunk_count_all (pairs : list (Z * Z)) (k : nat) :
  Forall (fun r => 0 <= fst r /\ fst r <= snd r < size_modulus) pairs ->
  (k <= length pairs)%nat ->
  chunk_count k 0 pairs = product (range_lengths (take k pairs)).
Proof.
  intros Hp. induction k as [|i IH]; intros Hk; [reflexivity|].
  cbn [chunk_count]. change (i <? 0)%nat with false. cbv iota.
  destruct (lookup_lt_is_Some_2 pairs i ltac:(lia)) as [r Hr]. rewrite Hr.
  rewrite (take_S_r _ _ _ Hr), range_lengths_app, product_app, IH by lia.
  rewrite range_lengths_cons. change (range_lengths []) with (@nil Z).
  rewrite Forall_forall in Hp.
  pose proof (Hp r (list_elem_of_lookup_2 _ _ _ Hr)).
  destruct (is_range r).
  - rewrite wsub_small by lia. change (product [?x]) with (x * 1). lia.
  - change (product []) with 1. lia.
Qed.

Lemma chunk_count_S (i start_dim : nat) (pairs : list (Z * Z)) :
  chunk_count (S i) start_dim pairs
  = if (i <? start_dim)%nat then 1
    else match pairs !! i with
         | Some r =>
             if is_range r
             then chunk_count i start_dim pairs * (snd r - fst r)
             else chunk_count i start_dim pairs
         | None => 1
         end.
Proof. reflexivity. Qed.

Lemma chunk_count_skip_first (r0 : Z * Z) (pairs : list (Z * Z)) (k : nat) :
  (1 <= k <= S (length pairs))%nat ->
  chunk_count k 0 (r0 :: pairs)
  = (if is_range r0 then snd r0 - fst r0 else 1) * chunk_count k 1 (r0 :: pairs).
Proof.
  induction k as [|i IH]; intros Hk; [lia|].
  destruct i as [|i].
  - cbn. destruct (is_range r0); lia.
  - rewrite (chunk_count_S (S i) 0), (chunk_count_S (S i) 1).
    change (S i <? 0)%nat with false. change (S i <? 1)%nat with false. cbv iota.
    destruct (lookup_lt_is_Some_2 (r0 :: pairs) (S i) ltac:(cbn; lia)) as [r Hr].
    rewrite Hr. destruct (is_range r); rewrite IH by lia; lia.
Qed.

Lemma indices_at_S (start_dim : nat) (pairs : list (Z * Z)) (c : nat) :
  indices_at start_dim pairs (S c)
  = next_indices (length pairs) start_dim pairs (indices_at start_dim pairs c).
Proof. reflexivity. Qed.

Section Enumeration.

Variables (s : fclib_str_t) (dims : list Z) (pairs : list (Z * Z)).
Hypothesis Hdims : Forall is_size_t dims.
Hypothesis Hsel : ranges_selected dims pairs.

Lemma start_in_ranges : indices_in_ranges pairs (map fst pairs).
Proof.
  pose proof (ranges_selected_bounds _ _ Hdims Hsel) as Hb.
  unfold indices_in_ranges. clear Hsel. induction Hb as [|r l Hr Hb IH]; [constructor|].
  cbn [map]. constructor; [|exact IH].
  unfold index_in_range, is_range.
  destruct (Z.eqb_spec (fst r) (snd r)); cbn [negb]; lia.
Qed.

Lemma indices_at_spec (c : nat) :
  Z.of_nat c < slice_chunks pairs ->
  indices_in_ranges pairs (indices_at (slice_start_dim pairs) pairs c)
  /\ chunk_rank (length pairs) (slice_start_dim pairs) pairs (indices_at (slice_start_dim pairs) pairs c)
     = Z.of_nat c
  /\ (forall j, (j < (slice_start_dim pairs))%nat ->
                indices_at (slice_start_dim pairs) pairs c !! j = map fst pairs !! j).
Proof.
  pose proof (ranges_selected_bounds _ _ Hdims Hsel) as Hb.
  induction c as [|c IH]; intros Hc.
  - split; [apply start_in_ranges|]. split; [apply chunk_rank_start|]. reflexivity.
  - destruct (IH ltac:(lia)) as (Hin & Hrk & Hlo).
    destruct (advance_indices_spec s pairs (slice_start_dim pairs) Hb (length pairs)
                (indices_at (slice_start_dim pairs) pairs c) ltac:(lia) Hin)
      as (_ & Hin' & Hrk' & _ & Hlo').
    { rewrite Hrk. unfold slice_chunks in Hc. lia. }
    rewrite indices_at_S. split; [exact Hin'|]. split.
    + rewrite Hrk', Hrk. lia.
    + intros j Hj. rewrite Hlo' by exact Hj. now apply Hlo.
Qed.

Lemma advance_indices_at (c : nat) :
  Z.of_nat c + 1 < slice_chunks pairs ->
  advance_indices (length pairs) (Z.of_nat (slice_start_dim pairs)) (flat_ranges pairs)
                  (indices_at (slice_start_dim pairs) pairs c) s
  = Ok (indices_at (slice_start_dim pairs) pairs (S c), s).
Proof.
  intros Hc. pose proof (ranges_selected_bounds _ _ Hdims Hsel) as Hb.
  destruct (indices_at_spec c ltac:(lia)) as (Hin & Hrk & _).
  destruct (advance_indices_spec s pairs (slice_start_dim pairs) Hb (length pairs)
              (indices_at (slice_start_dim pairs) pairs c) ltac:(lia) Hin) as (E & _).
  { rewrite Hrk. unfold slice_chunks in Hc. lia. }
  rewrite indices_at_S. exact E.
Qed.

(** A chunk lies within the payload of the source. *)
Lemma chunk_fits (cur : list Z) :
  indices_in_ranges pairs cur ->
  (forall j, (j < (slice_start_dim pairs))%nat -> cur !! j = map fst pairs !! j) ->
  0 <= flat_offset dims cur
  /\ flat_offset dims cur + slice_chunk_size pairs <= product dims
  /\ 0 < slice_chunk_size pairs.
Proof.
  intros Hin Hlo.
  pose proof (indices_in_ranges_bounds _ _ _ Hsel Hin) as Hbd.
  pose proof (flat_offset_bound _ _ Hbd) as Ho.
  unfold slice_start_dim, slice_chunk_size, first_is_range in *.
  destruct Hsel as [|d r dims' pairs' Hr Hs']; [lia|].
  destruct (is_range r) eqn:Er; [|lia].
  specialize (Hlo 0%nat ltac:(lia)).
  inversion Hin as [|c ? cur' ? Hc Hin']; subst. cbn in Hlo. injection Hlo as ->.
  unfold axis_selected, is_range in *.
  destruct (Z.eqb_spec (fst r) (snd r)); [discriminate|].
  assert (Hbd' : indices_in_bounds (d :: dims') (snd r - 1 :: cur')).
  { inversion Hbd; subst. constructor; [lia|assumption]. }
  pose proof (flat_offset_bound _ _ Hbd') as Ho'.
  unfold flat_offset in *. cbn [flat_offset_from] in *. lia.
Qed.

End Enumeration.

Section CopyLoop.

Variables (es : Z) (dims : list Z) (p : list byte) (pairs : list (Z * Z)).
Hypothesis Hdims : Forall is_size_t dims.
Hypothesis Hes : is_size_t es.
Hypothesis Hq : product dims < size_modulus.
Hypothesis Hp : Z.of_nat (length p) = product dims * es.
Hypothesis Hb :
  sizeof_str + sizeof_size_t * Z.of_nat (length dims) + Z.of_nat (length p)
  < size_modulus.
Hypothesis Hsel : ranges_selected dims pairs.

Lemma chunks_total :
  slice_chunk_size pairs * slice_chunks pairs = product (range_lengths pairs)
  /\ 0 < slice_chunk_size pairs /\ 0 < slice_chunks pairs.
Proof.
  pose proof (ranges_selected_bounds _ _ Hdims Hsel) as Hbd.
  pose proof (range_lengths_selected _ _ Hdims Hsel) as (_ & Hprod).
  pose proof (chunk_count_all pairs (length pairs) Hbd ltac:(lia)) as Hall.
  rewrite firstn_all in Hall.
  unfold slice_chunks, slice_chunk_size, slice_start_dim, first_is_range.
  destruct pairs as [|r0 pairs'].
  - cbn. lia.
  - pose proof (chunk_count_skip_first r0 pairs' (length (r0 :: pairs'))
                  ltac:(cbn [length]; lia)) as Hskip.
    inversion Hbd as [|? ? Hr0 _]; subst.
    assert (Hw : is_range r0 = true -> 0 < snd r0 - fst r0).
    { unfold is_range. destruct (Z.eqb_spec (fst r0) (snd r0)); [discriminate|lia]. }
    destruct (is_range r0); [specialize (Hw eq_refl); nia | lia].
Qed.

Lemma chunks_written_S (c : nat) :
  chunks_written es dims p pairs (S c)
  = chunks_written es dims p pairs c ++ chunk_bytes es dims p pairs c.
Proof.
  unfold chunks_written. rewrite seq_S, map_app, concat_app. cbn [map concat].
  now rewrite app_nil_r.
Qed.

Lemma length_chunk_bytes (c : nat) :
  Z.of_nat c < slice_chunks pairs ->
  Z.of_nat (length (chunk_bytes es dims p pairs c)) = slice_chunk_size pairs * es.
Proof.
  intros Hc. destruct (indices_at_spec (array_of dims p) dims pairs Hdims Hsel c Hc)
    as (Hin & _ & Hlo).
  destruct (chunk_fits dims pairs Hdims Hsel _ Hin Hlo) as (Ho & Hfit & Hpos).
  unfold chunk_bytes. unfold is_size_t in Hes. apply length_slots; nia.
Qed.

Lemma length_chunks_written (c : nat) :
  Z.of_nat c <= slice_chunks pairs ->
  Z.of_nat (length (chunks_written es dims p pairs c))
  = Z.of_nat c * slice_chunk_size pairs * es.
Proof.
  induction c as [|c IH]; intros Hc; [reflexivity|].
  rewrite chunks_written_S, length_app, Nat2Z.inj_add, IH, length_chunk_bytes by lia.
  lia.
Qed.

Lemma copy_chunk_step (c : nat) (rest : list byte) :
  Z.of_nat c < slice_chunks pairs ->
  slice_chunk_size pairs * es <= Z.of_nat (length rest) ->
  copy_chunk es (Z.of_nat (length dims)) (Z.of_nat (length (range_lengths pairs)))
    (first_is_range pairs) (slice_chunk_size pairs) (flat_ranges pairs)
    (strides dims) (Z.of_nat c)
    (indices_at (slice_start_dim pairs) pairs (pred c),
     Z.of_nat c * slice_chunk_size pairs,
     array_of (range_lengths pairs) (chunks_written es dims p pairs c ++ rest))
    (array_of dims p)
  = Ok ((indices_at (slice_start_dim pairs) pairs c,
         Z.of_nat (S c) * slice_chunk_size pairs,
         array_of (range_lengths pairs)
           (chunks_written es dims p pairs (S c)
            ++ drop (Z.to_nat (slice_chunk_size pairs * es)) rest)),
        array_of dims p).
Proof.
  intros Hc Hrest. set (src := array_of dims p).
  assert (Hl : length pairs = length dims) by (symmetry; eapply Forall2_length, Hsel).
  destruct chunks_total as (Htot & Hcpos & Hnpos).
  pose proof (range_lengths_selected _ _ Hdims Hsel) as (_ & Hprod).
  destruct (indices_at_spec src dims pairs Hdims Hsel c Hc) as (Hin & _ & Hlo).
  destruct (chunk_fits dims pairs Hdims Hsel _ Hin Hlo) as (Ho & Hfit & _).
  pose proof (indices_in_ranges_bounds _ _ _ Hsel Hin) as Hbd.
  unfold is_size_t, sizeof_str, sizeof_size_t in *.
  set (chunk := slice_chunk_size pairs) in *.
  set (N := slice_chunks pairs) in *.
  assert (Hcn : (Z.of_nat c + 1) * chunk <= chunk * N) by nia.
  unfold copy_chunk.
  rewrite (bind_ok _ _ _ src (indices_at (slice_start_dim pairs) pairs c)).
  2:{ destruct c as [|c'].
      - reflexivity.
      - replace (Z.of_nat (S c') >? 0) with true by (symmetry; apply Z.gtb_lt; lia).
        rewrite Nat2Z.id, <- Hl.
        replace (if first_is_range pairs then 1 else 0)
          with (Z.of_nat (slice_start_dim pairs))
          by (unfold slice_start_dim; now destruct (first_is_range pairs)).
        cbn [pred]. apply (advance_indices_at src dims pairs Hdims Hsel). lia. }
  rewrite (bind_ok _ _ _ _ _ (source_offset_spec src dims _ Hbd Hq)).
  set (off := flat_offset dims (indices_at (slice_start_dim pairs) pairs c)) in *.
  assert (Hpe : 0 <= product dims * es) by lia.
  assert (Hce : (Z.of_nat c + 1) * chunk * es <= product dims * es)
    by (apply Z.mul_le_mono_nonneg_r; lia).
  assert (Hoe : (off + chunk) * es <= product dims * es)
    by (apply Z.mul_le_mono_nonneg_r; lia).
  assert (Hce0 : 0 <= Z.of_nat c * chunk * es)
    by (apply Z.mul_nonneg_nonneg; [apply Z.mul_nonneg_nonneg|]; lia).
  assert (Hoe0 : 0 <= off * es) by (apply Z.mul_nonneg_nonneg; lia).
  assert (Hche0 : 0 <= chunk * es) by (apply Z.mul_nonneg_nonneg; lia).
  rewrite (wmul_small off es) by lia.
  rewrite (wmul_small chunk es) by lia.
  rewrite (wmul_small (Z.of_nat c * chunk) es) by lia.
  rewrite (bind_ok _ _ _ _ _ (load_slots es dims p off chunk
             ltac:(lia) ltac:(lia) ltac:(lia) ltac:(lia))).
  fold (chunk_bytes es dims p pairs c).
  pose proof (length_chunks_written c ltac:(lia)) as Hlw.
  pose proof (length_chunk_bytes c Hc) as Hlc. fold chunk in Hlw, Hlc.
  unfold lift_res, exec.
  rewrite (store_at _ (words_bytes (range_lengths pairs)
                       ++ chunks_written es dims p pairs c)
             (take (Z.to_nat (chunk * es)) rest)
             (chunk_bytes es dims p pairs c)
             (drop (Z.to_nat (chunk * es)) rest)).
  - rewrite (bind_ok _ _ _ src
               (array_of (range_lengths pairs)
                  (chunks_written es dims p pairs (S c)
                   ++ drop (Z.to_nat (chunk * es)) rest))).
    + unfold ret. rewrite wadd_small by lia.
      now replace (Z.of_nat (S c) * chunk) with (Z.of_nat c * chunk + chunk) by lia.
    + cbn [len array_of]. rewrite chunks_written_S, <- !app_assoc. reflexivity.
  - cbn [value array_of]. rewrite take_drop, <- app_assoc. reflexivity.
  - rewrite length_app, length_words_bytes. unfold sizeof_size_t. lia.
  - rewrite length_take. lia.
Qed.

Lemma copy_loop (n : nat) :
  forall (c : nat) (rest : list byte),
  Z.of_nat (c + n) <= slice_chunks pairs ->
  Z.of_nat (length rest) = Z.of_nat n * slice_chunk_size pairs * es ->
  for_loop n (Z.of_nat c)
    (copy_chunk es (Z.of_nat (length dims))
       (Z.of_nat (length (range_lengths pairs))) (first_is_range pairs)
       (slice_chunk_size pairs) (flat_ranges pairs) (strides dims))
    (indices_at (slice_start_dim pairs) pairs (pred c),
     Z.of_nat c * slice_chunk_size pairs,
     array_of (range_lengths pairs) (chunks_written es dims p pairs c ++ rest))
    (array_of dims p)
  = Ok ((indices_at (slice_start_dim pairs) pairs (pred (c + n)),
         Z.of_nat (c + n) * slice_chunk_size pairs,
         array_of (range_lengths pairs) (chunks_written es dims p pairs (c + n))),
        array_of dims p).
Proof.
  induction n as [|n IH]; intros c rest Hc Hrest.
  - assert (rest = []) as -> by (apply length_zero_iff_nil; lia).
    cbn [for_loop]. now rewrite Nat.add_0_r, app_nil_r.
  - cbn [for_loop].
    destruct chunks_total as (_ & Hcpos & _). unfold is_size_t in Hes.
    rewrite (bind_ok _ _ _ _ _ (copy_chunk_step c rest ltac:(lia) ltac:(nia))).
    replace (Z.of_nat c + 1) with (Z.of_nat (S c)) by lia.
    change (indices_at (slice_start_dim pairs) pairs c)
      with (indices_at (slice_start_dim pairs) pairs (pred (S c))).
    rewrite IH.
    + now replace (S c + n)%nat with (c + S n)%nat by lia.
    + lia.
    + rewrite length_drop. nia.
Qed.

End CopyLoop.

Section SliceSelected.

Variables (uninit : nat -> byte) (es : Z) (dims : list Z) (p : list byte).
Variable pairs : list (Z * Z).
Hypothesis Hdims : Forall is_size_t dims.
Hypothesis Hes : is_size_t es.
Hypothesis Hq : product dims < size_modulus.
Hypothesis Hp : Z.of_nat (length p) = product dims * es.
Hypothesis Hb :
  sizeof_str + sizeof_size_t * Z.of_nat (length dims) + Z.of_nat (length p)
  < size_modulus.
Hypothesis Hsel : ranges_selected dims pairs.
Hypothesis Hkept : 1 <= count_ranges pairs.

Lemma slice_one_axis (src_len : Z) (r : Z * Z) :
  dims = [src_len] -> pairs = [r] ->
  fclib_arr_get_slice_1d uninit es (fst r) (snd r) (array_of dims p)
  = Ok (array_of (range_lengths pairs) (sliced_payload es dims p pairs),
        array_of dims p).
Proof.
  intros Ed Ep. subst dims pairs.
  inversion Hsel as [|? ? ? ? Hr _]; subst. inversion Hdims as [|? ? Hl _]; subst.
  change (product [src_len]) with (src_len * 1) in *. rewrite Z.mul_1_r in *.
  assert (Er : is_range r = true).
  { unfold count_ranges in Hkept. cbn [List.filter] in Hkept.
    destruct (is_range r); [reflexivity | cbn in Hkept; lia]. }
  unfold axis_selected in Hr. unfold is_size_t in *.
  assert (Hw : fst r + 2 <= snd r /\ snd r <= src_len).
  { unfold is_range in Er. destruct (Z.eqb_spec (fst r) (snd r)); [discriminate|lia]. }
  assert (Hct : clamped_to src_len (snd r) = snd r).
  { unfold clamped_to. destruct (Z.eqb_spec (snd r) 0); [lia|].
    rewrite Z.gtb_ltb. destruct (Z.ltb_spec src_len (snd r)); lia. }
  assert (Hcf : clamped_from (fst r) (snd r) = fst r).
  { unfold clamped_from. rewrite Z.gtb_ltb.
    destruct (Z.ltb_spec (snd r) (fst r)); lia. }
  destruct (slice_1d_array uninit es (fst r) (snd r) src_len p) as (_ & Hok);
    try (unfold is_size_t; lia); try assumption.
  rewrite Hok.
  2:{ unfold slice_1d_aborts. rewrite Hct. lia. }
  rewrite Hct, Hcf. do 3 f_equal.
  - rewrite range_lengths_cons, Er. cbn. now rewrite wsub_small by lia.
  - unfold sliced_payload, slice_chunks, slice_start_dim, first_is_range.
    rewrite Er. cbn [length chunk_count Nat.ltb Nat.leb Z.to_nat Pos.to_nat
                     Pos.iter_op Nat.add].
    change (Z.to_nat 1) with 1%nat.
    unfold chunks_written. cbn [seq map concat]. rewrite app_nil_r.
    unfold chunk_bytes, slice_chunk_size. rewrite Er.
    change (indices_at (slice_start_dim [r]) [r] 0) with [fst r].
    unfold flat_offset. cbn [flat_offset_from].
    now rewrite Z.mul_1_r, Z.add_0_r.
Qed.

Lemma get_slice_selected :
  fclib_arr_get_slice uninit es (flat_ranges pairs) (array_of dims p)
  = Ok (Some (array_of (range_lengths pairs) (sliced_payload es dims p pairs)),
        array_of dims p).
Proof.
  set (src := array_of dims p).
  assert (Hl : length pairs = length dims) by (symmetry; eapply Forall2_length, Hsel).
  destruct (chunks_total dims p pairs Hdims Hsel) as (Htot & Hcpos & Hnpos).
  pose proof (range_lengths_selected _ _ Hdims Hsel) as (Hrl & Hprod).
  pose proof (length_range_lengths pairs) as Hnd.
  pose proof (ranges_selected_dims _ _ Hsel) as Hpos.
  pose proof (ranges_selected_bounds _ _ Hdims Hsel) as Hbd.
  assert (Hl1 : (1 <= length pairs)%nat).
  { unfold count_ranges in Hkept.
    pose proof (List.filter_length_le is_range pairs). lia. }
  destruct (lookup_lt_is_Some_2 pairs 0 ltac:(lia)) as [r0 Hr0].
  assert (Epairs : pairs = r0 :: drop 1 pairs).
  { rewrite <- (take_drop_middle _ _ _ Hr0) at 1. reflexivity. }
  unfold fclib_arr_get_slice.
  rewrite (bind_ok get_len _ _ src (Z.of_nat (length dims))) by reflexivity.
  rewrite Nat2Z.id.
  pose proof (validate_ranges_spec src dims p pairs eq_refl Hdims Hl dims [] []
                pairs 0 eq_refl eq_refl eq_refl) as Hval.
  rewrite (ranges_selected_ok _ _ Hdims Hsel), Z.add_0_l in Hval.
  change (Z.of_nat (length (@nil Z))) with 0 in Hval.
  rewrite (bind_ok _ _ _ _ _ Hval). clear Hval.
  replace (count_ranges pairs >? 0) with true by (symmetry; apply Z.gtb_lt; lia).
  rewrite (bind_ok (assert true) _ src src tt) by reflexivity.
  destruct (index_flat_ranges _ _ _ Hr0) as (Hf & Ht).
  change (Z.of_nat 0 * 2) with 0 in Hf. change (Z.of_nat 0 * 2 + 1) with 1 in Ht.
  rewrite Hf, Ht. unfold lift_opt at 1 2.
  rewrite (bind_ok _ _ src src (fst r0)) by reflexivity.
  rewrite (bind_ok _ _ src src (snd r0)) by reflexivity.
  change (negb (fst r0 =? snd r0)) with (is_range r0).
  destruct ((Z.of_nat (length dims) =? 1) && (count_ranges pairs =? 1)) eqn:E1.
  - apply andb_true_iff in E1 as (Ed & En).
    apply Z.eqb_eq in Ed, En.
    assert (Edims : exists src_len, dims = [src_len]).
    { destruct dims as [|x [|]]; try (cbn in Ed; lia). now exists x. }
    destruct Edims as (src_len & Edims).
    assert (Ep1 : pairs = [r0]).
    { rewrite Epairs. f_equal. apply length_zero_iff_nil.
      rewrite length_drop, Hl, Edims. reflexivity. }
    assert (Er : is_range r0 = true).
    { rewrite Ep1 in En. unfold count_ranges in En. cbn [List.filter] in En.
      destruct (is_range r0); [reflexivity | cbn in En; lia]. }
    rewrite Er. rewrite (bind_ok (assert true) _ src src tt) by reflexivity.
    rewrite (bind_ok _ _ _ _ _ (slice_one_axis src_len r0 Edims Ep1)).
    reflexivity.
  - rewrite (bind_ok _ _ _ _ _ (new_lengths_spec src dims pairs Hl)).
    rewrite <- Hnd.
    assert (Hfit : sizeof_str
                   + sizeof_size_t * Z.of_nat (length (range_lengths pairs))
                   + product (range_lengths pairs) * es < size_modulus).
    { unfold sizeof_str, sizeof_size_t, is_size_t in *.
      assert (product (range_lengths pairs) * es <= product dims * es)
        by (apply Z.mul_le_mono_nonneg_r; lia).
      assert (Z.of_nat (length (range_lengths pairs)) <= Z.of_nat (length dims)).
      { rewrite Hnd. unfold count_ranges. rewrite <- Hl.
        apply inj_le, List.filter_length_le. }
      lia. }
    rewrite create_valid; [|exact Hrl|exact Hes|lia|exact Hfit].
    unfold lift_res at 1.
    rewrite (bind_ok _ _ src src
               (array_of (range_lengths pairs)
                  (fresh_payload uninit (range_lengths pairs) es))) by reflexivity.
    rewrite (bind_ok _ _ _ _ _ (source_strides_spec src dims p pairs eq_refl Hdims Hl Hpos Hq
               ltac:(lia))).
    rewrite (bind_ok _ _ _ _ _ (result_elements_spec src (range_lengths pairs))).
    rewrite wproduct_wrap, wrap_small by (unfold is_size_t; lia).
    rewrite (bind_ok _ _ _ _ _ (start_indices_spec src dims pairs Hl)).
    assert (Echunk : (if is_range r0 then wsub (snd r0) (fst r0) else 1)
                     = slice_chunk_size pairs).
    { rewrite Epairs. unfold slice_chunk_size.
      rewrite Forall_forall in Hbd.
      pose proof (Hbd r0 (list_elem_of_lookup_2 _ _ _ Hr0)).
      destruct (is_range r0) eqn:Er; [|reflexivity].
      unfold is_range in Er. destruct (Z.eqb_spec (fst r0) (snd r0)); [discriminate|].
      apply wsub_small. lia. }
    rewrite Echunk. rewrite <- Htot.
    rewrite Z.mul_comm, Z.mod_mul by lia.
    rewrite (bind_ok (assert true) _ src src tt) by reflexivity.
    rewrite Z.div_mul by lia.
    assert (Efirst : is_range r0 = first_is_range pairs) by (now rewrite Epairs at 1).
    rewrite Efirst.
    pose proof (copy_loop es dims p pairs Hdims Hes Hq Hp Hb Hsel
                  (Z.to_nat (slice_chunks pairs)) 0
                  (fresh_payload uninit (range_lengths pairs) es)) as Hloop.
    rewrite (bind_ok _ _ _ _ _ (Hloop ltac:(lia) ltac:(rewrite length_fresh_payload; nia))).
    reflexivity.
Qed.

End SliceSelected.

(** ** The general slice: the outcome of the validation *)

Lemma get_slice_rejected (uninit : nat -> byte) (es : Z) (dims : list Z)
    (p : list byte) (pairs : list (Z * Z)) :
  Forall is_size_t dims -> length pairs = length dims ->
  all_axes_ok dims pairs = false ->
  fclib_arr_get_slice uninit es (flat_ranges pairs) (array_of dims p)
  = Ok (None, array_of dims p).
Proof.
  intros Hd Hl Hko. unfold fclib_arr_get_slice.
  rewrite (bind_ok get_len _ _ (array_of dims p) (Z.of_nat (length dims)))
    by reflexivity.
  rewrite Nat2Z.id.
  pose proof (validate_ranges_spec (array_of dims p) dims p pairs eq_refl Hd Hl
                dims [] [] pairs 0 eq_refl eq_refl eq_refl) as Hval.
  rewrite Hko in Hval. change (Z.of_nat (length (@nil Z))) with 0 in Hval.
  now rewrite (bind_ok _ _ _ _ _ Hval).
Qed.

Lemma not_null_bind {A B} (c : M A) (k : A -> M (option B)) (s : fclib_str_t) :
  (forall x s', not_null (k x s')) -> not_null (bind c k s).
Proof.
  intros H s0. unfold bind. destruct (c s) as [[x s']| |]; try discriminate.
  apply H.
Qed.

Lemma not_null_some {A} (x : A) (s : fclib_str_t) : not_null (ret (Some x) s).
Proof. intros s0. unfold ret. discriminate. Qed.

Lemma get_slice_accepted (uninit : nat -> byte) (es : Z) (dims : list Z)
    (p : list byte) (pairs : list (Z * Z)) :
  Forall is_size_t dims -> length pairs = length dims ->
  all_axes_ok dims pairs = true ->
  not_null (fclib_arr_get_slice uninit es (flat_ranges pairs) (array_of dims p)).
Proof.
  intros Hd Hl Hok. unfold fclib_arr_get_slice.
  rewrite (bind_ok get_len _ _ (array_of dims p) (Z.of_nat (length dims)))
    by reflexivity.
  rewrite Nat2Z.id.
  pose proof (validate_ranges_spec (array_of dims p) dims p pairs eq_refl Hd Hl
                dims [] [] pairs 0 eq_refl eq_refl eq_refl) as Hval.
  rewrite Hok in Hval. change (Z.of_nat (length (@nil Z))) with 0 in Hval.
  rewrite (bind_ok _ _ _ _ _ Hval).
  apply not_null_bind. intros _ s1.
  apply not_null_bind. intros r0 s2.
  apply not_null_bind. intros r1 s3.
  destruct (_ && _).
  - apply not_null_bind. intros _ s4.
    apply not_null_bind. intros slice s5. apply not_null_some.
  - repeat (apply not_null_bind; intros ? ?). apply not_null_some.
Qed.

Lemma get_slice_all_fixed (uninit : nat -> byte) (es : Z) (dims : list Z)
    (p : list byte) (pairs : list (Z * Z)) :
  Forall is_size_t dims -> length pairs = length dims ->
  all_axes_ok dims pairs = true -> count_ranges pairs = 0 ->
  fclib_arr_get_slice uninit es (flat_ranges pairs) (array_of dims p) = Abort.
Proof.
  intros Hd Hl Hok H0. unfold fclib_arr_get_slice.
  rewrite (bind_ok get_len _ _ (array_of dims p) (Z.of_nat (length dims)))
    by reflexivity.
  rewrite Nat2Z.id.
  pose proof (validate_ranges_spec (array_of dims p) dims p pairs eq_refl Hd Hl
                dims [] [] pairs 0 eq_refl eq_refl eq_refl) as Hval.
  rewrite Hok, H0 in Hval. change (Z.of_nat (length (@nil Z))) with 0 in Hval.
  now rewrite (bind_ok _ _ _ _ _ Hval).
Qed.

(** The test of the code and the rule of the specification agree on pairs
    with [from <= to]. *)
Lemma axis_ok_ordered (d : Z) (r : Z * Z) :
  is_size_t d -> 0 <= fst r /\ fst r <= snd r < size_modulus ->
  (axis_ok d r = true <-> axis_selected d r)
  /\ (axis_ok d r = false <-> axis_violates d r).
Proof.
  unfold is_size_t, axis_ok, axis_selected, axis_violates, is_range.
  intros Hd Hr.
  destruct (Z.eqb_spec (fst r) (snd r)) as [E|E]; cbn [negb].
  - destruct (Z.geb_spec (fst r) d); cbn [negb]; split; split;
      intros; try discriminate; try reflexivity; lia.
  - rewrite Z.gtb_ltb, wsub_small by lia.
    destruct (Z.ltb_spec d (snd r)), (Z.ltb_spec (snd r - fst r) 2);
      cbn [negb andb]; split; split; intros; try discriminate;
      try reflexivity; lia.
Qed.

Lemma all_axes_ok_ordered (dims : list Z) (pairs : list (Z * Z)) :
  Forall is_size_t dims -> ranges_ordered pairs -> length pairs = length dims ->
  (all_axes_ok dims pairs = true -> ranges_selected dims pairs)
  /\ (all_axes_ok dims pairs = false -> some_axis_violates dims pairs)
  /\ (some_axis_violates dims pairs -> all_axes_ok dims pairs = false).
Proof.
  intros Hd. revert pairs. induction Hd as [|d dims Hd0 Hd IH]; intros pairs Ho Hl.
  - destruct pairs; [|discriminate]. split; [constructor|]. split; [discriminate|].
    intros (i & d & r & Hi & _). now rewrite lookup_nil in Hi.
  - destruct pairs as [|r pairs]; [discriminate|].
    inversion Ho as [|? ? Hr Ho']; subst.
    destruct (IH pairs Ho' ltac:(cbn in Hl; lia)) as (IH1 & IH2 & IH3).
    destruct (axis_ok_ordered d r Hd0 Hr) as ((A1 & _) & (A2 & A3)).
    cbn [all_axes_ok]. split; [|split].
    + intros H. apply andb_true_iff in H as (H1 & H2).
      constructor; [now apply A1 | now apply IH1].
    + intros H. apply andb_false_iff in H as [H|H].
      * exists 0%nat, d, r. repeat split. now apply A2.
      * destruct (IH2 H) as (i & d' & r' & Hi & Hp & Hv).
        exists (S i), d', r'. repeat split; assumption.
    + intros (i & d' & r' & Hi & Hp & Hv). destruct i as [|i].
      * cbn in Hi, Hp. injection Hi as <-. injection Hp as <-.
        now rewrite (A3 Hv).
      * rewrite IH3; [apply andb_false_r|]. exists i, d', r'. repeat split; assumption.
Qed.

Lemma slots_slots (es : Z) (p : list byte) (a n k : Z) :
  0 <= es -> 0 <= a -> 0 <= k < n ->
  slots es (slots es p a n) k 1 = slots es p (a + k) 1.
Proof.
  intros He Ha Hk. unfold slots.
  replace (Z.to_nat (n * es))
    with (Z.to_nat (k * es) + (Z.to_nat (n * es) - Z.to_nat (k * es)))%nat by nia.
  rewrite <- take_drop_commute, take_take, drop_drop.
  f_equal; [|f_equal]; nia.
Qed.

Lemma all_axes_ok_lookup (dims : list Z) (pairs : list (Z * Z)) :
  (forall (j : nat) d r, dims !! j = Some d -> pairs !! j = Some r ->
                         axis_ok d r = true) ->
  all_axes_ok dims pairs = true.
Proof.
  revert pairs. induction dims as [|d dims IH]; intros pairs H; [reflexivity|].
  destruct pairs as [|r pairs]; [reflexivity|]. cbn [all_axes_ok].
  rewrite (H 0%nat d r eq_refl eq_refl), IH; [reflexivity|].
  intros j d' r' Hd Hr. exact (H (S j) d' r' Hd Hr).
Qed.

(** The test of the code on a reversed pair. *)
Lemma axis_ok_reversed (d : Z) (r : Z * Z) :
  is_size_t (fst r) -> 0 <= snd r -> snd r < fst r -> snd r <= d ->
  fst r - snd r <= size_modulus - 2 ->
  axis_ok d r = true
  /\ wsub (snd r) (fst r) = size_modulus + snd r - fst r.
Proof.
  unfold is_size_t. intros Hf H0 Hrev Hd Hw.
  assert (E : wsub (snd r) (fst r) = size_modulus + snd r - fst r).
  { unfold wsub, wrap.
    replace (snd r - fst r) with (size_modulus + snd r - fst r + (-1) * size_modulus)
      by lia.
    rewrite Z.mod_add by (rewrite size_modulus_eq; lia).
    apply Z.mod_small. lia. }
  split; [|exact E]. unfold axis_ok, is_range.
  destruct (Z.eqb_spec (fst r) (snd r)); [lia|]. cbn [negb].
  rewrite Z.gtb_ltb, E.
  destruct (Z.ltb_spec d (snd r)); [lia|].
  destruct (Z.ltb_spec (size_modulus + snd r - fst r) 2); [lia|reflexivity].
Qed.

(** ** The general slice: what an accepted call returns *)

Lemma bind_inv {A B} (c : M A) (k : A -> M B) (s s2 : fclib_str_t) (y : B) :
  bind c k s = Ok (y, s2) ->
  exists (x : A) (s1 : fclib_str_t), c s = Ok (x, s1) /\ k x s1 = Ok (y, s2).
Proof.
  unfold bind. destruct (c s) as [[x s1]| |]; try discriminate.
  intros H. now exists x, s1.
Qed.

Lemma keeps_ret {A} (x : A) : keeps_state (ret x).
Proof. intros s s' y [= _ <-]. reflexivity. Qed.

Lemma keeps_bind {A B} (c : M A) (k : A -> M B) :
  keeps_state c -> (forall x, keeps_state (k x)) -> keeps_state (bind c k).
Proof.
  intros Hc Hk s s' y H. apply bind_inv in H as (x & s1 & H1 & H2).
  apply Hc in H1 as ->. now apply Hk in H2.
Qed.

Lemma keeps_lift_opt {A} (o : option A) : keeps_state (lift_opt o).
Proof. destruct o; [apply keeps_ret | intros s s' y H; discriminate H]. Qed.

Lemma keeps_lift_res {A} (r : res A) : keeps_state (lift_res r).
Proof.
  intros s s' y. unfold lift_res. destruct r; try discriminate.
  now intros [= _ <-].
Qed.

Lemma keeps_assert (b : bool) : keeps_state (assert b).
Proof. destruct b; [apply keeps_ret | intros s s' y H; discriminate H]. Qed.

Lemma keeps_load (off n : Z) : keeps_state (load off n).
Proof. intros s s' y. unfold load. apply keeps_lift_opt. Qed.

Lemma keeps_dim_length (i : Z) : keeps_state (dim_length i).
Proof.
  apply keeps_bind; [apply keeps_load | intros bs; apply keeps_ret].
Qed.

Lemma keeps_for_loop {St} (body : Z -> St -> M St) :
  (forall i acc, keeps_state (body i acc)) ->
  forall (n : nat) (i : Z) (acc : St), keeps_state (for_loop n i body acc).
Proof.
  intros Hb. induction n as [|n IH]; intros i acc; cbn [for_loop].
  - apply keeps_ret.
  - apply keeps_bind; [apply Hb | intros acc'; apply IH].
Qed.

Ltac keeps :=
  repeat first
    [ apply keeps_ret | apply keeps_lift_opt | apply keeps_lift_res
    | apply keeps_assert | apply keeps_load | apply keeps_dim_length
    | apply keeps_bind; [|intros ?]
    | apply keeps_for_loop; intros ? ? ].

Lemma keeps_advance_indices (k : nat) (start_dim : Z) (ranges : list Z) :
  forall cur, keeps_state (advance_indices k start_dim ranges cur).
Proof.
  induction k as [|k IH]; intros cur; cbn [advance_indices].
  - intros s s' y H. discriminate H.
  - destruct (_ <? _); [apply keeps_ret|].
    apply keeps_bind; [apply keeps_lift_opt|]. intros from.
    apply keeps_bind; [apply keeps_lift_opt|]. intros to.
    destruct (negb _); [|apply IH].
    apply keeps_bind; [apply keeps_lift_opt|]. intros c.
    destruct (_ <? _); [apply keeps_ret | apply IH].
Qed.

Lemma keeps_source_offset (n : Z) (cur strides : list Z) :
  keeps_state (source_offset n cur strides).
Proof. unfold source_offset. keeps. Qed.

Lemma keeps_source_strides (n : Z) : keeps_state (source_strides n).
Proof. unfold source_strides. keeps. Qed.

Lemma keeps_copy_chunk (es sd nd : Z) (first : bool) (chunk_size : Z)
    (ranges src_strides : list Z) (chunk : Z) (st : list Z * Z * fclib_str_t) :
  keeps_state (copy_chunk es sd nd first chunk_size ranges src_strides chunk st).
Proof.
  unfold copy_chunk. destruct st as [[cur di] result].
  apply keeps_bind.
  { destruct (_ >? _); [apply keeps_advance_indices | apply keeps_ret]. }
  intros cur'. apply keeps_bind; [apply keeps_source_offset|]. intros off.
  keeps.
Qed.

(** An invariant of the loop state. *)
Lemma for_loop_inv {St} (P : St -> Prop) (body : Z -> St -> M St) :
  (forall i acc s acc' s', P acc -> body i acc s = Ok (acc', s') -> P acc') ->
  forall (n : nat) (i : Z) (acc : St) (s : fclib_str_t) acc' s',
  P acc -> for_loop n i body acc s = Ok (acc', s') -> P acc'.
Proof.
  intros Hb. induction n as [|n IH]; intros i acc s acc' s' HP H; cbn [for_loop] in H.
  - injection H as <- _. exact HP.
  - apply bind_inv in H as (a & s1 & H1 & H2).
    eapply IH; [|exact H2]. eapply Hb; eauto.
Qed.

(** A store behind the header leaves the header. *)
Lemma store_behind_header (dims : list Z) (q bs : list byte) (off : Z)
    (s' : fclib_str_t) :
  sizeof_size_t * Z.of_nat (length dims) <= off ->
  exec (store off bs) (array_of dims q) = Ok s' ->
  exists q', s' = array_of dims q'.
Proof.
  intros Hoff. unfold exec, store, mem_store, in_bounds. cbn [array_of value len].
  destruct (_ && _ && _) eqn:E; [|discriminate].
  rewrite !andb_true_iff, !Z.leb_le in E. intros [= <-].
  assert (Hw : length (words_bytes dims) = (8 * length dims)%nat)
    by apply length_words_bytes.
  unfold sizeof_size_t in Hoff.
  exists (take (Z.to_nat off - 8 * length dims) q ++ bs
          ++ drop (Z.to_nat off + length bs) (words_bytes dims ++ q)).
  unfold array_of. f_equal.
  rewrite take_app, Hw, take_ge by lia. now rewrite <- app_assoc.
Qed.

Lemma copy_chunk_header (lengths : list Z) (es sd : Z) (first : bool)
    (chunk_size : Z) (ranges src_strides : list Z) (chunk : Z)
    (st st' : list Z * Z * fclib_str_t) (s s' : fclib_str_t) :
  (exists q, snd st = array_of lengths q) ->
  copy_chunk es sd (Z.of_nat (length lengths)) first chunk_size ranges
             src_strides chunk st s = Ok (st', s') ->
  exists q, snd st' = array_of lengths q.
Proof.
  destruct st as [[cur di] result]. cbn [snd]. intros (q & ->) H.
  unfold copy_chunk in H.
  apply bind_inv in H as (cur' & s1 & _ & H).
  apply bind_inv in H as (off & s2 & _ & H).
  apply bind_inv in H as (bs & s3 & _ & H).
  apply bind_inv in H as (result' & s4 & Hst & H).
  injection H as <- _. cbn [snd].
  unfold lift_res in Hst.
  destruct (exec _ _) as [r| |] eqn:Ex; try discriminate.
  injection Hst as <- _.
  eapply store_behind_header; [|exact Ex].
  pose proof (wrap_range (di * es)) as Hr. unfold is_size_t in Hr.
  unfold wmul. lia.
Qed.

(** What [fclib_arr_create] returns holds the header it was asked for. *)
Lemma create_header (uninit : nat -> byte) (es : Z) (lengths : list Z)
    (arr : fclib_str_t) :
  sizeof_size_t * Z.of_nat (length lengths) < size_modulus ->
  fclib_arr_create uninit (Z.of_nat (length lengths)) es lengths = Ok arr ->
  exists q, arr = array_of lengths q.
Proof.
  intros Hn. unfold fclib_arr_create.
  destruct (arr_len_loop _ _ _ _) as [arr_len|]; [|discriminate].
  destruct (malloc_str _ _) as [a| |]; try discriminate.
  unfold sizeof_size_t in *.
  rewrite (wmul_small (Z.of_nat _) 8) by lia.
  unfold exec, bind, set_len, memcpy_from, bind, lift_opt.
  rewrite (mem_load_at _ [] (words_bytes lengths) []);
    [|now rewrite app_nil_r|reflexivity|rewrite length_words_bytes; lia].
  unfold ret, store, mem_store, in_bounds. cbn [value len].
  destruct (_ && _ && _); [|discriminate]. intros [= <-].
  eexists. unfold array_of. cbn [take app]. reflexivity.
Qed.

(** With a product of the lengths that wraps to zero the array has a header
    and no payload. *)
Lemma create_no_payload (uninit : nat -> byte) (es : Z) (lengths : list Z) :
  sizeof_str + sizeof_size_t * Z.of_nat (length lengths) < size_modulus ->
  wproduct lengths = 0 ->
  fclib_arr_create uninit (Z.of_nat (length lengths)) es lengths
  = Ok (array_of lengths []).
Proof.
  intros Hn H0. unfold fclib_arr_create. rewrite Nat2Z.id.
  pose proof (arr_len_loop_spec lengths [] 1) as E.
  change (Z.of_nat (length (@nil Z))) with 0 in E.
  change ([] ++ lengths) with lengths in E. rewrite E. clear E.
  fold (wproduct lengths). rewrite H0.
  unfold sizeof_str, sizeof_size_t in *.
  change (wmul 0 es) with 0.
  rewrite (wmul_small (Z.of_nat _) 8) by lia.
  rewrite (wadd_small 8) by lia. rewrite wadd_small by lia.
  set (n := 8 + Z.of_nat (length lengths) * 8 + 0).
  unfold malloc_str, sizeof_str. destruct (Z.ltb_spec n 8); [lia|].
  unfold exec, bind, set_len, memcpy_from, bind, lift_opt.
  rewrite (mem_load_at _ [] (words_bytes lengths) []);
    [|now rewrite app_nil_r|reflexivity|rewrite length_words_bytes; lia].
  unfold ret. cbn [value len].
  rewrite (store_at _ [] (drop 8 (indeterminate uninit n)) (words_bytes lengths) []).
  - reflexivity.
  - cbn [value app]. now rewrite app_nil_r.
  - reflexivity.
  - rewrite length_words_bytes, length_drop, length_indeterminate. lia.
Qed.

Lemma keeps_get_len : keeps_state get_len.
Proof. intros s s' x [= _ <-]. reflexivity. Qed.

Lemma keeps_abort {A} : keeps_state (@abort A).
Proof. intros s s' x H. discriminate H. Qed.

Lemma keeps_validate_ranges (n : nat) (ranges : list Z) :
  forall i nd, keeps_state (validate_ranges n i ranges nd).
Proof.
  induction n as [|n IH]; intros i nd; cbn [validate_ranges]; [apply keeps_ret|].
  apply keeps_bind; [apply keeps_lift_opt|]. intros from.
  apply keeps_bind; [apply keeps_lift_opt|]. intros to.
  apply keeps_bind; [apply keeps_dim_length|]. intros d.
  destruct (negb _).
  - destruct (_ >? _); [apply keeps_ret|].
    destruct (_ <? _); [apply keeps_ret | apply IH].
  - destruct (_ >=? _); [apply keeps_ret | apply IH].
Qed.

Lemma keeps_get_slice_1d (uninit : nat -> byte) (es from to : Z) :
  keeps_state (fclib_arr_get_slice_1d uninit es from to).
Proof.
  unfold fclib_arr_get_slice_1d.
  apply keeps_bind; [apply keeps_dim_length|]. intros src_len. cbv zeta.
  destruct (_ =? _); [apply keeps_abort|].
  apply keeps_bind.
  { destruct (_ >? _); [|apply keeps_ret].
    destruct (_ =? _); [apply keeps_abort | apply keeps_ret]. }
  intros real_from. keeps.
Qed.

(** [fclib_arr_get_slice] takes [const fclib_arr_t *src]: whatever it
    returns, the source is as it was. *)
Lemma keeps_get_slice (uninit : nat -> byte) (es : Z) (ranges : list Z) :
  keeps_state (fclib_arr_get_slice uninit es ranges).
Proof.
  unfold fclib_arr_get_slice.
  apply keeps_bind; [apply keeps_get_len|]. intros sd.
  apply keeps_bind; [apply keeps_validate_ranges|]. intros [nd|]; [|apply keeps_ret].
  apply keeps_bind; [apply keeps_assert|]. intros _.
  apply keeps_bind; [apply keeps_lift_opt|]. intros r0.
  apply keeps_bind; [apply keeps_lift_opt|]. intros r1.
  destruct (_ && _).
  - apply keeps_bind; [apply keeps_assert|]. intros _.
    apply keeps_bind; [apply keeps_get_slice_1d | intros slice; apply keeps_ret].
  - apply keeps_bind; [unfold new_lengths; keeps; destruct (negb _); keeps|].
    intros lengths.
    apply keeps_bind; [apply keeps_lift_res|]. intros result.
    apply keeps_bind; [apply keeps_source_strides|]. intros src_strides.
    apply keeps_bind; [unfold result_elements; keeps|]. intros total.
    apply keeps_bind; [unfold start_indices; keeps|]. intros cur.
    apply keeps_bind; [apply keeps_assert|]. intros _.
    apply keeps_bind; [|intros st; apply keeps_ret].
    apply keeps_for_loop. intros i acc. apply keeps_copy_chunk.
Qed.

Lemma range_lengths_size_t (pairs : list (Z * Z)) :
  Forall is_size_t (range_lengths pairs).
Proof.
  induction pairs as [|r pairs IH]; [constructor|].
  rewrite range_lengths_cons. destruct (is_range r); [|exact IH].
  constructor; [apply wrap_range | exact IH].
Qed.

Section SliceAccepted.

Variables (uninit : nat -> byte) (es : Z) (dims : list Z) (p : list byte).
Variable pairs : list (Z * Z).
Hypothesis Hdims : Forall is_size_t dims.
Hypothesis Hlen : length pairs = length dims.
Hypothesis Hnd : (2 <= length dims)%nat.
Hypothesis Hfit :
  sizeof_str + sizeof_size_t * Z.of_nat (length dims) < size_modulus.

Lemma count_ranges_le : 0 <= count_ranges pairs <= Z.of_nat (length dims).
Proof.
  unfold count_ranges. rewrite <- Hlen.
  pose proof (List.filter_length_le is_range pairs). lia.
Qed.

Lemma source_strides_steps_return (n : nat) :
  forall (i : nat) (acc : list Z),
  (1 <= i)%nat -> (i + n <= length dims)%nat -> length acc = i ->
  exists l,
    for_loop n (Z.of_nat i)
      (fun i src_strides =>
         x <- lift_opt (index src_strides (i - 1)) ;;
         d <- dim_length (i - 1) ;;
         ret (src_strides ++ [wmul x d]))
      acc (array_of dims p)
    = Ok (l, array_of dims p).
Proof.
  induction n as [|n IH]; intros i acc Hi Hn Hl.
  - now exists acc.
  - cbn [for_loop].
    destruct (lookup_lt_is_Some_2 dims (i - 1) ltac:(lia)) as [d Hd].
    destruct (lookup_lt_is_Some_2 acc (i - 1) ltac:(lia)) as [x Hx].
    replace (Z.of_nat i - 1) with (Z.of_nat (i - 1)) by lia.
    rewrite (bind_ok _ _ _ (array_of dims p) (acc ++ [wmul x d])).
    + replace (Z.of_nat i + 1) with (Z.of_nat (S i)) by lia.
      apply IH; [lia | lia | rewrite length_app; cbn; lia].
    + rewrite index_lookup, Hx. cbn [lift_opt].
      rewrite (bind_ok _ _ _ (array_of dims p) x) by reflexivity.
      now rewrite (bind_ok _ _ _ (array_of dims p) d)
        by (now apply (dim_length_words _ dims p)).
Qed.

Lemma source_strides_returns :
  exists l,
    source_strides (Z.of_nat (length dims)) (array_of dims p)
    = Ok (l, array_of dims p).
Proof.
  unfold source_strides.
  replace (Z.to_nat (Z.of_nat (length dims) - 1)) with (length dims - 1)%nat by lia.
  apply (source_strides_steps_return (length dims - 1) 1 [1]); [lia|lia|reflexivity].
Qed.

(** An array the general path returns has the lengths of the second loop
    as its shape. *)
Lemma get_slice_returned_shape (result : fclib_str_t) (s' : fclib_str_t) :
  fclib_arr_get_slice uninit es (flat_ranges pairs) (array_of dims p)
  = Ok (Some result, s') ->
  s' = array_of dims p
  /\ len result = count_ranges pairs
  /\ shape result = range_lengths pairs.
Proof.
  intros H. split; [exact (keeps_get_slice _ _ _ _ _ _ H)|].
  set (src := array_of dims p) in *.
  pose proof count_ranges_le as Hc.
  pose proof (length_range_lengths pairs) as Hrl.
  unfold fclib_arr_get_slice in H.
  rewrite (bind_ok get_len _ _ src (Z.of_nat (length dims))) in H by reflexivity.
  rewrite Nat2Z.id in H.
  pose proof (validate_ranges_spec src dims p pairs eq_refl Hdims Hlen dims [] []
                pairs 0 eq_refl eq_refl eq_refl) as Hval.
  change (Z.of_nat (length (@nil Z))) with 0 in Hval.
  rewrite (bind_ok _ _ _ _ _ Hval) in H. clear Hval.
  destruct (all_axes_ok dims pairs); [|discriminate H].
  rewrite Z.add_0_l in H.
  apply bind_inv in H as (u & s1 & H1 & H). apply keeps_assert in H1 as ->.
  apply bind_inv in H as (r0 & s1 & H1 & H). apply keeps_lift_opt in H1 as ->.
  apply bind_inv in H as (r1 & s1 & H1 & H). apply keeps_lift_opt in H1 as ->.
  replace (Z.of_nat (length dims) =? 1) with false in H
    by (symmetry; apply Z.eqb_neq; lia).
  cbn [andb] in H.
  rewrite (bind_ok _ _ _ _ _ (new_lengths_spec src dims pairs Hlen)) in H.
  apply bind_inv in H as (result0 & s1 & H1 & H).
  unfold lift_res in H1.
  destruct (fclib_arr_create _ _ _ _) as [a| |] eqn:Ec; try discriminate H1.
  injection H1 as -> <-.
  rewrite <- Hrl in Ec.
  apply create_header in Ec as (q0 & ->);
    [|unfold sizeof_str, sizeof_size_t in *; lia].
  apply bind_inv in H as (src_strides & s1 & _ & H).
  apply bind_inv in H as (total & s2 & _ & H).
  apply bind_inv in H as (cur & s3 & _ & H).
  apply bind_inv in H as (u' & s4 & _ & H).
  apply bind_inv in H as (st & s5 & Hloop & H).
  injection H as <- _.
  rewrite <- Hrl in Hloop.
  apply (for_loop_inv (fun st => exists q, snd st = array_of (range_lengths pairs) q))
    in Hloop as (q & ->).
  - split; [cbn [array_of len]; lia|].
    apply shape_array_of, range_lengths_size_t.
  - intros i acc s acc' s'' HP Hb. eapply copy_chunk_header; eauto.
  - now exists q0.
Qed.

(** Where the number of elements of the result wraps to zero the copy loop
    has no round: the call returns the header it built. *)
Lemma get_slice_no_elements :
  all_axes_ok dims pairs = true -> wproduct (range_lengths pairs) = 0 ->
  fclib_arr_get_slice uninit es (flat_ranges pairs) (array_of dims p)
  = Ok (Some (array_of (range_lengths pairs) []), array_of dims p).
Proof.
  intros Hok H0.
  set (src := array_of dims p) in *.
  pose proof count_ranges_le as Hc.
  pose proof (length_range_lengths pairs) as Hrl.
  assert (Hpos : 1 <= count_ranges pairs).
  { rewrite <- Hrl. destruct (range_lengths pairs); [discriminate H0 | cbn; lia]. }
  destruct (lookup_lt_is_Some_2 pairs 0 ltac:(lia)) as [r0 Hr0].
  unfold fclib_arr_get_slice.
  rewrite (bind_ok get_len _ _ src (Z.of_nat (length dims))) by reflexivity.
  rewrite Nat2Z.id.
  pose proof (validate_ranges_spec src dims p pairs eq_refl Hdims Hlen dims [] []
                pairs 0 eq_refl eq_refl eq_refl) as Hval.
  rewrite Hok, Z.add_0_l in Hval.
  change (Z.of_nat (length (@nil Z))) with 0 in Hval.
  rewrite (bind_ok _ _ _ _ _ Hval). clear Hval.
  replace (count_ranges pairs >? 0) with true by (symmetry; apply Z.gtb_lt; lia).
  rewrite (bind_ok (assert true) _ src src tt) by reflexivity.
  destruct (index_flat_ranges _ _ _ Hr0) as (Hf & Ht).
  change (Z.of_nat 0 * 2) with 0 in Hf. change (Z.of_nat 0 * 2 + 1) with 1 in Ht.
  rewrite Hf, Ht. unfold lift_opt at 1 2.
  rewrite (bind_ok _ _ src src (fst r0)) by reflexivity.
  rewrite (bind_ok _ _ src src (snd r0)) by reflexivity.
  replace (Z.of_nat (length dims) =? 1) with false
    by (symmetry; apply Z.eqb_neq; lia).
  cbn [andb].
  rewrite (bind_ok _ _ _ _ _ (new_lengths_spec src dims pairs Hlen)).
  rewrite <- Hrl.
  rewrite create_no_payload;
    [|unfold sizeof_str, sizeof_size_t in *; lia|exact H0].
  unfold lift_res at 1.
  rewrite (bind_ok _ _ src src (array_of (range_lengths pairs) [])) by reflexivity.
  destruct source_strides_returns as (l & Hl). fold src in Hl.
  rewrite (bind_ok _ _ _ _ _ Hl).
  rewrite (bind_ok _ _ _ _ _ (result_elements_spec src (range_lengths pairs))).
  rewrite H0.
  rewrite (bind_ok _ _ _ _ _ (start_indices_spec src dims pairs Hlen)).
  rewrite Zmod_0_l, Zdiv_0_l.
  rewrite (bind_ok (assert true) _ src src tt) by reflexivity.
  reflexivity.
Qed.

End SliceAccepted.

(** ** What construction and fill give on a valid array *)

(** [fclib_arr_create] builds valid arrays. *)
Lemma create_returns_valid (uninit : nat -> byte) (es : Z) (lengths : list Z) :
  Forall is_size_t lengths -> is_size_t es ->
  product lengths < size_modulus ->
  sizeof_str + sizeof_size_t * Z.of_nat (length lengths) + product lengths * es
    < size_modulus ->
  exists arr,
    fclib_arr_create uninit (Z.of_nat (length lengths)) es lengths = Ok arr
    /\ valid_arr es arr /\ shape arr = lengths.
Proof.
  intros Hd Hes Hq Hb. eexists. split; [now apply create_valid|].
  pose proof (product_nonneg _ Hd) as Hp. unfold is_size_t in Hes.
  assert (Hl : Z.of_nat (length (fresh_payload uninit lengths es))
               = product lengths * es) by (apply length_fresh_payload; nia).
  split; [|now apply shape_array_of].
  apply array_of_valid; trivial. now rewrite Hl.
Qed.

(** The sequential fill, and with it the other two, puts the seed into
    every slot. *)
Lemma fill_seq_fills (es : Z) (seed bs : list byte) (arr : fclib_str_t) :
  valid_arr es arr -> 1 <= product (shape arr) ->
  mem_load seed 0 es = Some bs ->
  fclib_arr_fill_seq es seed arr
  = Ok (tt, array_of (shape arr) (rep (Z.to_nat (product (shape arr))) bs)).
Proof.
  intros Hv H1 Hseed.
  destruct (valid_view _ _ Hv) as (dims & p & -> & Hs & Hp & Hd & Hl & Hq & Hes & Hb).
  rewrite Hs in *. pose proof (mem_load_length _ _ _ _ Hseed) as (Hlb & _).
  unfold is_size_t, sizeof_str, sizeof_size_t in *.
  unfold fclib_arr_fill_seq.
  rewrite (bind_ok get_len _ _ (array_of dims p) (Z.of_nat (length dims)))
    by reflexivity.
  rewrite (bind_ok _ _ _ _ _ (count_elements_array_of dims p Hd ltac:(lia))).
  assert (Hfit : Z.of_nat (length bs) <= Z.of_nat (length p)) by nia.
  assert (Hm : memcpy_from (sizeof_size_t * Z.of_nat (length dims)) seed es
                 (array_of dims p)
               = Ok (tt, mk_str (Z.of_nat (length dims))
                           (words_bytes dims ++ rep 1 bs ++ drop (length bs) p))).
  { unfold memcpy_from. rewrite Hseed. unfold lift_opt.
    rewrite (bind_ok _ _ _ (array_of dims p) bs) by reflexivity.
    rewrite (store_at _ (words_bytes dims) (take (length bs) p) bs
               (drop (length bs) p)).
    - now rewrite rep_1.
    - cbn [array_of value]. now rewrite take_drop.
    - rewrite length_words_bytes. unfold sizeof_size_t. lia.
    - rewrite length_take. lia. }
  rewrite (bind_ok _ _ _ _ _ Hm). clear Hm.
  unfold fill_sequential.
  replace (sizeof_size_t * Z.of_nat (length dims))
    with (Z.of_nat (length (words_bytes dims)))
    by (rewrite length_words_bytes; unfold sizeof_size_t; lia).
  rewrite <- Hlb.
  pose proof (fill_sequential_steps (Z.of_nat (length dims)) (words_bytes dims) bs
                (Z.to_nat (product dims - 1)) 1 (product dims)
                (drop (length bs) p)) as Hst.
  change (Z.of_nat 1) with 1 in Hst. rewrite Hst; clear Hst.
  - unfold filled_to, array_of. rewrite length_drop.
    destruct (Z.leb_spec (product dims) (Z.of_nat 1)) as [H|H].
    + assert (E1 : product dims = 1) by lia. rewrite E1 in *.
      replace (drop (length bs) p) with (@nil byte);
        [now rewrite app_nil_r|].
      symmetry. apply length_zero_iff_nil. rewrite length_drop. lia.
    + assert (E : (product dims - Z.of_nat 1) * Z.of_nat (length bs)
                  = Z.of_nat (length p - length bs)).
      { rewrite Nat2Z.inj_sub by lia. rewrite Hl, Hlb. cbn. ring. }
      rewrite E, Nat2Z.id.
      destruct (Z.leb_spec (Z.of_nat (length p - length bs))
                  (Z.of_nat (length p - length bs))); [|lia].
      rewrite drop_drop. rewrite (drop_ge p) by lia. now rewrite app_nil_r.
  - rewrite !length_app, length_words_bytes, length_rep, length_drop. lia.
  - lia.
  - reflexivity.
Qed.

(** Scenario A of the specification: five elements of 4 bytes filled with
    the value 7 read back as 7. *)
Lemma fill_val_scenario :
  let arr := array_of [5] (replicate 20 x00) in
  let filled := array_of [5] (rep 5 [x07; x00; x00; x00]) in
  fclib_arr_create zeroed 1 4 [5] = Ok arr
  /\ fclib_arr_fill_val 4 7 arr = Ok (tt, filled)
  /\ Forall (fun i => fclib_arr_access_val zeroed 4 [i] filled = Ok (7, filled))
            [0; 1; 2; 3; 4].
Proof.
  cbv zeta. split; [vm_compute; reflexivity|]. split; [vm_compute; reflexivity|].
  repeat constructor.
Qed.

(** ** Strides *)

(** [flat_offset] is the sum of [indices[i] * stride[i]] over the strides
    [stride[0] = 1], [stride[i + 1] = stride[i] * shape[i]]. *)
Lemma strides_first (d : Z) (dims : list Z) : strides (d :: dims) !! 0%nat = Some 1.
Proof. reflexivity. Qed.

Lemma strides_next (dims : list Z) (i : nat) (d s : Z) :
  dims !! i = Some d -> strides dims !! i = Some s ->
  (S i < length dims)%nat ->
  strides dims !! S i = Some (s * d).
Proof.
  unfold strides. intros Hd Hs Hi.
  rewrite list_lookup_fmap, lookup_seq_lt in * by lia. cbn in *.
  injection Hs as <-. rewrite (take_S_r _ _ _ Hd), product_app.
  change (product [d]) with (d * 1). now rewrite Z.mul_1_r.
Qed.

Lemma flat_offset_from_sum (dims : list Z) :
  forall (stride : Z) (indices : list Z),
  flat_offset_from stride dims indices
  = weighted_sum indices
      (map (fun k => stride * product (take k dims)) (seq 0 (length dims))).
Proof.
  unfold weighted_sum.
  induction dims as [|d dims IH]; intros stride indices.
  - destruct indices; reflexivity.
  - destruct indices as [|i indices]; [reflexivity|].
    cbn [flat_offset_from length seq map zip_with foldr take].
    change (product []) with 1. rewrite Z.mul_1_r, IH. f_equal.
    rewrite <- seq_shift, map_map. do 2 f_equal.
    apply map_ext. intros k. cbn [take].
    change (product (d :: take k dims)) with (d * product (take k dims)). lia.
Qed.

Lemma flat_offset_sum (dims indices : list Z) :
  flat_offset dims indices = weighted_sum indices (strides dims).
Proof.
  unfold flat_offset, strides. rewrite flat_offset_from_sum. f_equal.
  apply map_ext. intros k. lia.
Qed.

(** * The claims *)

(** ** The sample arrays are valid *)


Lemma sample_1d_valid : valid_arr 2 sample_1d.
Proof. unfold valid_arr, is_size_t. vm_compute. intuition congruence. Defined.

Lemma sample_1d_shape : shape sample_1d = [5].
Proof. reflexivity. Defined.

Lemma sample_1d_in_bounds : indices_in_bounds (shape sample_1d) [3].
Proof.
  change (shape sample_1d) with [5]. repeat constructor; lia.
Defined.

Lemma sample_1d_out_of_bounds : index_out_of_bounds (shape sample_1d) [5].
Proof.
  change (shape sample_1d) with [5]. split; [reflexivity|].
  exists 0%nat, 5, 5. repeat split; lia.
Defined.

Lemma sample_wide_valid : valid_arr 16 sample_wide.
Proof. unfold valid_arr, is_size_t. vm_compute. intuition congruence. Defined.

Lemma sample_4x4_valid : valid_arr 1 sample_4x4.
Proof. unfold valid_arr, is_size_t. vm_compute. intuition congruence. Defined.

Lemma sample_4x4_shape : shape sample_4x4 = [4; 4].
Proof. reflexivity. Defined.

(** ** Fill strategies *)

(** C1. On every array that [fclib_arr_create] constructs, for every seed,
    the sequential fill ([fclib_arr_fill_seq]), the exponential fill
    ([fclib_arr_fill_exp]) and the hybrid fill, on either side of its
    threshold of 128 bytes, have the same outcome: the same payload, byte
    for byte, or the same fault.  The hybrid text is taken with a seed
    behind a pointer ([fclib_arr_fill_inline]) and with the seed in the
    8 bytes of its parameter ([fclib_arr_fill_val]); the latter is compared
    with the other two reading that same object. *)
Theorem fill_strategies_agree (uninit : nat -> byte)
    (dimensionality element_size : Z) (lengths : list Z) (arr : fclib_str_t)
    (seed : list byte) (v : Z) :
  fclib_arr_create uninit dimensionality element_size lengths = Ok arr ->
  fclib_arr_fill_exp element_size seed arr
  = fclib_arr_fill_seq element_size seed arr
  /\ fclib_arr_fill_inline element_size seed arr
     = fclib_arr_fill_seq element_size seed arr
  /\ fclib_arr_fill_val element_size v arr
     = fclib_arr_fill_seq element_size (size_t_bytes v) arr
  /\ fclib_arr_fill_val element_size v arr
     = fclib_arr_fill_exp element_size (size_t_bytes v) arr.
Proof.
  intros Hc. apply create_block_size in Hc. unfold sizeof_str in Hc.
  assert (Hb : Z.of_nat (length (value arr)) < size_modulus) by lia.
  repeat split.
  - now apply fill_exp_seq_block.
  - now apply fill_inline_seq_block.
  - rewrite fill_val_inline. now apply fill_inline_seq_block.
  - rewrite fill_val_inline, fill_inline_seq_block, fill_exp_seq_block; trivial.
Qed.

Lemma fill_strategies_agree_witness :
  fclib_arr_create zeroed 1 2 [5] = Ok sample_fresh
  /\ fclib_arr_fill_exp 2 [x01; x02] sample_fresh
     = fclib_arr_fill_seq 2 [x01; x02] sample_fresh
  /\ fclib_arr_fill_inline 2 [x01; x02] sample_fresh
     = fclib_arr_fill_seq 2 [x01; x02] sample_fresh
  /\ fclib_arr_fill_val 2 7 sample_fresh
     = fclib_arr_fill_seq 2 (size_t_bytes 7) sample_fresh
  /\ fclib_arr_fill_val 2 7 sample_fresh
     = fclib_arr_fill_exp 2 (size_t_bytes 7) sample_fresh.
Proof.
  split; [reflexivity|].
  apply (fill_strategies_agree zeroed 1 2 [5]). reflexivity.
Defined.

(** ** The column of a [4, 4] source *)

(** C2, as the code has it.  On a source of shape [4, 4], the ranges
    [0,4, 1,2] give axis 1 as the range [1, 2) of one slot, which the
    validation rejects: the call returns [NULL] and leaves the source as it
    was.  The column at index 1 is what the ranges [0,4, 1,1] select: that
    call returns a one-dimensional array of length 4 whose slot [row] is the
    slot [(row, 1)] of the source. *)
Theorem slice_column_4x4 (uninit : nat -> byte) (element_size : Z)
    (src : fclib_str_t) :
  valid_arr element_size src -> shape src = [4; 4] ->
  fclib_arr_get_slice uninit element_size [0; 4; 1; 2] src = Ok (None, src)
  /\ fclib_arr_get_slice uninit element_size [0; 4; 1; 1] src
     = Ok (Some (array_of [4] (slots element_size (payload src) 4 4)), src)
  /\ (forall row, 0 <= row < 4 ->
        slots element_size (slots element_size (payload src) 4 4) row 1
        = slots element_size (payload src) (flat_offset [4; 4] [row; 1]) 1).
Proof.
  intros Hv Hs.
  destruct (valid_view _ _ Hv) as (dims & p & -> & Hs' & Hp & Hd & Hl & Hq & Hes & Hb).
  rewrite Hs in Hs'. subst dims. rewrite Hp. split; [|split].
  - apply (get_slice_rejected uninit element_size [4; 4] p [(0, 4); (1, 2)]);
      trivial.
  - change [0; 4; 1; 1] with (flat_ranges [(0, 4); (1, 1)]).
    rewrite (get_slice_selected uninit element_size [4; 4] p [(0, 4); (1, 1)]);
      trivial; try lia.
    + unfold sliced_payload. change (Z.to_nat (slice_chunks _)) with 1%nat.
      unfold chunks_written. cbn [seq map concat]. now rewrite app_nil_r.
    + repeat constructor; cbn; lia.
    + unfold count_ranges. cbn. lia.
  - intros row Hrow. rewrite slots_slots by (try apply Hes; lia).
    unfold flat_offset. cbn [flat_offset_from]. f_equal. lia.
Qed.

Lemma slice_column_4x4_witness :
  valid_arr 1 sample_4x4 /\ shape sample_4x4 = [4; 4]
  /\ fclib_arr_get_slice zeroed 1 [0; 4; 1; 2] sample_4x4 = Ok (None, sample_4x4)
  /\ fclib_arr_get_slice zeroed 1 [0; 4; 1; 1] sample_4x4
     = Ok (Some (array_of [4] (slots 1 (payload sample_4x4) 4 4)), sample_4x4)
  /\ (forall row, 0 <= row < 4 ->
        slots 1 (slots 1 (payload sample_4x4) 4 4) row 1
        = slots 1 (payload sample_4x4) (flat_offset [4; 4] [row; 1]) 1).
Proof.
  split; [exact sample_4x4_valid|]. split; [exact sample_4x4_shape|].
  exact (slice_column_4x4 zeroed 1 sample_4x4 sample_4x4_valid sample_4x4_shape).
Defined.

(** C2 as stated fails: on a source of shape [4, 4] the call with the
    ranges [0,4, 1,2] returns [NULL]; it produces no array. *)
Lemma slice_one_slot_range_rejected :
  valid_arr 1 sample_4x4 /\ shape sample_4x4 = [4; 4]
  /\ fclib_arr_get_slice zeroed 1 [0; 4; 1; 2] sample_4x4 = Ok (None, sample_4x4)
  /\ ~ exists result,
         fclib_arr_get_slice zeroed 1 [0; 4; 1; 2] sample_4x4
         = Ok (Some result, sample_4x4).
Proof.
  split; [exact sample_4x4_valid|]. split; [reflexivity|].
  split; [reflexivity|]. intros [result H]. discriminate H.
Qed.

(** ** An index outside of the shape *)

(** C3, as the code has it.  With an index outside of the shape,
    [fclib_arr_access] returns [NULL] to its caller and leaves header, shape
    and payload as they were. *)
Theorem access_reports_invalid_index (element_size : Z) (arr : fclib_str_t)
    (indices : list Z) :
  valid_arr element_size arr -> index_out_of_bounds (shape arr) indices ->
  fclib_arr_access element_size indices arr = Ok (NULL, arr).
Proof.
  intros Hv H.
  destruct (valid_view _ _ Hv) as (dims & p & -> & Hs & _ & Hd & _).
  rewrite Hs in H. now apply access_out_of_bounds.
Qed.

Lemma access_reports_invalid_index_witness :
  valid_arr 2 sample_1d /\ index_out_of_bounds (shape sample_1d) [5]
  /\ fclib_arr_access 2 [5] sample_1d = Ok (NULL, sample_1d).
Proof.
  split; [exact sample_1d_valid|]. split; [exact sample_1d_out_of_bounds|].
  exact (access_reports_invalid_index 2 sample_1d [5] sample_1d_valid
           sample_1d_out_of_bounds).
Defined.

(** C3 as stated fails: on the index 5 of an axis of length 5, the three
    functions built on [fclib_arr_access] hand its [NULL] to [memcpy]; they
    do not return a failure signal. *)
Lemma derivatives_fault_on_invalid_index :
  valid_arr 2 sample_1d /\ index_out_of_bounds (shape sample_1d) [5]
  /\ fclib_arr_access_val zeroed 2 [5] sample_1d = Fault
  /\ fclib_arr_assign_at 2 [5] [x01; x02] sample_1d = Fault
  /\ fclib_arr_assign_val_at 2 [5] 7 sample_1d = Fault
  /\ ~ returns_unchanged (fclib_arr_access_val zeroed 2 [5] sample_1d) sample_1d
  /\ ~ returns_unchanged (fclib_arr_assign_at 2 [5] [x01; x02] sample_1d) sample_1d
  /\ ~ returns_unchanged (fclib_arr_assign_val_at 2 [5] 7 sample_1d) sample_1d.
Proof.
  split; [exact sample_1d_valid|]. split; [exact sample_1d_out_of_bounds|].
  repeat split; try reflexivity; intros [x H]; discriminate H.
Qed.

(** ** The policy of the one-dimensional slice *)

(** C4. On a one-dimensional source of length [src_len],
    [fclib_arr_get_slice_1d] takes [to == 0] for [src_len] and clamps a [to]
    above [src_len] to it ([clamped_to]); it ends the process exactly when
    [from] equals the clamped [to], or exceeds it while the clamped [to] is
    0; otherwise it clamps a [from] above the clamped [to] to the slot
    before it ([clamped_from]) and returns a new one-dimensional array of
    length [real_to - real_from] whose payload is the copy of the slots
    [real_from .. real_to) of the source, which is left as it was. *)
Theorem slice_1d_policy (uninit : nat -> byte) (element_size from to src_len : Z)
    (src : fclib_str_t) :
  valid_arr element_size src -> shape src = [src_len] ->
  is_size_t from -> is_size_t to ->
  let real_to := clamped_to src_len to in
  let real_from := clamped_from from real_to in
  (fclib_arr_get_slice_1d uninit element_size from to src = Abort
   <-> slice_1d_aborts src_len from to)
  /\ (~ slice_1d_aborts src_len from to ->
      fclib_arr_get_slice_1d uninit element_size from to src
      = Ok (array_of [real_to - real_from]
                     (slots element_size (payload src) real_from
                            (real_to - real_from)),
            src)).
Proof.
  intros Hv Hs Hf Ht real_to real_from.
  destruct (valid_view _ _ Hv) as (dims & p & -> & Hs' & Hp & Hd & Hl & Hq & Hes & Hb).
  rewrite Hs in Hs'. subst dims. rewrite Hp.
  change (product [src_len]) with (src_len * 1) in *. rewrite Z.mul_1_r in *.
  assert (Hsl : is_size_t src_len) by (now inversion Hd).
  destruct (slice_1d_array uninit element_size from to src_len p
              Hsl Hes Hf Ht Hl Hb) as (Ha & Hok).
  split; [|exact Hok]. split; [|exact Ha].
  intros Hab. destruct (slice_1d_aborts_dec src_len from to) as [H|H]; [exact H|].
  rewrite (Hok H) in Hab. discriminate Hab.
Qed.

Lemma slice_1d_policy_witness :
  valid_arr 2 sample_1d /\ shape sample_1d = [5]
  /\ is_size_t 1 /\ is_size_t 3
  /\ (fclib_arr_get_slice_1d zeroed 2 1 3 sample_1d = Abort
      <-> slice_1d_aborts 5 1 3)
  /\ (~ slice_1d_aborts 5 1 3 ->
      fclib_arr_get_slice_1d zeroed 2 1 3 sample_1d
      = Ok (array_of [clamped_to 5 3 - clamped_from 1 (clamped_to 5 3)]
                     (slots 2 (payload sample_1d)
                            (clamped_from 1 (clamped_to 5 3))
                            (clamped_to 5 3 - clamped_from 1 (clamped_to 5 3))),
            sample_1d)).
Proof.
  assert (H1 : is_size_t 1) by (unfold is_size_t; rewrite size_modulus_eq; lia).
  assert (H3 : is_size_t 3) by (unfold is_size_t; rewrite size_modulus_eq; lia).
  split; [exact sample_1d_valid|]. split; [exact sample_1d_shape|].
  split; [exact H1|]. split; [exact H3|].
  exact (slice_1d_policy zeroed 2 1 3 5 sample_1d sample_1d_valid
           sample_1d_shape H1 H3).
Defined.

(** ** One fixed axis *)

(** C5 fails on the code where two kept axes are enumerated: the increment
    loop moves the last axis first, the layout of the result has axis 0
    fastest.  On [sample_2x2x3], fixing axis 0 at index 0: the slot [(1, 0)]
    of the result, read with [fclib_arr_access_val], holds the element
    [(0, 0, 1)] of the source, not the element [(0, 1, 0)]. *)
Theorem slice_fixed_axis0_transposed :
  fclib_arr_get_slice zeroed 1 [0; 0; 0; 2; 0; 3] sample_2x2x3
  = Ok (Some sample_sliced, sample_2x2x3)
  /\ fclib_arr_access_val zeroed 1 [1; 0] sample_sliced = Ok (4, sample_sliced)
  /\ fclib_arr_access_val zeroed 1 [0; 1; 0] sample_2x2x3 = Ok (2, sample_2x2x3)
  /\ fclib_arr_access_val zeroed 1 [0; 0; 1] sample_2x2x3 = Ok (4, sample_2x2x3).
Proof. repeat split; vm_compute; reflexivity. Qed.

(** Scenario B of C5 holds: on a source of shape [4, 4] the ranges
    [1,3, 2,2] give a one-dimensional array of length 2 with the elements
    (row 1, col 2) and (row 2, col 2), in that order. *)
Lemma slice_rows_4x4 (uninit : nat -> byte) (element_size : Z) (src : fclib_str_t) :
  valid_arr element_size src -> shape src = [4; 4] ->
  fclib_arr_get_slice uninit element_size [1; 3; 2; 2] src
  = Ok (Some (array_of [2] (slots element_size (payload src) 9 2)), src)
  /\ (forall k, 0 <= k < 2 ->
        slots element_size (slots element_size (payload src) 9 2) k 1
        = slots element_size (payload src) (flat_offset [4; 4] [1 + k; 2]) 1).
Proof.
  intros Hv Hs.
  destruct (valid_view _ _ Hv) as (dims & p & -> & Hs' & Hp & Hd & Hl & Hq & Hes & Hb).
  rewrite Hs in Hs'. subst dims. rewrite Hp. split.
  - change [1; 3; 2; 2] with (flat_ranges [(1, 3); (2, 2)]).
    rewrite (get_slice_selected uninit element_size [4; 4] p [(1, 3); (2, 2)]);
      trivial; try lia.
    + unfold sliced_payload. change (Z.to_nat (slice_chunks _)) with 1%nat.
      unfold chunks_written. cbn [seq map concat]. now rewrite app_nil_r.
    + repeat constructor; cbn; lia.
    + unfold count_ranges. cbn. lia.
  - intros k Hk. rewrite slots_slots by (try apply Hes; lia).
    unfold flat_offset. cbn [flat_offset_from]. f_equal. lia.
Qed.

(** The result of a slice has one axis per range. *)
Lemma slice_dimensionality (uninit : nat -> byte) (element_size : Z)
    (src : fclib_str_t) (pairs : list (Z * Z)) :
  valid_arr element_size src -> ranges_selected (shape src) pairs ->
  1 <= count_ranges pairs ->
  exists result,
    fclib_arr_get_slice uninit element_size (flat_ranges pairs) src
    = Ok (Some result, src)
    /\ len result = count_ranges pairs.
Proof.
  intros Hv Hsel Hk.
  destruct (valid_view _ _ Hv) as (dims & p & -> & Hs & Hp & Hd & Hl & Hq & Hes & Hb).
  rewrite Hs in *. eexists. split.
  - apply (get_slice_selected uninit element_size dims p pairs); trivial; lia.
  - cbn [len array_of]. apply length_range_lengths.
Qed.

(** ** When the general slice fails *)

(** C6, as the code has it.  For ranges with [from <= to] on every axis,
    [fclib_arr_get_slice] returns [NULL], the source left as it was, exactly
    when some axis breaks its rule; when no axis does and at least one axis
    is a range the call returns an array; when no axis does and every axis
    is a fixed index, the assertion on the new dimensionality ends the
    process. *)
Theorem slice_failure_rule (uninit : nat -> byte) (element_size : Z)
    (src : fclib_str_t) (pairs : list (Z * Z)) :
  valid_arr element_size src -> length pairs = length (shape src) ->
  ranges_ordered pairs ->
  (fclib_arr_get_slice uninit element_size (flat_ranges pairs) src = Ok (None, src)
   <-> some_axis_violates (shape src) pairs)
  /\ (~ some_axis_violates (shape src) pairs -> 1 <= count_ranges pairs ->
      exists result,
        fclib_arr_get_slice uninit element_size (flat_ranges pairs) src
        = Ok (Some result, src))
  /\ (~ some_axis_violates (shape src) pairs -> count_ranges pairs = 0 ->
      fclib_arr_get_slice uninit element_size (flat_ranges pairs) src = Abort).
Proof.
  intros Hv Hlen Ho.
  destruct (valid_view _ _ Hv) as (dims & p & -> & Hs & Hp & Hd & Hl & Hq & Hes & Hb).
  rewrite Hs in *.
  destruct (all_axes_ok_ordered dims pairs Hd Ho Hlen) as (Hsel & Hviol & Hko).
  assert (Hc : 0 <= count_ranges pairs) by (unfold count_ranges; lia).
  destruct (all_axes_ok dims pairs) eqn:E.
  - specialize (Hsel eq_refl).
    assert (Hnv : ~ some_axis_violates dims pairs)
      by (intros H; specialize (Hko H); discriminate).
    split; [|split].
    + split; [|tauto]. intros H. exfalso.
      destruct (Z.eq_dec (count_ranges pairs) 0) as [H0|H0].
      * rewrite get_slice_all_fixed in H by assumption. discriminate.
      * rewrite (get_slice_selected uninit element_size dims p pairs) in H
          by (trivial; lia). discriminate.
    + intros _ Hk. eexists.
      apply (get_slice_selected uninit element_size dims p pairs); trivial; lia.
    + intros _ H0. now apply get_slice_all_fixed.
  - specialize (Hviol eq_refl). split; [|split]; try tauto.
    split; [tauto|]. intros _. now apply get_slice_rejected.
Qed.

Lemma slice_failure_rule_witness :
  valid_arr 1 sample_4x4
  /\ length [(0, 4); (1, 1)] = length (shape sample_4x4)
  /\ ranges_ordered [(0, 4); (1, 1)]
  /\ (fclib_arr_get_slice zeroed 1 (flat_ranges [(0, 4); (1, 1)]) sample_4x4
      = Ok (None, sample_4x4)
      <-> some_axis_violates (shape sample_4x4) [(0, 4); (1, 1)])
  /\ (~ some_axis_violates (shape sample_4x4) [(0, 4); (1, 1)] ->
      1 <= count_ranges [(0, 4); (1, 1)] ->
      exists result,
        fclib_arr_get_slice zeroed 1 (flat_ranges [(0, 4); (1, 1)]) sample_4x4
        = Ok (Some result, sample_4x4))
  /\ (~ some_axis_violates (shape sample_4x4) [(0, 4); (1, 1)] ->
      count_ranges [(0, 4); (1, 1)] = 0 ->
      fclib_arr_get_slice zeroed 1 (flat_ranges [(0, 4); (1, 1)]) sample_4x4
      = Abort).
Proof.
  assert (Ho : ranges_ordered [(0, 4); (1, 1)]).
  { unfold ranges_ordered. rewrite size_modulus_eq.
    repeat constructor; cbn; lia. }
  split; [exact sample_4x4_valid|]. split; [reflexivity|]. split; [exact Ho|].
  exact (slice_failure_rule zeroed 1 sample_4x4 [(0, 4); (1, 1)]
           sample_4x4_valid eq_refl Ho).
Defined.

(** C6 as stated fails.  On a one-dimensional source of length 5 the pair
    [(5, 0)] breaks the rule as worded ([to - from < 2]) and passes the test
    of the code, and the call neither returns [NULL] nor an array: the
    one-dimensional slice ends the process.  On a source of shape [4, 4]
    the fixed indices [(1, 1); (2, 2)] break no rule, and the assertion on
    the new dimensionality ends the process. *)
Lemma slice_rule_counterexample :
  valid_arr 2 sample_1d
  /\ some_axis_violates (shape sample_1d) [(5, 0)]
  /\ all_axes_ok (shape sample_1d) [(5, 0)] = true
  /\ fclib_arr_get_slice zeroed 2 (flat_ranges [(5, 0)]) sample_1d = Abort
  /\ valid_arr 1 sample_4x4
  /\ ~ some_axis_violates (shape sample_4x4) [(1, 1); (2, 2)]
  /\ fclib_arr_get_slice zeroed 1 (flat_ranges [(1, 1); (2, 2)]) sample_4x4 = Abort.
Proof.
  split; [exact sample_1d_valid|].
  split; [exists 0%nat, 5, (5, 0); repeat split; right; cbn; lia|].
  split; [reflexivity|]. split; [reflexivity|].
  split; [exact sample_4x4_valid|]. split; [|reflexivity].
  intros (i & d & r & Hd & Hr & Hv).
  change (shape sample_4x4) with [4; 4] in Hd.
  destruct i as [|[|i]]; cbn in Hd, Hr; try discriminate;
    injection Hd as <-; injection Hr as <-;
    unfold axis_violates in Hv; cbn in Hv; lia.
Qed.

(** ** Assign, then read *)

(** C7, as the code has it.  For an element size of at most 8 bytes, the
    size of the container [fclib_arr_access_val] returns, and indices within
    the shape: after [fclib_arr_assign_at] has stored the first
    [element_size] bytes [bs] of the value, [fclib_arr_access_val] returns a
    container whose first [element_size] bytes are [bs]; its other bytes are
    not written. *)
Theorem assign_then_access_val (uninit : nat -> byte) (element_size : Z)
    (arr : fclib_str_t) (indices : list Z) (v bs : list byte) :
  valid_arr element_size arr -> indices_in_bounds (shape arr) indices ->
  element_size <= sizeof_size_t -> mem_load v 0 element_size = Some bs ->
  exists (arr' : fclib_str_t) (r : Z),
    fclib_arr_assign_at element_size indices v arr = Ok (tt, arr')
    /\ fclib_arr_access_val uninit element_size indices arr' = Ok (r, arr')
    /\ take (Z.to_nat element_size) (size_t_bytes r) = bs.
Proof.
  intros Hv Hin Hle Hbs.
  destruct (valid_view _ _ Hv) as (dims & p & -> & Hs & _ & Hd & Hl & Hq & Hes & Hb).
  rewrite Hs in Hin.
  assert (Hq' : product dims < size_modulus) by lia.
  destruct (slot_fits element_size dims p indices Hl Hin) as (Ho & Hfit).
  pose proof (mem_load_length _ _ _ _ Hbs) as (Hlb & _).
  assert (Hls : length (set_slot element_size p (flat_offset dims indices) bs)
                = length p) by (apply length_set_slot; trivial; apply Hes).
  exists (array_of dims (set_slot element_size p (flat_offset dims indices) bs)).
  eexists. split; [|split].
  - apply (assign_at_in_bounds element_size dims p indices); trivial.
  - apply access_val_in_bounds; trivial; rewrite Hls; trivial.
  - rewrite slots_set_slot by (trivial; apply Hes).
    unfold size_t_bytes.
    replace 8%nat with (length (bs ++ drop (Z.to_nat element_size)
                                   (indeterminate uninit sizeof_size_t))).
    + rewrite le_encode_decode. apply take_app_length'. lia.
    + rewrite length_app, length_drop. unfold indeterminate, sizeof_size_t in *.
      rewrite length_map, length_seq. unfold is_size_t in Hes. lia.
Qed.

Lemma assign_then_access_val_witness :
  valid_arr 2 sample_1d /\ indices_in_bounds (shape sample_1d) [3]
  /\ 2 <= sizeof_size_t /\ mem_load [xaa; xbb] 0 2 = Some [xaa; xbb]
  /\ exists (arr' : fclib_str_t) (r : Z),
       fclib_arr_assign_at 2 [3] [xaa; xbb] sample_1d = Ok (tt, arr')
       /\ fclib_arr_access_val zeroed 2 [3] arr' = Ok (r, arr')
       /\ take (Z.to_nat 2) (size_t_bytes r) = [xaa; xbb].
Proof.
  assert (H8 : 2 <= sizeof_size_t) by (unfold sizeof_size_t; lia).
  split; [exact sample_1d_valid|]. split; [exact sample_1d_in_bounds|].
  split; [exact H8|]. split; [reflexivity|].
  exact (assign_then_access_val zeroed 2 sample_1d [3] [xaa; xbb] [xaa; xbb]
           sample_1d_valid sample_1d_in_bounds H8 eq_refl).
Defined.

(** C7 as stated fails for an element of 16 bytes: the element is stored,
    and reading it back through the 8 bytes of the container of
    [fclib_arr_access_val] leaves that container. *)
Lemma access_val_wide_element :
  valid_arr 16 sample_wide /\ indices_in_bounds (shape sample_wide) [0]
  /\ fclib_arr_assign_at 16 [0] (replicate 16 xff) sample_wide
     = Ok (tt, array_of [1] (replicate 16 xff))
  /\ fclib_arr_access_val zeroed 16 [0] (array_of [1] (replicate 16 xff)) = Fault
  /\ ~ exists r, fclib_arr_access_val zeroed 16 [0] (array_of [1] (replicate 16 xff))
                 = Ok (r, array_of [1] (replicate 16 xff)).
Proof.
  split; [exact sample_wide_valid|].
  split; [change (shape sample_wide) with [1]; repeat constructor; lia|].
  repeat split; try reflexivity. intros [r H]. discriminate H.
Qed.

(** ** The address of an element *)

(** C8. For an index vector within the shape, [fclib_arr_access] returns
    the address [payload_start + (sum of indices[i] * stride[i]) *
    element_size], with the strides [stride[0] = 1] and [stride[i + 1] =
    stride[i] * shape[i]] of [strides_first] and [strides_next] (axis 0
    varies fastest); with an index outside of the shape it returns [NULL]
    and computes no address.  The array is left as it was. *)
Theorem access_address (element_size : Z) (arr : fclib_str_t) (indices : list Z) :
  valid_arr element_size arr ->
  (indices_in_bounds (shape arr) indices ->
   fclib_arr_access element_size indices arr
   = Ok (Ptr (payload_start arr
              + weighted_sum indices (strides (shape arr)) * element_size),
         arr))
  /\ (index_out_of_bounds (shape arr) indices ->
      fclib_arr_access element_size indices arr = Ok (NULL, arr)).
Proof.
  intros Hv.
  destruct (valid_view _ _ Hv) as (dims & p & -> & Hs & _ & Hd & Hl & Hq & Hes & Hb).
  rewrite Hs. split; intros H.
  - rewrite <- flat_offset_sum. apply access_in_bounds; trivial; lia.
  - now apply access_out_of_bounds.
Qed.

Lemma access_address_witness :
  valid_arr 2 sample_1d
  /\ indices_in_bounds (shape sample_1d) [3]
  /\ fclib_arr_access 2 [3] sample_1d
     = Ok (Ptr (payload_start sample_1d
                + weighted_sum [3] (strides (shape sample_1d)) * 2),
           sample_1d)
  /\ index_out_of_bounds (shape sample_1d) [5]
  /\ fclib_arr_access 2 [5] sample_1d = Ok (NULL, sample_1d).
Proof.
  destruct (access_address 2 sample_1d [3] sample_1d_valid) as [Hin _].
  destruct (access_address 2 sample_1d [5] sample_1d_valid) as [_ Hout].
  split; [exact sample_1d_valid|].
  split; [exact sample_1d_in_bounds|].
  split; [exact (Hin sample_1d_in_bounds)|].
  split; [exact sample_1d_out_of_bounds|].
  exact (Hout sample_1d_out_of_bounds).
Defined.

(** ** Reversed ranges *)

(** C9. A reversed pair [from > to] with [to <= shape[i]], all other axes
    passing the validation, is not rejected: the difference [to - from] is
    taken modulo [2^64], so the pair passes both tests of a range, the
    validation counts the axis as kept, no [NULL] is returned, and the
    wrapped difference [2^64 + to - from] is the length the second loop
    computes for that axis of the result.  On a source of two axes or more,
    every array the call returns has that length on that axis, and the call
    does return one, made of the header alone, where the product of the
    lengths wraps to zero. *)
Theorem reversed_range_accepted (uninit : nat -> byte) (element_size : Z)
    (src : fclib_str_t) (pairs : list (Z * Z)) (i : nat) (d : Z) (r : Z * Z) :
  valid_arr element_size src -> length pairs = length (shape src) ->
  shape src !! i = Some d -> pairs !! i = Some r ->
  is_size_t (fst r) -> 0 <= snd r -> snd r < fst r -> snd r <= d ->
  fst r - snd r <= size_modulus - 2 ->
  (forall (j : nat) d' r', j <> i -> shape src !! j = Some d' ->
                           pairs !! j = Some r' -> axis_ok d' r' = true) ->
  validate_ranges (Z.to_nat (len src)) 0 (flat_ranges pairs) 0 src
  = Ok (Some (count_ranges pairs), src)
  /\ not_null (fclib_arr_get_slice uninit element_size (flat_ranges pairs) src)
  /\ new_lengths (len src) (flat_ranges pairs) src = Ok (range_lengths pairs, src)
  /\ range_lengths pairs !! length (range_lengths (take i pairs))
     = Some (size_modulus + snd r - fst r)
  /\ ((2 <= length pairs)%nat ->
      (forall (result s' : fclib_str_t),
         fclib_arr_get_slice uninit element_size (flat_ranges pairs) src
         = Ok (Some result, s') ->
         s' = src /\ shape result = range_lengths pairs)
      /\ (wproduct (range_lengths pairs) = 0 ->
          fclib_arr_get_slice uninit element_size (flat_ranges pairs) src
          = Ok (Some (array_of (range_lengths pairs) []), src))).
Proof.
  intros Hv Hlen Hdi Hri Hf H0 Hrev Hle Hw Hothers.
  destruct (valid_view _ _ Hv) as (dims & p & -> & Hs & Hp & Hd & Hl & Hq & Hes & Hb).
  rewrite Hs in *.
  destruct (axis_ok_reversed d r Hf H0 Hrev Hle Hw) as (Hok & Ewrap).
  assert (Hall : all_axes_ok dims pairs = true).
  { apply all_axes_ok_lookup. intros j d' r' Hdj Hrj.
    destruct (Nat.eq_dec j i) as [->|Hne].
    - assert (d' = d) as -> by congruence. assert (r' = r) as -> by congruence.
      exact Hok.
    - eapply Hothers; eauto. }
  split; [|split; [|split; [|split]]].
  - pose proof (validate_ranges_spec (array_of dims p) dims p pairs eq_refl Hd Hlen
                  dims [] [] pairs 0 eq_refl eq_refl eq_refl) as Hval.
    rewrite Hall, Z.add_0_l in Hval. change (Z.of_nat (length (@nil Z))) with 0 in Hval.
    cbn [len array_of]. now rewrite Nat2Z.id.
  - now apply get_slice_accepted.
  - apply (new_lengths_spec (array_of dims p) dims pairs Hlen).
  - assert (Er : is_range r = true).
    { unfold is_range. destruct (Z.eqb_spec (fst r) (snd r)); [lia|reflexivity]. }
    assert (E : range_lengths pairs
                = range_lengths (take i pairs)
                  ++ (size_modulus + snd r - fst r)
                  :: range_lengths (drop (S i) pairs)).
    { rewrite <- (take_drop_middle _ _ _ Hri) at 1.
      now rewrite range_lengths_app, range_lengths_cons, Er, Ewrap. }
    rewrite E. apply list_lookup_middle. reflexivity.
  - intros H2. rewrite Hlen in H2.
    assert (Hfit : sizeof_str + sizeof_size_t * Z.of_nat (length dims)
                   < size_modulus) by lia.
    split.
    + intros result s' Hret.
      destruct (get_slice_returned_shape uninit element_size dims p pairs
                  Hd Hlen H2 Hfit result s' Hret) as (Hs' & _ & Hshape).
      now split.
    + intros Hz.
      now apply (get_slice_no_elements uninit element_size dims p pairs).
Qed.

Lemma reversed_range_accepted_witness :
  valid_arr 1 sample_4x4
  /\ length [(9223372036854775808, 0); (0, 2)] = length (shape sample_4x4)
  /\ shape sample_4x4 !! 0%nat = Some 4
  /\ [(9223372036854775808, 0); (0, 2)] !! 0%nat = Some (9223372036854775808, 0)
  /\ 0 < 9223372036854775808 /\ 0 <= 4
  /\ validate_ranges (Z.to_nat (len sample_4x4)) 0
       (flat_ranges [(9223372036854775808, 0); (0, 2)]) 0 sample_4x4
     = Ok (Some (count_ranges [(9223372036854775808, 0); (0, 2)]), sample_4x4)
  /\ not_null (fclib_arr_get_slice zeroed 1
                 (flat_ranges [(9223372036854775808, 0); (0, 2)]) sample_4x4)
  /\ new_lengths (len sample_4x4)
       (flat_ranges [(9223372036854775808, 0); (0, 2)]) sample_4x4
     = Ok (range_lengths [(9223372036854775808, 0); (0, 2)], sample_4x4)
  /\ range_lengths [(9223372036854775808, 0); (0, 2)]
     = [size_modulus + 0 - 9223372036854775808; 2]
  /\ wproduct (range_lengths [(9223372036854775808, 0); (0, 2)]) = 0
  /\ fclib_arr_get_slice zeroed 1
       (flat_ranges [(9223372036854775808, 0); (0, 2)]) sample_4x4
     = Ok (Some (array_of (range_lengths [(9223372036854775808, 0); (0, 2)]) []),
           sample_4x4).
Proof.
  split; [exact sample_4x4_valid|]. split; [reflexivity|].
  split; [reflexivity|]. split; [reflexivity|].
  split; [lia|]. split; [lia|].
  destruct (reversed_range_accepted zeroed 1 sample_4x4
              [(9223372036854775808, 0); (0, 2)] 0 4 (9223372036854775808, 0)
              sample_4x4_valid eq_refl eq_refl eq_refl)
    as (Hval & Hnn & Hnew & _ & Hret).
  - unfold is_size_t. rewrite size_modulus_eq. cbn. lia.
  - cbn. lia.
  - cbn. lia.
  - cbn. lia.
  - rewrite size_modulus_eq. cbn. lia.
  - intros j d' r' Hj Hd Hr. destruct j as [|[|j]]; [congruence| |discriminate].
    cbn in Hd, Hr. injection Hd as <-. injection Hr as <-. reflexivity.
  - split; [exact Hval|]. split; [exact Hnn|]. split; [exact Hnew|].
    split; [reflexivity|]. split; [reflexivity|].
    destruct (Hret ltac:(cbn; lia)) as (_ & Hzero).
    exact (Hzero eq_refl).
Defined.

(** With elements of no byte the call on the reversed pair [(3, 1)] runs to
    its end: the result has the one axis of length [2^64 - 2]. *)
Lemma reversed_range_result :
  fclib_arr_get_slice zeroed 0 [3; 1; 0; 0] (array_of [4; 4] [])
  = Ok (Some (array_of [size_modulus - 2] []), array_of [4; 4] []).
Proof. vm_compute. reflexivity. Qed.

(** ** Fill of an array without elements *)



(** * Further properties of the arrays *)

Ltac solve_size_t := unfold is_size_t; rewrite size_modulus_eq; lia.
Ltac solve_sizes :=
  repeat (apply List.Forall_cons; [solve_size_t|]); apply List.Forall_nil.

(** ** Reading a prefix *)

Lemma mem_load_take (m : list byte) (n : Z) :
  0 <= n <= Z.of_nat (length m) ->
  mem_load m 0 n = Some (take (Z.to_nat n) m).
Proof.
  intros H. unfold mem_load, in_bounds.
  destruct (Z.leb_spec 0 0); [|lia]. destruct (Z.leb_spec 0 n); [|lia].
  destruct (Z.leb_spec (0 + n) (Z.of_nat (length m))); [|lia].
  reflexivity.
Qed.

(** ** Index vectors *)

Lemma in_or_out_of_bounds (dims indices : list Z) :
  length indices = length dims -> Forall (fun i => 0 <= i) indices ->
  indices_in_bounds dims indices \/ index_out_of_bounds dims indices.
Proof.
  revert dims. induction indices as [|i indices IH]; intros [|d dims] Hl Hpos;
    try discriminate.
  - left. constructor.
  - inversion Hpos as [|? ? Hi Hpos']; subst.
    destruct (Z.lt_ge_cases i d) as [Hlt|Hge].
    + destruct (IH dims ltac:(now injection Hl) Hpos')
        as [Hin|(_ & k & i' & d' & H1 & H2 & H3)].
      * left. constructor; [lia | exact Hin].
      * right. split; [exact Hl|]. exists (S k), i', d'. now repeat split.
    + right. split; [exact Hl|]. exists 0%nat, i, d. now repeat split.
Qed.

Lemma in_not_out_of_bounds (dims indices : list Z) :
  indices_in_bounds dims indices -> ~ index_out_of_bounds dims indices.
Proof.
  intros Hin (_ & k & i & d & Hi & Hd & Hle).
  unfold indices_in_bounds in Hin.
  destruct (Forall2_lookup_l _ _ _ _ _ Hin Hi) as (d' & Hd' & Hlt).
  assert (d' = d) by congruence. lia.
Qed.

(** The flat offset is linear in the first stride. *)
Lemma flat_offset_from_scale (stride : Z) (dims indices : list Z) :
  flat_offset_from stride dims indices = stride * flat_offset dims indices.
Proof.
  unfold flat_offset. revert stride indices.
  induction dims as [|d dims IH]; intros stride [|i indices]; cbn [flat_offset_from];
    try lia.
  rewrite (IH (stride * d)), (IH (1 * d)). lia.
Qed.

Lemma flat_offset_cons (d i : Z) (dims indices : list Z) :
  flat_offset (d :: dims) (i :: indices) = i + d * flat_offset dims indices.
Proof.
  unfold flat_offset at 1. cbn [flat_offset_from].
  rewrite flat_offset_from_scale. lia.
Qed.

(** Two index vectors within the shape with the same flat offset are the
    same. *)
Lemma flat_offset_inj (dims i j : list Z) :
  indices_in_bounds dims i -> indices_in_bounds dims j ->
  flat_offset dims i = flat_offset dims j -> i = j.
Proof.
  intros Hi. revert j. induction Hi as [|x d i dims Hx Hi IH]; intros j Hj E.
  - now inversion Hj.
  - inversion Hj as [|y ? j' ? Hy Hj']; subst.
    rewrite !flat_offset_cons in E.
    destruct (Z.div_mod_unique d (flat_offset dims i) (flat_offset dims j') x y)
      as (E' & ->); [left; lia | left; lia | lia |].
    f_equal. now apply IH.
Qed.

(** ** Slots *)

Lemma slots_set_slot_other (es : Z) (p : list byte) (k k' : Z) (bs : list byte) :
  0 <= es -> 0 <= k -> 0 <= k' -> k <> k' -> Z.of_nat (length bs) = es ->
  k * es + es <= Z.of_nat (length p) ->
  slots es (set_slot es p k bs) k' 1 = slots es p k' 1.
Proof.
  intros He Hk Hk' Hne Hbs Hfit. unfold slots, set_slot. rewrite Z.mul_1_l.
  destruct (Z.lt_ge_cases k' k) as [Hlt|Hge].
  - assert (Hle : k' * es + es <= k * es) by nia.
    rewrite drop_app_le by (rewrite length_take; lia).
    rewrite take_app_le by (rewrite length_drop, length_take; lia).
    rewrite !take_drop_commute, take_take. do 2 f_equal. lia.
  - assert (Hle : k * es + es <= k' * es) by nia.
    rewrite app_assoc, drop_app_ge by (rewrite length_app, length_take; lia).
    rewrite drop_drop, length_app, length_take. do 2 f_equal. lia.
Qed.

Lemma slots_rep (es : Z) (n : nat) (bs : list byte) (k : Z) :
  Z.of_nat (length bs) = es -> 0 <= k < Z.of_nat n ->
  slots es (rep n bs) k 1 = bs.
Proof.
  intros Hbs Hk. unfold slots. rewrite Z.mul_1_l.
  replace n with (Z.to_nat k + (1 + (n - Z.to_nat k - 1)))%nat by lia.
  rewrite !rep_add, rep_1.
  rewrite drop_app_length' by (rewrite length_rep; nia).
  apply take_app_length'. lia.
Qed.

(** ** The low bytes of a [size_t] *)

Lemma le_decode_app (a b : list byte) :
  le_decode (a ++ b) = le_decode a + 256 ^ Z.of_nat (length a) * le_decode b.
Proof.
  induction a as [|x a IH]; [cbn [app length le_decode]; lia|].
  cbn [app length le_decode]. rewrite IH, Nat2Z.inj_succ, Z.pow_succ_r by lia.
  lia.
Qed.

Lemma take_le_encode (k n : nat) (z : Z) :
  (k <= n)%nat -> take k (le_encode n z) = le_encode k z.
Proof.
  revert n z. induction k as [|k IH]; intros [|n] z H; try reflexivity; [lia|].
  cbn [le_encode take]. f_equal. apply IH. lia.
Qed.

(** A container whose first [k] bytes are the first [k] bytes of [v] holds
    [v] modulo [256^k]. *)
Lemma low_bytes (k : nat) (v : Z) (rest : list byte) :
  (k <= 8)%nat ->
  le_decode (take k (size_t_bytes v) ++ rest) mod 256 ^ Z.of_nat k
  = v mod 256 ^ Z.of_nat k.
Proof.
  intros Hk. unfold size_t_bytes. rewrite take_le_encode by exact Hk.
  rewrite le_decode_app, length_le_encode, le_decode_encode.
  rewrite Z.mul_comm, Z.mod_add by lia. apply Z.mod_mod. lia.
Qed.

(** The bytes of an element are the low bytes of the container they are
    copied to: the container holds their value modulo [256^k], whatever its
    other bytes are. *)
Lemma container_low_bytes (a rest : list byte) :
  le_decode (a ++ rest) mod 256 ^ Z.of_nat (length a) = le_decode a.
Proof.
  rewrite le_decode_app, Z.mul_comm, Z.mod_add by lia.
  apply Z.mod_small, le_decode_range.
Qed.

Lemma access_val_low_bytes (uninit : nat -> byte) (es : Z) (bs : list byte) :
  Z.of_nat (length bs) = es ->
  le_decode (bs ++ drop (Z.to_nat es) (indeterminate uninit sizeof_size_t))
    mod 256 ^ es
  = le_decode bs.
Proof. intros <-. apply container_low_bytes. Qed.

Lemma access_val_whole (uninit : nat -> byte) (bs : list byte) :
  Z.of_nat (length bs) = sizeof_size_t ->
  le_decode (bs ++ drop (Z.to_nat sizeof_size_t)
                        (indeterminate uninit sizeof_size_t))
  = le_decode bs.
Proof.
  intros _. rewrite drop_ge by (rewrite length_indeterminate; lia).
  now rewrite app_nil_r.
Qed.

(** ** Construction and fill *)

(** X1. [fclib_arr_create] returns a valid array of the shape asked for:
    the header holds the dimensionality and the axis lengths, and the
    payload is left as [malloc] gave it, not written. *)
Theorem create_gives_array (uninit : nat -> byte) (element_size : Z)
    (lengths : list Z) :
  Forall is_size_t lengths -> is_size_t element_size ->
  product lengths < size_modulus ->
  sizeof_str + sizeof_size_t * Z.of_nat (length lengths)
  + product lengths * element_size < size_modulus ->
  exists arr,
    fclib_arr_create uninit (Z.of_nat (length lengths)) element_size lengths
    = Ok arr
    /\ valid_arr element_size arr
    /\ len arr = Z.of_nat (length lengths)
    /\ shape arr = lengths
    /\ payload arr = fresh_payload uninit lengths element_size.
Proof.
  intros Hd Hes Hq Hb.
  exists (array_of lengths (fresh_payload uninit lengths element_size)).
  split; [now apply create_valid|].
  pose proof (product_nonneg _ Hd) as Hp. unfold is_size_t in Hes.
  assert (Hl : Z.of_nat (length (fresh_payload uninit lengths element_size))
               = product lengths * element_size)
    by (apply length_fresh_payload; nia).
  split; [apply array_of_valid; trivial; now rewrite Hl|].
  split; [reflexivity|]. split; [now apply shape_array_of|].
  apply payload_array_of.
Qed.

Lemma create_gives_array_witness :
  Forall is_size_t [2; 3] /\ is_size_t 4 /\ product [2; 3] < size_modulus
  /\ sizeof_str + sizeof_size_t * Z.of_nat (length [2; 3]) + product [2; 3] * 4
     < size_modulus
  /\ exists arr,
       fclib_arr_create zeroed (Z.of_nat (length [2; 3])) 4 [2; 3] = Ok arr
       /\ valid_arr 4 arr
       /\ len arr = Z.of_nat (length [2; 3])
       /\ shape arr = [2; 3]
       /\ payload arr = fresh_payload zeroed [2; 3] 4.
Proof.
  assert (H4 : is_size_t 4) by (unfold is_size_t; rewrite size_modulus_eq; lia).
  assert (Hd : Forall is_size_t [2; 3])
    by solve_sizes.
  assert (Hq : product [2; 3] < size_modulus) by reflexivity.
  assert (Hb : sizeof_str + sizeof_size_t * Z.of_nat (length [2; 3])
               + product [2; 3] * 4 < size_modulus) by reflexivity.
  split; [exact Hd|]. split; [exact H4|]. split; [exact Hq|]. split; [exact Hb|].
  exact (create_gives_array zeroed 4 [2; 3] Hd H4 Hq Hb).
Defined.

(** X2. On a valid array with at least one element, each of
    [fclib_arr_fill_seq], [fclib_arr_fill_exp] and [fclib_arr_fill_inline]
    leaves the header as it was and the seed in every slot of the payload,
    whatever the payload held before; the array stays valid. *)
Theorem fill_overwrites_payload (element_size : Z) (seed bs : list byte)
    (arr : fclib_str_t) :
  valid_arr element_size arr -> 1 <= product (shape arr) ->
  mem_load seed 0 element_size = Some bs ->
  let filled :=
    array_of (shape arr) (rep (Z.to_nat (product (shape arr))) bs) in
  fclib_arr_fill_seq element_size seed arr = Ok (tt, filled)
  /\ fclib_arr_fill_exp element_size seed arr = Ok (tt, filled)
  /\ fclib_arr_fill_inline element_size seed arr = Ok (tt, filled)
  /\ valid_arr element_size filled
  /\ shape filled = shape arr.
Proof.
  intros Hv H1 Hseed. cbv zeta.
  pose proof (fill_seq_fills element_size seed bs arr Hv H1 Hseed) as Hseq.
  assert (Hsz : Z.of_nat (length (value arr)) < size_modulus).
  { destruct Hv as (_ & _ & _ & _ & Hb). unfold sizeof_str in Hb. lia. }
  pose proof (mem_load_length _ _ _ _ Hseed) as (Hbs & _ & _).
  destruct (valid_view _ _ Hv) as (dims & p & -> & Hs & Hp & Hd & Hl & Hq & Hes & Hb).
  rewrite Hs in *.
  split; [exact Hseq|]. split; [now rewrite fill_exp_seq_block|].
  split; [now rewrite fill_inline_seq_block|].
  split; [|now apply shape_array_of].
  assert (Hr : Z.of_nat (length (rep (Z.to_nat (product dims)) bs))
               = product dims * element_size).
  { rewrite length_rep. nia. }
  apply array_of_valid; trivial; try lia.
Qed.

Lemma fill_overwrites_payload_witness :
  valid_arr 2 sample_1d /\ 1 <= product (shape sample_1d)
  /\ mem_load [xaa; xbb; xcc] 0 2 = Some [xaa; xbb]
  /\ fclib_arr_fill_seq 2 [xaa; xbb; xcc] sample_1d
     = Ok (tt, array_of (shape sample_1d)
                 (rep (Z.to_nat (product (shape sample_1d))) [xaa; xbb]))
  /\ fclib_arr_fill_exp 2 [xaa; xbb; xcc] sample_1d
     = Ok (tt, array_of (shape sample_1d)
                 (rep (Z.to_nat (product (shape sample_1d))) [xaa; xbb]))
  /\ fclib_arr_fill_inline 2 [xaa; xbb; xcc] sample_1d
     = Ok (tt, array_of (shape sample_1d)
                 (rep (Z.to_nat (product (shape sample_1d))) [xaa; xbb]))
  /\ valid_arr 2 (array_of (shape sample_1d)
                    (rep (Z.to_nat (product (shape sample_1d))) [xaa; xbb]))
  /\ shape (array_of (shape sample_1d)
              (rep (Z.to_nat (product (shape sample_1d))) [xaa; xbb]))
     = shape sample_1d.
Proof.
  assert (H1 : 1 <= product (shape sample_1d)) by (vm_compute; discriminate).
  assert (H2 : mem_load [xaa; xbb; xcc] 0 2 = Some [xaa; xbb]) by reflexivity.
  split; [exact sample_1d_valid|]. split; [exact H1|]. split; [exact H2|].
  exact (fill_overwrites_payload 2 [xaa; xbb; xcc] [xaa; xbb] sample_1d
           sample_1d_valid H1 H2).
Defined.

(** ** The pointer [fclib_arr_access] returns *)

(** X3. For an index vector with one [size_t] per axis, [fclib_arr_access]
    returns to its caller with the array as it was: [NULL] when some index
    is outside of its axis, and otherwise the address of a whole slot of
    the payload; the call never returns an address outside of the
    payload. *)
Theorem access_null_or_slot (element_size : Z) (arr : fclib_str_t)
    (indices : list Z) :
  valid_arr element_size arr ->
  length indices = length (shape arr) -> Forall is_size_t indices ->
  exists r : ptr,
    fclib_arr_access element_size indices arr = Ok (r, arr)
    /\ match r with
       | NULL => index_out_of_bounds (shape arr) indices
       | Ptr off =>
           indices_in_bounds (shape arr) indices
           /\ payload_start arr <= off
           /\ off + element_size <= Z.of_nat (length (value arr))
           /\ exists k, 0 <= k < product (shape arr)
                        /\ off = payload_start arr + k * element_size
       end.
Proof.
  intros Hv Hl Hi.
  assert (Hpos : Forall (fun i => 0 <= i) indices).
  { eapply Forall_impl; [exact Hi|]. intros i H. apply H. }
  destruct (valid_view _ _ Hv) as (dims & p & -> & Hs & Hp & Hd & Hlp & Hq & Hes & Hb).
  rewrite Hs in *.
  destruct (in_or_out_of_bounds dims indices Hl Hpos) as [Hin|Hout].
  - eexists. split; [apply access_in_bounds; trivial; lia|]. cbn iota.
    destruct (slot_fits element_size dims p indices Hlp Hin) as (Ho & Hfit).
    pose proof (flat_offset_bound _ _ Hin) as Hk. unfold is_size_t in Hes.
    split; [exact Hin|]. split; [nia|]. split.
    + unfold payload_start, array_of, sizeof_size_t. cbn [len value].
      rewrite length_app, length_words_bytes. lia.
    + exists (flat_offset dims indices). split; [exact Hk | reflexivity].
  - exists NULL. split; [now apply access_out_of_bounds | exact Hout].
Qed.

Lemma access_null_or_slot_witness :
  valid_arr 2 sample_1d /\ length [3] = length (shape sample_1d)
  /\ Forall is_size_t [3]
  /\ exists r : ptr,
       fclib_arr_access 2 [3] sample_1d = Ok (r, sample_1d)
       /\ match r with
          | NULL => index_out_of_bounds (shape sample_1d) [3]
          | Ptr off =>
              indices_in_bounds (shape sample_1d) [3]
              /\ payload_start sample_1d <= off
              /\ off + 2 <= Z.of_nat (length (value sample_1d))
              /\ exists k, 0 <= k < product (shape sample_1d)
                           /\ off = payload_start sample_1d + k * 2
          end.
Proof.
  assert (Hl : length [3] = length (shape sample_1d)) by reflexivity.
  assert (Hi : Forall is_size_t [3])
    by solve_sizes.
  split; [exact sample_1d_valid|]. split; [exact Hl|]. split; [exact Hi|].
  exact (access_null_or_slot 2 sample_1d [3] sample_1d_valid Hl Hi).
Defined.

(** ** Assignment *)

Lemma assign_val_at_bytes (element_size : Z) (indices : list Z) (v : Z)
    (s : fclib_str_t) :
  fclib_arr_assign_val_at element_size indices v s
  = fclib_arr_assign_at element_size indices (size_t_bytes v) s.
Proof. reflexivity. Qed.

(** X4. [fclib_arr_assign_at] writes the slot of its index vector and
    nothing else: the shape stays, the array stays valid, and the element at
    every other index vector within the shape holds the bytes it held.  A
    call of [fclib_arr_access_val] before and one after the assignment agree
    on those bytes, that is modulo [256^element_size]: the other bytes of
    the value each call returns are those of its own local variable, which
    has no initialiser.  With elements of 8 bytes the two values are
    equal. *)
Theorem assign_at_changes_one_slot (uninit uninit' : nat -> byte)
    (element_size : Z) (arr : fclib_str_t) (i j : list Z) (v bs : list byte) :
  valid_arr element_size arr ->
  indices_in_bounds (shape arr) i -> indices_in_bounds (shape arr) j ->
  i <> j -> mem_load v 0 element_size = Some bs ->
  exists arr' : fclib_str_t,
    fclib_arr_assign_at element_size i v arr = Ok (tt, arr')
    /\ valid_arr element_size arr' /\ shape arr' = shape arr
    /\ payload arr'
       = set_slot element_size (payload arr) (flat_offset (shape arr) i) bs
    /\ slots element_size (payload arr') (flat_offset (shape arr) j) 1
       = slots element_size (payload arr) (flat_offset (shape arr) j) 1
    /\ (element_size <= sizeof_size_t ->
        exists r r' : Z,
          fclib_arr_access_val uninit element_size j arr = Ok (r, arr)
          /\ fclib_arr_access_val uninit' element_size j arr' = Ok (r', arr')
          /\ r mod 256 ^ element_size = r' mod 256 ^ element_size
          /\ (element_size = sizeof_size_t -> r = r')).
Proof.
  intros Hv Hi Hj Hne Hbs.
  pose proof (mem_load_length _ _ _ _ Hbs) as (Hlb & _).
  destruct (valid_view _ _ Hv) as (dims & p & -> & Hs & Hp & Hd & Hl & Hq & Hes & Hb).
  rewrite Hs, Hp in *.
  assert (Hq' : product dims < size_modulus) by lia.
  destruct (slot_fits element_size dims p i Hl Hi) as (Hoi & Hfi).
  destruct (slot_fits element_size dims p j Hl Hj) as (Hoj & Hfj).
  assert (Hoff : flat_offset dims i <> flat_offset dims j).
  { intros E. apply Hne. eapply flat_offset_inj; eauto. }
  assert (He : 0 <= element_size) by apply Hes.
  set (p' := set_slot element_size p (flat_offset dims i) bs).
  assert (Hl' : length p' = length p) by (now apply length_set_slot).
  assert (Hsl : slots element_size p' (flat_offset dims j) 1
                = slots element_size p (flat_offset dims j) 1)
    by (now apply slots_set_slot_other).
  assert (Hls : Z.of_nat (length (slots element_size p (flat_offset dims j) 1))
                = element_size).
  { rewrite length_slots; lia. }
  exists (array_of dims p').
  split; [now apply (assign_at_in_bounds element_size dims p i)|].
  split; [now apply valid_set_slot|].
  split; [now apply shape_array_of|].
  split; [apply payload_array_of|].
  split; [now rewrite payload_array_of|].
  intros Hle. do 2 eexists.
  split; [apply access_val_in_bounds; trivial|].
  split; [apply access_val_in_bounds; trivial; rewrite Hl'; trivial|].
  rewrite Hsl. split.
  - now rewrite !access_val_low_bytes.
  - intros E. rewrite E in *. now rewrite !access_val_whole.
Qed.

Lemma sample_1d_in_bounds_1 : indices_in_bounds (shape sample_1d) [1].
Proof. change (shape sample_1d) with [5]. repeat constructor; lia. Defined.

Lemma assign_at_changes_one_slot_witness :
  valid_arr 2 sample_1d
  /\ indices_in_bounds (shape sample_1d) [3]
  /\ indices_in_bounds (shape sample_1d) [1]
  /\ [3] <> [1] /\ mem_load [xaa; xbb] 0 2 = Some [xaa; xbb]
  /\ exists arr' : fclib_str_t,
       fclib_arr_assign_at 2 [3] [xaa; xbb] sample_1d = Ok (tt, arr')
       /\ valid_arr 2 arr' /\ shape arr' = shape sample_1d
       /\ payload arr'
          = set_slot 2 (payload sample_1d) (flat_offset (shape sample_1d) [3])
                     [xaa; xbb]
       /\ slots 2 (payload arr') (flat_offset (shape sample_1d) [1]) 1
          = slots 2 (payload sample_1d) (flat_offset (shape sample_1d) [1]) 1
       /\ (2 <= sizeof_size_t ->
           exists r r' : Z,
             fclib_arr_access_val zeroed 2 [1] sample_1d = Ok (r, sample_1d)
             /\ fclib_arr_access_val (fun _ => xff) 2 [1] arr' = Ok (r', arr')
             /\ r mod 256 ^ 2 = r' mod 256 ^ 2
             /\ (2 = sizeof_size_t -> r = r')).
Proof.
  assert (Hne : [3] <> [1]) by discriminate.
  assert (Hl : mem_load [xaa; xbb] 0 2 = Some [xaa; xbb]) by reflexivity.
  split; [exact sample_1d_valid|]. split; [exact sample_1d_in_bounds|].
  split; [exact sample_1d_in_bounds_1|]. split; [exact Hne|]. split; [exact Hl|].
  exact (assign_at_changes_one_slot zeroed (fun _ => xff) 2 sample_1d [3] [1]
           [xaa; xbb] [xaa; xbb] sample_1d_valid sample_1d_in_bounds
           sample_1d_in_bounds_1 Hne Hl).
Defined.

(** X5. For an element size of at most 8 bytes and an index vector within
    the shape, [fclib_arr_access_val] after [fclib_arr_assign_val_at]
    returns the value stored modulo [256^element_size]: the low
    [element_size] bytes travel, the other bytes of the container are not
    written.  With elements of 8 bytes it returns the value itself. *)
Theorem assign_val_then_access_val (uninit : nat -> byte) (element_size : Z)
    (arr : fclib_str_t) (indices : list Z) (v : Z) :
  valid_arr element_size arr -> indices_in_bounds (shape arr) indices ->
  element_size <= sizeof_size_t ->
  exists (arr' : fclib_str_t) (r : Z),
    fclib_arr_assign_val_at element_size indices v arr = Ok (tt, arr')
    /\ fclib_arr_access_val uninit element_size indices arr' = Ok (r, arr')
    /\ r mod 256 ^ element_size = v mod 256 ^ element_size
    /\ (element_size = sizeof_size_t -> is_size_t v -> r = v).
Proof.
  intros Hv Hin Hle.
  destruct (valid_view _ _ Hv) as (dims & p & -> & Hs & Hp & Hd & Hl & Hq & Hes & Hb).
  rewrite Hs in *.
  assert (Hq' : product dims < size_modulus) by lia.
  assert (He : 0 <= element_size) by apply Hes.
  unfold sizeof_size_t in *.
  destruct (slot_fits element_size dims p indices Hl Hin) as (Ho & Hfit).
  set (bs := take (Z.to_nat element_size) (size_t_bytes v)).
  assert (Hbs : mem_load (size_t_bytes v) 0 element_size = Some bs).
  { apply mem_load_take. rewrite length_size_t_bytes. lia. }
  pose proof (mem_load_length _ _ _ _ Hbs) as (Hlb & _).
  set (p' := set_slot element_size p (flat_offset dims indices) bs).
  assert (Hl' : length p' = length p) by (now apply length_set_slot).
  set (r := le_decode (slots element_size p' (flat_offset dims indices) 1
                       ++ drop (Z.to_nat element_size)
                               (indeterminate uninit sizeof_size_t))).
  exists (array_of dims p'), r.
  split; [rewrite assign_val_at_bytes;
          now apply (assign_at_in_bounds element_size dims p indices)|].
  split; [apply access_val_in_bounds; trivial; rewrite Hl'; trivial|].
  assert (Er : r = le_decode (bs ++ drop (Z.to_nat element_size)
                                      (indeterminate uninit sizeof_size_t))).
  { unfold r, p'. now rewrite slots_set_slot. }
  split.
  - rewrite Er. unfold bs.
    replace (256 ^ element_size) with (256 ^ Z.of_nat (Z.to_nat element_size))
      by (f_equal; lia).
    apply low_bytes. lia.
  - intros -> Hsz. rewrite Er. unfold bs.
    rewrite drop_ge by (rewrite length_indeterminate; unfold sizeof_size_t; lia).
    rewrite app_nil_r, take_ge by (rewrite length_size_t_bytes; lia).
    rewrite le_decode_size_t_bytes. now apply wrap_small.
Qed.

Lemma assign_val_then_access_val_witness :
  valid_arr 2 sample_1d /\ indices_in_bounds (shape sample_1d) [3]
  /\ 2 <= sizeof_size_t
  /\ exists (arr' : fclib_str_t) (r : Z),
       fclib_arr_assign_val_at 2 [3] 70000 sample_1d = Ok (tt, arr')
       /\ fclib_arr_access_val zeroed 2 [3] arr' = Ok (r, arr')
       /\ r mod 256 ^ 2 = 70000 mod 256 ^ 2
       /\ (2 = sizeof_size_t -> is_size_t 70000 -> r = 70000).
Proof.
  assert (H8 : 2 <= sizeof_size_t) by (unfold sizeof_size_t; lia).
  split; [exact sample_1d_valid|]. split; [exact sample_1d_in_bounds|].
  split; [exact H8|].
  exact (assign_val_then_access_val zeroed 2 sample_1d [3] 70000
           sample_1d_valid sample_1d_in_bounds H8).
Defined.

(** X6. [fclib_arr_fill_val] followed by [fclib_arr_access_val]: for an
    element size of at most 8 bytes, every index vector within the shape
    reads the fill value modulo [256^element_size]. *)
Theorem fill_val_then_access_val (uninit : nat -> byte) (element_size : Z)
    (arr : fclib_str_t) (indices : list Z) (v : Z) :
  valid_arr element_size arr -> indices_in_bounds (shape arr) indices ->
  element_size <= sizeof_size_t ->
  exists (filled : fclib_str_t) (r : Z),
    fclib_arr_fill_val element_size v arr = Ok (tt, filled)
    /\ shape filled = shape arr
    /\ fclib_arr_access_val uninit element_size indices filled = Ok (r, filled)
    /\ r mod 256 ^ element_size = v mod 256 ^ element_size.
Proof.
  intros Hv Hin Hle.
  pose proof (product_pos _ _ Hin) as H1.
  assert (He : 0 <= element_size) by apply Hv.
  unfold sizeof_size_t in *.
  set (bs := take (Z.to_nat element_size) (size_t_bytes v)).
  assert (Hbs : mem_load (size_t_bytes v) 0 element_size = Some bs).
  { apply mem_load_take. rewrite length_size_t_bytes. lia. }
  pose proof (mem_load_length _ _ _ _ Hbs) as (Hlb & _).
  pose proof (fill_seq_fills element_size (size_t_bytes v) bs arr Hv H1 Hbs)
    as Hfill.
  rewrite <- fill_inline_seq_block in Hfill
    by (destruct Hv as (_ & _ & _ & _ & Hsz); unfold sizeof_str in Hsz; lia).
  destruct (valid_view _ _ Hv) as (dims & p & -> & Hs & Hp & Hd & Hl & Hq & Hes & Hb).
  rewrite Hs in *.
  assert (Hsf : shape (array_of dims (rep (Z.to_nat (product dims)) bs)) = dims)
    by (now apply shape_array_of).
  pose proof (flat_offset_bound _ _ Hin) as Ho.
  set (q := rep (Z.to_nat (product dims)) bs) in *.
  assert (Hlq : Z.of_nat (length q) = product dims * element_size).
  { unfold q. rewrite length_rep. nia. }
  exists (array_of dims q). eexists.
  split; [rewrite fill_val_inline; exact Hfill|].
  split; [exact Hsf|].
  split; [apply access_val_in_bounds; trivial; try lia; rewrite Hlq; lia|].
  unfold q. rewrite slots_rep by (trivial; lia). unfold bs.
  replace (256 ^ element_size) with (256 ^ Z.of_nat (Z.to_nat element_size))
    by (f_equal; lia).
  apply low_bytes. lia.
Qed.

Lemma fill_val_then_access_val_witness :
  valid_arr 2 sample_1d /\ indices_in_bounds (shape sample_1d) [3]
  /\ 2 <= sizeof_size_t
  /\ exists (filled : fclib_str_t) (r : Z),
       fclib_arr_fill_val 2 7 sample_1d = Ok (tt, filled)
       /\ shape filled = shape sample_1d
       /\ fclib_arr_access_val zeroed 2 [3] filled = Ok (r, filled)
       /\ r mod 256 ^ 2 = 7 mod 256 ^ 2.
Proof.
  assert (H8 : 2 <= sizeof_size_t) by (unfold sizeof_size_t; lia).
  split; [exact sample_1d_valid|]. split; [exact sample_1d_in_bounds|].
  split; [exact H8|].
  exact (fill_val_then_access_val zeroed 2 sample_1d [3] 7
           sample_1d_valid sample_1d_in_bounds H8).
Defined.

(** ** Slices and their elements *)

Lemma flat_offset_1d (d i : Z) : flat_offset [d] [i] = i.
Proof. unfold flat_offset. cbn [flat_offset_from]. lia. Qed.

(** X7. Where [fclib_arr_get_slice_1d] returns, the result is a valid
    one-dimensional array of the clamped length and the source is as it
    was; element [k] of the result holds the bytes of element [from + k] of
    the source, [from] being the clamped one.  For an element size of at
    most 8 bytes, [fclib_arr_access_val] on the two elements agrees modulo
    [256^element_size], the other bytes of each value being those of the
    local variable of that call; with elements of 8 bytes the two values
    are equal. *)
Theorem slice_1d_elements (uninit uninit' : nat -> byte)
    (element_size from to src_len : Z) (src : fclib_str_t) :
  valid_arr element_size src -> shape src = [src_len] ->
  is_size_t from -> is_size_t to -> ~ slice_1d_aborts src_len from to ->
  let real_to := clamped_to src_len to in
  let real_from := clamped_from from real_to in
  exists slice : fclib_str_t,
    fclib_arr_get_slice_1d uninit element_size from to src = Ok (slice, src)
    /\ valid_arr element_size slice
    /\ shape slice = [real_to - real_from]
    /\ 0 <= real_from < real_to /\ real_to <= src_len
    /\ (forall k, 0 <= k < real_to - real_from ->
        slots element_size (payload slice) k 1
        = slots element_size (payload src) (real_from + k) 1)
    /\ (element_size <= sizeof_size_t ->
        forall k, 0 <= k < real_to - real_from ->
        exists r r' : Z,
          fclib_arr_access_val uninit element_size [k] slice = Ok (r, slice)
          /\ fclib_arr_access_val uninit' element_size [real_from + k] src
             = Ok (r', src)
          /\ r mod 256 ^ element_size = r' mod 256 ^ element_size
          /\ (element_size = sizeof_size_t -> r = r')).
Proof.
  intros Hv Hs Hf Ht Hna real_to real_from.
  destruct (valid_view _ _ Hv) as (dims & p & -> & Hs' & Hp & Hd & Hl & Hq & Hes & Hb).
  rewrite Hs in Hs'. subst dims.
  change (product [src_len]) with (src_len * 1) in *. rewrite Z.mul_1_r in *.
  assert (Hsl : is_size_t src_len) by (now inversion Hd).
  destruct (slice_1d_array uninit element_size from to src_len p
              Hsl Hes Hf Ht Hl Hb) as (_ & Hok).
  specialize (Hok Hna). fold real_to real_from in Hok.
  destruct (clamped_to_range src_len to Hsl Ht) as (Hrt & Hrt0).
  fold real_to in Hrt, Hrt0.
  assert (Hrf : 0 <= real_from < real_to).
  { unfold slice_1d_aborts in Hna. fold real_to in Hna.
    unfold real_from, clamped_from. rewrite Z.gtb_ltb.
    unfold is_size_t in Hf. destruct (Z.ltb_spec real_to from); lia. }
  pose proof Hes as Hes'. pose proof Hsl as Hsl'. unfold is_size_t in Hes', Hsl'.
  set (n := real_to - real_from) in *.
  set (q := slots element_size p real_from n) in *.
  assert (Hlq : Z.of_nat (length q) = n * element_size).
  { unfold q. apply length_slots; try lia. nia. }
  assert (Hdn : Forall is_size_t [n]).
  { repeat constructor; unfold n; lia. }
  assert (Hbn : sizeof_str + sizeof_size_t * Z.of_nat (length [n])
                + Z.of_nat (length q) < size_modulus).
  { cbn [length] in *. unfold sizeof_str, sizeof_size_t in *. nia. }
  assert (Hsame : forall k, 0 <= k < n ->
            slots element_size q k 1 = slots element_size p (real_from + k) 1).
  { intros k Hk. unfold q. now rewrite slots_slots by lia. }
  exists (array_of [n] q).
  split; [exact Hok|].
  split.
  { apply array_of_valid; trivial.
    - change (product [n]) with (n * 1). lia.
    - change (product [n]) with (n * 1). lia. }
  split; [now apply shape_array_of|].
  split; [exact Hrf|]. split; [lia|].
  split; [intros k Hk; rewrite !payload_array_of; now apply Hsame|].
  intros Hle k Hk.
  assert (Hls : Z.of_nat (length (slots element_size p (real_from + k) 1))
                = element_size).
  { rewrite length_slots; nia. }
  do 2 eexists. split; [|split].
  - apply access_val_in_bounds; trivial;
      try (change (product [n]) with (n * 1); lia).
    repeat constructor; lia.
  - apply access_val_in_bounds; trivial;
      try (change (product [src_len]) with (src_len * 1); lia);
      try (cbn [length]; unfold sizeof_str, sizeof_size_t in *; lia).
    repeat constructor; lia.
  - rewrite !flat_offset_1d, (Hsame k Hk). split.
    + now rewrite !access_val_low_bytes.
    + intros E. rewrite E in *. now rewrite !access_val_whole.
Qed.

Lemma slice_1d_not_aborts_sample : ~ slice_1d_aborts 5 1 3.
Proof. unfold slice_1d_aborts. vm_compute. intros [H|[H _]]; discriminate H. Defined.

Lemma slice_1d_elements_witness :
  valid_arr 2 sample_1d /\ shape sample_1d = [5]
  /\ is_size_t 1 /\ is_size_t 3 /\ ~ slice_1d_aborts 5 1 3
  /\ exists slice : fclib_str_t,
       fclib_arr_get_slice_1d zeroed 2 1 3 sample_1d = Ok (slice, sample_1d)
       /\ valid_arr 2 slice
       /\ shape slice = [clamped_to 5 3 - clamped_from 1 (clamped_to 5 3)]
       /\ 0 <= clamped_from 1 (clamped_to 5 3) < clamped_to 5 3
       /\ clamped_to 5 3 <= 5
       /\ (forall k,
           0 <= k < clamped_to 5 3 - clamped_from 1 (clamped_to 5 3) ->
           slots 2 (payload slice) k 1
           = slots 2 (payload sample_1d)
               (clamped_from 1 (clamped_to 5 3) + k) 1)
       /\ (2 <= sizeof_size_t ->
           forall k,
           0 <= k < clamped_to 5 3 - clamped_from 1 (clamped_to 5 3) ->
           exists r r' : Z,
             fclib_arr_access_val zeroed 2 [k] slice = Ok (r, slice)
             /\ fclib_arr_access_val (fun _ => xff) 2
                  [clamped_from 1 (clamped_to 5 3) + k] sample_1d
                = Ok (r', sample_1d)
             /\ r mod 256 ^ 2 = r' mod 256 ^ 2
             /\ (2 = sizeof_size_t -> r = r')).
Proof.
  assert (H1 : is_size_t 1) by solve_size_t.
  assert (H3 : is_size_t 3) by solve_size_t.
  split; [exact sample_1d_valid|]. split; [exact sample_1d_shape|].
  split; [exact H1|]. split; [exact H3|].
  split; [exact slice_1d_not_aborts_sample|].
  exact (slice_1d_elements zeroed (fun _ => xff) 2 1 3 5 sample_1d
           sample_1d_valid sample_1d_shape H1 H3 slice_1d_not_aborts_sample).
Defined.

(** ** The place of an element in a general slice *)

Lemma chunk_rank_bound (sd : nat) (pairs : list (Z * Z)) (cur : list Z) (k : nat) :
  indices_in_ranges pairs cur -> (k <= length pairs)%nat ->
  0 <= chunk_rank k sd pairs cur < chunk_count k sd pairs.
Proof.
  intros Hin. induction k as [|i IH]; intros Hk; [cbn; lia|].
  cbn [chunk_rank chunk_count]. destruct (i <? sd)%nat; [lia|].
  destruct (lookup_lt_is_Some_2 pairs i ltac:(lia)) as [r Hr]. rewrite Hr.
  destruct (Forall2_lookup_r _ _ _ _ _ Hin Hr) as (c & Hc & Hcr). rewrite Hc.
  specialize (IH ltac:(lia)). unfold index_in_range in Hcr.
  destruct (is_range r); [nia | lia].
Qed.

Lemma chunk_rank_inj (sd : nat) (pairs : list (Z * Z)) (cur cur' : list Z)
    (k : nat) :
  indices_in_ranges pairs cur -> indices_in_ranges pairs cur' ->
  (k <= length pairs)%nat ->
  chunk_rank k sd pairs cur = chunk_rank k sd pairs cur' ->
  forall j, (sd <= j < k)%nat -> cur !! j = cur' !! j.
Proof.
  intros Hin Hin'. induction k as [|i IH]; intros Hk E j Hj; [lia|].
  cbn [chunk_rank] in E. destruct (Nat.ltb_spec i sd); [lia|].
  destruct (lookup_lt_is_Some_2 pairs i ltac:(lia)) as [r Hr]. rewrite Hr in E.
  destruct (Forall2_lookup_r _ _ _ _ _ Hin Hr) as (c & Hc & Hcr).
  destruct (Forall2_lookup_r _ _ _ _ _ Hin' Hr) as (c' & Hc' & Hcr').
  rewrite Hc, Hc' in E. unfold index_in_range in Hcr, Hcr'.
  assert (E' : chunk_rank i sd pairs cur = chunk_rank i sd pairs cur' /\ c = c').
  { destruct (is_range r); [|split; [exact E|lia]].
    destruct (Z.div_mod_unique (snd r - fst r)
                (chunk_rank i sd pairs cur) (chunk_rank i sd pairs cur')
                (c - fst r) (c' - fst r)) as (E1 & E2);
      [left; lia | left; lia | lia |].
    split; [exact E1 | lia]. }
  destruct E' as (E1 & ->).
  destruct (Nat.eq_dec j i) as [->|Hne]; [now rewrite Hc, Hc'|].
  apply IH; [lia | exact E1 | lia].
Qed.

Lemma chunk_rank_below (sd : nat) (pairs : list (Z * Z)) (cur : list Z)
    (j : nat) (x : Z) (k : nat) :
  (j < sd)%nat ->
  chunk_rank k sd pairs (<[j := x]> cur) = chunk_rank k sd pairs cur.
Proof.
  intros Hj. induction k as [|i IH]; [reflexivity|].
  cbn [chunk_rank]. destruct (Nat.ltb_spec i sd); [reflexivity|].
  rewrite list_lookup_insert_ne by lia. now rewrite IH.
Qed.

(** Reading slots of a payload that is written chunk after chunk. *)
Lemma slots_app_l (es : Z) (a b : list byte) (from n : Z) :
  0 <= es -> 0 <= from -> 0 <= n ->
  (from + n) * es <= Z.of_nat (length a) ->
  slots es (a ++ b) from n = slots es a from n.
Proof.
  intros He Hf Hn Hfit. unfold slots.
  rewrite drop_app_le by nia.
  apply take_app_le. rewrite length_drop. nia.
Qed.

Lemma slots_app_r (es : Z) (a b : list byte) (from n : Z) :
  from * es = Z.of_nat (length a) -> n * es = Z.of_nat (length b) ->
  slots es (a ++ b) from n = b.
Proof.
  intros Hf Hn. unfold slots.
  rewrite drop_app_length' by lia. apply take_ge. lia.
Qed.

Section SliceElements.

Variables (es : Z) (dims : list Z) (p : list byte) (pairs : list (Z * Z)).
Hypothesis Hdims : Forall is_size_t dims.
Hypothesis Hes : is_size_t es.
Hypothesis Hp : Z.of_nat (length p) = product dims * es.
Hypothesis Hsel : ranges_selected dims pairs.

Lemma chunks_written_chunk (n c : nat) :
  (c < n)%nat -> Z.of_nat n <= slice_chunks pairs ->
  slots es (chunks_written es dims p pairs n)
        (Z.of_nat c * slice_chunk_size pairs) (slice_chunk_size pairs)
  = chunk_bytes es dims p pairs c.
Proof.
  destruct (chunks_total dims p pairs Hdims Hsel) as (_ & Hcs & _).
  assert (He : 0 <= es) by apply Hes.
  induction n as [|n IH]; intros Hc Hn; [lia|].
  rewrite chunks_written_S.
  pose proof (length_chunks_written es dims p pairs Hdims Hes Hp Hsel n ltac:(lia))
    as Hlw.
  destruct (Nat.eq_dec c n) as [->|Hne].
  - apply slots_app_r; [lia|].
    rewrite (length_chunk_bytes es dims p pairs Hdims Hes Hp Hsel) by lia. lia.
  - rewrite slots_app_l by nia. apply IH; lia.
Qed.

Lemma length_sliced_payload :
  Z.of_nat (length (sliced_payload es dims p pairs))
  = product (range_lengths pairs) * es.
Proof.
  destruct (chunks_total dims p pairs Hdims Hsel) as (Htot & Hcs & Hn).
  unfold sliced_payload.
  rewrite (length_chunks_written es dims p pairs Hdims Hes Hp Hsel) by lia.
  rewrite Z2Nat.id by lia. rewrite <- Htot. lia.
Qed.

Lemma slice_element_place (cur : list Z) :
  indices_in_ranges pairs cur ->
  0 <= slice_position pairs cur < product (range_lengths pairs)
  /\ slots es (sliced_payload es dims p pairs) (slice_position pairs cur) 1
     = slots es p (flat_offset dims cur) 1.
Proof.
  intros Hin.
  destruct (chunks_total dims p pairs Hdims Hsel) as (Htot & Hcs & Hn).
  pose proof (ranges_selected_bounds _ _ Hdims Hsel) as Hbd.
  assert (He : 0 <= es) by apply Hes.
  pose proof (Forall2_length _ _ _ Hin) as Hlc.
  pose proof (Forall2_length _ _ _ Hsel) as Hld.
  (* the index vector with axis 0 put back to the start of its range *)
  assert (Hcur0 : exists cur0 k,
    indices_in_ranges pairs cur0
    /\ (forall j, (j < slice_start_dim pairs)%nat ->
                  cur0 !! j = map fst pairs !! j)
    /\ chunk_rank (length pairs) (slice_start_dim pairs) pairs cur0
       = chunk_rank (length pairs) (slice_start_dim pairs) pairs cur
    /\ slice_position pairs cur
       = chunk_rank (length pairs) (slice_start_dim pairs) pairs cur
         * slice_chunk_size pairs + k
    /\ 0 <= k < slice_chunk_size pairs
    /\ flat_offset dims cur = flat_offset dims cur0 + k).
  { unfold slice_position, slice_start_dim, slice_chunk_size, first_is_range.
    destruct Hin as [|c0 r0 cur' pairs' Hc0 Hin'].
    - exists [], 0. repeat split; try lia. constructor.
    - destruct dims as [|d0 dims']; [discriminate|].
      pose proof Hc0 as Hc0'.
      unfold index_in_range in Hc0. destruct (is_range r0) eqn:Er.
      + exists (fst r0 :: cur'), (c0 - fst r0). split.
        { constructor; [|exact Hin']. unfold index_in_range. rewrite Er. lia. }
        split.
        { intros j Hj. assert (j = 0%nat) as -> by lia. reflexivity. }
        split.
        { change (fst r0 :: cur') with (<[0%nat := fst r0]> (c0 :: cur')).
          apply chunk_rank_below. lia. }
        split; [reflexivity|]. split; [lia|].
        rewrite !flat_offset_cons. lia.
      + exists (c0 :: cur'), 0. split; [now constructor|].
        split; [intros j Hj; lia|]. split; [reflexivity|].
        split; [reflexivity|]. split; lia. }
  destruct Hcur0 as (cur0 & k & Hin0 & Hlow0 & Hrk & Hpos & Hk & Hoff).
  pose proof (chunk_rank_bound (slice_start_dim pairs) pairs cur0 (length pairs)
                Hin0 ltac:(lia)) as Hrb.
  fold (slice_chunks pairs) in Hrb. rewrite Hrk in Hrb.
  set (rk := chunk_rank (length pairs) (slice_start_dim pairs) pairs cur) in *.
  destruct (indices_at_spec (array_of dims p) dims pairs Hdims Hsel (Z.to_nat rk)
              ltac:(lia)) as (Hin1 & Hrk1 & Hlow1).
  set (cur1 := indices_at (slice_start_dim pairs) pairs (Z.to_nat rk)) in *.
  assert (E : cur1 = cur0).
  { apply list_eq. intros j.
    destruct (Nat.lt_ge_cases j (slice_start_dim pairs)) as [Hj|Hj].
    - now rewrite Hlow0, Hlow1.
    - destruct (Nat.lt_ge_cases j (length pairs)) as [Hj'|Hj'].
      + apply (chunk_rank_inj (slice_start_dim pairs) pairs cur1 cur0
                 (length pairs)); trivial; [|lia]. rewrite Hrk1, Hrk. lia.
      + pose proof (Forall2_length _ _ _ Hin0). pose proof (Forall2_length _ _ _ Hin1).
        rewrite !lookup_ge_None_2 by lia. reflexivity. }
  split; [rewrite Hpos, <- Htot; nia|].
  rewrite Hpos, Hoff.
  rewrite <- (slots_slots es _ (rk * slice_chunk_size pairs)
                (slice_chunk_size pairs) k) by (trivial; nia).
  unfold sliced_payload.
  replace rk with (Z.of_nat (Z.to_nat rk)) at 1 by lia.
  rewrite chunks_written_chunk by lia.
  unfold chunk_bytes. fold cur1. rewrite E.
  destruct (chunk_fits dims pairs Hdims Hsel cur0 Hin0 Hlow0) as (Ho & _).
  apply slots_slots; trivial.
Qed.

End SliceElements.

Lemma range_lengths_widths (pairs : list (Z * Z)) :
  Forall (fun r => 0 <= fst r /\ fst r <= snd r < size_modulus) pairs ->
  range_lengths pairs = map (fun r => snd r - fst r) (List.filter is_range pairs).
Proof.
  intros H. unfold range_lengths. apply map_ext_in. intros r Hr.
  apply List.filter_In in Hr as (Hr & _).
  rewrite List.Forall_forall in H. specialize (H r Hr).
  apply wsub_small. lia.
Qed.

Lemma slice_result_valid (es : Z) (dims : list Z) (p : list byte)
    (pairs : list (Z * Z)) :
  Forall is_size_t dims -> is_size_t es ->
  product dims < size_modulus ->
  Z.of_nat (length p) = product dims * es ->
  sizeof_str + sizeof_size_t * Z.of_nat (length dims) + Z.of_nat (length p)
  < size_modulus ->
  ranges_selected dims pairs ->
  valid_arr es (array_of (range_lengths pairs) (sliced_payload es dims p pairs)).
Proof.
  intros Hd Hes Hq Hp Hb Hsel.
  destruct (range_lengths_selected dims pairs Hd Hsel) as (Hrl & Hpr).
  pose proof (length_sliced_payload es dims p pairs Hd Hes Hp Hsel) as Hlen.
  pose proof (length_range_lengths pairs) as Hnd.
  pose proof (Forall2_length _ _ _ Hsel) as Hl.
  assert (Hc : count_ranges pairs <= Z.of_nat (length pairs)).
  { unfold count_ranges. pose proof (List.filter_length_le is_range pairs). lia. }
  pose proof (product_nonneg _ Hd) as Hpd.
  assert (He : 0 <= es) by apply Hes.
  apply array_of_valid; trivial; unfold sizeof_str, sizeof_size_t in *; nia.
Qed.

(** X8. For ranges that satisfy the rules, not reversed, with at least one
    axis kept, [fclib_arr_get_slice] returns a valid array and leaves the
    source as it was; the shape of the result holds [to - from] for each
    kept axis, in the order of the axes. *)
Theorem slice_gives_array (uninit : nat -> byte) (element_size : Z)
    (src : fclib_str_t) (pairs : list (Z * Z)) :
  valid_arr element_size src -> ranges_selected (shape src) pairs ->
  1 <= count_ranges pairs ->
  exists result : fclib_str_t,
    fclib_arr_get_slice uninit element_size (flat_ranges pairs) src
    = Ok (Some result, src)
    /\ valid_arr element_size result
    /\ shape result
       = map (fun r => snd r - fst r) (List.filter is_range pairs)
    /\ 1 <= product (shape result) <= product (shape src).
Proof.
  intros Hv Hsel Hk.
  destruct (valid_view _ _ Hv) as (dims & p & -> & Hs & Hp & Hd & Hl & Hq & Hes & Hb).
  rewrite Hs in *.
  destruct (range_lengths_selected dims pairs Hd Hsel) as (Hrl & Hpr).
  exists (array_of (range_lengths pairs) (sliced_payload element_size dims p pairs)).
  split; [apply get_slice_selected; trivial; lia|].
  split; [apply slice_result_valid; trivial; lia|].
  rewrite shape_array_of by exact Hrl.
  split; [|exact Hpr].
  apply range_lengths_widths. apply (ranges_selected_bounds dims pairs Hd Hsel).
Qed.

Lemma sample_4x4_rows_selected :
  ranges_selected (shape sample_4x4) [(1, 3); (2, 2)].
Proof.
  change (shape sample_4x4) with [4; 4]. unfold ranges_selected, axis_selected.
  repeat constructor; cbn; lia.
Defined.

Lemma slice_gives_array_witness :
  valid_arr 1 sample_4x4 /\ ranges_selected (shape sample_4x4) [(1, 3); (2, 2)]
  /\ 1 <= count_ranges [(1, 3); (2, 2)]
  /\ exists result : fclib_str_t,
       fclib_arr_get_slice zeroed 1 (flat_ranges [(1, 3); (2, 2)]) sample_4x4
       = Ok (Some result, sample_4x4)
       /\ valid_arr 1 result
       /\ shape result
          = map (fun r => snd r - fst r) (List.filter is_range [(1, 3); (2, 2)])
       /\ 1 <= product (shape result) <= product (shape sample_4x4).
Proof.
  assert (Hk : 1 <= count_ranges [(1, 3); (2, 2)]) by (vm_compute; discriminate).
  split; [exact sample_4x4_valid|]. split; [exact sample_4x4_rows_selected|].
  split; [exact Hk|].
  exact (slice_gives_array zeroed 1 sample_4x4 [(1, 3); (2, 2)]
           sample_4x4_valid sample_4x4_rows_selected Hk).
Defined.

(** X9. Where in the result of [fclib_arr_get_slice] an element of the
    source is found.  For every index vector within the ranges, the element
    of the source at that vector is the slot [slice_position] of the
    result: the index along axis 0, when axis 0 is kept, counts first, then
    the indices of the other kept axes, the last axis before the ones in
    front of it. *)
Theorem slice_places_elements (uninit : nat -> byte) (element_size : Z)
    (src : fclib_str_t) (pairs : list (Z * Z)) :
  valid_arr element_size src -> ranges_selected (shape src) pairs ->
  1 <= count_ranges pairs ->
  exists result : fclib_str_t,
    fclib_arr_get_slice uninit element_size (flat_ranges pairs) src
    = Ok (Some result, src)
    /\ forall cur : list Z,
         indices_in_ranges pairs cur ->
         0 <= slice_position pairs cur < product (shape result)
         /\ slots element_size (payload result) (slice_position pairs cur) 1
            = slots element_size (payload src) (flat_offset (shape src) cur) 1.
Proof.
  intros Hv Hsel Hk.
  destruct (valid_view _ _ Hv) as (dims & p & -> & Hs & Hp & Hd & Hl & Hq & Hes & Hb).
  rewrite Hs, Hp in *.
  destruct (range_lengths_selected dims pairs Hd Hsel) as (Hrl & Hpr).
  exists (array_of (range_lengths pairs) (sliced_payload element_size dims p pairs)).
  split; [apply get_slice_selected; trivial; lia|].
  intros cur Hin. rewrite shape_array_of by exact Hrl. rewrite payload_array_of.
  now apply slice_element_place.
Qed.

Lemma slice_places_elements_witness :
  valid_arr 1 sample_4x4 /\ ranges_selected (shape sample_4x4) [(1, 3); (2, 2)]
  /\ 1 <= count_ranges [(1, 3); (2, 2)]
  /\ exists result : fclib_str_t,
       fclib_arr_get_slice zeroed 1 (flat_ranges [(1, 3); (2, 2)]) sample_4x4
       = Ok (Some result, sample_4x4)
       /\ forall cur : list Z,
            indices_in_ranges [(1, 3); (2, 2)] cur ->
            0 <= slice_position [(1, 3); (2, 2)] cur < product (shape result)
            /\ slots 1 (payload result) (slice_position [(1, 3); (2, 2)] cur) 1
               = slots 1 (payload sample_4x4)
                       (flat_offset (shape sample_4x4) cur) 1.
Proof.
  assert (Hk : 1 <= count_ranges [(1, 3); (2, 2)]) by (vm_compute; discriminate).
  split; [exact sample_4x4_valid|]. split; [exact sample_4x4_rows_selected|].
  split; [exact Hk|].
  exact (slice_places_elements zeroed 1 sample_4x4 [(1, 3); (2, 2)]
           sample_4x4_valid sample_4x4_rows_selected Hk).
Defined.

(** ** The room [fclib_arr_create] asks for *)

(** X10. The number of bytes [fclib_arr_create] asks [malloc] for is
    computed in [size_t] and not tested for overflow: the payload of the
    array it returns has room for the product of the axis lengths, reduced
    modulo [2^64], times the element size, reduced again.  Where the true
    product does not fit, the header describes more slots than the block
    holds. *)
Theorem create_room_wraps (uninit : nat -> byte) (element_size : Z)
    (lengths : list Z) :
  Forall is_size_t lengths -> is_size_t element_size ->
  let room := wmul (wrap (product lengths)) element_size in
  sizeof_str + sizeof_size_t * Z.of_nat (length lengths) + room < size_modulus ->
  exists arr,
    fclib_arr_create uninit (Z.of_nat (length lengths)) element_size lengths
    = Ok arr
    /\ shape arr = lengths
    /\ Z.of_nat (length (payload arr)) = room
    /\ (size_modulus <= product lengths * element_size ->
        ~ valid_arr element_size arr).
Proof.
  intros Hd Hes room Hb.
  assert (Hroom : is_size_t room) by apply wrap_range.
  unfold is_size_t, sizeof_str, sizeof_size_t in *.
  set (n := 8 + Z.of_nat (length lengths) * 8 + room).
  set (q := drop (8 * length lengths) (drop 8 (indeterminate uninit n))).
  assert (Hlq : Z.of_nat (length q) = room).
  { unfold q. rewrite !length_drop, length_indeterminate. lia. }
  exists (array_of lengths q).
  assert (Hc : fclib_arr_create uninit (Z.of_nat (length lengths)) element_size
                 lengths = Ok (array_of lengths q)).
  { unfold fclib_arr_create. rewrite Nat2Z.id.
    pose proof (arr_len_loop_spec lengths [] 1) as E.
    change (Z.of_nat (length (@nil Z))) with 0 in E.
    change ([] ++ lengths) with lengths in E. rewrite E. clear E.
    fold (wproduct lengths). rewrite wproduct_wrap. fold room.
    unfold sizeof_str, sizeof_size_t.
    rewrite (wmul_small (Z.of_nat _) 8) by lia.
    rewrite (wadd_small 8) by lia. rewrite wadd_small by lia. fold n.
    unfold malloc_str, sizeof_str. destruct (Z.ltb_spec n 8); [lia|].
    unfold exec, bind, set_len, memcpy_from, bind, lift_opt.
    rewrite (mem_load_at _ [] (words_bytes lengths) []);
      [|now rewrite app_nil_r|reflexivity|rewrite length_words_bytes; lia].
    unfold ret. cbn [value len].
    rewrite (store_at _ [] (take (8 * length lengths)
                              (drop 8 (indeterminate uninit n)))
               (words_bytes lengths) q).
    - reflexivity.
    - cbn [value app]. unfold q. now rewrite take_drop.
    - reflexivity.
    - rewrite length_words_bytes, length_take, length_drop, length_indeterminate.
      lia. }
  split; [exact Hc|]. split; [now apply shape_array_of|].
  split; [now rewrite payload_array_of|].
  intros Hbig (_ & _ & Hv & _).
  rewrite shape_array_of in Hv by exact Hd.
  unfold payload_start, array_of, sizeof_size_t in Hv. cbn [len value] in Hv.
  rewrite length_app, length_words_bytes in Hv. lia.
Qed.

Lemma create_room_wraps_witness :
  Forall is_size_t [4294967296; 4294967296] /\ is_size_t 1
  /\ sizeof_str + sizeof_size_t * Z.of_nat (length [4294967296; 4294967296])
     + wmul (wrap (product [4294967296; 4294967296])) 1 < size_modulus
  /\ exists arr,
       fclib_arr_create zeroed (Z.of_nat (length [4294967296; 4294967296])) 1
         [4294967296; 4294967296] = Ok arr
       /\ shape arr = [4294967296; 4294967296]
       /\ Z.of_nat (length (payload arr))
          = wmul (wrap (product [4294967296; 4294967296])) 1
       /\ (size_modulus <= product [4294967296; 4294967296] * 1 ->
           ~ valid_arr 1 arr).
Proof.
  assert (Hd : Forall is_size_t [4294967296; 4294967296]) by solve_sizes.
  assert (H1 : is_size_t 1) by solve_size_t.
  assert (Hb : sizeof_str
               + sizeof_size_t * Z.of_nat (length [4294967296; 4294967296])
               + wmul (wrap (product [4294967296; 4294967296])) 1
               < size_modulus) by reflexivity.
  split; [exact Hd|]. split; [exact H1|]. split; [exact Hb|].
  exact (create_room_wraps zeroed 1 [4294967296; 4294967296] Hd H1 Hb).
Defined.
(** * Strings *)

(** ** Writing a whole run *)

Lemma mem_store_prefix (m bs : list byte) :
  (length bs <= length m)%nat ->
  mem_store m 0 bs = Some (bs ++ drop (length bs) m).
Proof.
  intros H.
  rewrite (mem_store_at m [] (take (length bs) m) bs (drop (length bs) m));
    trivial.
  - cbn [app]. now rewrite take_drop.
  - rewrite length_take. lia.
Qed.

Lemma mem_store_last (m : list byte) (n : Z) (c : byte) :
  0 <= n -> Z.of_nat (length m) = n + 1 ->
  mem_store m n [c] = Some (take (Z.to_nat n) m ++ [c]).
Proof.
  intros Hn Hl.
  rewrite (mem_store_at m (take (Z.to_nat n) m) (drop (Z.to_nat n) m) [c] []).
  - reflexivity.
  - now rewrite app_nil_r, take_drop.
  - rewrite length_take. lia.
  - rewrite length_drop. cbn. lia.
Qed.

Lemma mem_load_prefix (bs rest : list byte) :
  mem_load (bs ++ rest) 0 (Z.of_nat (length bs)) = Some bs.
Proof. now apply (mem_load_at _ [] bs rest). Qed.

Lemma length_fresh_chars (uninit : nat -> byte) (n : Z) :
  length (fresh_chars uninit n) = Z.to_nat n.
Proof. unfold fresh_chars. now rewrite length_map, length_seq. Qed.

(** ** Construction *)

Lemma str_create_fresh (uninit : nat -> byte) (n : Z) :
  0 <= n -> sizeof_str + n + 1 < size_modulus ->
  fclib_str_create uninit n = Ok (mk_str n (fresh_chars uninit n ++ [x00])).
Proof.
  intros Hn Hb. unfold fclib_str_create, malloc_str, sizeof_str in *.
  rewrite (wadd_small 8 n) by lia. rewrite wadd_small by lia.
  destruct (Z.ltb_spec (8 + n + 1) 8); [lia|].
  unfold exec, bind, set_len, store. cbn [value len].
  assert (E : drop 8 (indeterminate uninit (8 + n + 1))
              = fresh_chars uninit n ++ [uninit (8 + Z.to_nat n)%nat]).
  { unfold indeterminate, fresh_chars.
    replace (Z.to_nat (8 + n + 1)) with (8 + (Z.to_nat n + 1))%nat by lia.
    rewrite seq_app, map_app, drop_app_length'
      by (now rewrite length_map, length_seq).
    rewrite seq_app, map_app. reflexivity. }
  rewrite E, mem_store_last; [|lia|rewrite length_app, length_fresh_chars; cbn; lia].
  rewrite take_app_length' by (now rewrite length_fresh_chars). reflexivity.
Qed.

Lemma str_create_empty (uninit : nat -> byte) :
  fclib_str_create uninit 0 = Ok (str_of []).
Proof.
  rewrite str_create_fresh; [reflexivity|lia|rewrite size_modulus_eq; reflexivity].
Qed.

Lemma str_init_chars (uninit : nat -> byte) (v bs : list byte) (n : Z) :
  sizeof_str + n + 1 < size_modulus ->
  mem_load v 0 n = Some bs ->
  fclib_str_init uninit v n = Ok (str_of bs).
Proof.
  intros Hb Hl. pose proof (mem_load_length _ _ _ _ Hl) as (Hn & _ & _).
  unfold fclib_str_init. rewrite str_create_fresh by lia.
  unfold exec, memcpy_from. rewrite Hl. unfold lift_opt.
  rewrite (bind_ok _ _ _ (mk_str n (fresh_chars uninit n ++ [x00])) bs)
    by reflexivity.
  unfold store. cbn [value len].
  rewrite mem_store_prefix
    by (rewrite length_app, length_fresh_chars; lia).
  rewrite drop_app_length' by (rewrite length_fresh_chars; lia).
  unfold str_of. now rewrite Hn.
Qed.

Lemma memcpy_from_at (s : fclib_str_t) (dst : Z) (obj : list byte) (n : Z)
    (bs pre old rest : list byte) :
  mem_load obj 0 n = Some bs ->
  value s = pre ++ old ++ rest ->
  dst = Z.of_nat (length pre) -> length bs = length old ->
  memcpy_from dst obj n s = Ok (tt, mk_str (len s) (pre ++ bs ++ rest)).
Proof.
  intros Hl Hv Hd Hn. unfold memcpy_from. rewrite Hl. unfold lift_opt.
  rewrite (bind_ok _ _ _ s bs) by reflexivity.
  now apply (store_at s pre old bs rest).
Qed.

(** ** Concatenation *)

(** A fresh string of [na + nb] characters, then the two copies. *)
Lemma str_join (uninit : nat -> byte) (la lb a b : list byte) (na nb : Z) :
  mem_load la 0 na = Some a -> mem_load lb 0 nb = Some b ->
  sizeof_str + na + nb + 1 < size_modulus ->
  match fclib_str_create uninit (wadd na nb) with
  | Ok result => exec (memcpy_from 0 la na ;; memcpy_from na lb nb) result
  | Abort => Abort
  | Fault => Fault
  end = Ok (str_of (a ++ b)).
Proof.
  intros Ha Hb Hfit.
  pose proof (mem_load_length _ _ _ _ Ha) as (Hna & _ & _).
  pose proof (mem_load_length _ _ _ _ Hb) as (Hnb & _ & _).
  unfold sizeof_str in *.
  rewrite wadd_small by lia. rewrite str_create_fresh by (unfold sizeof_str; lia).
  set (f := fresh_chars uninit (na + nb)).
  assert (Hf : length f = (length a + length b)%nat)
    by (unfold f; rewrite length_fresh_chars; lia).
  unfold exec.
  rewrite (bind_ok _ _ _ (mk_str (na + nb) (a ++ drop (length a) f ++ [x00])) tt).
  2:{ apply (memcpy_from_at (mk_str (na + nb) (f ++ [x00])) 0 la na a []
               (take (length a) f)
               (drop (length a) f ++ [x00])); trivial.
      - cbn [value app]. now rewrite app_assoc, take_drop.
      - rewrite length_take. lia. }
  rewrite (memcpy_from_at (mk_str (na + nb) (a ++ drop (length a) f ++ [x00]))
             na lb nb b a (drop (length a) f) [x00]); trivial.
  - unfold str_of. rewrite length_app. cbn [len]. rewrite <- app_assoc.
    do 2 f_equal. lia.
  - lia.
  - rewrite length_drop. lia.
Qed.


(** The string made longer in place, then the copy behind its characters. *)
Lemma str_grow (uninit : nat -> byte) (a src b : list byte) (n : Z) :
  mem_load src 0 n = Some b ->
  sizeof_str + Z.of_nat (length a) + n + 1 < size_modulus ->
  fclib_str_append_lit uninit (str_of a) src n = Ok (str_of (a ++ b)).
Proof.
  intros Hl Hfit. pose proof (mem_load_length _ _ _ _ Hl) as (Hn & _ & _).
  unfold fclib_str_append_lit, realloc_str, sizeof_str in *.
  cbn [str_of len value].
  rewrite (wadd_small 8) by lia. rewrite (wadd_small _ n) by lia.
  rewrite wadd_small by lia.
  destruct (Z.ltb_spec (8 + Z.of_nat (length a) + n + 1) 8); [lia|].
  rewrite take_ge by (rewrite length_app; cbn; lia).
  set (junk := map uninit _).
  assert (Hj : length junk = length b).
  { unfold junk. rewrite length_map, length_seq, length_app. cbn. lia. }
  set (tail := [x00] ++ junk).
  assert (Ht : length tail = S (length b)) by (unfold tail; cbn; lia).
  unfold exec.
  rewrite (bind_ok get_len _ (mk_str (Z.of_nat (length a)) ((a ++ [x00]) ++ junk))
             (mk_str (Z.of_nat (length a)) ((a ++ [x00]) ++ junk))
             (Z.of_nat (length a))) by reflexivity.
  rewrite (bind_ok _ _ _
             (mk_str (Z.of_nat (length a)) (a ++ b ++ drop (length b) tail)) tt).
  2:{ apply (memcpy_from_at
               (mk_str (Z.of_nat (length a)) ((a ++ [x00]) ++ junk))
               (Z.of_nat (length a)) src n b a (take (length b) tail)
               (drop (length b) tail)); trivial.
      - cbn [value]. rewrite take_drop. unfold tail. now rewrite <- app_assoc.
      - rewrite length_take. lia. }
  rewrite (bind_ok get_len _ (mk_str (Z.of_nat (length a))
                                (a ++ b ++ drop (length b) tail))
             (mk_str (Z.of_nat (length a)) (a ++ b ++ drop (length b) tail))
             (Z.of_nat (length a))) by reflexivity.
  rewrite wadd_small by lia.
  unfold bind, set_len, store. cbn [value len].
  rewrite (mem_store_at _ (a ++ b) (drop (length b) tail) [x00] []).
  - unfold str_of. rewrite length_app, app_nil_r. do 2 f_equal. lia.
  - now rewrite app_nil_r, <- app_assoc.
  - rewrite length_app. lia.
  - rewrite length_drop. cbn. lia.
Qed.

Lemma str_append_lit_eq (uninit : nat -> byte) (dest source : fclib_str_t) :
  fclib_str_append uninit dest source
  = fclib_str_append_lit uninit dest (value source) (len source).
Proof. reflexivity. Qed.

(** ** Assignment of a literal *)

Lemma str_assign_lit_chars (uninit : nat -> byte) (string : fclib_str_t)
    (v bs : list byte) (n : Z) :
  mem_load v 0 n = Some bs ->
  sizeof_str + n + 1 < size_modulus ->
  fclib_str_assign_lit uninit string v n = Ok (str_of bs).
Proof.
  intros Hl Hfit. pose proof (mem_load_length _ _ _ _ Hl) as (Hn & _ & _).
  unfold fclib_str_assign_lit, realloc_str, sizeof_str in *.
  rewrite (wadd_small 8) by lia. rewrite wadd_small by lia.
  destruct (Z.ltb_spec (8 + n + 1) 8); [lia|].
  set (m := take _ (value string) ++ _).
  assert (Hm : length m = S (length bs)).
  { unfold m. rewrite length_app, length_take, length_map, length_seq. lia. }
  unfold exec.
  rewrite (bind_ok _ _ _ (mk_str n m) tt) by reflexivity.
  rewrite (bind_ok _ _ _ (mk_str n (bs ++ drop (length bs) m)) tt).
  2:{ apply (memcpy_from_at (mk_str n m) 0 v n bs [] (take (length bs) m)
               (drop (length bs) m)); trivial.
      - cbn [value app]. now rewrite take_drop.
      - rewrite length_take. lia. }
  unfold store. cbn [value len].
  rewrite (mem_store_at _ bs (drop (length bs) m) [x00] []).
  - unfold str_of. now rewrite app_nil_r, Hn.
  - now rewrite app_nil_r.
  - lia.
  - rewrite length_drop. cbn. lia.
Qed.

(** ** Comparison *)

Lemma Z_of_byte_inj (x y : byte) : Z_of_byte x = Z_of_byte y -> x = y.
Proof.
  unfold Z_of_byte. intros H. apply N2Z.inj in H.
  pose proof (Byte.of_to_N x) as Hx. rewrite H, Byte.of_to_N in Hx.
  congruence.
Qed.

Lemma bytes_compare_refl (a : list byte) : bytes_compare a a = 0.
Proof.
  induction a as [|x a IH]; [reflexivity|].
  cbn [bytes_compare]. now rewrite Z.eqb_refl.
Qed.

Lemma bytes_compare_eq (a b : list byte) :
  length a = length b -> bytes_compare a b = 0 -> a = b.
Proof.
  revert b. induction a as [|x a IH]; intros [|y b] Hl H; try discriminate;
    [reflexivity|].
  cbn [bytes_compare] in H. destruct (Z.eqb_spec (Z_of_byte x) (Z_of_byte y)).
  - f_equal; [now apply Z_of_byte_inj | apply IH; [now injection Hl | exact H]].
  - lia.
Qed.

Lemma bytes_compare_flip (a b : list byte) :
  bytes_compare b a = - bytes_compare a b.
Proof.
  revert b. induction a as [|x a IH]; intros [|y b]; try reflexivity.
  cbn [bytes_compare]. rewrite (Z.eqb_sym (Z_of_byte y)).
  destruct (Z.eqb_spec (Z_of_byte x) (Z_of_byte y)); [apply IH | lia].
Qed.

Lemma bytes_compare_trans (a b c : list byte) :
  length a = length b -> length b = length c ->
  bytes_compare a b <= 0 -> bytes_compare b c <= 0 -> bytes_compare a c <= 0.
Proof.
  revert b c. induction a as [|x a IH]; intros [|y b] [|z c] Hab Hbc;
    try (cbn in Hab, Hbc; lia).
  cbn [bytes_compare].
  destruct (Z.eqb_spec (Z_of_byte x) (Z_of_byte y)),
           (Z.eqb_spec (Z_of_byte y) (Z_of_byte z)),
           (Z.eqb_spec (Z_of_byte x) (Z_of_byte z)); try lia.
  apply IH; [now injection Hab | now injection Hbc].
Qed.

(** The comparison of two strings: the lengths, then the characters. *)
Lemma str_compare_of (a b : list byte) :
  fclib_str_compare (str_of a) (str_of b)
  = Ok (if Z.of_nat (length a) <? Z.of_nat (length b) then -1
        else if Z.of_nat (length a) >? Z.of_nat (length b) then 1
        else bytes_compare a b).
Proof.
  unfold fclib_str_compare. cbn [str_of len value].
  destruct (Z.ltb_spec (Z.of_nat (length a)) (Z.of_nat (length b)));
    [reflexivity|].
  rewrite Z.gtb_ltb.
  destruct (Z.ltb_spec (Z.of_nat (length b)) (Z.of_nat (length a)));
    [reflexivity|].
  unfold memcmp. rewrite mem_load_prefix.
  replace (Z.of_nat (length a)) with (Z.of_nat (length b)) by lia.
  now rewrite mem_load_prefix.
Qed.

(** ** Properties of the strings *)

(** X11. [fclib_str_init] returns a block whose [len] is [len] and whose
    [value] holds the first [len] bytes of the argument followed by the
    terminating zero. *)
Theorem str_init_terminated (uninit : nat -> byte) (v : list byte) (n : Z) :
  0 <= n <= Z.of_nat (length v) -> sizeof_str + n + 1 < size_modulus ->
  fclib_str_init uninit v n
  = Ok (mk_str n (take (Z.to_nat n) v ++ [x00])).
Proof.
  intros Hn Hfit.
  rewrite (str_init_chars uninit v (take (Z.to_nat n) v) n Hfit)
    by (now apply mem_load_take).
  unfold str_of. rewrite length_take. do 2 f_equal. lia.
Qed.

Lemma str_init_terminated_witness :
  0 <= 3 <= Z.of_nat (length [x61; x62; x63; x64])
  /\ sizeof_str + 3 + 1 < size_modulus
  /\ fclib_str_init zeroed [x61; x62; x63; x64] 3
     = Ok (mk_str 3 (take (Z.to_nat 3) [x61; x62; x63; x64] ++ [x00])).
Proof.
  assert (H1 : 0 <= 3 <= Z.of_nat (length [x61; x62; x63; x64])) by (cbn; lia).
  assert (H2 : sizeof_str + 3 + 1 < size_modulus) by reflexivity.
  split; [exact H1|]. split; [exact H2|].
  exact (str_init_terminated zeroed [x61; x62; x63; x64] 3 H1 H2).
Defined.

(** X12. The size [fclib_str_create] asks [malloc] for is computed modulo
    [2^64] and not tested: for the eight lengths from [2^64 - 9] to
    [2^64 - 2] it is [len + 9 - 2^64], less than the 8 bytes of the [len]
    field, which the next statement writes: that write leaves the block. *)
Theorem str_create_size_wraps (uninit : nat -> byte) (n : Z) :
  size_modulus - 9 <= n < size_modulus - 1 ->
  wadd (wadd sizeof_str n) 1 = sizeof_str + n + 1 - size_modulus
  /\ wadd (wadd sizeof_str n) 1 < sizeof_str
  /\ fclib_str_create uninit n = Fault.
Proof.
  intros Hn.
  assert (E : wadd (wadd sizeof_str n) 1 = sizeof_str + n + 1 - size_modulus).
  { unfold wadd, wrap, sizeof_str. rewrite Zplus_mod_idemp_l.
    symmetry. apply Z.mod_unique with (q := 1); rewrite size_modulus_eq in *; lia. }
  split; [exact E|]. split; [rewrite E; unfold sizeof_str; lia|].
  unfold fclib_str_create, malloc_str. rewrite E.
  destruct (Z.ltb_spec (sizeof_str + n + 1 - size_modulus) sizeof_str);
    [reflexivity | unfold sizeof_str in *; lia].
Qed.

Lemma str_create_size_wraps_witness :
  size_modulus - 9 <= size_modulus - 2 < size_modulus - 1
  /\ wadd (wadd sizeof_str (size_modulus - 2)) 1
     = sizeof_str + (size_modulus - 2) + 1 - size_modulus
  /\ wadd (wadd sizeof_str (size_modulus - 2)) 1 < sizeof_str
  /\ fclib_str_create zeroed (size_modulus - 2) = Fault.
Proof.
  assert (H : size_modulus - 9 <= size_modulus - 2 < size_modulus - 1) by lia.
  split; [exact H|].
  exact (str_create_size_wraps zeroed (size_modulus - 2) H).
Defined.

(** X13. [fclib_str_equals] returns, and returns [true] exactly when the two
    strings hold the same characters, zero bytes among them included. *)
Theorem str_equals_same_chars (a b : list byte) :
  exists r : bool,
    fclib_str_equals (str_of a) (str_of b) = Ok r /\ (r = true <-> a = b).
Proof.
  unfold fclib_str_equals. rewrite str_compare_of. eexists. split; [reflexivity|].
  destruct (Z.ltb_spec (Z.of_nat (length a)) (Z.of_nat (length b))).
  - cbn. split; [discriminate | intros ->; lia].
  - rewrite Z.gtb_ltb.
    destruct (Z.ltb_spec (Z.of_nat (length b)) (Z.of_nat (length a))).
    + cbn. split; [discriminate | intros ->; lia].
    + rewrite Z.eqb_eq. split.
      * apply bytes_compare_eq. lia.
      * intros ->. apply bytes_compare_refl.
Qed.

(** X14. [fclib_str_compare] is an order on the strings: the results of
    comparing [a] with [b] and [b] with [a] have opposite signs, the result
    is zero exactly for equal strings, and from [a <= b] and [b <= c]
    follows [a <= c]. *)
Theorem str_compare_order (a b c : list byte) :
  exists x x' y z : Z,
    fclib_str_compare (str_of a) (str_of b) = Ok x
    /\ fclib_str_compare (str_of b) (str_of a) = Ok x'
    /\ fclib_str_compare (str_of b) (str_of c) = Ok y
    /\ fclib_str_compare (str_of a) (str_of c) = Ok z
    /\ Z.sgn x' = - Z.sgn x
    /\ (x = 0 <-> a = b)
    /\ (x <= 0 -> y <= 0 -> z <= 0).
Proof.
  do 4 eexists. rewrite !str_compare_of.
  split; [reflexivity|]. split; [reflexivity|].
  split; [reflexivity|]. split; [reflexivity|].
  rewrite !Z.gtb_ltb.
  destruct (Z.ltb_spec (Z.of_nat (length a)) (Z.of_nat (length b))),
           (Z.ltb_spec (Z.of_nat (length b)) (Z.of_nat (length a))),
           (Z.ltb_spec (Z.of_nat (length b)) (Z.of_nat (length c))),
           (Z.ltb_spec (Z.of_nat (length c)) (Z.of_nat (length b))),
           (Z.ltb_spec (Z.of_nat (length a)) (Z.of_nat (length c))),
           (Z.ltb_spec (Z.of_nat (length c)) (Z.of_nat (length a)));
    try lia;
    (split; [try reflexivity|split; [try (split; [lia | intros ->; lia])|try lia]]).
  all: try (rewrite (bytes_compare_flip a b); now rewrite Z.sgn_opp).
  all: try (split; [apply bytes_compare_eq; lia | intros ->; apply bytes_compare_refl]).
  all: try (apply bytes_compare_trans; lia).
Qed.

(** X15. The lengths are compared first: a shorter string is below a longer
    one whatever the characters, so the order is not the one of
    [strcmp]. *)
Theorem str_compare_length_first (a b : list byte) :
  (length a < length b)%nat ->
  fclib_str_compare (str_of a) (str_of b) = Ok (-1)
  /\ fclib_str_compare (str_of b) (str_of a) = Ok 1.
Proof.
  intros H. rewrite !str_compare_of, !Z.gtb_ltb.
  destruct (Z.ltb_spec (Z.of_nat (length a)) (Z.of_nat (length b))); [|lia].
  destruct (Z.ltb_spec (Z.of_nat (length b)) (Z.of_nat (length a))); [lia|].
  split; reflexivity.
Qed.

Lemma str_compare_length_first_witness :
  (length [x62] < length [x61; x61])%nat
  /\ fclib_str_compare (str_of [x62]) (str_of [x61; x61]) = Ok (-1)
  /\ fclib_str_compare (str_of [x61; x61]) (str_of [x62]) = Ok 1.
Proof.
  assert (H : (length [x62] < length [x61; x61])%nat) by (cbn; lia).
  split; [exact H|].
  exact (str_compare_length_first [x62] [x61; x61] H).
Defined.

(** X16. [fclib_str_add] returns a new string that holds the characters of
    the left string followed by those of the right one; the two variants
    with a literal on one side return the same string. *)
Theorem str_add_concat (uninit : nat -> byte) (a b : list byte) :
  str_fits (a ++ b) ->
  fclib_str_add uninit (str_of a) (str_of b) = Ok (str_of (a ++ b))
  /\ fclib_str_add_lit_str uninit a (Z.of_nat (length a)) (str_of b)
     = Ok (str_of (a ++ b))
  /\ fclib_str_add_str_lit uninit (str_of a) b (Z.of_nat (length b))
     = Ok (str_of (a ++ b)).
Proof.
  unfold str_fits. rewrite length_app. intros Hfit.
  assert (Ha : mem_load a 0 (Z.of_nat (length a)) = Some a).
  { rewrite <- (app_nil_r a) at 1. apply mem_load_prefix. }
  assert (Hb : mem_load b 0 (Z.of_nat (length b)) = Some b).
  { rewrite <- (app_nil_r b) at 1. apply mem_load_prefix. }
  repeat split.
  - apply (str_join uninit (a ++ [x00]) (b ++ [x00]) a b);
      try apply mem_load_prefix. cbn [str_of len]. lia.
  - apply (str_join uninit a (b ++ [x00]) a b); trivial;
      try apply mem_load_prefix. cbn [str_of len]. lia.
  - apply (str_join uninit (a ++ [x00]) b a b); trivial;
      try apply mem_load_prefix. cbn [str_of len]. lia.
Qed.

Lemma str_add_concat_witness :
  str_fits ([x61; x62] ++ [x63])
  /\ fclib_str_add zeroed (str_of [x61; x62]) (str_of [x63])
     = Ok (str_of ([x61; x62] ++ [x63]))
  /\ fclib_str_add_lit_str zeroed [x61; x62] (Z.of_nat (length [x61; x62]))
       (str_of [x63])
     = Ok (str_of ([x61; x62] ++ [x63]))
  /\ fclib_str_add_str_lit zeroed (str_of [x61; x62]) [x63]
       (Z.of_nat (length [x63]))
     = Ok (str_of ([x61; x62] ++ [x63])).
Proof.
  assert (H : str_fits ([x61; x62] ++ [x63])) by reflexivity.
  split; [exact H|].
  exact (str_add_concat zeroed [x61; x62] [x63] H).
Defined.

(** X17. [fclib_str_append], the source being another object than the
    destination, leaves in [*dest] the string [fclib_str_add] returns for
    the two: the characters of the destination, then those of the source. *)
Theorem str_append_is_add (uninit : nat -> byte) (a b : list byte) :
  str_fits (a ++ b) ->
  fclib_str_append uninit (str_of a) (str_of b) = Ok (str_of (a ++ b))
  /\ fclib_str_append_lit uninit (str_of a) b (Z.of_nat (length b))
     = Ok (str_of (a ++ b))
  /\ fclib_str_append uninit (str_of a) (str_of b)
     = fclib_str_add uninit (str_of a) (str_of b).
Proof.
  intros Hfit. unfold str_fits in Hfit. rewrite length_app in Hfit.
  assert (Hadd : fclib_str_add uninit (str_of a) (str_of b)
                 = Ok (str_of (a ++ b))).
  { apply (str_join uninit (a ++ [x00]) (b ++ [x00]) a b);
      try apply mem_load_prefix. cbn [str_of len]. lia. }
  assert (Hb : mem_load b 0 (Z.of_nat (length b)) = Some b).
  { rewrite <- (app_nil_r b) at 1. apply mem_load_prefix. }
  assert (Happ : fclib_str_append uninit (str_of a) (str_of b)
                 = Ok (str_of (a ++ b))).
  { rewrite str_append_lit_eq. apply str_grow; [apply mem_load_prefix|].
    cbn [str_of len]. lia. }
  split; [exact Happ|]. split.
  - apply str_grow; [exact Hb | lia].
  - now rewrite Happ, Hadd.
Qed.

Lemma str_append_is_add_witness :
  str_fits ([x61; x62] ++ [x63])
  /\ fclib_str_append zeroed (str_of [x61; x62]) (str_of [x63])
     = Ok (str_of ([x61; x62] ++ [x63]))
  /\ fclib_str_append_lit zeroed (str_of [x61; x62]) [x63]
       (Z.of_nat (length [x63]))
     = Ok (str_of ([x61; x62] ++ [x63]))
  /\ fclib_str_append zeroed (str_of [x61; x62]) (str_of [x63])
     = fclib_str_add zeroed (str_of [x61; x62]) (str_of [x63]).
Proof.
  assert (H : str_fits ([x61; x62] ++ [x63])) by reflexivity.
  split; [exact H|].
  exact (str_append_is_add zeroed [x61; x62] [x63] H).
Defined.

(** X18. [fclib_str_assign_lit] leaves in [*string] the string
    [fclib_str_init] builds from the literal, whatever the string held
    before. *)
Theorem str_assign_lit_is_init (uninit : nat -> byte) (string : fclib_str_t)
    (v : list byte) (n : Z) :
  0 <= n <= Z.of_nat (length v) -> sizeof_str + n + 1 < size_modulus ->
  fclib_str_assign_lit uninit string v n = fclib_str_init uninit v n
  /\ fclib_str_assign_lit uninit string v n
     = Ok (mk_str n (take (Z.to_nat n) v ++ [x00])).
Proof.
  intros Hn Hfit.
  assert (E : fclib_str_assign_lit uninit string v n
              = Ok (str_of (take (Z.to_nat n) v))).
  { apply str_assign_lit_chars; [now apply mem_load_take | exact Hfit]. }
  rewrite (str_init_chars uninit v (take (Z.to_nat n) v) n Hfit)
    by (now apply mem_load_take).
  split; [exact E|]. rewrite E.
  unfold str_of. rewrite length_take. do 2 f_equal. lia.
Qed.

Lemma str_assign_lit_is_init_witness :
  0 <= 2 <= Z.of_nat (length [x65; x66])
  /\ sizeof_str + 2 + 1 < size_modulus
  /\ fclib_str_assign_lit zeroed (str_of [x61; x62; x63; x64]) [x65; x66] 2
     = fclib_str_init zeroed [x65; x66] 2
  /\ fclib_str_assign_lit zeroed (str_of [x61; x62; x63; x64]) [x65; x66] 2
     = Ok (mk_str 2 (take (Z.to_nat 2) [x65; x66] ++ [x00])).
Proof.
  assert (H1 : 0 <= 2 <= Z.of_nat (length [x65; x66])) by (cbn; lia).
  assert (H2 : sizeof_str + 2 + 1 < size_modulus) by reflexivity.
  split; [exact H1|]. split; [exact H2|].
  exact (str_assign_lit_is_init zeroed (str_of [x61; x62; x63; x64])
           [x65; x66] 2 H1 H2).
Defined.

(** X19. [fclib_str_get_slice] on a string of [L] characters returns to its
    caller for every [from] and [to].  With [to] clamped as in the
    one-dimensional slice of the arrays: an empty range gives the empty
    string; a range [from < to] gives the first [to - from] characters of
    the source, the copy starting at character 0 and not at [from]; a
    [from] past [to] gives the first character, and on the empty source the
    one-character string that holds the terminating zero of the source. *)
Theorem str_get_slice_prefix (uninit : nat -> byte) (bs : list byte)
    (from to : Z) :
  str_fits bs -> is_size_t from -> is_size_t to ->
  let real_to := clamped_to (Z.of_nat (length bs)) to in
  (from = real_to ->
   fclib_str_get_slice uninit (str_of bs) from to = Ok (str_of []))
  /\ (from < real_to ->
      fclib_str_get_slice uninit (str_of bs) from to
      = Ok (str_of (take (Z.to_nat (real_to - from)) bs)))
  /\ (real_to < from -> 0 < real_to ->
      fclib_str_get_slice uninit (str_of bs) from to = Ok (str_of (take 1 bs)))
  /\ (real_to < from -> real_to = 0 ->
      fclib_str_get_slice uninit (str_of bs) from to = Ok (str_of [x00])).
Proof.
  intros Hfit Hf Ht real_to.
  assert (Hl : is_size_t (Z.of_nat (length bs))).
  { unfold str_fits, is_size_t, sizeof_str in *. lia. }
  destruct (clamped_to_range _ _ Hl Ht) as (Hr & Hz). fold real_to in Hr, Hz.
  unfold fclib_str_get_slice. cbn [str_of len value].
  change (if (if to =? 0 then Z.of_nat (length bs) else to)
             >? Z.of_nat (length bs)
          then Z.of_nat (length bs)
          else if to =? 0 then Z.of_nat (length bs) else to) with real_to.
  unfold str_fits, is_size_t, sizeof_str in *.
  assert (Hinit : forall n, 0 <= n <= Z.of_nat (length bs) ->
            fclib_str_init uninit (bs ++ [x00]) n
            = Ok (str_of (take (Z.to_nat n) bs))).
  { intros n Hn. apply str_init_chars; [unfold sizeof_str; lia|].
    rewrite mem_load_take by (rewrite length_app; cbn; lia).
    now rewrite take_app_le by lia. }
  repeat split.
  - intros E. destruct (Z.eqb_spec from real_to); [|lia]. apply str_create_empty.
  - intros E. destruct (Z.eqb_spec from real_to); [lia|].
    rewrite Z.gtb_ltb. destruct (Z.ltb_spec real_to from); [lia|].
    rewrite wsub_small by lia. apply Hinit. lia.
  - intros E H0. destruct (Z.eqb_spec from real_to); [lia|].
    rewrite Z.gtb_ltb. destruct (Z.ltb_spec real_to from); [|lia].
    rewrite (wsub_small real_to 1) by lia.
    replace (wsub real_to (real_to - 1)) with 1
      by (rewrite wsub_small; lia).
    apply (Hinit 1). lia.
  - intros E H0. destruct (Z.eqb_spec from real_to); [lia|].
    rewrite Z.gtb_ltb. destruct (Z.ltb_spec real_to from); [|lia].
    rewrite H0. specialize (Hz H0).
    assert (bs = []) as -> by (apply length_zero_iff_nil; lia).
    vm_compute (wsub 0 (wsub 0 1)).
    apply str_init_chars; [rewrite size_modulus_eq; reflexivity | reflexivity].
Qed.

Lemma str_get_slice_prefix_witness :
  str_fits [x61; x62; x63; x64] /\ is_size_t 1 /\ is_size_t 3
  /\ 1 < clamped_to (Z.of_nat (length [x61; x62; x63; x64])) 3
  /\ fclib_str_get_slice zeroed (str_of [x61; x62; x63; x64]) 1 3
     = Ok (str_of (take (Z.to_nat
                           (clamped_to (Z.of_nat (length [x61; x62; x63; x64])) 3
                            - 1))
                        [x61; x62; x63; x64]))
  /\ take (Z.to_nat (clamped_to (Z.of_nat (length [x61; x62; x63; x64])) 3 - 1))
          [x61; x62; x63; x64] = [x61; x62].
Proof.
  assert (H0 : str_fits [x61; x62; x63; x64]) by reflexivity.
  assert (H1 : is_size_t 1) by (unfold is_size_t; rewrite size_modulus_eq; lia).
  assert (H3 : is_size_t 3) by (unfold is_size_t; rewrite size_modulus_eq; lia).
  assert (Hlt : 1 < clamped_to (Z.of_nat (length [x61; x62; x63; x64])) 3)
    by reflexivity.
  split; [exact H0|]. split; [exact H1|]. split; [exact H3|].
  split; [exact Hlt|]. split; [|reflexivity].
  destruct (str_get_slice_prefix zeroed [x61; x62; x63; x64] 1 3 H0 H1 H3)
    as (_ & Hcase & _).
  exact (Hcase Hlt).
Defined.
(** * Paths *)

Ltac case_eqb H :=
  match goal with
  | |- context [?a =? ?b] => destruct (Z.eqb_spec a b) as [H|H]
  end.

Lemma char_at_app (pre suf : list byte) (c : byte) :
  char_at (pre ++ c :: suf) (Z.of_nat (length pre)) = Ok c.
Proof.
  unfold char_at.
  now rewrite (mem_load_at (pre ++ c :: suf) pre [c] suf).
Qed.

Lemma push_app (out rest : list byte) (r c : byte) :
  Z.of_nat (length out) + 1 < size_modulus ->
  push (out ++ r :: rest) (Z.of_nat (length out)) c
  = Ok ((out ++ [c]) ++ rest, Z.of_nat (length (out ++ [c]))).
Proof.
  intros H. unfold push.
  rewrite (mem_store_at (out ++ r :: rest) out [r] [c] rest) by reflexivity.
  rewrite wadd_small by lia. rewrite length_app, <- app_assoc. cbn [length app].
  do 2 f_equal. lia.
Qed.

(** ** The loop of [fclib_system_get_path_linux] *)

Lemma path_linux_loop_chars (suf : list byte) :
  forall pre out rest : list byte,
  length out = length pre ->
  (length pre + length suf < 256)%nat ->
  length (out ++ rest) = 256%nat ->
  path_linux_loop (length suf) (Z.of_nat (length pre)) (str_of (pre ++ suf))
                  (Z.of_nat (length (pre ++ suf)))
                  (out ++ rest, Z.of_nat (length out))
  = Ok (out ++ linux_chars suf ++ drop (length suf) rest,
        Z.of_nat (length out + length suf)).
Proof.
  induction suf as [|c suf IH]; intros pre out rest Ho Hlen Hbuf.
  - cbn [length path_linux_loop linux_chars app drop]. now rewrite Nat.add_0_r.
  - destruct rest as [|r rest].
    { rewrite app_nil_r in Hbuf. cbn [length] in Hlen. lia. }
    assert (Hsm : Z.of_nat (length out) + 1 < size_modulus).
    { rewrite size_modulus_eq. lia. }
    cbn [length path_linux_loop].
    assert (Enext :
      (if wadd (Z.of_nat (length pre)) 1 =? Z.of_nat (length (pre ++ c :: suf))
       then Ok true
       else
         next <~ char_at (pre ++ c :: suf ++ [x00])
                         (wadd (Z.of_nat (length pre)) 1) ;;
         Ok (negb (Byte.eqb next space)))
      = Ok (match suf with
            | next :: _ => negb (Byte.eqb next space)
            | [] => true
            end)).
    { rewrite wadd_small by (rewrite size_modulus_eq; lia).
      rewrite length_app. cbn [length].
      destruct suf as [|next suf'].
      - case_eqb Hne; [reflexivity|cbn [length] in Hne; lia].
      - case_eqb He; [cbn [length] in He; lia|].
        replace (pre ++ c :: (next :: suf') ++ [x00])
          with ((pre ++ [c]) ++ next :: suf' ++ [x00])
          by (now rewrite <- app_assoc).
        replace (Z.of_nat (length pre) + 1) with (Z.of_nat (length (pre ++ [c])))
          by (rewrite length_app; cbn; lia).
        now rewrite char_at_app. }
    assert (Estep :
      path_linux_step (str_of (pre ++ c :: suf))
        (Z.of_nat (length (pre ++ c :: suf))) (Z.of_nat (length pre))
        (out ++ r :: rest, Z.of_nat (length out))
      = Ok ((out ++ [hd x00 (linux_chars (c :: suf))]) ++ rest,
            Z.of_nat (length (out ++ [hd x00 (linux_chars (c :: suf))])))).
    { unfold path_linux_step. cbn [str_of value]. rewrite <- app_assoc.
      cbn [app]. rewrite char_at_app. cbn [rbind linux_chars hd].
      destruct (Byte.eqb c backslash); cbn [negb].
      - rewrite Enext. cbn [rbind].
        destruct suf as [|next suf']; [now apply push_app|].
        destruct (Byte.eqb next space); now apply push_app.
      - now apply push_app. }
    rewrite Estep. cbn [rbind].
    replace (Z.of_nat (length pre) + 1) with (Z.of_nat (length (pre ++ [c])))
      by (rewrite length_app; cbn; lia).
    replace (pre ++ c :: suf) with ((pre ++ [c]) ++ suf)
      by (now rewrite <- app_assoc).
    rewrite IH.
    + cbn [linux_chars hd drop]. rewrite <- !app_assoc, length_app.
      cbn [app length]. do 2 f_equal. lia.
    + rewrite !length_app. cbn. lia.
    + rewrite length_app. cbn [length] in *. lia.
    + rewrite !length_app in *. cbn [length] in *. lia.
Qed.

Lemma length_linux_chars (bs : list byte) : length (linux_chars bs) = length bs.
Proof.
  induction bs as [|c bs IH]; [reflexivity|].
  cbn [linux_chars length]. now rewrite IH.
Qed.

Lemma get_path_linux_chars (uninit : nat -> byte) (bs : list byte) :
  (length bs < 256)%nat ->
  fclib_system_get_path_linux uninit (str_of bs) = Ok (str_of (linux_chars bs)).
Proof.
  intros Hl. unfold fclib_system_get_path_linux, BUFFER_SIZE. cbn [str_of len].
  rewrite Z.geb_leb. destruct (Z.leb_spec 256 (Z.of_nat (length bs))); [lia|].
  rewrite Nat2Z.id.
  pose proof (path_linux_loop_chars bs [] [] (indeterminate uninit 256)
                eq_refl Hl) as E.
  cbn [app length Nat.add] in E. change (Z.of_nat 0) with 0 in E.
  rewrite E by (rewrite length_indeterminate; reflexivity).
  cbn [rbind fst snd].
  apply str_init_chars.
  - unfold sizeof_str. rewrite size_modulus_eq. lia.
  - rewrite <- (length_linux_chars bs). apply mem_load_prefix.
Qed.

Lemma get_path_long (uninit : nat -> byte) (path : fclib_str_t) (is_linux : bool) :
  BUFFER_SIZE <= len path ->
  fclib_system_get_path uninit path is_linux = Ok (str_of []).
Proof.
  intros Hl. unfold fclib_system_get_path, fclib_system_get_path_linux,
    fclib_system_get_path_windows.
  rewrite Z.geb_leb. destruct (Z.leb_spec BUFFER_SIZE (len path)); [|lia].
  destruct is_linux; apply str_create_empty.
Qed.

(** ** What the conversion to the Linux form keeps *)

Lemma linux_chars_idem (bs : list byte) :
  linux_chars (linux_chars bs) = linux_chars bs.
Proof.
  induction bs as [|c bs IH]; [reflexivity|].
  cbn [linux_chars]. rewrite IH. f_equal.
  destruct (Byte.eqb c backslash) eqn:Ec.
  - destruct bs as [|next bs']; [reflexivity|]. cbn [linux_chars].
    destruct (Byte.eqb next space) eqn:En.
    + apply byte_dec_bl in En. subst next. cbn. reflexivity.
    + reflexivity.
  - now rewrite Ec.
Qed.

Lemma linux_chars_plain (bs : list byte) :
  Forall (fun c => c <> backslash) bs -> linux_chars bs = bs.
Proof.
  induction 1 as [|c bs Hc _ IH]; [reflexivity|].
  cbn [linux_chars]. rewrite IH. f_equal.
  destruct (Byte.eqb c backslash) eqn:Ec; [|reflexivity].
  apply byte_dec_bl in Ec. contradiction.
Qed.

(** After the conversion a space follows every backslash. *)
Lemma linux_chars_backslash (bs : list byte) (i : nat) :
  linux_chars bs !! i = Some backslash ->
  linux_chars bs !! S i = Some space.
Proof.
  revert i. induction bs as [|c bs IH]; intros i; [discriminate|].
  destruct i as [|i].
  - cbn [linux_chars lookup list_lookup].
    destruct (Byte.eqb c backslash) eqn:Ec.
    + destruct bs as [|next bs']; [discriminate|].
      destruct (Byte.eqb next space) eqn:En; [|discriminate].
      apply byte_dec_bl in En. subst next. intros _. reflexivity.
    + intros [= ->]. discriminate Ec.
  - apply (IH i).
Qed.

(** ** The loop of [fclib_system_get_path_windows] *)

Lemma char_at_next (pre suf : list byte) (c next : byte) :
  Z.of_nat (length pre) + 1 < size_modulus ->
  char_at (pre ++ c :: next :: suf) (wadd (Z.of_nat (length pre)) 1) = Ok next.
Proof.
  intros H. rewrite wadd_small by lia.
  replace (pre ++ c :: next :: suf) with ((pre ++ [c]) ++ next :: suf)
    by (now rewrite <- app_assoc).
  replace (Z.of_nat (length pre) + 1) with (Z.of_nat (length (pre ++ [c])))
    by (rewrite length_app; cbn; lia).
  apply char_at_app.
Qed.

Lemma path_windows_loop_chars (n : nat) :
  forall (suf pre out rest : list byte) (flag : bool),
  n = length suf ->
  (length out <= length pre)%nat ->
  (length pre + length suf < 256)%nat ->
  length (out ++ rest) = 256%nat ->
  path_windows_loop (str_of (pre ++ suf)) (Z.of_nat (length (pre ++ suf)))
                    (Z.of_nat (length pre)) (out ++ rest, Z.of_nat (length out), flag)
  = Ok (out ++ windows_chars suf ++ drop (length (windows_chars suf)) rest,
        Z.of_nat (length out + length (windows_chars suf)),
        flag || existsb (fun c => Byte.eqb c space) (windows_chars suf)).
Proof.
  induction n as [n IH] using lt_wf_ind.
  intros suf pre out rest flag Hn Ho Hlen Hbuf.
  rewrite path_windows_loop_equation_1.
  destruct (Z_lt_dec (Z.of_nat (length pre)) (Z.of_nat (length (pre ++ suf))))
    as [Hlt|Hge]; cbn [path_windows_loop_unfold_clause_1].
  2:{ rewrite length_app in Hge.
      assert (suf = []) as -> by (apply length_zero_iff_nil; lia).
      cbn [windows_chars length existsb drop app].
      now rewrite Nat.add_0_r, orb_false_r. }
  destruct suf as [|c suf]; [rewrite app_nil_r in Hlt; lia|].
  destruct rest as [|r rest].
  { rewrite app_nil_r in Hbuf. cbn [length] in Hlen. lia. }
  assert (Hsm : Z.of_nat (length out) + 1 < size_modulus)
    by (rewrite size_modulus_eq; lia).
  assert (Hsm' : Z.of_nat (length pre) + 1 < size_modulus)
    by (rewrite size_modulus_eq; lia).
  cbn [length] in Hlen.
  (* the state after a round that writes [x] and consumes [k] characters *)
  assert (Hnext : forall (x : byte) (pre' suf' : list byte) (flag' : bool),
    pre ++ c :: suf = pre' ++ suf' ->
    (length suf' < n)%nat -> (length pre < length pre')%nat ->
    path_windows_loop (str_of (pre ++ c :: suf))
      (Z.of_nat (length (pre ++ c :: suf))) (Z.of_nat (length pre'))
      ((out ++ [x]) ++ rest, Z.of_nat (length (out ++ [x])), flag')
    = Ok (out ++ (x :: windows_chars suf')
              ++ drop (length (x :: windows_chars suf')) (r :: rest),
          Z.of_nat (length out + length (x :: windows_chars suf')),
          flag' || existsb (fun c => Byte.eqb c space) (windows_chars suf'))).
  { intros x pre' suf' flag' E Hs Hp. rewrite E.
    pose proof (f_equal length E) as El. rewrite !length_app in El.
    cbn [length] in El.
    rewrite (IH (length suf') Hs suf' pre' (out ++ [x]) rest flag' eq_refl).
    - rewrite <- !app_assoc, length_app. cbn [app length drop].
      do 3 f_equal. lia.
    - rewrite length_app. cbn. lia.
    - lia.
    - rewrite !length_app in *. cbn [length] in *. lia. }
  unfold path_windows_step. cbn [str_of value]. rewrite <- app_assoc.
  cbn [app]. rewrite char_at_app. cbn [rbind].
  assert (Hl1 : (Z.of_nat (length pre) + 1 <? Z.of_nat (length (pre ++ c :: suf)))
                = match suf with [] => false | _ => true end).
  { rewrite length_app. cbn [length]. destruct suf; cbn [length];
      [destruct (Z.ltb_spec (Z.of_nat (length pre) + 1) (Z.of_nat (length pre + 1)))
      |destruct (Z.ltb_spec (Z.of_nat (length pre) + 1)
                            (Z.of_nat (length pre + S (S (length suf)))))];
      try reflexivity; lia. }
  rewrite (wadd_small _ 1) at 1 by lia. rewrite Hl1.
  destruct (Byte.eqb c backslash) eqn:Ec.
  - apply byte_dec_bl in Ec. subst c.
    destruct suf as [|next suf']; cbn [andb rbind].
    + change (Byte.eqb backslash slash) with false.
      change (Byte.eqb backslash space) with false. cbv iota.
      rewrite push_app by exact Hsm. cbn [rbind fst snd].
      replace (Z.of_nat (length pre) + 1)
        with (Z.of_nat (length (pre ++ [backslash])))
        by (rewrite length_app; cbn; lia).
      rewrite (Hnext backslash (pre ++ [backslash]) [] flag).
      * cbn [windows_chars existsb].
        change (Byte.eqb backslash backslash) with true. cbv iota.
        cbn [existsb]. change (Byte.eqb backslash space) with false.
        cbn [orb]. reflexivity.
      * now rewrite <- app_assoc.
      * cbn [length] in *. lia.
      * rewrite length_app. cbn. lia.
    + cbn [app]. rewrite char_at_next by exact Hsm'. cbn [rbind].
      cbn [windows_chars]. change (Byte.eqb backslash backslash) with true.
      cbv iota. destruct (Byte.eqb next space) eqn:En.
      * rewrite push_app by exact Hsm. cbn [rbind fst snd].
        replace (Z.of_nat (length pre) + 2)
          with (Z.of_nat (length (pre ++ [backslash; next])))
          by (rewrite length_app; cbn; lia).
        rewrite (Hnext space (pre ++ [backslash; next]) suf' true).
        -- cbn [existsb]. change (Byte.eqb space space) with true.
           now rewrite orb_true_r.
        -- now rewrite <- app_assoc.
        -- cbn [length] in Hn. lia.
        -- rewrite length_app. cbn. lia.
      * change (Byte.eqb backslash slash) with false.
        change (Byte.eqb backslash space) with false. cbv iota.
        rewrite push_app by exact Hsm. cbn [rbind fst snd].
        replace (Z.of_nat (length pre) + 1)
          with (Z.of_nat (length (pre ++ [backslash])))
          by (rewrite length_app; cbn; lia).
        rewrite (Hnext backslash (pre ++ [backslash]) (next :: suf') flag).
        -- cbn [existsb]. change (Byte.eqb backslash space) with false.
           reflexivity.
        -- now rewrite <- app_assoc.
        -- cbn [length] in *. lia.
        -- rewrite length_app. cbn. lia.
  - cbn [andb rbind]. cbn [windows_chars]. rewrite Ec.
    replace (Z.of_nat (length pre) + 1)
      with (Z.of_nat (length (pre ++ [c])))
      by (rewrite length_app; cbn; lia).
    destruct (Byte.eqb c slash) eqn:Es.
    + rewrite push_app by exact Hsm. cbn [rbind fst snd].
      rewrite (Hnext backslash (pre ++ [c]) suf flag).
      * cbn [existsb]. change (Byte.eqb backslash space) with false.
        reflexivity.
      * now rewrite <- app_assoc.
      * cbn [length] in Hn. lia.
      * rewrite length_app. cbn. lia.
    + rewrite push_app by exact Hsm. cbn [rbind fst snd].
      rewrite (Hnext c (pre ++ [c]) suf
                 (if Byte.eqb c space then true else flag)).
      * cbn [existsb]. destruct (Byte.eqb c space), flag; reflexivity.
      * now rewrite <- app_assoc.
      * cbn [length] in Hn. lia.
      * rewrite length_app. cbn. lia.
Qed.

Lemma length_windows_chars (n : nat) :
  forall bs : list byte,
  (length bs <= n)%nat -> (length (windows_chars bs) <= length bs)%nat.
Proof.
  induction n as [|n IH]; intros bs Hn.
  - destruct bs; [reflexivity | cbn in Hn; lia].
  - destruct bs as [|c bs]; [reflexivity|]. cbn [length] in Hn.
    cbn [windows_chars].
    destruct (Byte.eqb c backslash).
    + destruct bs as [|next bs']; [reflexivity|].
      destruct (Byte.eqb next space); cbn [length].
      * cbn [length] in Hn. specialize (IH bs' ltac:(lia)). lia.
      * specialize (IH (next :: bs') ltac:(lia)). cbn [length] in IH. lia.
    + destruct (Byte.eqb c slash); cbn [length];
        specialize (IH bs ltac:(lia)); lia.
Qed.

Lemma get_path_windows_chars (uninit : nat -> byte) (bs : list byte) :
  (length bs < 256)%nat ->
  fclib_system_get_path_windows uninit (str_of bs)
  = if existsb (fun c => Byte.eqb c space) (windows_chars bs)
       && (256 <=? Z.of_nat (length (windows_chars bs)) + 2)
    then Ok (str_of [])
    else Ok (str_of (windows_quoted (windows_chars bs))).
Proof.
  intros Hl. unfold fclib_system_get_path_windows, BUFFER_SIZE.
  cbn [str_of len].
  rewrite Z.geb_leb. destruct (Z.leb_spec 256 (Z.of_nat (length bs))); [lia|].
  pose proof (path_windows_loop_chars (length bs) bs [] []
                (indeterminate uninit 256) false eq_refl
                ltac:(reflexivity) Hl) as E.
  cbn [app length Nat.add orb] in E. change (Z.of_nat 0) with 0 in E.
  rewrite E by (rewrite length_indeterminate; reflexivity). clear E.
  cbn [rbind].
  pose proof (length_windows_chars (length bs) bs ltac:(lia)) as Hb.
  set (body := windows_chars bs) in *.
  set (junk := drop (length body) (indeterminate uninit 256)).
  assert (Hj : length junk = (256 - length body)%nat).
  { unfold junk. rewrite length_drop, length_indeterminate. lia. }
  assert (Hfit : forall n, 0 <= n < 256 -> sizeof_str + n + 1 < size_modulus).
  { intros n Hn256. unfold sizeof_str. rewrite size_modulus_eq. lia. }
  unfold windows_quoted. fold body.
  destruct (existsb (fun c => Byte.eqb c space) body); cbn [andb].
  2:{ apply str_init_chars; [apply Hfit; lia | apply mem_load_prefix]. }
  rewrite wadd_small by (rewrite size_modulus_eq; lia).
  rewrite Z.geb_leb.
  destruct (Z.leb_spec 256 (Z.of_nat (length body) + 2)) as [Hbig|Hsmall];
    [apply str_create_empty|].
  rewrite mem_load_prefix. cbn [lift_mem rbind].
  destruct junk as [|j0 junk']; [cbn [length] in Hj; lia|].
  destruct junk' as [|j1 junk'']; [cbn [length] in Hj; lia|].
  (* the characters move up by one *)
  assert (Hmove : exists b0 tail,
            body ++ j0 :: j1 :: junk'' = b0 :: tail ++ j1 :: junk''
            /\ length tail = length body).
  { destruct body as [|b0 body'].
    - exists j0, []. split; reflexivity.
    - exists b0, (body' ++ [j0]). split.
      + cbn [app]. now rewrite <- app_assoc.
      + rewrite length_app. cbn. lia. }
  destruct Hmove as (b0 & tail & Em & Ht). rewrite Em.
  rewrite (mem_store_at _ [b0] tail body (j1 :: junk'')) by (trivial; lia).
  cbn [lift_mem rbind].
  rewrite (mem_store_at _ [] [b0] [quote] (body ++ j1 :: junk''))
    by reflexivity.
  cbn [lift_mem rbind app].
  rewrite wadd_small by (rewrite size_modulus_eq; lia).
  rewrite (mem_store_at _ (quote :: body) [j1] [quote] junk'').
  - cbn [lift_mem rbind].
    apply str_init_chars; [apply Hfit; lia|].
    replace (Z.of_nat (length body) + 2)
      with (Z.of_nat (length (quote :: body ++ [quote])))
      by (cbn [length]; rewrite length_app; cbn; lia).
    replace ((quote :: body) ++ [quote] ++ junk'')
      with ((quote :: body ++ [quote]) ++ junk'')
      by (cbn [app]; now rewrite <- app_assoc).
    apply mem_load_prefix.
  - reflexivity.
  - cbn [length]. lia.
  - reflexivity.
Qed.

(** ** Paths without spaces *)

Lemma linux_chars_no_space (bs : list byte) :
  Forall (fun c => c <> space) bs ->
  linux_chars bs = map (fun c => if Byte.eqb c backslash then slash else c) bs.
Proof.
  induction 1 as [|c bs Hc Hbs IH]; [reflexivity|].
  cbn [linux_chars map]. rewrite IH. f_equal.
  destruct (Byte.eqb c backslash); [|reflexivity].
  destruct Hbs as [|next bs' Hn _]; [reflexivity|].
  destruct (Byte.eqb next space) eqn:En; [|reflexivity].
  apply byte_dec_bl in En. contradiction.
Qed.

Lemma windows_chars_no_space (bs : list byte) :
  Forall (fun c => c <> space) bs ->
  windows_chars bs = map (fun c => if Byte.eqb c slash then backslash else c) bs.
Proof.
  induction 1 as [|c bs Hc Hbs IH]; [reflexivity|].
  cbn [windows_chars map]. rewrite IH.
  destruct (Byte.eqb c backslash) eqn:Ec.
  - apply byte_dec_bl in Ec. subst c.
    change (Byte.eqb backslash slash) with false. cbv iota.
    destruct Hbs as [|next bs' Hn _]; [reflexivity|].
    destruct (Byte.eqb next space) eqn:En; [|reflexivity].
    apply byte_dec_bl in En. contradiction.
  - destruct (Byte.eqb c slash); reflexivity.
Qed.

Lemma windows_chars_keep_no_space (bs : list byte) :
  Forall (fun c => c <> space) bs ->
  Forall (fun c => c <> space) (windows_chars bs)
  /\ existsb (fun c => Byte.eqb c space) (windows_chars bs) = false.
Proof.
  intros H. rewrite windows_chars_no_space by exact H.
  induction H as [|c bs Hc _ (IH1 & IH2)]; [split; [constructor|reflexivity]|].
  cbn [map existsb]. rewrite IH2.
  destruct (Byte.eqb c slash) eqn:Es.
  - split; [constructor; [discriminate|exact IH1]|reflexivity].
  - split; [constructor; assumption|].
    destruct (Byte.eqb c space) eqn:E; [|reflexivity].
    apply byte_dec_bl in E. contradiction.
Qed.

Lemma linux_windows_no_space (bs : list byte) :
  Forall (fun c => c <> space) bs ->
  linux_chars (windows_chars bs) = linux_chars bs.
Proof.
  intros H. destruct (windows_chars_keep_no_space bs H) as (Hw & _).
  rewrite (linux_chars_no_space _ Hw), (linux_chars_no_space _ H).
  rewrite (windows_chars_no_space _ H), map_map. apply map_ext. intros c.
  destruct (Byte.eqb c slash) eqn:Es.
  - apply byte_dec_bl in Es. subst c. reflexivity.
  - reflexivity.
Qed.

Lemma windows_chars_no_slash (n : nat) :
  forall bs : list byte,
  (length bs <= n)%nat -> Forall (fun c => c <> slash) (windows_chars bs).
Proof.
  induction n as [|n IH]; intros bs Hn.
  - destruct bs; [constructor | cbn in Hn; lia].
  - destruct bs as [|c bs]; [constructor|]. cbn [length] in Hn.
    cbn [windows_chars].
    destruct (Byte.eqb c backslash) eqn:Ec.
    + apply byte_dec_bl in Ec. subst c.
      destruct bs as [|next bs']; [repeat constructor; discriminate|].
      destruct (Byte.eqb next space).
      * constructor; [discriminate|]. apply IH. cbn [length] in Hn. lia.
      * constructor; [discriminate|]. apply IH. lia.
    + destruct (Byte.eqb c slash) eqn:Es.
      * constructor; [discriminate|]. apply IH. lia.
      * constructor; [|apply IH; lia]. intros ->. discriminate Es.
Qed.

(** ** Properties of the paths *)

(** X20. For a path of fewer than 256 characters
    [fclib_system_get_path_linux] returns a new string of the same length
    in which every backslash has become a slash, except a backslash that a
    space follows; every backslash of the result is followed by a space, and
    a path without backslash comes back as it is. *)
Theorem path_linux_converts (uninit : nat -> byte) (bs : list byte) :
  (length bs < 256)%nat ->
  fclib_system_get_path_linux uninit (str_of bs) = Ok (str_of (linux_chars bs))
  /\ length (linux_chars bs) = length bs
  /\ (forall i, linux_chars bs !! i = Some backslash ->
                linux_chars bs !! S i = Some space)
  /\ (Forall (fun c => c <> backslash) bs -> linux_chars bs = bs).
Proof.
  intros Hl. split; [now apply get_path_linux_chars|].
  split; [apply length_linux_chars|].
  split; [apply linux_chars_backslash | apply linux_chars_plain].
Qed.

Lemma path_linux_converts_witness :
  (length [x61; x5c; x62; x5c; x20; x63] < 256)%nat
  /\ fclib_system_get_path_linux zeroed (str_of [x61; x5c; x62; x5c; x20; x63])
     = Ok (str_of (linux_chars [x61; x5c; x62; x5c; x20; x63]))
  /\ linux_chars [x61; x5c; x62; x5c; x20; x63]
     = [x61; x2f; x62; x5c; x20; x63].
Proof.
  assert (H : (length [x61; x5c; x62; x5c; x20; x63] < 256)%nat) by (cbn; lia).
  split; [exact H|]. split; [|reflexivity].
  exact (proj1 (path_linux_converts zeroed [x61; x5c; x62; x5c; x20; x63] H)).
Defined.

(** X21. [fclib_system_get_path_linux] is idempotent: converting its result
    once more returns the same string. *)
Theorem path_linux_idempotent (uninit : nat -> byte) (bs : list byte) :
  (length bs < 256)%nat ->
  exists out : list byte,
    fclib_system_get_path_linux uninit (str_of bs) = Ok (str_of out)
    /\ fclib_system_get_path_linux uninit (str_of out) = Ok (str_of out).
Proof.
  intros Hl. exists (linux_chars bs).
  split; [now apply get_path_linux_chars|].
  rewrite get_path_linux_chars by (now rewrite length_linux_chars).
  now rewrite linux_chars_idem.
Qed.

Lemma path_linux_idempotent_witness :
  (length [x61; x5c; x62; x5c; x20; x63] < 256)%nat
  /\ exists out : list byte,
       fclib_system_get_path_linux zeroed
         (str_of [x61; x5c; x62; x5c; x20; x63]) = Ok (str_of out)
       /\ fclib_system_get_path_linux zeroed (str_of out) = Ok (str_of out).
Proof.
  assert (H : (length [x61; x5c; x62; x5c; x20; x63] < 256)%nat) by (cbn; lia).
  split; [exact H|].
  exact (path_linux_idempotent zeroed [x61; x5c; x62; x5c; x20; x63] H).
Defined.

(** X22. For a path of fewer than 256 characters
    [fclib_system_get_path_windows] returns a new string in which a
    backslash and the space behind it have become the space and every slash
    a backslash; where the converted path holds a space it is put between
    double quotes, and where the quotes do not fit the buffer of 256 bytes
    the result is the empty string. *)
Theorem path_windows_converts (uninit : nat -> byte) (bs : list byte) :
  (length bs < 256)%nat ->
  let body := windows_chars bs in
  let has_space := existsb (fun c => Byte.eqb c space) body in
  (has_space = false ->
   fclib_system_get_path_windows uninit (str_of bs) = Ok (str_of body))
  /\ (has_space = true -> Z.of_nat (length body) + 2 < 256 ->
      fclib_system_get_path_windows uninit (str_of bs)
      = Ok (str_of ([quote] ++ body ++ [quote])))
  /\ (has_space = true -> 256 <= Z.of_nat (length body) + 2 ->
      fclib_system_get_path_windows uninit (str_of bs) = Ok (str_of []))
  /\ (length body <= length bs)%nat.
Proof.
  intros Hl body has_space.
  pose proof (get_path_windows_chars uninit bs Hl) as E.
  fold body in E. unfold windows_quoted in E. fold body has_space in E.
  split; [|split; [|split]].
  - intros H. rewrite H in E. exact E.
  - intros H Hfit. rewrite H in E. cbn [andb] in E.
    destruct (Z.leb_spec 256 (Z.of_nat (length body) + 2)); [lia|exact E].
  - intros H Hbig. rewrite H in E. cbn [andb] in E.
    destruct (Z.leb_spec 256 (Z.of_nat (length body) + 2)); [exact E|lia].
  - apply (length_windows_chars (length bs)). lia.
Qed.

Lemma path_windows_converts_witness :
  (length [x61; x2f; x62; x5c; x20; x63] < 256)%nat
  /\ existsb (fun c => Byte.eqb c space)
             (windows_chars [x61; x2f; x62; x5c; x20; x63]) = true
  /\ Z.of_nat (length (windows_chars [x61; x2f; x62; x5c; x20; x63])) + 2 < 256
  /\ fclib_system_get_path_windows zeroed
       (str_of [x61; x2f; x62; x5c; x20; x63])
     = Ok (str_of ([quote] ++ windows_chars [x61; x2f; x62; x5c; x20; x63]
                   ++ [quote]))
  /\ [quote] ++ windows_chars [x61; x2f; x62; x5c; x20; x63] ++ [quote]
     = [x22; x61; x5c; x62; x20; x63; x22].
Proof.
  assert (H : (length [x61; x2f; x62; x5c; x20; x63] < 256)%nat) by (cbn; lia).
  assert (Hs : existsb (fun c => Byte.eqb c space)
                 (windows_chars [x61; x2f; x62; x5c; x20; x63]) = true)
    by reflexivity.
  assert (Hf : Z.of_nat (length (windows_chars [x61; x2f; x62; x5c; x20; x63]))
               + 2 < 256) by reflexivity.
  split; [exact H|]. split; [exact Hs|]. split; [exact Hf|].
  split; [|reflexivity].
  destruct (path_windows_converts zeroed [x61; x2f; x62; x5c; x20; x63] H)
    as (_ & Hq & _).
  exact (Hq Hs Hf).
Defined.

(** X23. The string [fclib_system_get_path_windows] returns holds no
    slash. *)
Theorem path_windows_no_slash (uninit : nat -> byte) (bs : list byte) :
  exists out : list byte,
    fclib_system_get_path_windows uninit (str_of bs) = Ok (str_of out)
    /\ Forall (fun c => c <> slash) out.
Proof.
  destruct (Nat.lt_ge_cases (length bs) 256) as [Hl|Hl].
  - rewrite (get_path_windows_chars uninit bs Hl).
    pose proof (windows_chars_no_slash (length bs) bs ltac:(lia)) as Hns.
    destruct (_ && _).
    + exists []. split; [reflexivity | constructor].
    + eexists. split; [reflexivity|]. unfold windows_quoted.
      destruct (existsb _ _); [|exact Hns].
      cbn [app]. constructor; [discriminate|].
      apply Forall_app. split; [exact Hns|]. repeat constructor. discriminate.
  - exists []. split; [|constructor].
    apply (get_path_long uninit (str_of bs) false).
    unfold BUFFER_SIZE. cbn [str_of len]. lia.
Qed.

(** X24. A path of 256 characters or more is not converted: both
    conversions return the empty string, and nothing tells the caller. *)
Theorem path_too_long_is_empty (uninit : nat -> byte) (path : fclib_str_t)
    (is_linux : bool) :
  BUFFER_SIZE <= len path ->
  fclib_system_get_path uninit path is_linux = Ok (str_of [])
  /\ fclib_system_get_path_linux uninit path = Ok (str_of [])
  /\ fclib_system_get_path_windows uninit path = Ok (str_of []).
Proof.
  intros H. split; [now apply get_path_long|]. split.
  - apply (get_path_long uninit path true H).
  - apply (get_path_long uninit path false H).
Qed.

Lemma path_too_long_is_empty_witness :
  BUFFER_SIZE <= len (str_of (replicate 256 x61))
  /\ fclib_system_get_path zeroed (str_of (replicate 256 x61)) true
     = Ok (str_of [])
  /\ fclib_system_get_path_linux zeroed (str_of (replicate 256 x61))
     = Ok (str_of [])
  /\ fclib_system_get_path_windows zeroed (str_of (replicate 256 x61))
     = Ok (str_of []).
Proof.
  assert (H : BUFFER_SIZE <= len (str_of (replicate 256 x61)))
    by (vm_compute; discriminate).
  split; [exact H|].
  exact (path_too_long_is_empty zeroed (str_of (replicate 256 x61)) true H).
Defined.

(** X25. On a path without spaces the two conversions differ in the
    separator only: the Windows form of the path, converted to the Linux
    form, is the Linux form of the path. *)
Theorem path_windows_then_linux (uninit : nat -> byte) (bs : list byte) :
  (length bs < 256)%nat -> Forall (fun c => c <> space) bs ->
  exists w l : list byte,
    fclib_system_get_path_windows uninit (str_of bs) = Ok (str_of w)
    /\ fclib_system_get_path_linux uninit (str_of bs) = Ok (str_of l)
    /\ fclib_system_get_path_linux uninit (str_of w) = Ok (str_of l)
    /\ length w = length bs.
Proof.
  intros Hl Hns.
  destruct (windows_chars_keep_no_space bs Hns) as (Hw & Hex).
  assert (Hlw : length (windows_chars bs) = length bs).
  { rewrite (windows_chars_no_space _ Hns). apply length_map. }
  exists (windows_chars bs), (linux_chars bs).
  split.
  { rewrite (get_path_windows_chars uninit bs Hl). unfold windows_quoted.
    now rewrite Hex. }
  split; [now apply get_path_linux_chars|].
  split; [|exact Hlw].
  rewrite get_path_linux_chars by (rewrite Hlw; exact Hl).
  now rewrite linux_windows_no_space.
Qed.

Lemma path_windows_then_linux_witness :
  (length [x61; x2f; x62; x5c; x63] < 256)%nat
  /\ Forall (fun c => c <> space) [x61; x2f; x62; x5c; x63]
  /\ exists w l : list byte,
       fclib_system_get_path_windows zeroed (str_of [x61; x2f; x62; x5c; x63])
       = Ok (str_of w)
       /\ fclib_system_get_path_linux zeroed (str_of [x61; x2f; x62; x5c; x63])
          = Ok (str_of l)
       /\ fclib_system_get_path_linux zeroed (str_of w) = Ok (str_of l)
       /\ length w = length [x61; x2f; x62; x5c; x63].
Proof.
  assert (H : (length [x61; x2f; x62; x5c; x63] < 256)%nat) by (cbn; lia).
  assert (Hs : Forall (fun c => c <> space) [x61; x2f; x62; x5c; x63])
    by (repeat constructor; discriminate).
  split; [exact H|]. split; [exact Hs|].
  exact (path_windows_then_linux zeroed [x61; x2f; x62; x5c; x63] H Hs).
Defined.

(** * Arrays of pointers *)

(** ** Blocks of the heap *)

Lemma str_view_block_of (s : fclib_str_t) :
  is_size_t (len s) -> str_view (block_of s) = s.
Proof.
  intros H. unfold str_view, block_of. destruct s as [l v]. cbn [len value].
  rewrite take_app_length' by (now rewrite length_size_t_bytes).
  rewrite drop_app_length' by (now rewrite length_size_t_bytes).
  rewrite le_decode_size_t_bytes, wrap_small by exact H. reflexivity.
Qed.

Lemma length_block_of (s : fclib_str_t) :
  length (block_of s) = (8 + length (value s))%nat.
Proof. unfold block_of. now rewrite length_app, length_size_t_bytes. Qed.

Lemma insert_middle {A} (l1 : list A) (x y : A) (l2 : list A) :
  <[length l1 := y]> (l1 ++ x :: l2) = l1 ++ y :: l2.
Proof.
  rewrite insert_app_r_alt by lia. now rewrite Nat.sub_diag.
Qed.

Lemma block_at_middle (h1 h2 : heap) (b : list byte) :
  block_at (pointer_to (length h1)) (h1 ++ Some b :: h2) = Ok b.
Proof.
  unfold block_at, pointer_to.
  destruct (Z.leb_spec (Z.of_nat (length h1) + 1) 0); [lia|].
  replace (Z.to_nat (Z.of_nat (length h1) + 1 - 1)) with (length h1) by lia.
  now rewrite list_lookup_middle.
Qed.

Lemma set_block_middle (h1 h2 : heap) (x : option (list byte)) (b : list byte) :
  set_block (pointer_to (length h1)) b (h1 ++ x :: h2) = h1 ++ Some b :: h2.
Proof.
  unfold set_block, pointer_to.
  replace (Z.to_nat (Z.of_nat (length h1) + 1 - 1)) with (length h1) by lia.
  apply insert_middle.
Qed.

Lemma free_middle (h1 h2 : heap) (b : list byte) :
  free (pointer_to (length h1)) (h1 ++ Some b :: h2) = Ok (h1 ++ None :: h2).
Proof.
  unfold free. rewrite block_at_middle. cbn [rbind]. unfold pointer_to.
  destruct (Z.eqb_spec (Z.of_nat (length h1) + 1) 0); [lia|].
  replace (Z.to_nat (Z.of_nat (length h1) + 1 - 1)) with (length h1) by lia.
  now rewrite insert_middle.
Qed.

Lemma with_block_middle {A} (h1 h2 : heap) (s s' : fclib_str_t) (c : M A) (x : A) :
  is_size_t (len s) -> c s = Ok (x, s') ->
  with_block (pointer_to (length h1)) c (h1 ++ Some (block_of s) :: h2)
  = Ok (x, h1 ++ Some (block_of s') :: h2).
Proof.
  intros Hl Hc. unfold with_block. rewrite block_at_middle. cbn [rbind].
  rewrite length_block_of. unfold sizeof_str.
  destruct (Z.ltb_spec (Z.of_nat (8 + length (value s))) 8); [lia|].
  rewrite str_view_block_of by exact Hl. rewrite Hc.
  now rewrite set_block_middle.
Qed.

Lemma read_header_middle (h1 h2 : heap) (dims : list Z) (p : list byte) :
  Forall is_size_t dims -> product dims < size_modulus ->
  is_size_t (Z.of_nat (length dims)) ->
  read_header (pointer_to (length h1))
              (h1 ++ Some (block_of (array_of dims p)) :: h2)
  = Ok (Z.of_nat (length dims), product dims,
        h1 ++ Some (block_of (array_of dims p)) :: h2).
Proof.
  intros Hd Hq Hn. unfold read_header.
  rewrite (with_block_middle h1 h2 (array_of dims p) (array_of dims p) _
             (Z.of_nat (length dims), product dims)); [reflexivity|exact Hn|].
  rewrite (bind_ok get_len _ _ (array_of dims p) (Z.of_nat (length dims)))
    by reflexivity.
  rewrite (bind_ok _ _ _ _ _ (count_elements_array_of dims p Hd Hq)).
  reflexivity.
Qed.

(** ** The two loops over the slots *)

Lemma words_bytes_snoc (ws : list Z) (w : Z) :
  words_bytes (ws ++ [w]) = words_bytes ws ++ size_t_bytes w.
Proof.
  rewrite words_bytes_app. unfold words_bytes at 2. cbn [map concat].
  now rewrite app_nil_r.
Qed.

Lemma pointer_to_size_t (k : nat) :
  Z.of_nat k + 1 < size_modulus -> is_size_t (pointer_to k).
Proof. unfold is_size_t, pointer_to. lia. Qed.

Section DeepFill.

Variable uninit : nat -> byte.
Variables (h1 h2 : heap) (dims : list Z) (n : nat).
Variables (seed bs : list byte) (value_size : Z).
Hypothesis Hdims : Forall is_size_t dims.
Hypothesis Hn : product dims = Z.of_nat n.
Hypothesis Hroom :
  sizeof_str + sizeof_size_t * Z.of_nat (length dims)
  + sizeof_size_t * Z.of_nat n < size_modulus.
Hypothesis Hheap :
  Z.of_nat (length h1 + 1 + length h2 + n) + 1 < size_modulus.
Hypothesis Hvalue : mem_load seed 0 value_size = Some bs.

(** The pointers to the blocks the loop allocates. *)
Let fresh (i : nat) : list Z :=
  map pointer_to (seq (length h1 + 1 + length h2) i).

Let arr : Z := pointer_to (length h1).

Lemma length_fresh (i : nat) : length (fresh i) = i.
Proof. unfold fresh. now rewrite length_map, length_seq. Qed.

Lemma fresh_S (i : nat) :
  fresh (S i) = fresh i ++ [pointer_to (length h1 + 1 + length h2 + i)].
Proof. unfold fresh. now rewrite seq_S, map_app. Qed.

Lemma dims_size_t : is_size_t (Z.of_nat (length dims)).
Proof. unfold is_size_t, sizeof_str, sizeof_size_t in *. lia. Qed.

(** One round of the loop of [fclib_arr_fill_deep]. *)
Let body (i : Z) (h : heap) : res heap :=
  let element_ptr :=
    sizeof_size_t * Z.of_nat (length dims) + wmul i sizeof_size_t in
  let '(fresh, h) := malloc uninit value_size h in
  r <~ with_block arr (store element_ptr (size_t_bytes fresh)) h ;;
  r <~ with_block arr (bs <- load element_ptr sizeof_size_t ;;
                       ret (le_decode bs)) (snd r) ;;
  let '(element, h) := r in
  bs <~ lift_mem (mem_load seed 0 value_size) ;;
  b <~ block_at element h ;;
  b' <~ lift_mem (mem_store b 0 bs) ;;
  Ok (set_block element b' h).

(** The heap after [i] rounds, the slots behind holding [p]. *)
Let filled (i : nat) (p : list byte) : heap :=
  h1 ++ Some (block_of (array_of dims (words_bytes (fresh i) ++ p)))
     :: h2 ++ replicate i (Some bs).

Lemma fill_deep_step (i : nat) (p : list byte) :
  (i < n)%nat -> (8 <= length p)%nat ->
  body (Z.of_nat i) (filled i p) = Ok (filled (S i) (drop 8 p)).
Proof.
  intros Hi Hp.
  pose proof dims_size_t as Hnd.
  pose proof (mem_load_length _ _ _ _ Hvalue) as (Hlb & _).
  unfold sizeof_str, sizeof_size_t in *.
  unfold body, malloc, sizeof_size_t.
  assert (HlH : length (filled i p) = (length h1 + 1 + length h2 + i)%nat).
  { unfold filled. rewrite length_app. cbn [length].
    rewrite length_app, length_replicate. lia. }
  rewrite HlH.
  set (q := pointer_to (length h1 + 1 + length h2 + i)).
  assert (Hq : is_size_t q) by (apply pointer_to_size_t; lia).
  rewrite wmul_small by lia.
  (* the store of the pointer *)
  assert (Hstore :
    store (8 * Z.of_nat (length dims) + Z.of_nat i * 8) (size_t_bytes q)
          (array_of dims (words_bytes (fresh i) ++ p))
    = Ok (tt, array_of dims (words_bytes (fresh (S i)) ++ drop 8 p))).
  { rewrite (store_at _ (words_bytes dims ++ words_bytes (fresh i))
               (take 8 p) (size_t_bytes q) (drop 8 p)).
    - unfold array_of. cbn [len]. rewrite fresh_S, words_bytes_snoc.
      now rewrite <- !app_assoc.
    - cbn [array_of value]. now rewrite <- app_assoc, take_drop.
    - rewrite length_app, !length_words_bytes, length_fresh. lia.
    - rewrite length_size_t_bytes, length_take. lia. }
  unfold filled at 1. rewrite <- app_assoc. cbn [app].
  unfold arr.
  rewrite (with_block_middle h1 _
             (array_of dims (words_bytes (fresh i) ++ p))
             (array_of dims (words_bytes (fresh (S i)) ++ drop 8 p)) _ tt
             Hnd Hstore).
  cbn [rbind snd].
  (* the pointer read back *)
  rewrite (with_block_middle h1 _
             (array_of dims (words_bytes (fresh (S i)) ++ drop 8 p))
             (array_of dims (words_bytes (fresh (S i)) ++ drop 8 p)) _ q Hnd).
  2:{ rewrite (bind_ok _ _ _ (array_of dims (words_bytes (fresh (S i))
                                             ++ drop 8 p))
                 (size_t_bytes q)).
      - unfold ret. now rewrite le_decode_size_t_bytes, wrap_small.
      - apply (load_at _ (words_bytes dims ++ words_bytes (fresh i))
                 (size_t_bytes q) (drop 8 p)).
        + cbn [array_of value]. rewrite fresh_S, words_bytes_snoc.
          now rewrite <- !app_assoc.
        + rewrite length_app, !length_words_bytes, length_fresh. lia.
        + now rewrite length_size_t_bytes. }
  cbn [rbind]. rewrite Hvalue. cbn [lift_mem rbind].
  (* the copy into the new block *)
  set (A := Some (block_of (array_of dims (words_bytes (fresh (S i))
                                           ++ drop 8 p)))).
  replace (h1 ++ A :: (h2 ++ replicate i (Some bs))
           ++ [Some (indeterminate uninit value_size)])
    with ((h1 ++ A :: h2 ++ replicate i (Some bs))
          ++ Some (indeterminate uninit value_size) :: [])
    by (rewrite <- app_assoc; reflexivity).
  assert (Hlen : length (h1 ++ A :: h2 ++ replicate i (Some bs))
                 = (length h1 + 1 + length h2 + i)%nat).
  { rewrite length_app. cbn [length]. rewrite length_app, length_replicate.
    lia. }
  unfold q. rewrite <- Hlen.
  rewrite block_at_middle. cbn [rbind].
  rewrite mem_store_prefix by (rewrite length_indeterminate; lia).
  rewrite drop_ge by (rewrite length_indeterminate; lia).
  rewrite app_nil_r. cbn [lift_mem rbind]. rewrite set_block_middle.
  unfold filled, A. rewrite <- app_assoc. cbn [app]. rewrite <- app_assoc.
  do 4 f_equal.
  replace (S i) with (i + 1)%nat by lia. now rewrite replicate_add.
Qed.

Lemma fill_deep_loop (j : nat) :
  forall (i : nat) (p : list byte),
  (i + j = n)%nat -> length p = (8 * j)%nat ->
  heap_loop j (Z.of_nat i) body (filled i p) = Ok (filled (i + j) []).
Proof.
  induction j as [|j IH]; intros i p Hij Hp.
  - destruct p; [|discriminate]. cbn [heap_loop]. now rewrite Nat.add_0_r.
  - cbn [heap_loop]. rewrite fill_deep_step by lia. cbn [rbind].
    replace (Z.of_nat i + 1) with (Z.of_nat (S i)) by lia.
    rewrite (IH (S i) (drop 8 p)).
    + now replace (S i + j)%nat with (i + S j)%nat by lia.
    + lia.
    + rewrite length_drop. lia.
Qed.

Lemma fill_deep_filled (p : list byte) :
  length p = (8 * n)%nat ->
  fclib_arr_fill_deep uninit arr value_size seed
    (h1 ++ Some (block_of (array_of dims p)) :: h2)
  = Ok (h1 ++ Some (block_of (array_of dims (words_bytes (fresh n))))
           :: h2 ++ replicate n (Some bs)).
Proof.
  intros Hp. unfold fclib_arr_fill_deep, arr.
  rewrite read_header_middle;
    [|exact Hdims|rewrite Hn; unfold sizeof_str, sizeof_size_t in *; lia
     |exact dims_size_t].
  cbn [rbind]. rewrite Hn, Nat2Z.id.
  pose proof (fill_deep_loop n 0 p eq_refl Hp) as E.
  unfold filled in E. cbn [fresh seq map words_bytes concat app replicate] in E.
  rewrite app_nil_r in E. rewrite app_nil_r in E.
  exact E.
Qed.

(** One round of the second loop of [fclib_arr_free], the elements being
    freed as blocks (the next complexity is 0). *)
Let free_body (i : Z) (h : heap) : res heap :=
  r <~ with_block arr
         (bs <- load (sizeof_size_t * Z.of_nat (length dims)
                      + wmul i sizeof_size_t) sizeof_size_t ;;
          ret (le_decode bs)) h ;;
  arr_free 0 (fst r) (snd r).

(** The heap once the blocks of the first [i] slots are freed. *)
Let freed (i : nat) : heap :=
  h1 ++ Some (block_of (array_of dims (words_bytes (fresh n))))
     :: h2 ++ replicate i None ++ replicate (n - i) (Some bs).

Lemma fresh_lookup (i : nat) :
  (i < n)%nat ->
  fresh n !! i = Some (pointer_to (length h1 + 1 + length h2 + i)).
Proof.
  intros Hi. unfold fresh. rewrite list_lookup_fmap, lookup_seq_lt by exact Hi.
  reflexivity.
Qed.

Lemma free_step (i : nat) :
  (i < n)%nat -> free_body (Z.of_nat i) (freed i) = Ok (freed (S i)).
Proof.
  intros Hi. pose proof dims_size_t as Hnd.
  unfold sizeof_str, sizeof_size_t in *.
  unfold free_body, sizeof_size_t, arr, freed.
  set (q := pointer_to (length h1 + 1 + length h2 + i)).
  assert (Hq : is_size_t q) by (apply pointer_to_size_t; lia).
  rewrite wmul_small by lia.
  rewrite (with_block_middle h1 _
             (array_of dims (words_bytes (fresh n)))
             (array_of dims (words_bytes (fresh n))) _ q Hnd).
  2:{ rewrite (bind_ok _ _ _ (array_of dims (words_bytes (fresh n)))
                 (size_t_bytes q)).
      - unfold ret. now rewrite le_decode_size_t_bytes, wrap_small.
      - apply (load_at _ (words_bytes dims ++ words_bytes (take i (fresh n)))
                 (size_t_bytes q) (words_bytes (drop (S i) (fresh n)))).
        + cbn [array_of value].
          rewrite (words_bytes_lookup (fresh n) i q (fresh_lookup i Hi)) at 1.
          now rewrite <- !app_assoc.
        + rewrite length_app, !length_words_bytes, length_take, length_fresh.
          lia.
        + now rewrite length_size_t_bytes. }
  cbn [rbind fst snd arr_free].
  set (A := Some (block_of (array_of dims (words_bytes (fresh n))))).
  replace (n - i)%nat with (S (n - S i)) by lia. cbn [replicate].
  replace (h1 ++ A :: h2 ++ replicate i None
           ++ Some bs :: replicate (n - S i) (Some bs))
    with ((h1 ++ A :: h2 ++ replicate i None)
          ++ Some bs :: replicate (n - S i) (Some bs))
    by (rewrite <- app_assoc; cbn [app]; now rewrite <- app_assoc).
  assert (Hlen : length (h1 ++ A :: h2 ++ replicate i (@None (list byte)))
                 = (length h1 + 1 + length h2 + i)%nat).
  { rewrite length_app. cbn [length]. rewrite length_app, length_replicate.
    lia. }
  unfold q. rewrite <- Hlen, free_middle.
  rewrite <- app_assoc. cbn [app]. rewrite <- app_assoc.
  change (None :: replicate i None ++ replicate (n - S i) (Some bs))
    with ((None :: replicate i None) ++ replicate (n - S i) (Some bs)).
  rewrite replicate_cons_app, <- app_assoc. reflexivity.
Qed.

Lemma free_loop (j : nat) :
  forall i : nat,
  (i + j = n)%nat ->
  heap_loop j (Z.of_nat i) free_body (freed i) = Ok (freed (i + j)).
Proof.
  induction j as [|j IH]; intros i Hij.
  - cbn [heap_loop]. now rewrite Nat.add_0_r.
  - cbn [heap_loop]. rewrite free_step by lia. cbn [rbind].
    replace (Z.of_nat i + 1) with (Z.of_nat (S i)) by lia.
    rewrite (IH (S i)) by lia.
    now replace (S i + j)%nat with (i + S j)%nat by lia.
Qed.

Lemma free_filled :
  fclib_arr_free arr 1
    (h1 ++ Some (block_of (array_of dims (words_bytes (fresh n))))
        :: h2 ++ replicate n (Some bs))
  = Ok (h1 ++ None :: h2 ++ replicate n None).
Proof.
  unfold fclib_arr_free. change (Z.to_nat 1) with 1%nat. cbn [arr_free].
  unfold arr.
  rewrite read_header_middle;
    [|exact Hdims|rewrite Hn; unfold sizeof_str, sizeof_size_t in *; lia
     |exact dims_size_t].
  cbn [rbind]. unfold free_fields. rewrite Hn, Nat2Z.id.
  pose proof (free_loop n 0 eq_refl) as E.
  unfold freed, free_body, arr in E.
  rewrite Nat.sub_0_r, Nat.sub_diag in E. cbn [replicate app Nat.add] in E.
  rewrite app_nil_r in E.
  change (Z.of_nat 0) with 0 in E. cbn [arr_free] in E. rewrite E. cbn [rbind].
  apply free_middle.
Qed.

(** Freed with complexity 0, the array goes and its elements stay. *)
Lemma free_array_only :
  fclib_arr_free arr 0
    (h1 ++ Some (block_of (array_of dims (words_bytes (fresh n))))
        :: h2 ++ replicate n (Some bs))
  = Ok (h1 ++ None :: h2 ++ replicate n (Some bs)).
Proof.
  unfold fclib_arr_free. change (Z.to_nat 0) with 0%nat. cbn [arr_free].
  apply free_middle.
Qed.

End DeepFill.

(** ** Deep fill and free *)

Lemma heap_split (h : heap) (a : nat) (b : list byte) :
  h !! a = Some (Some b) ->
  h = take a h ++ Some b :: drop (S a) h
  /\ length (take a h) = a
  /\ (length (take a h) + 1 + length (drop (S a) h))%nat = length h
  /\ forall x, <[a := x]> h = take a h ++ x :: drop (S a) h.
Proof.
  intros H. pose proof (lookup_lt_Some _ _ _ H) as Hlt.
  split; [now rewrite take_drop_middle|].
  split; [rewrite length_take; lia|].
  split; [rewrite length_take, length_drop; lia|].
  intros x. now apply insert_take_drop.
Qed.

(** X26. On an array of [n] slots of 8 bytes [fclib_arr_fill_deep]
    allocates [n] new blocks, one per slot, copies the first [value_size]
    bytes of the value into each, and stores the pointer to the block of
    slot [i] in slot [i]: no two slots share a block.  The header of the
    array and every other block of the heap stay as they were; what the
    slots pointed to before is not freed. *)
Theorem fill_deep_allocates (uninit : nat -> byte) (h : heap) (a : nat)
    (dims : list Z) (p seed bs : list byte) (value_size : Z) :
  h !! a = Some (Some (block_of (array_of dims p))) ->
  Forall is_size_t dims -> valid_arr sizeof_size_t (array_of dims p) ->
  Z.of_nat (length h) + product dims + 1 < size_modulus ->
  mem_load seed 0 value_size = Some bs ->
  let n := Z.to_nat (product dims) in
  fclib_arr_fill_deep uninit (pointer_to a) value_size seed h
  = Ok (<[a := Some (block_of
                       (array_of dims
                          (words_bytes (map pointer_to (seq (length h) n)))))]> h
        ++ replicate n (Some bs))
  /\ NoDup (map pointer_to (seq (length h) n)).
Proof.
  intros Ha Hd Hv Hh Hseed n.
  destruct Hv as (_ & _ & Hlen & Hq & Hb).
  rewrite shape_array_of in * by exact Hd.
  pose proof (product_nonneg _ Hd) as Hp0.
  unfold payload_start, array_of, sizeof_str, sizeof_size_t in Hlen, Hb.
  cbn [len value] in Hlen, Hb. rewrite length_app, length_words_bytes in Hlen, Hb.
  destruct (heap_split h a _ Ha) as (Eh & Hl1 & Hl2 & Hins).
  set (h1 := take a h) in *. set (h2 := drop (S a) h) in *.
  split.
  - rewrite Hins, <- app_assoc. cbn [app]. rewrite <- Hl2.
    replace (pointer_to a) with (pointer_to (length h1)) by (now rewrite Hl1).
    rewrite Eh.
    apply (fill_deep_filled uninit h1 h2 dims n seed bs value_size); trivial;
      unfold n, sizeof_str, sizeof_size_t; try lia.
  - apply NoDup_fmap_2; [|apply NoDup_seq].
    intros x y. unfold pointer_to. lia.
Qed.

Lemma fill_deep_allocates_witness :
  let h := [Some (block_of (array_of [3] (replicate 24 x00)))] in
  h !! 0%nat = Some (Some (block_of (array_of [3] (replicate 24 x00))))
  /\ Forall is_size_t [3]
  /\ valid_arr sizeof_size_t (array_of [3] (replicate 24 x00))
  /\ Z.of_nat (length h) + product [3] + 1 < size_modulus
  /\ mem_load [xaa; xbb; xcc] 0 2 = Some [xaa; xbb]
  /\ fclib_arr_fill_deep zeroed (pointer_to 0) 2 [xaa; xbb; xcc] h
     = Ok (<[0%nat := Some (block_of
                               (array_of [3]
                                  (words_bytes
                                     (map pointer_to
                                        (seq (length h)
                                             (Z.to_nat (product [3])))))))]> h
           ++ replicate (Z.to_nat (product [3])) (Some [xaa; xbb]))
  /\ NoDup (map pointer_to (seq (length h) (Z.to_nat (product [3])))).
Proof.
  intros h.
  assert (Ha : h !! 0%nat
               = Some (Some (block_of (array_of [3] (replicate 24 x00)))))
    by reflexivity.
  assert (Hd : Forall is_size_t [3]) by solve_sizes.
  assert (Hv : valid_arr sizeof_size_t (array_of [3] (replicate 24 x00))).
  { apply array_of_valid; try exact Hd; try reflexivity.
    unfold sizeof_size_t. solve_size_t. }
  assert (Hh : Z.of_nat (length h) + product [3] + 1 < size_modulus)
    by reflexivity.
  assert (Hs : mem_load [xaa; xbb; xcc] 0 2 = Some [xaa; xbb]) by reflexivity.
  split; [exact Ha|]. split; [exact Hd|]. split; [exact Hv|].
  split; [exact Hh|]. split; [exact Hs|].
  exact (fill_deep_allocates zeroed h 0 [3] (replicate 24 x00) [xaa; xbb; xcc]
           [xaa; xbb] 2 Ha Hd Hv Hh Hs).
Defined.

(** X27. [fclib_arr_free] with complexity 1 on an array that
    [fclib_arr_fill_deep] has filled frees the block of every slot and then
    the array: all the blocks the fill allocated are released, and the
    other blocks of the heap are untouched.  With complexity 0 the array
    alone is freed and the blocks of its slots stay allocated. *)
Theorem free_after_fill_deep (uninit : nat -> byte) (h : heap) (a : nat)
    (dims : list Z) (p seed bs : list byte) (value_size : Z) :
  h !! a = Some (Some (block_of (array_of dims p))) ->
  Forall is_size_t dims -> valid_arr sizeof_size_t (array_of dims p) ->
  Z.of_nat (length h) + product dims + 1 < size_modulus ->
  mem_load seed 0 value_size = Some bs ->
  let n := Z.to_nat (product dims) in
  (h' <~ fclib_arr_fill_deep uninit (pointer_to a) value_size seed h ;;
   fclib_arr_free (pointer_to a) 1 h')
  = Ok (<[a := None]> h ++ replicate n None)
  /\ (h' <~ fclib_arr_fill_deep uninit (pointer_to a) value_size seed h ;;
      fclib_arr_free (pointer_to a) 0 h')
     = Ok (<[a := None]> h ++ replicate n (Some bs)).
Proof.
  intros Ha Hd Hv Hh Hseed n.
  destruct Hv as (_ & _ & Hlen & Hq & Hb).
  rewrite shape_array_of in * by exact Hd.
  pose proof (product_nonneg _ Hd) as Hp0.
  unfold payload_start, array_of, sizeof_str, sizeof_size_t in Hlen, Hb.
  cbn [len value] in Hlen, Hb. rewrite length_app, length_words_bytes in Hlen, Hb.
  destruct (heap_split h a _ Ha) as (Eh & Hl1 & Hl2 & Hins).
  set (h1 := take a h) in *. set (h2 := drop (S a) h) in *.
  replace (pointer_to a) with (pointer_to (length h1)) by (now rewrite Hl1).
  assert (Hfill :
    fclib_arr_fill_deep uninit (pointer_to (length h1)) value_size seed h
    = Ok (h1
          ++ Some (block_of
                     (array_of dims
                        (words_bytes
                           (map pointer_to
                              (seq (length h1 + 1 + length h2) n)))))
          :: h2 ++ replicate n (Some bs))).
  { rewrite Eh.
    apply (fill_deep_filled uninit h1 h2 dims n seed bs value_size); trivial;
      unfold n, sizeof_str, sizeof_size_t; try lia. }
  rewrite Hfill. cbn [rbind]. rewrite !Hins, <- !app_assoc. cbn [app].
  split.
  - apply (free_filled h1 h2 dims n bs); trivial;
      unfold n, sizeof_str, sizeof_size_t; lia.
  - apply (free_array_only h1 h2 dims n bs).
Qed.

Lemma free_after_fill_deep_witness :
  let h := [Some (block_of (array_of [3] (replicate 24 x00)))] in
  h !! 0%nat = Some (Some (block_of (array_of [3] (replicate 24 x00))))
  /\ Forall is_size_t [3]
  /\ valid_arr sizeof_size_t (array_of [3] (replicate 24 x00))
  /\ Z.of_nat (length h) + product [3] + 1 < size_modulus
  /\ mem_load [xaa; xbb; xcc] 0 2 = Some [xaa; xbb]
  /\ (h' <~ fclib_arr_fill_deep zeroed (pointer_to 0) 2 [xaa; xbb; xcc] h ;;
      fclib_arr_free (pointer_to 0) 1 h')
     = Ok (<[0%nat := None]> h ++ replicate (Z.to_nat (product [3])) None)
  /\ (h' <~ fclib_arr_fill_deep zeroed (pointer_to 0) 2 [xaa; xbb; xcc] h ;;
      fclib_arr_free (pointer_to 0) 0 h')
     = Ok (<[0%nat := None]> h
           ++ replicate (Z.to_nat (product [3])) (Some [xaa; xbb])).
Proof.
  intros h.
  assert (Ha : h !! 0%nat
               = Some (Some (block_of (array_of [3] (replicate 24 x00)))))
    by reflexivity.
  assert (Hd : Forall is_size_t [3]) by solve_sizes.
  assert (Hv : valid_arr sizeof_size_t (array_of [3] (replicate 24 x00))).
  { apply array_of_valid; try exact Hd; try reflexivity.
    unfold sizeof_size_t. solve_size_t. }
  assert (Hh : Z.of_nat (length h) + product [3] + 1 < size_modulus)
    by reflexivity.
  assert (Hs : mem_load [xaa; xbb; xcc] 0 2 = Some [xaa; xbb]) by reflexivity.
  split; [exact Ha|]. split; [exact Hd|]. split; [exact Hv|].
  split; [exact Hh|]. split; [exact Hs|].
  exact (free_after_fill_deep zeroed h 0 [3] (replicate 24 x00)
           [xaa; xbb; xcc] [xaa; xbb] 2 Ha Hd Hv Hh Hs).
Defined.

(** ** Slots that share a block *)

Lemma with_block_lookup {A} (h : heap) (a : nat) (s s' : fclib_str_t)
    (c : M A) (x : A) :
  h !! a = Some (Some (block_of s)) -> is_size_t (len s) ->
  c s = Ok (x, s') ->
  with_block (pointer_to a) c h = Ok (x, <[a := Some (block_of s')]> h).
Proof.
  intros Ha Hl Hc. destruct (heap_split h a _ Ha) as (Eh & Hl1 & _ & Hins).
  rewrite Hins. rewrite Eh at 1. rewrite <- Hl1 at 1.
  now apply with_block_middle.
Qed.

Lemma free_lookup (h : heap) (k : nat) (b : list byte) :
  h !! k = Some (Some b) -> free (pointer_to k) h = Ok (<[k := None]> h).
Proof.
  intros Hk. destruct (heap_split h k _ Hk) as (Eh & Hl1 & _ & Hins).
  rewrite Hins. rewrite Eh at 1. rewrite <- Hl1 at 1. apply free_middle.
Qed.

Lemma free_freed (h : heap) (k : nat) :
  h !! k = Some None -> free (pointer_to k) h = Fault.
Proof.
  intros Hk. unfold free, block_at, pointer_to.
  destruct (Z.eqb_spec (Z.of_nat k + 1) 0); [lia|].
  destruct (Z.leb_spec (Z.of_nat k + 1) 0); [lia|].
  replace (Z.to_nat (Z.of_nat k + 1 - 1)) with k by lia.
  now rewrite Hk.
Qed.

(** X28. [fclib_arr_free] with complexity 1 frees the block of every slot,
    one after the other, without looking for slots that share a block: on
    an array of two or more slots that all hold the pointer to one block,
    as [fclib_arr_fill_seq] leaves them when the seed is a pointer, the
    second round frees a block that is freed already. *)
Theorem free_shared_block_twice (h : heap) (a k : nat) (dims : list Z)
    (b : list byte) :
  let q := size_t_bytes (pointer_to k) in
  let n := Z.to_nat (product dims) in
  h !! a = Some (Some (block_of (array_of dims (rep n q)))) ->
  h !! k = Some (Some b) -> k <> a ->
  Forall is_size_t dims -> 2 <= product dims ->
  valid_arr sizeof_size_t (array_of dims (rep n q)) ->
  Z.of_nat (length h) + 1 < size_modulus ->
  fclib_arr_free (pointer_to a) 1 h = Fault.
Proof.
  intros q n Ha Hk Hne Hd H2 Hv Hh.
  destruct Hv as (_ & _ & Hlen & Hq & Hb).
  rewrite shape_array_of in * by exact Hd.
  unfold payload_start, array_of, sizeof_str, sizeof_size_t in Hlen, Hb.
  cbn [len value] in Hlen, Hb. rewrite length_app, length_words_bytes in Hlen, Hb.
  pose proof (lookup_lt_Some _ _ _ Hk) as Hkl.
  assert (Hpk : is_size_t (pointer_to k)) by (apply pointer_to_size_t; lia).
  assert (Hnd : is_size_t (Z.of_nat (length dims)))
    by (unfold is_size_t; lia).
  set (s := array_of dims (rep n q)) in *.
  (* reading slot [i] of the array *)
  assert (Hfield : forall i, 0 <= i < product dims ->
    (bs <- load (sizeof_size_t * Z.of_nat (length dims)
                 + wmul i sizeof_size_t) sizeof_size_t ;;
     ret (le_decode bs)) s = Ok (pointer_to k, s)).
  { intros i Hi. unfold sizeof_size_t. rewrite wmul_small by lia.
    rewrite (bind_ok _ _ _ s q).
    - unfold ret, q. now rewrite le_decode_size_t_bytes, wrap_small.
    - change 8 with (1 * 8) at 3.
      change (8 * Z.of_nat (length dims))
        with (sizeof_size_t * Z.of_nat (length dims)).
      unfold s. rewrite load_slots; try lia.
      rewrite slots_rep; [reflexivity| |lia].
      unfold q. now rewrite length_size_t_bytes. }
  unfold fclib_arr_free. change (Z.to_nat 1) with 1%nat. cbn [arr_free].
  unfold read_header.
  rewrite (with_block_lookup h a s s _ (Z.of_nat (length dims), product dims)
             Ha Hnd).
  2:{ rewrite (bind_ok get_len _ _ s (Z.of_nat (length dims))) by reflexivity.
      unfold s. rewrite (bind_ok _ _ _ _ _ (count_elements_array_of dims _ Hd Hq)).
      reflexivity. }
  cbn [rbind fst snd]. rewrite list_insert_id by exact Ha.
  unfold free_fields. fold n.
  destruct n as [|[|n']] eqn:En; [lia|lia|].
  cbn [heap_loop].
  (* the first round frees the block *)
  rewrite (with_block_lookup h a s s _ (pointer_to k) Ha Hnd)
    by (apply Hfield; lia).
  cbn [rbind fst snd]. rewrite list_insert_id by exact Ha.
  rewrite (free_lookup h k b Hk). cbn [rbind].
  (* the second round frees it again *)
  assert (Ha' : <[k := None]> h !! a = Some (Some (block_of s)))
    by (now rewrite list_lookup_insert_ne).
  rewrite (with_block_lookup _ a s s _ (pointer_to k) Ha' Hnd)
    by (apply Hfield; lia).
  cbn [rbind fst snd]. rewrite list_insert_id by exact Ha'.
  rewrite free_freed; [reflexivity|].
  apply list_lookup_insert_eq. exact Hkl.
Qed.

Lemma free_shared_block_twice_witness :
  let h := [Some (block_of
                    (array_of [2]
                       (rep (Z.to_nat (product [2]))
                            (size_t_bytes (pointer_to 1)))));
            Some [xaa; xbb]] in
  h !! 0%nat
  = Some (Some (block_of
                  (array_of [2]
                     (rep (Z.to_nat (product [2]))
                          (size_t_bytes (pointer_to 1))))))
  /\ h !! 1%nat = Some (Some [xaa; xbb]) /\ 1%nat <> 0%nat
  /\ Forall is_size_t [2] /\ 2 <= product [2]
  /\ valid_arr sizeof_size_t
       (array_of [2]
          (rep (Z.to_nat (product [2])) (size_t_bytes (pointer_to 1))))
  /\ Z.of_nat (length h) + 1 < size_modulus
  /\ fclib_arr_free (pointer_to 0) 1 h = Fault.
Proof.
  intros h.
  assert (Ha : h !! 0%nat
               = Some (Some (block_of
                               (array_of [2]
                                  (rep (Z.to_nat (product [2]))
                                       (size_t_bytes (pointer_to 1)))))))
    by reflexivity.
  assert (Hk : h !! 1%nat = Some (Some [xaa; xbb])) by reflexivity.
  assert (Hne : 1%nat <> 0%nat) by lia.
  assert (Hd : Forall is_size_t [2]) by solve_sizes.
  assert (H2 : 2 <= product [2]) by (vm_compute; discriminate).
  assert (Hv : valid_arr sizeof_size_t
                 (array_of [2]
                    (rep (Z.to_nat (product [2]))
                         (size_t_bytes (pointer_to 1))))).
  { apply array_of_valid; try exact Hd; try reflexivity.
    unfold sizeof_size_t. solve_size_t. }
  assert (Hh : Z.of_nat (length h) + 1 < size_modulus) by reflexivity.
  split; [exact Ha|]. split; [exact Hk|]. split; [exact Hne|].
  split; [exact Hd|]. split; [exact H2|]. split; [exact Hv|].
  split; [exact Hh|].
  exact (free_shared_block_twice h 0 1 [2] [xaa; xbb] Ha Hk Hne Hd H2 Hv Hh).
Defined.

(** * Slices that keep the layout *)

(** The general slice enumerates the kept axes behind axis 0 from the last
    one down.  With at most one such axis that order is the order of the
    layout, and the result holds each element where its index says. *)

Lemma is_range_fixed (r : Z * Z) : fst r = snd r -> is_range r = false.
Proof. unfold is_range. intros ->. now rewrite Z.eqb_refl. Qed.

Lemma range_lengths_fixed (l : list (Z * Z)) :
  Forall (fun r => fst r = snd r) l -> range_lengths l = [].
Proof.
  induction 1 as [|r l Hr _ IH]; [reflexivity|].
  now rewrite range_lengths_cons, (is_range_fixed r Hr).
Qed.

Lemma fixed_in_ranges (l : list (Z * Z)) :
  Forall (fun r => fst r = snd r) l -> indices_in_ranges l (map fst l).
Proof.
  induction 1 as [|r l Hr _ IH]; [constructor|].
  constructor; [|exact IH]. unfold index_in_range.
  now rewrite (is_range_fixed r Hr).
Qed.

Lemma chunk_rank_fixed (sd : nat) (pairs : list (Z * Z)) (cur : list Z) (k : nat) :
  (forall i r, (sd <= i < k)%nat -> pairs !! i = Some r -> is_range r = false) ->
  chunk_rank k sd pairs cur = 0.
Proof.
  induction k as [|i IH]; intros H; [reflexivity|].
  cbn [chunk_rank]. destruct (Nat.ltb_spec i sd); [reflexivity|].
  destruct (pairs !! i) as [r|] eqn:Er; [|reflexivity].
  destruct (cur !! i) as [c|]; [|reflexivity].
  rewrite (H i r ltac:(lia) Er). apply IH.
  intros j r' Hj. apply H. lia.
Qed.

Lemma chunk_rank_one (sd : nat) (pairs : list (Z * Z)) (cur : list Z)
    (m : nat) (rm : Z * Z) (cm : Z) (k : nat) :
  (sd <= m < k)%nat -> (k <= length pairs)%nat -> length cur = length pairs ->
  pairs !! m = Some rm -> is_range rm = true -> cur !! m = Some cm ->
  (forall i r, (sd <= i < k)%nat -> i <> m -> pairs !! i = Some r ->
               is_range r = false) ->
  chunk_rank k sd pairs cur = cm - fst rm.
Proof.
  intros Hm Hk Hl Hrm Hr Hcm. induction k as [|i IH]; intros H; [lia|].
  cbn [chunk_rank]. destruct (Nat.ltb_spec i sd); [lia|].
  destruct (Nat.eq_dec i m) as [->|Hne].
  - rewrite Hrm, Hcm, Hr. rewrite chunk_rank_fixed; [lia|].
    intros j r Hj. apply H; lia.
  - destruct (pairs !! i) as [r|] eqn:Er; [|apply lookup_ge_None in Er].
    + destruct (cur !! i) as [c|] eqn:Ec.
      * rewrite (H i r ltac:(lia) Hne Er). apply IH; [lia|lia|].
        intros j r' Hj. apply H. lia.
      * apply lookup_ge_None in Ec. apply lookup_lt_Some in Er. lia.
    + lia.
Qed.

(** X29. A slice that keeps axis 0 and fixes every other axis is the run of
    the source it names: for ranges that satisfy the rules,
    [fclib_arr_get_slice] returns a one-dimensional array of [to - from]
    elements whose element [k] is the element of the source at index
    [from + k] of axis 0 and the fixed index of every other axis. *)
Theorem slice_axis0_run (uninit : nat -> byte) (element_size : Z)
    (src : fclib_str_t) (r0 : Z * Z) (fixed : list (Z * Z)) :
  valid_arr element_size src -> ranges_selected (shape src) (r0 :: fixed) ->
  is_range r0 = true -> Forall (fun r => fst r = snd r) fixed ->
  exists result : fclib_str_t,
    fclib_arr_get_slice uninit element_size (flat_ranges (r0 :: fixed)) src
    = Ok (Some result, src)
    /\ shape result = [snd r0 - fst r0]
    /\ forall k, 0 <= k < snd r0 - fst r0 ->
         slots element_size (payload result) k 1
         = slots element_size (payload src)
                 (flat_offset (shape src) (fst r0 + k :: map fst fixed)) 1.
Proof.
  intros Hv Hsel Hr0 Hfix.
  destruct (valid_view _ _ Hv) as (dims & p & -> & Hs & Hp & Hd & Hl & Hq & Hes & Hb).
  rewrite Hs, Hp in *.
  pose proof (ranges_selected_bounds _ _ Hd Hsel) as Hbd.
  inversion Hbd as [|? ? Hb0 _]; subst.
  assert (Hw : fst r0 < snd r0).
  { unfold is_range in Hr0. destruct (Z.eqb_spec (fst r0) (snd r0));
      [discriminate|lia]. }
  assert (Hk : 1 <= count_ranges (r0 :: fixed)).
  { unfold count_ranges. cbn [List.filter]. rewrite Hr0. cbn [length]. lia. }
  assert (Hrl : range_lengths (r0 :: fixed) = [snd r0 - fst r0]).
  { rewrite range_lengths_cons, Hr0, range_lengths_fixed by exact Hfix.
    now rewrite wsub_small by lia. }
  exists (array_of (range_lengths (r0 :: fixed))
            (sliced_payload element_size dims p (r0 :: fixed))).
  split; [apply get_slice_selected; trivial; lia|].
  rewrite payload_array_of.
  split.
  { rewrite shape_array_of; [exact Hrl|]. rewrite Hrl.
    repeat constructor; lia. }
  intros k Hkr.
  assert (Hin : indices_in_ranges (r0 :: fixed) (fst r0 + k :: map fst fixed)).
  { constructor; [|now apply fixed_in_ranges].
    unfold index_in_range. rewrite Hr0. lia. }
  destruct (slice_element_place element_size dims p (r0 :: fixed)
              Hd Hes Hl Hsel _ Hin) as (_ & E).
  rewrite <- E. f_equal.
  unfold slice_position, slice_start_dim, slice_chunk_size, first_is_range.
  rewrite Hr0. rewrite chunk_rank_fixed; [lia|].
  intros i r Hi Hri. destruct i as [|i]; [lia|]. cbn in Hri.
  rewrite List.Forall_forall in Hfix. apply is_range_fixed, Hfix.
  eapply list_elem_of_In, list_elem_of_lookup_2, Hri.
Qed.

Lemma sample_4x4_column_selected :
  ranges_selected (shape sample_4x4) [(0, 4); (1, 1)].
Proof.
  change (shape sample_4x4) with [4; 4]. unfold ranges_selected, axis_selected.
  repeat constructor; cbn; lia.
Defined.

Lemma slice_axis0_run_witness :
  valid_arr 1 sample_4x4
  /\ ranges_selected (shape sample_4x4) ((0, 4) :: [(1, 1)])
  /\ is_range (0, 4) = true /\ Forall (fun r => fst r = snd r) [(1, 1)]
  /\ exists result : fclib_str_t,
       fclib_arr_get_slice zeroed 1 (flat_ranges ((0, 4) :: [(1, 1)])) sample_4x4
       = Ok (Some result, sample_4x4)
       /\ shape result = [snd (0, 4) - fst (0, 4)]
       /\ forall k, 0 <= k < snd (0, 4) - fst (0, 4) ->
            slots 1 (payload result) k 1
            = slots 1 (payload sample_4x4)
                    (flat_offset (shape sample_4x4)
                                 (fst (0, 4) + k :: map fst [(1, 1)])) 1.
Proof.
  assert (Hr : is_range (0, 4) = true) by reflexivity.
  assert (Hf : Forall (fun r : Z * Z => fst r = snd r) [(1, 1)])
    by (repeat constructor).
  split; [exact sample_4x4_valid|]. split; [exact sample_4x4_column_selected|].
  split; [exact Hr|]. split; [exact Hf|].
  exact (slice_axis0_run zeroed 1 sample_4x4 (0, 4) [(1, 1)] sample_4x4_valid
           sample_4x4_column_selected Hr Hf).
Defined.

(** X30. A slice that keeps one axis behind axis 0, axis 0 itself kept or
    fixed, holds each element where its index says: the element of the
    result at the index vector made of the offsets into the kept ranges is
    the element of the source at the index vector within the ranges.  The
    order of the layout is lost only where two or more axes behind axis 0
    are kept. *)
Theorem slice_second_axis_layout (uninit : nat -> byte) (element_size : Z)
    (src : fclib_str_t) (r0 rm : Z * Z) (fixed1 fixed2 : list (Z * Z)) :
  valid_arr element_size src ->
  ranges_selected (shape src) (r0 :: fixed1 ++ rm :: fixed2) ->
  is_range rm = true ->
  Forall (fun r => fst r = snd r) fixed1 ->
  Forall (fun r => fst r = snd r) fixed2 ->
  exists result : fclib_str_t,
    fclib_arr_get_slice uninit element_size
      (flat_ranges (r0 :: fixed1 ++ rm :: fixed2)) src
    = Ok (Some result, src)
    /\ shape result
       = (if is_range r0 then [snd r0 - fst r0] else []) ++ [snd rm - fst rm]
    /\ forall c0 cm : Z,
         index_in_range c0 r0 -> fst rm <= cm < snd rm ->
         slots element_size (payload result)
               (flat_offset (shape result)
                  ((if is_range r0 then [c0 - fst r0] else [])
                   ++ [cm - fst rm])) 1
         = slots element_size (payload src)
                 (flat_offset (shape src)
                    (c0 :: map fst fixed1 ++ cm :: map fst fixed2)) 1.
Proof.
  intros Hv Hsel Hrm Hf1 Hf2.
  destruct (valid_view _ _ Hv) as (dims & p & -> & Hs & Hp & Hd & Hl & Hq & Hes & Hb).
  rewrite Hs, Hp in *.
  set (pairs := r0 :: fixed1 ++ rm :: fixed2) in *.
  pose proof (ranges_selected_bounds _ _ Hd Hsel) as Hbd.
  assert (Hb0 : 0 <= fst r0 /\ fst r0 <= snd r0 < size_modulus).
  { rewrite List.Forall_forall in Hbd. apply Hbd. now left. }
  assert (Hbm : 0 <= fst rm /\ fst rm <= snd rm < size_modulus).
  { rewrite List.Forall_forall in Hbd. apply Hbd. right.
    apply in_or_app. right. now left. }
  assert (Hk : 1 <= count_ranges pairs).
  { unfold count_ranges, pairs. cbn [List.filter].
    pose proof (List.filter_length_le is_range fixed1).
    destruct (is_range r0); cbn [length];
      rewrite List.filter_app, length_app; cbn [List.filter]; rewrite Hrm;
      cbn [length]; lia. }
  assert (Hrl : range_lengths pairs
                = (if is_range r0 then [snd r0 - fst r0] else [])
                  ++ [snd rm - fst rm]).
  { unfold pairs. rewrite range_lengths_cons, range_lengths_app.
    rewrite (range_lengths_fixed fixed1 Hf1), range_lengths_cons, Hrm.
    rewrite (range_lengths_fixed fixed2 Hf2). cbn [app].
    rewrite (wsub_small (snd rm)) by lia.
    destruct (is_range r0); [|reflexivity].
    now rewrite wsub_small by lia. }
  destruct (range_lengths_selected dims pairs Hd Hsel) as (Hrs & _).
  exists (array_of (range_lengths pairs)
            (sliced_payload element_size dims p pairs)).
  split; [apply get_slice_selected; trivial; lia|].
  rewrite payload_array_of, shape_array_of by exact Hrs.
  split; [exact Hrl|].
  intros c0 cm Hc0 Hcm.
  set (cur := c0 :: map fst fixed1 ++ cm :: map fst fixed2).
  assert (Hin : indices_in_ranges pairs cur).
  { constructor; [exact Hc0|].
    apply Forall2_app; [now apply fixed_in_ranges|].
    constructor; [|now apply fixed_in_ranges].
    unfold index_in_range. now rewrite Hrm. }
  destruct (slice_element_place element_size dims p pairs Hd Hes Hl Hsel _ Hin)
    as (_ & E).
  rewrite <- E. f_equal.
  (* the rank of the vector in the enumeration *)
  assert (Hrank : chunk_rank (length pairs) (slice_start_dim pairs) pairs cur
                  = cm - fst rm).
  { apply (chunk_rank_one _ pairs cur (S (length fixed1)) rm cm).
    - unfold pairs, slice_start_dim, first_is_range.
      cbn [length]. rewrite length_app. cbn [length].
      destruct (is_range r0); lia.
    - lia.
    - unfold cur, pairs. cbn [length].
      rewrite !length_app. cbn [length]. now rewrite !length_map.
    - unfold pairs. cbn [lookup list_lookup]. now apply list_lookup_middle.
    - exact Hrm.
    - unfold cur. cbn [lookup list_lookup]. apply list_lookup_middle.
      now rewrite length_map.
    - intros i r Hi Hne Hri. destruct i as [|i].
      + unfold pairs in Hri. cbn in Hri. injection Hri as <-.
        unfold slice_start_dim, first_is_range, pairs in Hi.
        destruct (is_range r0); [lia | reflexivity].
      + unfold pairs in Hri.
        change ((fixed1 ++ rm :: fixed2) !! i = Some r) in Hri.
        apply is_range_fixed.
        destruct (Nat.lt_ge_cases i (length fixed1)) as [Hlt|Hge].
        * rewrite lookup_app_l in Hri by exact Hlt.
          rewrite List.Forall_forall in Hf1. apply Hf1.
          eapply list_elem_of_In, list_elem_of_lookup_2, Hri.
        * rewrite lookup_app_r in Hri by exact Hge.
          destruct (i - length fixed1)%nat as [|j] eqn:Ej; [lia|].
          change (fixed2 !! j = Some r) in Hri.
          rewrite List.Forall_forall in Hf2. apply Hf2.
          eapply list_elem_of_In, list_elem_of_lookup_2, Hri. }
  unfold slice_position. rewrite Hrank, Hrl.
  unfold slice_chunk_size, pairs, cur. unfold index_in_range in Hc0.
  destruct (is_range r0); cbn [app].
  - rewrite flat_offset_cons, flat_offset_1d. lia.
  - rewrite flat_offset_1d. lia.
Qed.

Lemma sample_4x4_row_selected :
  ranges_selected (shape sample_4x4) ((2, 2) :: [] ++ (0, 4) :: []).
Proof.
  change (shape sample_4x4) with [4; 4]. unfold ranges_selected, axis_selected.
  repeat constructor; cbn; lia.
Defined.

Lemma slice_second_axis_layout_witness :
  valid_arr 1 sample_4x4
  /\ ranges_selected (shape sample_4x4) ((2, 2) :: [] ++ (0, 4) :: [])
  /\ is_range (0, 4) = true
  /\ Forall (fun r : Z * Z => fst r = snd r) []
  /\ exists result : fclib_str_t,
       fclib_arr_get_slice zeroed 1
         (flat_ranges ((2, 2) :: [] ++ (0, 4) :: [])) sample_4x4
       = Ok (Some result, sample_4x4)
       /\ shape result
          = (if is_range (2, 2) then [snd (2, 2) - fst (2, 2)] else [])
            ++ [snd (0, 4) - fst (0, 4)]
       /\ forall c0 cm : Z,
            index_in_range c0 (2, 2) -> fst (0, 4) <= cm < snd (0, 4) ->
            slots 1 (payload result)
                  (flat_offset (shape result)
                     ((if is_range (2, 2) then [c0 - fst (2, 2)] else [])
                      ++ [cm - fst (0, 4)])) 1
            = slots 1 (payload sample_4x4)
                    (flat_offset (shape sample_4x4)
                          (c0 :: map fst (@nil (Z * Z))
                        ++ cm :: map fst (@nil (Z * Z)))) 1.
Proof.
  assert (Hr : is_range (0, 4) = true) by reflexivity.
  assert (Hf : Forall (fun r : Z * Z => fst r = snd r) []) by constructor.
  split; [exact sample_4x4_valid|]. split; [exact sample_4x4_row_selected|].
  split; [exact Hr|]. split; [exact Hf|].
  exact (slice_second_axis_layout zeroed 1 sample_4x4 (2, 2) (0, 4) [] []
           sample_4x4_valid sample_4x4_row_selected Hr Hf Hf).
Defined.
